(** * casacore table engine: a shallow embedding of the storage and view code

    The development follows the C++ sources:
    - [RefTable]   : tables/Tables/RefTable.cc   (row-map set algebra, load, construction)
    - [ISMBucket]  : tables/DataMan/ISMBucket.cc (bucket index, write/read, split)
    - [StIndArray] : tables/DataMan/StIndArray.cc (indirect array cells)
    - [TaQLNodeDer]: tables/TaQL/TaQLNodeDer.cc  (syntax-tree save/restore)

    Machine integers are modelled as [Z] with the wrap-around written out;
    C++ arrays ([Block], [Vector], raw pointers) are lists read with
    [l !! i] and written with [<[i:=x]> l], where an access outside the
    allocated range is an error ([None]) in the model. *)

From Stdlib Require Import ZArith Lia Bool Sorted.
From stdpp Require Import base option list numbers strings sorting.

#[local] Open Scope Z_scope.

(** ** Machine integers *)

(** [uInt] is a 32-bit and [rownr_t] a 64-bit unsigned integer. *)
Definition wrap32 (z : Z) : Z := z mod 2^32.
Definition wrap64 (z : Z) : Z := z mod 2^64.

Definition is_uInt (z : Z) : Prop := 0 <= z < 2^32.
Definition is_rownr (z : Z) : Prop := 0 <= z < 2^64.

(** [std::numeric_limits<rownr_t>::max()] *)
Definition rownr_max : Z := 2^64 - 1.

(** A strictly ascending sequence of row numbers. *)
Definition ascending (l : list Z) : Prop := StronglySorted Z.lt l.

Module RefTable.

(** The part of a [RefTable] object the set operations work on:
    the vector of root row numbers, the number of rows in use and the
    changed flag. *)
Record state : Type := mkState {
  rowStorage_p : list Z;
  nrrow_p : Z;
  changed_p : bool
}.

(** A table as [makeRefTable (False, 0)] creates it: no rows yet. *)
Definition fresh : state :=
  {| rowStorage_p := []; nrrow_p := 0; changed_p := true |}.

(** [rowStorage_p.resize (allrow)]: new storage, contents not kept. *)
Definition resize (t : state) (allrow : Z) : state :=
  {| rowStorage_p := replicate (Z.to_nat allrow) 0;
     nrrow_p := nrrow_p t;
     changed_p := changed_p t |}.

(** [rows[nrrow_p++] = row] *)
Definition store (t : state) (row : Z) : option state :=
  if decide (0 <= nrrow_p t < Z.of_nat (length (rowStorage_p t)))
  then Some {| rowStorage_p := <[Z.to_nat (nrrow_p t) := row]> (rowStorage_p t);
               nrrow_p := nrrow_p t + 1;
               changed_p := changed_p t |}
  else None.

Definition set_changed (t : state) : state :=
  {| rowStorage_p := rowStorage_p t; nrrow_p := nrrow_p t; changed_p := true |}.

(** The rows a table holds: the first [nrrow_p] entries of its storage. *)
Definition rows (t : state) : list Z :=
  take (Z.to_nat (nrrow_p t)) (rowStorage_p t).

(** Next element of an index array, or the end marker. *)
Definition next (nr : Z) (inx : list Z) (i : Z) : option Z :=
  if decide (nr <= i) then Some rownr_max else inx !! Z.to_nat i.

(** The [while (True)] loop of [refAnd]; every iteration advances [i1] or
    [i2], so [nr1 + nr2 + 1] iterations suffice. *)
Fixpoint refAnd_loop (fuel : nat) (nr1 : Z) (inx1 : list Z) (nr2 : Z) (inx2 : list Z)
    (i1 i2 : Z) (t : state) : option state :=
  match fuel with
  | O => None
  | S fuel =>
      row1 ← next nr1 inx1 i1;
      row2 ← next nr2 inx2 i2;
      if decide (row1 = row2) then
        if decide (row1 = rownr_max) then Some t
        else t' ← store t row1;
             refAnd_loop fuel nr1 inx1 nr2 inx2 (i1 + 1) (i2 + 1) t'
      else if decide (row1 < row2)
        then refAnd_loop fuel nr1 inx1 nr2 inx2 (i1 + 1) i2 t
        else refAnd_loop fuel nr1 inx1 nr2 inx2 i1 (i2 + 1) t
  end.

Definition refAnd (nr1 : Z) (inx1 : list Z) (nr2 : Z) (inx2 : list Z)
    (t : state) : option state :=
  let allrow := if decide (nr1 < nr2) then nr1 else nr2 in
  t' ← refAnd_loop (S (Z.to_nat nr1 + Z.to_nat nr2)) nr1 inx1 nr2 inx2 0 0
         (resize t allrow);
  Some (set_changed t').

Fixpoint refOr_loop (fuel : nat) (nr1 : Z) (inx1 : list Z) (nr2 : Z) (inx2 : list Z)
    (i1 i2 : Z) (t : state) : option state :=
  match fuel with
  | O => None
  | S fuel =>
      row1 ← next nr1 inx1 i1;
      row2 ← next nr2 inx2 i2;
      if decide (row1 = row2) then
        if decide (row1 = rownr_max) then Some t
        else t' ← store t row1;
             refOr_loop fuel nr1 inx1 nr2 inx2 (i1 + 1) (i2 + 1) t'
      else if decide (row1 < row2)
        then t' ← store t row1;
             refOr_loop fuel nr1 inx1 nr2 inx2 (i1 + 1) i2 t'
        else t' ← store t row2;
             refOr_loop fuel nr1 inx1 nr2 inx2 i1 (i2 + 1) t'
  end.

Definition refOr (nr1 : Z) (inx1 : list Z) (nr2 : Z) (inx2 : list Z)
    (t : state) : option state :=
  let allrow := wrap64 (nr1 + nr2) in
  t' ← refOr_loop (S (Z.to_nat nr1 + Z.to_nat nr2)) nr1 inx1 nr2 inx2 0 0
         (resize t allrow);
  Some (set_changed t').

Fixpoint refSub_loop (fuel : nat) (nr1 : Z) (inx1 : list Z) (nr2 : Z) (inx2 : list Z)
    (i1 i2 : Z) (t : state) : option state :=
  match fuel with
  | O => None
  | S fuel =>
      row1 ← next nr1 inx1 i1;
      row2 ← next nr2 inx2 i2;
      if decide (row1 = row2) then
        if decide (row1 = rownr_max) then Some t
        else refSub_loop fuel nr1 inx1 nr2 inx2 (i1 + 1) (i2 + 1) t
      else if decide (row1 < row2)
        then t' ← store t row1;
             refSub_loop fuel nr1 inx1 nr2 inx2 (i1 + 1) i2 t'
        else refSub_loop fuel nr1 inx1 nr2 inx2 i1 (i2 + 1) t
  end.

Definition refSub (nr1 : Z) (inx1 : list Z) (nr2 : Z) (inx2 : list Z)
    (t : state) : option state :=
  let allrow := nr1 in
  t' ← refSub_loop (S (Z.to_nat nr1 + Z.to_nat nr2)) nr1 inx1 nr2 inx2 0 0
         (resize t allrow);
  Some (set_changed t').

Fixpoint refXor_loop (fuel : nat) (nr1 : Z) (inx1 : list Z) (nr2 : Z) (inx2 : list Z)
    (i1 i2 : Z) (t : state) : option state :=
  match fuel with
  | O => None
  | S fuel =>
      row1 ← next nr1 inx1 i1;
      row2 ← next nr2 inx2 i2;
      if decide (row1 = row2) then
        if decide (row1 = rownr_max) then Some t
        else refXor_loop fuel nr1 inx1 nr2 inx2 (i1 + 1) (i2 + 1) t
      else if decide (row1 < row2)
        then t' ← store t row1;
             refXor_loop fuel nr1 inx1 nr2 inx2 (i1 + 1) i2 t'
        else t' ← store t row2;
             refXor_loop fuel nr1 inx1 nr2 inx2 i1 (i2 + 1) t'
  end.

Definition refXor (nr1 : Z) (inx1 : list Z) (nr2 : Z) (inx2 : list Z)
    (t : state) : option state :=
  let allrow := wrap64 (nr1 + nr2) in
  t' ← refXor_loop (S (Z.to_nat nr1 + Z.to_nat nr2)) nr1 inx1 nr2 inx2 0 0
         (resize t allrow);
  Some (set_changed t').

(** [for (j=start; j<stop; j++) rows[nrrow_p++] = j;] *)
Definition store_range (start stop : Z) (t : state) : option state :=
  foldl (fun ot j => t ← ot; store t j) (Some t) (seqZ start (stop - start)).

(** The outer loop of [refNot]: [for (i=0; i<nr; i++)], with [n] the
    number of iterations still to do. *)
Fixpoint refNot_loop (n : nat) (inx : list Z) (i start : Z) (t : state)
    : option (Z * state) :=
  match n with
  | O => Some (start, t)
  | S n =>
      x ← inx !! Z.to_nat i;
      t' ← store_range start x t;
      refNot_loop n inx (i + 1) (wrap64 (x + 1)) t'
  end.

Definition refNot (nr : Z) (inx : list Z) (nrtot : Z) (t : state) : option state :=
  let allrow := wrap64 (nrtot - nr) in
  '(start, t1) ← refNot_loop (Z.to_nat nr) inx 0 0 (resize t allrow);
  t2 ← store_range start nrtot t1;
  Some (set_changed t2).

(** *** Specification-level definitions *)

(** Output of one merge step: [x] when the operation keeps the row. *)
Definition emit (c : bool) (x : Z) : list Z := if c then [x] else [].

(** The merge of two sequences that keeps a row found in both when [e],
    only in the first when [l], only in the second when [g]. *)
Fixpoint merge_sel (e l g : bool) (A : list Z) : list Z -> list Z :=
  fix go (B : list Z) : list Z :=
    match A, B with
    | [], [] => []
    | a :: A', [] => emit l a ++ merge_sel e l g A' []
    | [], b :: B' => emit g b ++ go B'
    | a :: A', b :: B' =>
        if decide (a = b) then emit e a ++ merge_sel e l g A' B'
        else if decide (a < b) then emit l a ++ merge_sel e l g A' B
        else emit g b ++ go B'
    end.

(** The four loops of [RefTable.cc] differ only in which branches store. *)
Definition store_if (c : bool) (t : state) (row : Z) : option state :=
  if c then store t row else Some t.

Fixpoint merge_loop (e l g : bool) (fuel : nat) (nr1 : Z) (inx1 : list Z)
    (nr2 : Z) (inx2 : list Z) (i1 i2 : Z) (t : state) : option state :=
  match fuel with
  | O => None
  | S fuel =>
      row1 ← next nr1 inx1 i1;
      row2 ← next nr2 inx2 i2;
      if decide (row1 = row2) then
        if decide (row1 = rownr_max) then Some t
        else t' ← store_if e t row1;
             merge_loop e l g fuel nr1 inx1 nr2 inx2 (i1 + 1) (i2 + 1) t'
      else if decide (row1 < row2)
        then t' ← store_if l t row1;
             merge_loop e l g fuel nr1 inx1 nr2 inx2 (i1 + 1) i2 t'
        else t' ← store_if g t row2;
             merge_loop e l g fuel nr1 inx1 nr2 inx2 i1 (i2 + 1) t'
  end.

(** The complement of an ascending sequence, from [start] up to [total]. *)
Fixpoint not_from (start : Z) (A : list Z) (total : Z) : list Z :=
  match A with
  | [] => seqZ start (total - start)
  | a :: A' => seqZ start (a - start) ++ not_from (a + 1) A' total
  end.

(** Ascending row numbers of a table with [N] rows. *)
Definition valid_rows (N : Z) (l : list Z) : Prop :=
  ascending l /\ Forall (fun x => 0 <= x < N) l.

Definition len (l : list Z) : Z := Z.of_nat (length l).

(** The rows an operation leaves in the table. *)
Definition result (o : option state) : option (list Z) := rows <$> o.

(** *** The loops compute the merges *)

Ltac loop_eq :=
  let fuel := fresh "fuel" in let IH := fresh "IH" in
  intros fuel; induction fuel as [|fuel IH]; intros; simpl; [reflexivity|];
  repeat (match goal with
          | |- context [next ?a ?b ?c] => destruct (next a b c); simpl; [|reflexivity]
          | |- context [decide ?P] => destruct (decide P); simpl
          | |- context [store ?t ?r] => destruct (store t r); simpl
          end); try reflexivity; apply IH.

Lemma refAnd_loop_merge : forall fuel nr1 inx1 nr2 inx2 i1 i2 t,
  refAnd_loop fuel nr1 inx1 nr2 inx2 i1 i2 t
  = merge_loop true false false fuel nr1 inx1 nr2 inx2 i1 i2 t.
Proof. loop_eq. Qed.

Lemma refOr_loop_merge : forall fuel nr1 inx1 nr2 inx2 i1 i2 t,
  refOr_loop fuel nr1 inx1 nr2 inx2 i1 i2 t
  = merge_loop true true true fuel nr1 inx1 nr2 inx2 i1 i2 t.
Proof. loop_eq. Qed.

Lemma refSub_loop_merge : forall fuel nr1 inx1 nr2 inx2 i1 i2 t,
  refSub_loop fuel nr1 inx1 nr2 inx2 i1 i2 t
  = merge_loop false true false fuel nr1 inx1 nr2 inx2 i1 i2 t.
Proof. loop_eq. Qed.

Lemma refXor_loop_merge : forall fuel nr1 inx1 nr2 inx2 i1 i2 t,
  refXor_loop fuel nr1 inx1 nr2 inx2 i1 i2 t
  = merge_loop false true true fuel nr1 inx1 nr2 inx2 i1 i2 t.
Proof. loop_eq. Qed.

(** What a successful [store] does to the rows of the table. *)
Lemma store_rows t x :
  0 <= nrrow_p t < Z.of_nat (length (rowStorage_p t)) ->
  exists t', store t x = Some t' /\ rows t' = rows t ++ [x]
     /\ nrrow_p t' = nrrow_p t + 1
     /\ length (rowStorage_p t') = length (rowStorage_p t)
     /\ changed_p t' = changed_p t.
Proof.
  intros H. unfold store. destruct (decide _) as [_|n]; [|contradiction].
  eexists; split; [reflexivity|]. unfold rows; simpl.
  repeat split.
  - replace (Z.to_nat (nrrow_p t + 1)) with (S (Z.to_nat (nrrow_p t))) by lia.
    erewrite take_S_r.
    + rewrite take_insert_ge by lia. reflexivity.
    + apply list_lookup_insert_eq. lia.
  - apply length_insert.
Qed.

Lemma store_if_rows c t x :
  0 <= nrrow_p t ->
  nrrow_p t + Z.of_nat (length (emit c x)) <= Z.of_nat (length (rowStorage_p t)) ->
  exists t', store_if c t x = Some t' /\ rows t' = rows t ++ emit c x
     /\ nrrow_p t' = nrrow_p t + Z.of_nat (length (emit c x))
     /\ length (rowStorage_p t') = length (rowStorage_p t)
     /\ changed_p t' = changed_p t.
Proof.
  intros H0 H. destruct c; simpl in *.
  - destruct (store_rows t x) as (t' & ? & ? & ? & ? & ?); [lia|].
    exists t'. repeat split; auto.
  - exists t. rewrite app_nil_r. repeat split; auto. lia.
Qed.

Lemma next_inside (A : list Z) (i : nat) a :
  A !! i = Some a -> next (Z.of_nat (length A)) A (Z.of_nat i) = Some a.
Proof.
  intros H. unfold next. pose proof (lookup_lt_Some _ _ _ H).
  destruct (decide _); [lia|]. by rewrite Nat2Z.id.
Qed.

Lemma next_end (A : list Z) (i : nat) :
  A !! i = None -> next (Z.of_nat (length A)) A (Z.of_nat i) = Some rownr_max.
Proof.
  intros H. unfold next. apply lookup_ge_None in H.
  destruct (decide _); [done|lia].
Qed.

Lemma drop_lookup_cons (A : list Z) (i : nat) a :
  A !! i = Some a -> drop i A = a :: drop (S i) A.
Proof. intros H. by rewrite (drop_S _ _ _ H). Qed.

Lemma drop_lookup_nil (A : list Z) (i : nat) :
  A !! i = None -> drop i A = [].
Proof. intros H. apply drop_ge. by apply lookup_ge_None. Qed.

Lemma merge_loop_spec e l g : forall fuel (A B : list Z) (i1 i2 : nat) t,
  Forall (fun x => x < rownr_max) A -> Forall (fun x => x < rownr_max) B ->
  (i1 <= length A)%nat -> (i2 <= length B)%nat ->
  (length A - i1 + (length B - i2) < fuel)%nat ->
  0 <= nrrow_p t ->
  nrrow_p t + Z.of_nat (length (merge_sel e l g (drop i1 A) (drop i2 B)))
    <= Z.of_nat (length (rowStorage_p t)) ->
  exists t',
    merge_loop e l g fuel (Z.of_nat (length A)) A (Z.of_nat (length B)) B
      (Z.of_nat i1) (Z.of_nat i2) t = Some t'
    /\ rows t' = rows t ++ merge_sel e l g (drop i1 A) (drop i2 B)
    /\ nrrow_p t' = nrrow_p t
         + Z.of_nat (length (merge_sel e l g (drop i1 A) (drop i2 B)))
    /\ length (rowStorage_p t') = length (rowStorage_p t)
    /\ changed_p t' = changed_p t.
Proof.
  induction fuel as [|fuel IH]; intros A B i1 i2 t HA HB Hi1 Hi2 Hfuel Hn0 Hcap; [lia|].
  cbn [merge_loop].
  destruct (A !! i1) as [a|] eqn:Ea; destruct (B !! i2) as [b|] eqn:Eb.
  - (* both arrays have a next element *)
    rewrite (next_inside _ _ _ Ea), (next_inside _ _ _ Eb). cbn [mbind option_bind].
    pose proof (lookup_lt_Some _ _ _ Ea). pose proof (lookup_lt_Some _ _ _ Eb).
    assert (a < rownr_max) by (eapply (Forall_lookup_1 _ _ _ _ HA); eauto).
    rewrite (drop_lookup_cons _ _ _ Ea), (drop_lookup_cons _ _ _ Eb) in Hcap |- *.
    cbn [merge_sel] in Hcap |- *.
    destruct (decide (a = b)) as [->|Hne].
    + destruct (decide (b = rownr_max)); [lia|].
      rewrite length_app in Hcap.
      destruct (store_if_rows e t b) as (t1 & -> & R1 & N1 & L1 & C1); [lia|lia|].
      cbn [mbind option_bind].
      replace (Z.of_nat i1 + 1) with (Z.of_nat (S i1)) by lia.
      replace (Z.of_nat i2 + 1) with (Z.of_nat (S i2)) by lia.
      destruct (IH A B (S i1) (S i2) t1) as (t' & -> & R & N & L & C); auto; try lia.
      exists t'. rewrite R, R1, N, N1, L, L1, C, C1, length_app, <- app_assoc.
      repeat split; auto; lia.
    + destruct (decide (a < b)).
      * rewrite length_app in Hcap.
        destruct (store_if_rows l t a) as (t1 & -> & R1 & N1 & L1 & C1); [lia|lia|].
        cbn [mbind option_bind].
        replace (Z.of_nat i1 + 1) with (Z.of_nat (S i1)) by lia.
        rewrite <- (drop_lookup_cons _ _ _ Eb) in Hcap |- *.
        destruct (IH A B (S i1) i2 t1) as (t' & -> & R & N & L & C); auto; try lia.
        exists t'. rewrite R, R1, N, N1, L, L1, C, C1, length_app, <- app_assoc.
        repeat split; auto; lia.
      * rewrite length_app in Hcap.
        destruct (store_if_rows g t b) as (t1 & -> & R1 & N1 & L1 & C1); [lia|lia|].
        cbn [mbind option_bind].
        replace (Z.of_nat i2 + 1) with (Z.of_nat (S i2)) by lia.
        change ((fix go (B0 : list Z) : list Z :=
                   match B0 with
                   | [] => emit l a ++ merge_sel e l g (drop (S i1) A) []
                   | b0 :: B' =>
                       if decide (a = b0) then emit e a ++ merge_sel e l g (drop (S i1) A) B'
                       else if decide (a < b0) then emit l a ++ merge_sel e l g (drop (S i1) A) B0
                       else emit g b0 ++ go B'
                   end) (drop (S i2) B))
          with (merge_sel e l g (a :: drop (S i1) A) (drop (S i2) B)) in Hcap |- *.
        rewrite <- (drop_lookup_cons _ _ _ Ea) in Hcap |- *.
        destruct (IH A B i1 (S i2) t1) as (t' & -> & R & N & L & C); auto; try lia.
        exists t'. rewrite R, R1, N, N1, L, L1, C, C1, length_app, <- app_assoc.
        repeat split; auto; lia.
  - (* second array exhausted *)
    rewrite (next_inside _ _ _ Ea), (next_end _ _ Eb). cbn [mbind option_bind].
    pose proof (lookup_lt_Some _ _ _ Ea).
    assert (a < rownr_max) by (eapply (Forall_lookup_1 _ _ _ _ HA); eauto).
    rewrite (drop_lookup_cons _ _ _ Ea), (drop_lookup_nil _ _ Eb) in Hcap |- *.
    cbn [merge_sel] in Hcap |- *.
    destruct (decide (a = rownr_max)); [lia|]. destruct (decide (a < rownr_max)); [|lia].
    rewrite length_app in Hcap.
    destruct (store_if_rows l t a) as (t1 & -> & R1 & N1 & L1 & C1); [lia|lia|].
    cbn [mbind option_bind].
    replace (Z.of_nat i1 + 1) with (Z.of_nat (S i1)) by lia.
    rewrite <- (drop_lookup_nil _ _ Eb) in Hcap |- *.
    destruct (IH A B (S i1) i2 t1) as (t' & -> & R & N & L & C); auto; try lia.
    exists t'. rewrite R, R1, N, N1, L, L1, C, C1, length_app, <- app_assoc.
    repeat split; auto; lia.
  - (* first array exhausted *)
    rewrite (next_end _ _ Ea), (next_inside _ _ _ Eb). cbn [mbind option_bind].
    pose proof (lookup_lt_Some _ _ _ Eb).
    assert (b < rownr_max) by (eapply (Forall_lookup_1 _ _ _ _ HB); eauto).
    rewrite (drop_lookup_nil _ _ Ea), (drop_lookup_cons _ _ _ Eb) in Hcap |- *.
    cbn [merge_sel] in Hcap |- *.
    destruct (decide (rownr_max = b)); [lia|]. destruct (decide (rownr_max < b)); [lia|].
    rewrite length_app in Hcap.
    destruct (store_if_rows g t b) as (t1 & -> & R1 & N1 & L1 & C1); [lia|lia|].
    cbn [mbind option_bind].
    replace (Z.of_nat i2 + 1) with (Z.of_nat (S i2)) by lia.
    change ((fix go (B0 : list Z) : list Z :=
               match B0 with
               | [] => []
               | b0 :: B' => emit g b0 ++ go B'
               end) (drop (S i2) B))
      with (merge_sel e l g [] (drop (S i2) B)) in Hcap |- *.
    rewrite <- (drop_lookup_nil _ _ Ea) in Hcap |- *.
    destruct (IH A B i1 (S i2) t1) as (t' & -> & R & N & L & C); auto; try lia.
    exists t'. rewrite R, R1, N, N1, L, L1, C, C1, length_app, <- app_assoc.
    repeat split; auto; lia.
  - (* both exhausted *)
    rewrite (next_end _ _ Ea), (next_end _ _ Eb). cbn [mbind option_bind].
    rewrite (drop_lookup_nil _ _ Ea), (drop_lookup_nil _ _ Eb). cbn [merge_sel].
    destruct (decide (rownr_max = rownr_max)); [|done].
    exists t. rewrite app_nil_r. simpl. repeat split; auto; lia.
Qed.

Lemma ascending_cons a (l : list Z) :
  ascending (a :: l) <-> ascending l /\ Forall (Z.lt a) l.
Proof.
  split.
  - intros H. apply StronglySorted_inv in H. tauto.
  - intros [H1 H2]. by constructor.
Qed.

Lemma lt_all_notin a (l : list Z) : Forall (Z.lt a) l -> a ∉ l.
Proof.
  intros H Hin. rewrite Forall_forall in H. specialize (H _ Hin). lia.
Qed.

Lemma lt_all_trans a b (l : list Z) : a < b -> Forall (Z.lt b) l -> Forall (Z.lt a) l.
Proof. intros Hab H. eapply Forall_impl; [exact H|]. intros; simpl in *; lia. Qed.

Lemma elem_of_emit c a x : x ∈ emit c a <-> c = true /\ x = a.
Proof.
  destruct c; simpl.
  - rewrite list_elem_of_singleton. tauto.
  - split; [intros H; inversion H|intros [? _]; discriminate].
Qed.

Lemma merge_sel_nil_r e l g (A : list Z) :
  merge_sel e l g A [] = flat_map (emit l) A.
Proof. induction A as [|a A IH]; simpl; [done|]. by rewrite IH. Qed.

Lemma merge_sel_nil_l e l g (B : list Z) :
  merge_sel e l g [] B = flat_map (emit g) B.
Proof. induction B as [|b B IH]; simpl; [done|]. simpl in IH. by rewrite IH. Qed.

Lemma merge_sel_cons_cons e l g a b (A B : list Z) :
  merge_sel e l g (a :: A) (b :: B) =
    if decide (a = b) then emit e a ++ merge_sel e l g A B
    else if decide (a < b) then emit l a ++ merge_sel e l g A (b :: B)
    else emit g b ++ merge_sel e l g (a :: A) B.
Proof. reflexivity. Qed.

Lemma elem_of_flat_map_emit c (l : list Z) x :
  x ∈ flat_map (emit c) l <-> c = true /\ x ∈ l.
Proof.
  induction l as [|a l IH]; simpl.
  - split; [intros H; inversion H|intros [_ H]; inversion H].
  - rewrite elem_of_app, elem_of_emit, IH, elem_of_cons. tauto.
Qed.

(** Membership in the result of a merge of two ascending sequences. *)
Lemma merge_sel_elem e l g : forall (A B : list Z) x,
  ascending A -> ascending B ->
  x ∈ merge_sel e l g A B <->
    (e = true /\ x ∈ A /\ x ∈ B) \/ (l = true /\ x ∈ A /\ (x ∉ B))
    \/ (g = true /\ (x ∉ A) /\ x ∈ B).
Proof.
  induction A as [|a A IHA].
  - intros B x _ _. rewrite merge_sel_nil_l, elem_of_flat_map_emit.
    pose proof (elem_of_nil x) as Hnil. tauto.
  - induction B as [|b B IHB]; intros x HA HB.
    + rewrite merge_sel_nil_r, elem_of_flat_map_emit.
      pose proof (elem_of_nil x) as Hnil. tauto.
    + rewrite merge_sel_cons_cons.
      apply ascending_cons in HA as [HA HaA]. apply ascending_cons in HB as [HB HbB].
      pose proof (lt_all_notin _ _ HaA) as Ha. pose proof (lt_all_notin _ _ HbB) as Hb.
      destruct (decide (a = b)) as [->|Hne]; [|destruct (decide (a < b)) as [Hlt|Hge]].
      * rewrite elem_of_app, elem_of_emit, (IHA B x HA HB), !elem_of_cons.
        destruct (decide (x = b)) as [->|Hx]; [tauto|]. tauto.
      * assert (a ∉ b :: B).
        { apply lt_all_notin. constructor; [done|]. by eapply lt_all_trans. }
        rewrite elem_of_app, elem_of_emit, (IHA (b :: B) x HA); [|by apply ascending_cons].
        rewrite !elem_of_cons in *.
        destruct (decide (x = a)) as [->|Hx]; [tauto|]. tauto.
      * assert (b ∉ a :: A).
        { apply lt_all_notin. constructor; [lia|]. eapply lt_all_trans; [|done]. lia. }
        rewrite elem_of_app, elem_of_emit, (IHB x); [|by apply ascending_cons|done].
        rewrite !elem_of_cons in *.
        destruct (decide (x = b)) as [->|Hx]; [tauto|]. tauto.
Qed.

(** A lower bound of both inputs is a lower bound of the merge. *)
Lemma merge_sel_lower e l g c : forall (A B : list Z),
  Forall (Z.lt c) A -> Forall (Z.lt c) B -> Forall (Z.lt c) (merge_sel e l g A B).
Proof.
  assert (Hemit : forall k a, c < a -> Forall (Z.lt c) (emit k a)).
  { intros [] a Ha; simpl; auto. }
  assert (Hflat : forall k L, Forall (Z.lt c) L -> Forall (Z.lt c) (flat_map (emit k) L)).
  { intros k L H. induction H; simpl; [constructor|]. apply Forall_app; auto. }
  induction A as [|a A IHA].
  - intros B _ HB. rewrite merge_sel_nil_l. auto.
  - induction B as [|b B IHB]; intros HA HB.
    + rewrite merge_sel_nil_r. auto.
    + rewrite merge_sel_cons_cons.
      inversion HA; inversion HB; subst.
      repeat destruct (decide _); apply Forall_app; auto.
Qed.

Lemma ascending_emit_app c a (L : list Z) :
  ascending L -> Forall (Z.lt a) L -> ascending (emit c a ++ L).
Proof. intros H1 H2. destruct c; simpl; [by constructor|done]. Qed.

(** The merge of two ascending sequences is ascending. *)
Lemma merge_sel_ascending e l g : forall (A B : list Z),
  ascending A -> ascending B -> ascending (merge_sel e l g A B).
Proof.
  assert (Hflat : forall k L, ascending L -> ascending (flat_map (emit k) L)).
  { intros [] L H.
    - replace (flat_map (emit true) L) with L; [done|].
      clear H. induction L; simpl; congruence.
    - replace (flat_map (emit false) L) with (@nil Z); [constructor|].
      clear H. induction L; simpl; congruence. }
  induction A as [|a A IHA].
  - intros B _ HB. rewrite merge_sel_nil_l. auto.
  - induction B as [|b B IHB]; intros HA HB.
    + rewrite merge_sel_nil_r. auto.
    + rewrite merge_sel_cons_cons.
      pose proof HA as HA'. pose proof HB as HB'.
      apply ascending_cons in HA as [HA HaA]. apply ascending_cons in HB as [HB HbB].
      destruct (decide (a = b)) as [->|Hne]; [|destruct (decide (a < b)) as [Hlt|Hge]];
        apply ascending_emit_app; auto; apply merge_sel_lower; auto.
      * constructor; [done|]. by eapply lt_all_trans.
      * constructor; [lia|]. eapply lt_all_trans; [|done]. lia.
Qed.

Lemma merge_sel_length e l g : forall (A B : list Z),
  (length (merge_sel e l g A B) <= length A + length B)%nat.
Proof.
  assert (Hemit : forall k a, (length (emit k a) <= 1)%nat) by (intros [] a; simpl; lia).
  assert (Hflat : forall k L, (length (flat_map (emit k) L) <= length L)%nat).
  { intros k L. induction L as [|a L IH]; simpl; [lia|].
    rewrite length_app. specialize (Hemit k a). lia. }
  induction A as [|a A IHA].
  - intros B. rewrite merge_sel_nil_l. specialize (Hflat g B). simpl. lia.
  - induction B as [|b B IHB].
    + rewrite merge_sel_nil_r. specialize (Hflat l (a :: A)). simpl in *. lia.
    + rewrite merge_sel_cons_cons.
      repeat destruct (decide _); rewrite length_app.
      * pose proof (Hemit e a). specialize (IHA B). cbn [length]. lia.
      * pose proof (Hemit l a). specialize (IHA (b :: B)). cbn [length] in *. lia.
      * pose proof (Hemit g b). cbn [length] in *. lia.
Qed.

Lemma merge_and_length : forall (A B : list Z),
  (length (merge_sel true false false A B) <= Nat.min (length A) (length B))%nat.
Proof.
  assert (Hflat : forall L : list Z, flat_map (emit false) L = []).
  { induction L; simpl; congruence. }
  induction A as [|a A IHA].
  - intros B. rewrite merge_sel_nil_l, Hflat. simpl. lia.
  - induction B as [|b B IHB].
    + rewrite merge_sel_nil_r, Hflat. simpl. lia.
    + rewrite merge_sel_cons_cons.
      repeat destruct (decide _); cbn [emit app length] in *.
      * specialize (IHA B). lia.
      * specialize (IHA (b :: B)). cbn [length] in IHA. lia.
      * lia.
Qed.

Lemma merge_sub_length : forall (A B : list Z),
  (length (merge_sel false true false A B) <= length A)%nat.
Proof.
  assert (Hflat : forall L : list Z, flat_map (emit false) L = []).
  { induction L; simpl; congruence. }
  assert (Hflat' : forall L : list Z, flat_map (emit true) L = L).
  { induction L; simpl; congruence. }
  induction A as [|a A IHA].
  - intros B. rewrite merge_sel_nil_l, Hflat. simpl. lia.
  - induction B as [|b B IHB].
    + rewrite merge_sel_nil_r, Hflat'. simpl. lia.
    + rewrite merge_sel_cons_cons.
      repeat destruct (decide _); cbn [emit app length] in *.
      * specialize (IHA B). lia.
      * specialize (IHA (b :: B)). cbn [length] in IHA. lia.
      * lia.
Qed.

(** Two ascending sequences with the same members are equal. *)
Lemma ascending_ext : forall (A B : list Z),
  ascending A -> ascending B -> (forall x, x ∈ A <-> x ∈ B) -> A = B.
Proof.
  induction A as [|a A IH]; intros B HA HB Hext.
  - destruct B as [|b B]; [done|].
    exfalso. assert (H : b ∈ []) by (apply Hext; left). inversion H.
  - destruct B as [|b B].
    + exfalso. assert (H : a ∈ []) by (apply Hext; left). inversion H.
    + apply ascending_cons in HA as [HA HaA]. apply ascending_cons in HB as [HB HbB].
      rewrite Forall_forall in HaA, HbB.
      assert (a = b).
      { assert (H1 : a ∈ b :: B) by (apply Hext; left).
        assert (H2 : b ∈ a :: A) by (apply Hext; left).
        apply elem_of_cons in H1 as [?|H1]; [done|].
        apply elem_of_cons in H2 as [?|H2]; [done|].
        specialize (HaA _ H2). specialize (HbB _ H1). lia. }
      subst b. f_equal. apply IH; auto.
      intros x. split; intros Hx.
      * assert (H : x ∈ a :: B) by (apply Hext; by right).
        apply elem_of_cons in H as [->|?]; [|done].
        specialize (HaA _ Hx). lia.
      * assert (H : x ∈ a :: A) by (apply Hext; by right).
        apply elem_of_cons in H as [->|?]; [|done].
        specialize (HbB _ Hx). lia.
Qed.

Lemma store_list_rows : forall (L : list Z) t,
  0 <= nrrow_p t ->
  nrrow_p t + Z.of_nat (length L) <= Z.of_nat (length (rowStorage_p t)) ->
  exists t', foldl (fun ot j => t ← ot; store t j) (Some t) L = Some t'
    /\ rows t' = rows t ++ L
    /\ nrrow_p t' = nrrow_p t + Z.of_nat (length L)
    /\ length (rowStorage_p t') = length (rowStorage_p t)
    /\ changed_p t' = changed_p t.
Proof.
  induction L as [|x L IH]; intros t H0 Hcap.
  - exists t. simpl. rewrite app_nil_r. repeat split; auto; lia.
  - cbn [foldl mbind option_bind]. cbn [length] in Hcap.
    destruct (store_rows t x) as (t1 & -> & R1 & N1 & L1 & C1); [lia|].
    destruct (IH t1) as (t' & -> & R & N & L' & C); [lia|lia|].
    exists t'. rewrite R, R1, N, N1, L', L1, C, C1, <- app_assoc. cbn [length].
    repeat split; auto; lia.
Qed.

Lemma store_range_rows start stop t :
  0 <= nrrow_p t ->
  nrrow_p t + Z.of_nat (length (seqZ start (stop - start)))
    <= Z.of_nat (length (rowStorage_p t)) ->
  exists t', store_range start stop t = Some t'
    /\ rows t' = rows t ++ seqZ start (stop - start)
    /\ nrrow_p t' = nrrow_p t + Z.of_nat (length (seqZ start (stop - start)))
    /\ length (rowStorage_p t') = length (rowStorage_p t)
    /\ changed_p t' = changed_p t.
Proof. intros. by apply store_list_rows. Qed.

(** The two loops of [refNot] compute [not_from]. *)
Lemma refNot_loop_spec nrtot : forall (n : nat) (A : list Z) (i : nat) start t,
  n = (length A - i)%nat -> (i <= length A)%nat ->
  Forall (fun x => 0 <= x < rownr_max) A ->
  0 <= start < 2^64 ->
  0 <= nrrow_p t ->
  nrrow_p t + Z.of_nat (length (not_from start (drop i A) nrtot))
    <= Z.of_nat (length (rowStorage_p t)) ->
  exists t',
    ('(start', t1) ← refNot_loop n A (Z.of_nat i) start t;
     store_range start' nrtot t1) = Some t'
    /\ rows t' = rows t ++ not_from start (drop i A) nrtot
    /\ changed_p t' = changed_p t.
Proof.
  induction n as [|n IH]; intros A i start t Hn Hi HA Hs H0 Hcap.
  - rewrite drop_ge in Hcap |- * by lia. cbn [refNot_loop mbind option_bind not_from] in *.
    destruct (store_range_rows start nrtot t) as (t' & -> & R & _ & _ & C); auto.
    by exists t'.
  - destruct (A !! i) as [a|] eqn:Ea; [|apply lookup_ge_None in Ea; lia].
    rewrite (drop_S _ _ _ Ea) in Hcap |- *. cbn [not_from] in Hcap |- *.
    cbn [refNot_loop]. rewrite Nat2Z.id, Ea. cbn [mbind option_bind].
    rewrite length_app in Hcap.
    destruct (store_range_rows start a t) as (t1 & -> & R1 & N1 & L1 & C1); [lia|lia|].
    cbn [mbind option_bind].
    assert (Ha : 0 <= a < rownr_max) by (eapply (Forall_lookup_1 _ _ _ _ HA); eauto).
    assert (Hw : wrap64 (a + 1) = a + 1).
    { unfold wrap64, rownr_max in *. apply Z.mod_small. lia. }
    rewrite Hw. replace (Z.of_nat i + 1) with (Z.of_nat (S i)) by lia.
    destruct (IH A (S i) (a + 1) t1) as (t' & -> & R & C); auto; try lia.
    { unfold rownr_max in *; lia. }
    exists t'. rewrite R, R1, C, C1, <- app_assoc. auto.
Qed.

Lemma not_from_elem total : forall (A : list Z) start x,
  ascending A -> Forall (fun a => start <= a < total) A ->
  x ∈ not_from start A total <-> (start <= x < total /\ (x ∉ A)).
Proof.
  induction A as [|a A IH]; intros start x HA HF; cbn [not_from].
  - rewrite elem_of_seqZ. pose proof (elem_of_nil x). split; [intros; split; [lia|tauto]|lia].
  - apply ascending_cons in HA as [HA HaA]. inversion HF as [|? ? Ha HF']; subst.
    rewrite elem_of_app, elem_of_seqZ, elem_of_cons, (IH (a + 1) x HA).
    + rewrite Forall_forall in HaA.
      split.
      * intros [H|[H1 H2]]; split; try lia.
        -- intros [->|Hin]; [lia|]. specialize (HaA _ Hin). lia.
        -- intros [->|Hin]; [lia|]. done.
      * intros [H1 H2]. destruct (decide (x < a)); [left; lia|right].
        split; [|tauto]. assert (x <> a) by tauto. lia.
    + rewrite Forall_forall in HaA, HF' |- *. intros y Hy.
      specialize (HaA _ Hy). specialize (HF' _ Hy). lia.
Qed.

Lemma ascending_seqZ m n : ascending (seqZ m n).
Proof.
  destruct (decide (0 <= n)) as [Hn|Hn]; [|rewrite seqZ_nil by lia; constructor].
  revert m. pattern n. apply natlike_ind; [| |exact Hn].
  - intros m. rewrite seqZ_nil by lia. constructor.
  - intros k Hk IH m. rewrite seqZ_cons by lia. rewrite Z.pred_succ.
    constructor; [apply IH|]. apply Forall_seqZ. intros; lia.
Qed.

Lemma not_from_ascending total : forall (A : list Z) start,
  ascending A -> Forall (fun a => start <= a) A ->
  ascending (not_from start A total)
  /\ Forall (fun x => start <= x) (not_from start A total).
Proof.
  induction A as [|a A IH]; intros start HA HF; cbn [not_from].
  - split; [apply ascending_seqZ|]. apply Forall_seqZ. intros; lia.
  - apply ascending_cons in HA as [HA HaA]. inversion HF as [|? ? Ha HF']; subst.
    destruct (IH (a + 1) HA) as [IH1 IH2].
    { eapply Forall_impl; [exact HaA|]. intros; simpl in *; lia. }
    rewrite Forall_forall in IH2. split.
    + apply StronglySorted_app_2; [|apply ascending_seqZ|exact IH1].
      intros x1 x2 H1 H2. apply elem_of_seqZ in H1. specialize (IH2 _ H2). lia.
    + apply Forall_app. split; [apply Forall_seqZ; intros; lia|].
      apply Forall_forall. intros x Hx. specialize (IH2 _ Hx). lia.
Qed.

Lemma not_from_length total : forall (A : list Z) start,
  ascending A -> Forall (fun a => start <= a < total) A -> start <= total ->
  Z.of_nat (length (not_from start A total)) = total - start - Z.of_nat (length A).
Proof.
  induction A as [|a A IH]; intros start HA HF Hst; cbn [not_from length].
  - rewrite length_seqZ. lia.
  - apply ascending_cons in HA as [HA HaA]. inversion HF as [|? ? Ha HF']; subst.
    rewrite length_app, length_seqZ, Nat2Z.inj_add, (IH (a + 1) HA); [lia| |lia].
    rewrite Forall_forall in HaA, HF' |- *. intros y Hy.
    specialize (HaA _ Hy). specialize (HF' _ Hy). lia.
Qed.

Lemma valid_rows_lt_max N (l : list Z) :
  is_rownr N -> valid_rows N l -> Forall (fun x => x < rownr_max) l.
Proof.
  intros HN [_ H]. eapply Forall_impl; [exact H|].
  unfold is_rownr, rownr_max in *. intros; simpl in *; lia.
Qed.

Lemma rows_resize_fresh n : rows (resize fresh n) = [].
Proof. reflexivity. Qed.

Lemma rows_set_changed t : rows (set_changed t) = rows t.
Proof. reflexivity. Qed.

Lemma merge_run e l g (A B : list Z) allrow :
  Forall (fun x => x < rownr_max) A -> Forall (fun x => x < rownr_max) B ->
  Z.of_nat (length (merge_sel e l g A B)) <= allrow ->
  exists t', merge_loop e l g (S (Z.to_nat (len A) + Z.to_nat (len B)))
      (len A) A (len B) B 0 0 (resize fresh allrow) = Some t'
    /\ rows t' = merge_sel e l g A B.
Proof.
  intros HA HB Hcap.
  destruct (merge_loop_spec e l g (S (Z.to_nat (len A) + Z.to_nat (len B)))
              A B 0 0 (resize fresh allrow)) as (t' & H & R & _); auto; try lia.
  - unfold len. rewrite !Nat2Z.id. lia.
  - simpl. lia.
  - rewrite !drop_0. simpl. rewrite length_replicate. lia.
  - exists t'. split; [exact H|]. by rewrite R, !drop_0.
Qed.

Lemma refAnd_result (A B : list Z) :
  Forall (fun x => x < rownr_max) A -> Forall (fun x => x < rownr_max) B ->
  result (refAnd (len A) A (len B) B fresh) = Some (merge_sel true false false A B).
Proof.
  intros HA HB. unfold refAnd, result. rewrite refAnd_loop_merge.
  destruct (merge_run true false false A B
              (if decide (len A < len B) then len A else len B))
    as (t' & -> & R); auto.
  - pose proof (merge_and_length A B). unfold len. destruct (decide _); lia.
  - simpl. by rewrite rows_set_changed, R.
Qed.

Lemma refOr_result (A B : list Z) :
  Forall (fun x => x < rownr_max) A -> Forall (fun x => x < rownr_max) B ->
  len A + len B < 2^64 ->
  result (refOr (len A) A (len B) B fresh) = Some (merge_sel true true true A B).
Proof.
  intros HA HB Hmem. unfold refOr, result. rewrite refOr_loop_merge.
  destruct (merge_run true true true A B (wrap64 (len A + len B)))
    as (t' & -> & R); auto.
  - unfold wrap64. rewrite Z.mod_small by (unfold len in *; lia).
    pose proof (merge_sel_length true true true A B). unfold len. lia.
  - simpl. by rewrite rows_set_changed, R.
Qed.

Lemma refSub_result (A B : list Z) :
  Forall (fun x => x < rownr_max) A -> Forall (fun x => x < rownr_max) B ->
  result (refSub (len A) A (len B) B fresh) = Some (merge_sel false true false A B).
Proof.
  intros HA HB. unfold refSub, result. rewrite refSub_loop_merge.
  destruct (merge_run false true false A B (len A)) as (t' & -> & R); auto.
  - pose proof (merge_sub_length A B). unfold len. lia.
  - simpl. by rewrite rows_set_changed, R.
Qed.

Lemma refXor_result (A B : list Z) :
  Forall (fun x => x < rownr_max) A -> Forall (fun x => x < rownr_max) B ->
  len A + len B < 2^64 ->
  result (refXor (len A) A (len B) B fresh) = Some (merge_sel false true true A B).
Proof.
  intros HA HB Hmem. unfold refXor, result. rewrite refXor_loop_merge.
  destruct (merge_run false true true A B (wrap64 (len A + len B)))
    as (t' & -> & R); auto.
  - unfold wrap64. rewrite Z.mod_small by (unfold len in *; lia).
    pose proof (merge_sel_length false true true A B). unfold len. lia.
  - simpl. by rewrite rows_set_changed, R.
Qed.

Lemma refNot_result N (A : list Z) :
  is_rownr N -> valid_rows N A ->
  result (refNot (len A) A N fresh) = Some (not_from 0 A N).
Proof.
  intros HN [HA HF]. unfold refNot, result.
  assert (Hlen : Z.of_nat (length (not_from 0 A N)) = N - 0 - len A).
  { apply not_from_length; auto. unfold is_rownr in HN; lia. }
  destruct (refNot_loop_spec N (Z.to_nat (len A)) A 0 0
              (resize fresh (wrap64 (N - len A)))) as (t' & H & R & _).
  - unfold len. rewrite Nat2Z.id. lia.
  - lia.
  - eapply Forall_impl; [exact HF|]. unfold is_rownr, rownr_max in *.
    intros; simpl in *; lia.
  - lia.
  - simpl. lia.
  - rewrite drop_0. cbn [resize rowStorage_p nrrow_p fresh]. rewrite length_replicate.
    unfold wrap64, is_rownr, len in *. rewrite Z.mod_small; lia.
  - change (Z.of_nat 0) with 0 in H.
    destruct (refNot_loop _ _ _ _ _) as [[start t1]|]; [|discriminate].
    cbn [mbind option_bind] in H |- *. rewrite H. simpl.
    rewrite rows_set_changed, R, drop_0. reflexivity.
Qed.

Lemma not_from_valid N (A : list Z) :
  valid_rows N A -> valid_rows N (not_from 0 A N).
Proof.
  intros [HA HF]. split.
  - apply not_from_ascending; auto. eapply Forall_impl; [exact HF|].
    intros; simpl in *; lia.
  - apply Forall_forall. intros x Hx. apply not_from_elem in Hx; auto. tauto.
Qed.

(** The end marker is a value of [rownr_t]: a sequence that holds it is cut
    there, which is why row numbers are taken below the number of rows. *)
Lemma refOr_end_marker :
  result (refOr 1 [rownr_max] 0 [] fresh) = Some [].
Proof. reflexivity. Qed.

(** C5: the set operations of [RefTable] on ascending row sequences of a
    table with [N] rows. [refAnd] stores the rows present in both, [refOr]
    the union without duplicates, [refSub] the rows of [A] not in [B],
    [refXor] the rows in exactly one of them and [refNot] the rows of
    [0..N) not in [A]; every result is strictly ascending, and the laws
    OR(A,A) = A, SUBTRACT(A,A) = empty, XOR(A,B) = SUBTRACT(OR(A,B),AND(A,B))
    and NOT(NOT(A,N),N) = A hold. *)

Theorem row_set_algebra (N : Z) (A B : list Z) :
  is_rownr N -> valid_rows N A -> valid_rows N B ->
  len A < 2^63 -> len B < 2^63 ->
  (exists R, result (refAnd (len A) A (len B) B fresh) = Some R /\ ascending R
      /\ forall x, x ∈ R <-> x ∈ A /\ x ∈ B)
  /\ (exists R, result (refOr (len A) A (len B) B fresh) = Some R /\ ascending R
      /\ forall x, x ∈ R <-> x ∈ A \/ x ∈ B)
  /\ (exists R, result (refSub (len A) A (len B) B fresh) = Some R /\ ascending R
      /\ forall x, x ∈ R <-> x ∈ A /\ (x ∉ B))
  /\ (exists R, result (refXor (len A) A (len B) B fresh) = Some R /\ ascending R
      /\ forall x, x ∈ R <-> (x ∈ A /\ (x ∉ B)) \/ ((x ∉ A) /\ x ∈ B))
  /\ (exists R, result (refNot (len A) A N fresh) = Some R /\ ascending R
      /\ forall x, x ∈ R <-> 0 <= x < N /\ (x ∉ A))
  /\ result (refOr (len A) A (len A) A fresh) = Some A
  /\ result (refSub (len A) A (len A) A fresh) = Some []
  /\ (exists O I X, result (refOr (len A) A (len B) B fresh) = Some O
      /\ result (refAnd (len A) A (len B) B fresh) = Some I
      /\ result (refXor (len A) A (len B) B fresh) = Some X
      /\ result (refSub (len O) O (len I) I fresh) = Some X)
  /\ (exists C, result (refNot (len A) A N fresh) = Some C
      /\ result (refNot (len C) C N fresh) = Some A).
Proof.
  intros HN HA HB HmA HmB.
  assert (Hmem : len A + len B < 2^64) by lia.
  pose proof (valid_rows_lt_max _ _ HN HA) as HAm.
  pose proof (valid_rows_lt_max _ _ HN HB) as HBm.
  destruct HA as [HA HAr], HB as [HB HBr].
  assert (Hdec : forall (x : Z) (L : list Z), x ∈ L \/ (x ∉ L)).
  { intros x L. destruct (decide (x ∈ L)); auto. }
  repeat apply conj.
  - eexists. split; [by apply refAnd_result|]. split; [by apply merge_sel_ascending|].
    intros x. rewrite merge_sel_elem by done. intuition congruence.
  - eexists. split; [by apply refOr_result|]. split; [by apply merge_sel_ascending|].
    intros x. rewrite merge_sel_elem by done.
    destruct (Hdec x A), (Hdec x B); intuition congruence.
  - eexists. split; [by apply refSub_result|]. split; [by apply merge_sel_ascending|].
    intros x. rewrite merge_sel_elem by done. intuition congruence.
  - eexists. split; [by apply refXor_result|]. split; [by apply merge_sel_ascending|].
    intros x. rewrite merge_sel_elem by done. intuition congruence.
  - eexists. split; [by apply refNot_result|]. split.
    + apply not_from_ascending; auto. eapply Forall_impl; [exact HAr|].
      intros; simpl in *; lia.
    + intros x. by apply not_from_elem.
  - rewrite refOr_result; auto.
    + f_equal. apply ascending_ext; auto; [by apply merge_sel_ascending|].
      intros x. rewrite merge_sel_elem by done.
      destruct (Hdec x A); intuition congruence.
    + lia.
  - rewrite refSub_result; auto. f_equal.
    apply ascending_ext; [by apply merge_sel_ascending|constructor|].
    intros x. rewrite merge_sel_elem by done. pose proof (elem_of_nil x).
    intuition congruence.
  - exists (merge_sel true true true A B), (merge_sel true false false A B),
      (merge_sel false true true A B).
    split; [by apply refOr_result|]. split; [by apply refAnd_result|].
    split; [by apply refXor_result|].
    assert (HO : ascending (merge_sel true true true A B)) by by apply merge_sel_ascending.
    assert (HI : ascending (merge_sel true false false A B)) by by apply merge_sel_ascending.
    assert (Hsub : forall L, (forall x : Z, x ∈ L -> x ∈ A \/ x ∈ B) ->
                     Forall (fun x => x < rownr_max) L).
    { intros L HL. apply Forall_forall. intros x Hx. rewrite Forall_forall in HAm, HBm.
      destruct (HL _ Hx); auto. }
    rewrite refSub_result.
    + f_equal. apply ascending_ext; [by apply merge_sel_ascending..|].
      intros x. rewrite !merge_sel_elem by done.
      destruct (Hdec x A), (Hdec x B); intuition congruence.
    + apply Hsub. intros x. rewrite merge_sel_elem by done. intuition.
    + apply Hsub. intros x. rewrite merge_sel_elem by done. intuition.
  - exists (not_from 0 A N). split; [by apply refNot_result|].
    pose proof (not_from_valid N A (conj HA HAr)) as [HC HCr].
    rewrite refNot_result by done. f_equal.
    apply ascending_ext; auto.
    + apply not_from_ascending; auto. eapply Forall_impl; [exact HCr|].
      intros; simpl in *; lia.
    + intros x. rewrite !not_from_elem by done. rewrite Forall_forall in HAr.
      destruct (Hdec x A) as [Hx|Hx]; [|tauto].
      specialize (HAr _ Hx). simpl in HAr. tauto.
Qed.

Lemma row_set_algebra_witness :
  is_rownr 5 /\ valid_rows 5 [0; 2; 3] /\ valid_rows 5 [2; 4]
  /\ result (refXor 3 [0; 2; 3] 2 [2; 4] fresh) = Some [0; 3; 4]
  /\ exists C, result (refNot 3 [0; 2; 3] 5 fresh) = Some C
      /\ result (refNot (len C) C 5 fresh) = Some [0; 2; 3].
Proof.
  assert (H5 : is_rownr 5) by (unfold is_rownr; lia).
  assert (HA : valid_rows 5 [0; 2; 3]).
  { split; repeat constructor; lia. }
  assert (HB : valid_rows 5 [2; 4]).
  { split; repeat constructor; lia. }
  split; [exact H5|]. split; [exact HA|]. split; [exact HB|].
  pose proof (row_set_algebra 5 [0; 2; 3] [2; 4] H5 HA HB) as H.
  split; [reflexivity|].
  apply H; unfold len; simpl; lia.
Defined.

(** ** RefTable.cc: construction from row numbers and persistence *)

(** The exceptions thrown; [Undefined] stands for a run that reads or
    writes outside a buffer or does not terminate. *)
Inductive exn : Type :=
| AipsError
| TableError
| TableInvOper
| indexError (row : Z)
| out_of_range
| Undefined.

Inductive outcome (A : Type) : Type :=
| Ok (a : A)
| Throw (e : exn).

Arguments Ok {A} a.
Arguments Throw {A} e.

#[global] Instance outcome_ret : MRet outcome := fun A a => Ok a.
#[global] Instance outcome_bind : MBind outcome :=
  fun A B f m => match m with Ok a => f a | Throw e => Throw e end.

(** [std::map<String,String>] as the list of its pairs in key order. *)
Definition name_map : Type := list (string * string).

(** [nameMap.at (name)] *)
Fixpoint map_at (m : name_map) (name : string) : outcome string :=
  match m with
  | [] => Throw out_of_range
  | (k, v) :: m' => if decide (k = name) then Ok v else map_at m' name
  end.

(** [nameMap.erase (name)] *)
Definition map_erase (m : name_map) (name : string) : name_map :=
  filter (fun kv => kv.1 <> name) m.

(** Modelled from the spec: [AipsIO] (casa/IO) is not part of the sources
    at hand. "a reference table serializes {root table path (relative),
    column rename map, ordered column names, root row count at creation,
    row-order flag, row-count, row list}": a stream is the sequence of
    the typed values put in it, between the start of an object, with its
    type and version, and its end. Getting a value of another type than
    the next one in the stream raises an [AipsError]. *)
Inductive token : Type :=
| ObjStart (type : string) (version : Z)
| ObjEnd
| VString (s : string)
| VMap (m : name_map)
| VStrings (l : list string)
| VuInt (v : Z)
| VRownr (v : Z)
| VBool (b : bool).

Definition getstart (type : string) (ios : list token) : outcome (Z * list token) :=
  match ios with
  | ObjStart t v :: ios' => if decide (t = type) then Ok (v, ios') else Throw AipsError
  | _ => Throw AipsError
  end.

Definition getend (ios : list token) : outcome (list token) :=
  match ios with
  | ObjEnd :: ios' => Ok ios'
  | _ => Throw AipsError
  end.

Definition get_String (ios : list token) : outcome (string * list token) :=
  match ios with VString s :: ios' => Ok (s, ios') | _ => Throw AipsError end.

Definition get_Map (ios : list token) : outcome (name_map * list token) :=
  match ios with VMap m :: ios' => Ok (m, ios') | _ => Throw AipsError end.

Definition get_Strings (ios : list token) : outcome (list string * list token) :=
  match ios with VStrings l :: ios' => Ok (l, ios') | _ => Throw AipsError end.

Definition get_uInt (ios : list token) : outcome (Z * list token) :=
  match ios with VuInt v :: ios' => Ok (v, ios') | _ => Throw AipsError end.

Definition get_rownr (ios : list token) : outcome (Z * list token) :=
  match ios with VRownr v :: ios' => Ok (v, ios') | _ => Throw AipsError end.

Definition get_Bool (ios : list token) : outcome (bool * list token) :=
  match ios with VBool b :: ios' => Ok (b, ios') | _ => Throw AipsError end.

(** [ios.get (n, ptr)]: the next [n] values of the stream. *)
Fixpoint get_values (get : list token -> outcome (Z * list token)) (n : nat)
    (ios : list token) : outcome (list Z * list token) :=
  match n with
  | O => Ok ([], ios)
  | S n =>
      '(v, ios) ← get ios;
      '(vs, ios) ← get_values get n ios;
      Ok (v :: vs, ios)
  end.

(** Modelled from the spec: the classes of the table a reference table
    refers to ([BaseTable], [PlainTable], [TableDesc]) are not part of the
    sources at hand. "the root table is the table this view ultimately
    reads through": of the root table the model has its name, its number
    of rows and the names of its columns; a table description is the list
    of the names of its columns in order. *)
Record root_table : Type := mkRoot {
  root_name : string;
  root_nrow : Z;
  root_columns : list string
}.

(** A [RefTable] object. *)
Record ref_table : Type := mkRefTable {
  tableName : string;
  baseTabPtr_p : root_table;
  rowOrd_p : bool;
  nameMap_p : name_map;
  tdescPtr_p : list string;
  colMap_p : name_map;
  rt_rows : state
}.

(** The table a reference table is made from. *)
Inductive BaseTable : Type :=
| Plain (p : root_table)
| Ref (r : ref_table).

Definition BaseTable_nrow (btp : BaseTable) : Z :=
  match btp with
  | Plain p => root_nrow p
  | Ref r => nrrow_p (rt_rows r)
  end.

Definition BaseTable_root (btp : BaseTable) : root_table :=
  match btp with
  | Plain p => p
  | Ref r => baseTabPtr_p r
  end.

Definition BaseTable_tableDesc (btp : BaseTable) : list string :=
  match btp with
  | Plain p => root_columns p
  | Ref r => tdescPtr_p r
  end.

(** Modelled from the spec: [BaseTable::getColumn] is not part of the
    sources at hand; a column that the root table does not have cannot be
    read through ("column pass-through"), which the model raises as a
    [TableError]. *)
Definition getColumn (root : root_table) (name : string) : outcome string :=
  if decide (name ∈ root_columns root) then Ok name else Throw TableError.

(** [RefTable::makeRefCol]: the column map pairs every column of the
    description with the column of the root table it refers to. *)
Fixpoint makeRefCol (root : root_table) (nameMap : name_map) (tdesc : list string)
    : outcome name_map :=
  match tdesc with
  | [] => Ok []
  | cd :: tdesc' =>
      rootCol ← map_at nameMap cd;
      col ← getColumn root rootCol;
      colMap ← makeRefCol root nameMap tdesc';
      Ok ((cd, col) :: colMap)
  end.

(** [RefTable::setup] with no selected column names: the name map and the
    column map. *)
Definition setup (btp : BaseTable) (tdesc : list string) : outcome (name_map * name_map) :=
  let nameMap :=
    match btp with
    | Ref rtp => nameMap_p rtp
    | Plain _ => (fun c => (c, c)) <$> tdesc
    end in
  colMap ← makeRefCol (BaseTable_root btp) nameMap tdesc;
  Ok (nameMap, colMap).

(** [a[i]] for a row number [i]; outside the array it is an error of the
    model. *)
Definition elem (l : list Z) (i : Z) : option Z :=
  if decide (0 <= i) then l !! Z.to_nat i else None.

(** The first loop of [adjustRownrs], [rownrs[i] = rows[rownrs[i]]], for
    the [n] indices from [i] on. "Note that rowStorage can be the same as
    rowStorage_p": with [same] set, [rows] and [rownrs] are one array, so
    that a row number stored is seen by the reads of [rows] that follow;
    otherwise [rows] is not changed by the stores. *)
Fixpoint adjust_loop (same : bool) (n : nat) (i : Z) (rows rownrs : list Z)
    : outcome (list Z) :=
  match n with
  | O => Ok rownrs
  | S n =>
      match elem rownrs i with
      | Some x =>
          match elem (if same then rownrs else rows) x with
          | Some y =>
              adjust_loop same n (i + 1) rows (<[Z.to_nat i := y]> rownrs)
          | None => Throw Undefined
          end
      | None => Throw Undefined
      end
  end.

(** The second loop of [adjustRownrs], for the [n] indices from [i] on:
    the order flag is unset at the first row number that is not greater
    than the one before it, where the loop is left. *)
Fixpoint order_loop (n : nat) (i : Z) (rownrs : list Z) : outcome bool :=
  match n with
  | O => Ok true
  | S n =>
      match elem rownrs i, elem rownrs (i - 1) with
      | Some a, Some b =>
          if decide (a <= b) then Ok false else order_loop n (i + 1) rownrs
      | _, _ => Throw Undefined
      end
  end.

(** [RefTable::adjustRownrs] for a table with the row numbers [rows] in
    its [rowStorage_p]: the row numbers in [rowStorage] afterwards and the
    flag returned. [rowStorage.resize (nr, True)] keeps the first [nr] row
    numbers; when [rowStorage] is [rowStorage_p] itself, [rows] is that
    array after the resize. *)
Definition adjustRownrs_on (same : bool) (rows : list Z) (nr : Z) (rowStorage : list Z)
    (determineOrder : bool) : outcome (list Z * bool) :=
  if decide (nr <= Z.of_nat (length rowStorage)) then
    let rowStorage := take (Z.to_nat nr) rowStorage in
    rownrs ← adjust_loop same (Z.to_nat nr) 0 rows rowStorage;
    rowOrder ← (if determineOrder then order_loop (Z.to_nat (nr - 1)) 1 rownrs
                else Ok true);
    Ok (rownrs, rowOrder)
  else Throw AipsError.

(** [RefTable::adjustRownrs] of the table [r] for a vector of the
    caller. *)
Definition RefTable_adjustRownrs (r : ref_table) (nr : Z) (rowStorage : list Z)
    (determineOrder : bool) : outcome (list Z * bool) :=
  adjustRownrs_on false (rowStorage_p (rt_rows r)) nr rowStorage determineOrder.

(** [RefTable::adjustRownrs] of the table [r] for its own [rowStorage_p]:
    the result is also the new storage of the table. *)
Definition RefTable_adjustRownrs_own (r : ref_table) (nr : Z) (determineOrder : bool)
    : outcome (list Z * bool) :=
  adjustRownrs_on true [] nr (rowStorage_p (rt_rows r)) determineOrder.

(** Modelled from the spec: [BaseTable::adjustRownrs] is not part of the
    sources at hand. "if the table being referenced is itself a reference
    table, row numbers are rewritten at construction time ... and the
    row-order flag is recomputed unless the caller already proved order";
    the view of rows 3, 4 and 0 of a table has "rowOrder = false": for a
    table that is not a reference table the row numbers are left as they
    are and the flag tells whether they are strictly increasing. *)
Definition adjustRownrs (btp : BaseTable) (nr : Z) (rowStorage : list Z)
    (determineOrder : bool) : outcome (list Z * bool) :=
  match btp with
  | Plain _ =>
      Ok (rowStorage,
          if determineOrder
          then bool_decide (ascending (take (Z.to_nat nr) rowStorage)) else true)
  | Ref r => RefTable_adjustRownrs r nr rowStorage determineOrder
  end.

(** The loop that checks the row numbers. *)
Fixpoint check_rows (rows : list Z) (nmax : Z) : outcome unit :=
  match rows with
  | [] => Ok ()
  | r :: rows' => if decide (r >= nmax) then Throw (indexError r) else check_rows rows' nmax
  end.

(** [RefTable::RefTable (BaseTable* btp, const Vector<rownr_t>& rownrs)] *)
Definition RefTable_of_rows (btp : BaseTable) (rownrs : list Z) : outcome ref_table :=
  let nrrow := Z.of_nat (length rownrs) in
  let tdesc := BaseTable_tableDesc btp in
  '(nameMap, colMap) ← setup btp tdesc;
  let rowStorage := rownrs in
  let nmax := BaseTable_nrow btp in
  _ ← check_rows (take (Z.to_nat nrrow) rowStorage) nmax;
  '(rowStorage, rowOrd) ← adjustRownrs btp nrrow rowStorage true;
  Ok {| tableName := "";
        baseTabPtr_p := BaseTable_root btp;
        rowOrd_p := rowOrd;
        nameMap_p := nameMap;
        tdescPtr_p := tdesc;
        colMap_p := colMap;
        rt_rows := {| rowStorage_p := rowStorage; nrrow_p := nrrow; changed_p := true |} |}.

(** *** Writing and reading a reference table *)

(** [std::numeric_limits<uInt>::max()] *)
Definition uInt_max : Z := 2^32 - 1.

(** The loop of [writeRefTable] that puts the row numbers, at most 2^20 at
    once; [vals] is the buffer the values are taken from. A loop that does
    not end is [Undefined]. *)
Fixpoint put_loop (fuel : nat) (mk : Z -> token) (vals : list Z) (nrrow done : Z)
    (ios : list token) : outcome (list token) :=
  match fuel with
  | O => Throw Undefined
  | S fuel =>
      if decide (done < nrrow) then
        let todo := Z.min (wrap64 (nrrow - done)) 1048576 in
        if decide (0 <= done /\ done + todo <= Z.of_nat (length vals)) then
          put_loop fuel mk vals nrrow (wrap64 (done + todo))
            (ios ++ (mk <$> take (Z.to_nat todo) (drop (Z.to_nat done) vals)))
        else Throw Undefined
      else Ok ios
  end.

(** The loops of [getRef] that get the row numbers: [rows] is the buffer of
    [nrrow] values they are stored in; the number of values to get is
    computed from the member [nrrow_p]. *)
Fixpoint get_loop (fuel : nat) (get : list token -> outcome (Z * list token))
    (nrrow nrrow_p done : Z) (rows : list Z) (ios : list token)
    : outcome (list Z * list token) :=
  match fuel with
  | O => Throw Undefined
  | S fuel =>
      if decide (done < nrrow) then
        let todo := Z.min (wrap64 (nrrow_p - done)) 1048576 in
        '(vs, ios) ← get_values get (Z.to_nat todo) ios;
        if decide (0 <= done /\ done + todo <= Z.of_nat (length rows)) then
          get_loop fuel get nrrow nrrow_p (wrap64 (done + todo))
            (take (Z.to_nat done) rows ++ vs ++ drop (Z.to_nat (done + todo)) rows)
            ios
        else Throw Undefined
      else Ok (rows, ios)
  end.

(** Modelled from the spec: [TableDesc] is not part of the sources at
    hand. "column rename map, ordered column names": a description is the
    list of the names of its columns in order, and no two columns of a
    description have the same name. [desc.addColumn] adds a column at the
    end and throws (a [TableError]) when the description has a column of
    that name; [desc.renameColumn (newname, oldname)] gives the column
    another name and throws when the old name is not a column or the new
    name is one already. *)
Definition addColumn (desc : list string) (name : string) : outcome (list string) :=
  if decide (name ∈ desc) then Throw TableError else Ok (desc ++ [name]).

Definition renameColumn (desc : list string) (newname oldname : string)
    : outcome (list string) :=
  if decide (oldname ∈ desc) then
    if decide (newname ∈ desc) then Throw AipsError
    else Ok ((fun c => if decide (c = oldname) then newname else c) <$> desc)
  else Throw AipsError.

(** [RefTable::makeDesc]: the description and the name map without the
    columns that have disappeared from the root table. *)
Fixpoint makeDesc_loop (rootDesc : list string) (nameMap : name_map)
    (names : list string) (desc unknownCol : list string)
    : outcome (list string * list string) :=
  match names with
  | [] => Ok (desc, unknownCol)
  | name :: names' =>
      mapVal ← map_at nameMap name;
      if decide (mapVal ∈ rootDesc) then
        desc ← addColumn desc mapVal;
        desc ← (if decide (name <> mapVal) then renameColumn desc name mapVal
                else Ok desc);
        makeDesc_loop rootDesc nameMap names' desc unknownCol
      else makeDesc_loop rootDesc nameMap names' desc (unknownCol ++ [name])
  end.

Definition makeDesc (desc rootDesc : list string) (nameMap : name_map)
    (names : list string) : outcome (list string * name_map) :=
  let names := if decide (length names = 0%nat) then nameMap.*1 else names in
  '(desc, unknownCol) ← makeDesc_loop rootDesc nameMap names desc [];
  Ok (desc, foldl map_erase nameMap unknownCol).

Section Persistence.

(** Modelled from the spec: [Path] (casa/OS) and the opening of a table by
    its name ([Table]) are not part of the sources at hand, nor is
    [BaseTable::getTableInfo]. "a reference table serializes {root table
    path (relative), ...}; on load the root table is reopened": the model
    takes the two functions on paths, the tables that can be opened at a
    path for a table option, and the outcome of reading the table info. *)
Variable stripDirectory : string -> string -> string.
Variable addDirectory : string -> string -> string.
Variable Table_open : string -> Z -> outcome root_table.
Variable Table_Old : Z.
Variable Table_Update : Z.
Variable getTableInfo : string -> outcome unit.

(** [RefTable::writeRefTable]: what is put in the stream after the start of
    the table file, and the table afterwards. *)
Definition writeRefTable (t : ref_table) : outcome (ref_table * list token) :=
  let nrrow := nrrow_p (rt_rows t) in
  let rowStorage := rowStorage_p (rt_rows t) in
  if changed_p (rt_rows t) then
    let version :=
      if decide (nrrow < uInt_max /\ root_nrow (baseTabPtr_p t) < uInt_max
                 /\ Forall (fun r => r < uInt_max) rowStorage)
      then 2 else 3 in
    let ios :=
      [VString "RefTable"; ObjStart "RefTable" version;
       VString (stripDirectory (root_name (baseTabPtr_p t)) (tableName t));
       VMap (nameMap_p t); VStrings (tdescPtr_p t)] in
    let ios :=
      if decide (version = 2) then
        ios ++ [VuInt (wrap32 (root_nrow (baseTabPtr_p t))); VBool (rowOrd_p t);
                VuInt (wrap32 nrrow)]
      else
        ios ++ [VRownr (root_nrow (baseTabPtr_p t)); VBool (rowOrd_p t);
                VRownr nrrow] in
    ios ←
      (if decide (version = 2) then
         if decide (0 <= nrrow <= Z.of_nat (length rowStorage)) then
           let rows32 := wrap32 <$> take (Z.to_nat nrrow) rowStorage in
           put_loop (S (Z.to_nat nrrow)) VuInt rows32 nrrow 0 ios
         else Throw AipsError
       else put_loop (S (Z.to_nat nrrow)) VRownr rowStorage nrrow 0 ios);
    Ok (mkRefTable (tableName t) (baseTabPtr_p t) (rowOrd_p t) (nameMap_p t)
          (tdescPtr_p t) (colMap_p t)
          {| rowStorage_p := rowStorage; nrrow_p := nrrow; changed_p := false |},
        ios ++ [ObjEnd])
  else Ok (t, []).

(** [RefTable::getRef] for the table with name [name] and [nrrow_p] rows
    (the DebugAssert is compiled out): the table after the call. *)
Definition getRef (name : string) (nrrow_p : Z) (ios : list token) (opt : Z)
    : outcome ref_table :=
  '(version, ios) ← getstart "RefTable" ios;
  if decide (version > 3) then Throw TableError
  else
    '(rootName, ios) ← get_String ios;
    let rootName := addDirectory rootName name in
    '(nameMap, ios) ← get_Map ios;
    '(names, ios) ← (if decide (version > 1) then get_Strings ios else Ok ([], ios));
    '(rootNrow, rowOrd, nrrow, ios) ←
      (if decide (version > 2) then
         '(rootNrow, ios) ← get_rownr ios;
         '(rowOrd, ios) ← get_Bool ios;
         '(nrrow, ios) ← get_rownr ios;
         Ok (rootNrow, rowOrd, nrrow, ios)
       else
         '(n1, ios) ← get_uInt ios;
         '(rowOrd, ios) ← get_Bool ios;
         '(n2, ios) ← get_uInt ios;
         Ok (n1, rowOrd, n2, ios));
    let rowStorage := replicate (Z.to_nat nrrow) 0 in
    '(rowStorage, ios) ←
      (if decide (version > 2) then
         get_loop (S (Z.to_nat nrrow)) get_rownr nrrow nrrow_p 0 rowStorage ios
       else
         get_loop (S (Z.to_nat nrrow)) get_uInt nrrow nrrow_p 0
           (replicate (Z.to_nat nrrow) 0) ios);
    _ ← getend ios;
    tab ← (if decide (opt = Table_Old) then Table_open rootName Table_Old
           else Table_open rootName Table_Update);
    if decide (rootNrow > root_nrow tab) then Throw TableInvOper
    else
      '(tdesc, nameMap) ← makeDesc [] (root_columns tab) nameMap names;
      colMap ← makeRefCol tab nameMap tdesc;
      _ ← getTableInfo name;
      Ok {| tableName := name;
            baseTabPtr_p := tab;
            rowOrd_p := rowOrd;
            nameMap_p := nameMap;
            tdescPtr_p := tdesc;
            colMap_p := colMap;
            rt_rows := {| rowStorage_p := rowStorage; nrrow_p := nrrow_p;
                          changed_p := false |} |}.

(** [RefTable::RefTable (AipsIO&, name, nrrow, opt, ...)] *)
Definition RefTable_open (ios : list token) (name : string) (nrrow : Z) (opt : Z)
    : outcome ref_table :=
  getRef name nrrow ios opt.

End Persistence.

(** *** A reference table made from row numbers *)

(** The tables a reference table can be made from: a reference table has
    its rows within its storage, they are rows of its root table, and its
    columns refer to columns of the root table. *)
Definition table_ok (btp : BaseTable) : Prop :=
  match btp with
  | Plain p => True
  | Ref r =>
      0 <= nrrow_p (rt_rows r) <= Z.of_nat (length (rowStorage_p (rt_rows r)))
      /\ Forall (fun x => 0 <= x < root_nrow (baseTabPtr_p r)) (rows (rt_rows r))
      /\ Forall (fun c => exists rc, map_at (nameMap_p r) c = Ok rc
                            /\ rc ∈ root_columns (baseTabPtr_p r))
           (tdescPtr_p r)
  end.

Lemma map_at_identity (l : list string) (c : string) :
  c ∈ l -> map_at ((fun c => (c, c)) <$> l) c = Ok c.
Proof.
  induction l as [|a l IH]; intros Hc; [by apply elem_of_nil in Hc|].
  cbn [fmap list_fmap map_at]. destruct (decide (a = c)) as [->|Hne]; [done|].
  apply elem_of_cons in Hc as [->|Hc]; [done|]. by apply IH.
Qed.

Lemma makeRefCol_ok root nameMap tdesc :
  Forall (fun c => exists rc, map_at nameMap c = Ok rc /\ rc ∈ root_columns root) tdesc ->
  exists colMap, makeRefCol root nameMap tdesc = Ok colMap.
Proof.
  induction 1 as [|c tdesc (rc & Hat & Hin) _ (colMap & IH)]; [by exists []|].
  cbn [makeRefCol]. rewrite Hat. cbn [mbind outcome_bind].
  unfold getColumn. destruct (decide (rc ∈ root_columns root)); [|done].
  cbn [mbind outcome_bind]. rewrite IH. cbn [mbind outcome_bind]. eauto.
Qed.

Lemma setup_ok btp :
  table_ok btp ->
  exists nameMap colMap, setup btp (BaseTable_tableDesc btp) = Ok (nameMap, colMap).
Proof.
  intros Hok. unfold setup.
  destruct btp as [p|r]; cbn [BaseTable_tableDesc BaseTable_root].
  - destruct (makeRefCol_ok p ((fun c => (c, c)) <$> root_columns p) (root_columns p))
      as (colMap & ->).
    + apply Forall_forall. intros c Hc. exists c. split; [|done].
      by apply map_at_identity.
    + cbn [mbind outcome_bind]. eauto.
  - destruct Hok as (_ & _ & H).
    destruct (makeRefCol_ok _ _ _ H) as (colMap & ->).
    cbn [mbind outcome_bind]. eauto.
Qed.

Lemma check_rows_spec (l : list Z) (nmax : Z) :
  (Forall (fun r => r < nmax) l /\ check_rows l nmax = Ok ())
  \/ (exists r, r ∈ l /\ nmax <= r /\ check_rows l nmax = Throw (indexError r)).
Proof.
  induction l as [|a l IH]; [left; split; [constructor|done]|].
  cbn [check_rows]. destruct (decide (a >= nmax)) as [Hge|Hlt].
  - right. exists a. split; [by apply elem_of_cons; left|]. split; [lia|done].
  - destruct IH as [[H1 H2]|(r & H1 & H2 & H3)].
    + left. split; [|done]. constructor; [lia|done].
    + right. exists r. split; [by apply elem_of_cons; right|]. done.
Qed.

Lemma mapM_lookup_valid (storage : list Z) (nr bound : Z) (l : list Z) :
  0 <= nr <= Z.of_nat (length storage) ->
  Forall (fun x => 0 <= x < bound) (take (Z.to_nat nr) storage) ->
  Forall (fun r => 0 <= r < nr) l ->
  exists rownrs, mapM (fun i => storage !! Z.to_nat i) l = Some rownrs
    /\ length rownrs = length l
    /\ Forall (fun x => 0 <= x < bound) rownrs.
Proof.
  intros Hnr Hvalid. induction 1 as [|r l Hr _ (rownrs & IH & Hlen & Hall)].
  - exists []. split; [done|]. split; [done|]. constructor.
  - destruct (lookup_lt_is_Some_2 storage (Z.to_nat r)) as [x Hx]; [lia|].
    exists (x :: rownrs). cbn [mapM]. rewrite Hx, IH. cbn.
    split; [done|]. split; [by rewrite Hlen|]. constructor; [|done].
    rewrite Forall_forall in Hvalid. apply Hvalid.
    apply list_elem_of_lookup. exists (Z.to_nat r). rewrite lookup_take_lt by lia. done.
Qed.

Lemma elem_lookup (l : list Z) (k : nat) : elem l (Z.of_nat k) = l !! k.
Proof. unfold elem. destruct (decide _); [|lia]. by rewrite Nat2Z.id. Qed.

(** The first loop of [adjustRownrs] on a vector of the caller replaces
    the row numbers from [k] on by what [rows] has there. *)
Lemma adjust_loop_other (rows : list Z) : forall (n k : nat) (rownrs : list Z),
  (k + n = length rownrs)%nat ->
  Forall (fun x => 0 <= x < Z.of_nat (length rows)) (drop k rownrs) ->
  exists tail,
    mapM (fun x => rows !! Z.to_nat x) (drop k rownrs) = Some tail
    /\ adjust_loop false n (Z.of_nat k) rows rownrs = Ok (take k rownrs ++ tail).
Proof.
  induction n as [|n IH]; intros k rownrs Hlen Hall.
  - rewrite drop_ge by lia. exists []. split; [done|]. cbn [adjust_loop].
    rewrite take_ge by lia. by rewrite app_nil_r.
  - destruct (lookup_lt_is_Some_2 rownrs k) as [x Hx]; [lia|].
    rewrite (drop_S _ _ _ Hx) in Hall |- *. apply Forall_cons in Hall as [Hxr Hall].
    destruct (lookup_lt_is_Some_2 rows (Z.to_nat x)) as [y Hy]; [lia|].
    destruct (IH (S k) (<[k := y]> rownrs)) as (tail & Hm & Hl).
    { rewrite length_insert. lia. }
    { rewrite drop_insert_lt by lia. done. }
    rewrite drop_insert_lt in Hm by lia.
    exists (y :: tail). split.
    + cbn [mapM]. rewrite Hy, Hm. done.
    + cbn [adjust_loop]. rewrite elem_lookup, Hx.
      unfold elem at 1. destruct (decide (0 <= x)); [|lia]. rewrite Hy.
      rewrite Nat2Z.id. replace (Z.of_nat k + 1) with (Z.of_nat (S k)) by lia.
      rewrite Hl. f_equal.
      rewrite (take_S_r _ _ y) by (apply list_lookup_insert_eq; lia).
      rewrite take_insert_ge by lia. by rewrite <- app_assoc.
Qed.

Lemma sorted_adjacent (l : list Z) (k : nat) a b :
  ascending l -> l !! k = Some b -> l !! S k = Some a -> b < a.
Proof.
  intros Hl Hb Ha. unfold ascending in Hl. rewrite <- (take_drop k l) in Hl.
  apply StronglySorted_app_1_r in Hl.
  rewrite (drop_S _ _ _ Hb), (drop_S _ _ _ Ha) in Hl.
  apply StronglySorted_inv in Hl as [_ Hall]. by apply Forall_cons in Hall as [? _].
Qed.

Lemma sorted_snoc (l : list Z) (k : nat) a b :
  ascending (take (S k) l) -> l !! k = Some b -> l !! S k = Some a -> b < a ->
  ascending (take (S (S k)) l).
Proof.
  intros Hl Hb Ha Hlt. unfold ascending in *.
  rewrite (take_S_r _ _ _ Ha). apply StronglySorted_app_2; [|done|repeat constructor].
  intros x y Hx Hy. apply list_elem_of_singleton in Hy as ->.
  rewrite (take_S_r _ _ _ Hb) in Hx, Hl. apply elem_of_app in Hx as [Hx|Hx].
  - assert (x < b); [|lia].
    eapply StronglySorted_app_1_elem_of; [exact Hl|exact Hx|].
    by apply list_elem_of_singleton.
  - apply list_elem_of_singleton in Hx as ->. done.
Qed.

(** The second loop of [adjustRownrs] finds out whether the row numbers
    are strictly increasing. *)
Lemma order_loop_spec (l : list Z) : forall (n k : nat),
  (S k + n = length l)%nat -> ascending (take (S k) l) ->
  order_loop n (Z.of_nat (S k)) l = Ok (bool_decide (ascending l)).
Proof.
  induction n as [|n IH]; intros k Hlen Hasc.
  - cbn [order_loop]. rewrite take_ge in Hasc by lia.
    by rewrite bool_decide_eq_true_2.
  - destruct (lookup_lt_is_Some_2 l (S k)) as [a Ha]; [lia|].
    destruct (lookup_lt_is_Some_2 l k) as [b Hb]; [lia|].
    cbn [order_loop]. rewrite elem_lookup, Ha.
    replace (Z.of_nat (S k) - 1) with (Z.of_nat k) by lia. rewrite elem_lookup, Hb.
    destruct (decide (a <= b)) as [Hle|Hgt].
    + rewrite bool_decide_eq_false_2; [done|]. intros Hl.
      pose proof (sorted_adjacent l k a b Hl Hb Ha). lia.
    + replace (Z.of_nat (S k) + 1) with (Z.of_nat (S (S k))) by lia.
      apply IH; [lia|]. apply (sorted_snoc l k a b); auto. lia.
Qed.

Lemma order_loop_all (l : list Z) :
  order_loop (Z.to_nat (Z.of_nat (length l) - 1)) 1 l = Ok (bool_decide (ascending l)).
Proof.
  destruct l as [|x l].
  - change (Z.to_nat (Z.of_nat (length (@nil Z)) - 1)) with 0%nat. cbn [order_loop].
    rewrite bool_decide_eq_true_2; [done|constructor].
  - cbn [length]. replace (Z.to_nat (Z.of_nat (S (length l)) - 1)) with (length l) by lia.
    apply (order_loop_spec (x :: l) (length l) 0%nat); [done|].
    cbn [take]. repeat constructor.
Qed.

(** What [adjustRownrs] does with a vector of the caller whose first [nr]
    row numbers are rows of the table. *)
Lemma RefTable_adjustRownrs_spec (r : ref_table) (nr : Z) (rowStorage : list Z)
    (determineOrder : bool) :
  0 <= nr <= Z.of_nat (length rowStorage) ->
  Forall (fun i => 0 <= i < Z.of_nat (length (rowStorage_p (rt_rows r))))
    (take (Z.to_nat nr) rowStorage) ->
  exists rownrs,
    mapM (fun i => rowStorage_p (rt_rows r) !! Z.to_nat i) (take (Z.to_nat nr) rowStorage)
      = Some rownrs
    /\ RefTable_adjustRownrs r nr rowStorage determineOrder
       = Ok (rownrs, if determineOrder then bool_decide (ascending rownrs) else true).
Proof.
  intros Hnr Hall. unfold RefTable_adjustRownrs, adjustRownrs_on.
  destruct (decide _) as [_|]; [|lia]. cbv zeta.
  destruct (adjust_loop_other (rowStorage_p (rt_rows r)) (Z.to_nat nr) 0%nat
              (take (Z.to_nat nr) rowStorage)) as (rownrs & Hm & Hl).
  { rewrite length_take. lia. }
  { by rewrite drop_0. }
  rewrite drop_0 in Hm. rewrite take_0 in Hl. cbn [app] in Hl.
  change (Z.of_nat 0) with 0 in Hl. rewrite Hl. cbn [mbind outcome_bind].
  exists rownrs. split; [done|]. destruct determineOrder; [|done].
  assert (Hlen : Z.of_nat (length rownrs) = nr).
  { apply length_mapM in Hm. rewrite <- Hm, length_take. lia. }
  rewrite <- Hlen at 1. rewrite order_loop_all. done.
Qed.

(** X1: making a reference table from a vector of row numbers. When some
    row number is not below the number of rows of the table the view is made
    from, the constructor throws an index error for such a row number and
    no table is made; otherwise it makes a table with one row per row
    number, all of them rows of the root table. *)
Theorem RefTable_of_rows_validates (btp : BaseTable) (rownrs : list Z) :
  table_ok btp -> Forall is_rownr rownrs ->
  (Forall (fun r => r < BaseTable_nrow btp) rownrs ->
     exists t, RefTable_of_rows btp rownrs = Ok t
       /\ baseTabPtr_p t = BaseTable_root btp
       /\ nrrow_p (rt_rows t) = Z.of_nat (length rownrs)
       /\ length (rows (rt_rows t)) = length rownrs
       /\ Forall (fun x => 0 <= x < root_nrow (baseTabPtr_p t)) (rows (rt_rows t)))
  /\ (Exists (fun r => BaseTable_nrow btp <= r) rownrs ->
     exists r, RefTable_of_rows btp rownrs = Throw (indexError r)
       /\ r ∈ rownrs /\ BaseTable_nrow btp <= r).
Proof.
  intros Hok Hrn. unfold RefTable_of_rows.
  destruct (setup_ok btp Hok) as (nameMap & colMap & ->).
  cbn [mbind outcome_bind]. rewrite Nat2Z.id, firstn_all.
  destruct (check_rows_spec rownrs (BaseTable_nrow btp))
    as [[Hall Hcheck]|(r & Hr & Hge & Hcheck)]; rewrite Hcheck;
    cbn [mbind outcome_bind].
  - split.
    + intros _. destruct btp as [p|r].
      * cbn [adjustRownrs mbind outcome_bind]. eexists. split; [reflexivity|].
        cbn [baseTabPtr_p rt_rows nrrow_p BaseTable_root]. unfold rows.
        cbn [nrrow_p rowStorage_p]. rewrite Nat2Z.id, firstn_all.
        split_and!; auto. apply Forall_forall. intros x Hx.
        rewrite Forall_forall in Hall, Hrn. cbn [BaseTable_nrow] in Hall.
        pose proof (Hall x Hx). destruct (Hrn x Hx). lia.
      * destruct Hok as (Hnr & Hvalid & _). cbn [BaseTable_nrow] in Hall.
        cbn [adjustRownrs].
        assert (Hin : Forall (fun r0 => 0 <= r0 < nrrow_p (rt_rows r)) rownrs).
        { apply Forall_forall. intros x Hx. rewrite Forall_forall in Hall, Hrn.
          pose proof (Hall x Hx). destruct (Hrn x Hx). lia. }
        destruct (mapM_lookup_valid (rowStorage_p (rt_rows r)) (nrrow_p (rt_rows r))
                    (root_nrow (baseTabPtr_p r)) rownrs Hnr Hvalid Hin)
          as (rownrs' & Hm & Hlen & Hv).
        destruct (RefTable_adjustRownrs_spec r (Z.of_nat (length rownrs)) rownrs true)
          as (rownrs2 & Hm2 & ->).
        { lia. }
        { rewrite Nat2Z.id, firstn_all. eapply Forall_impl; [exact Hin|].
          intros x Hx. cbn beta in *. lia. }
        rewrite Nat2Z.id, firstn_all, Hm in Hm2. inversion Hm2; subst rownrs2.
        cbn [mbind outcome_bind]. eexists. split; [reflexivity|].
        cbn [baseTabPtr_p rt_rows nrrow_p BaseTable_root]. unfold rows.
        cbn [nrrow_p rowStorage_p]. rewrite Nat2Z.id, <- Hlen, firstn_all.
        split_and!; auto.
    + intros Hex. apply Exists_exists in Hex as (x & Hx & Hge).
      rewrite Forall_forall in Hall. pose proof (Hall x Hx). lia.
  - split.
    + intros Hall. rewrite Forall_forall in Hall. pose proof (Hall r Hr). lia.
    + intros _. eauto.
Qed.

(** The table of the end-to-end scenario, 5 rows and a column [X], and the
    view of its rows 3, 4 and 0. *)
Definition example_root : root_table :=
  {| root_name := "table"; root_nrow := 5; root_columns := ["X"%string] |}.

Definition example_view : ref_table :=
  {| tableName := "";
     baseTabPtr_p := example_root;
     rowOrd_p := false;
     nameMap_p := [("X"%string, "X"%string)];
     tdescPtr_p := ["X"%string];
     colMap_p := [("X"%string, "X"%string)];
     rt_rows := {| rowStorage_p := [3; 4; 0]; nrrow_p := 3; changed_p := true |} |}.

Lemma example_view_made :
  RefTable_of_rows (Plain example_root) [3; 4; 0] = Ok example_view.
Proof. reflexivity. Qed.

Lemma example_view_ok : table_ok (Ref example_view).
Proof.
  cbn. split; [lia|]. split.
  - repeat constructor; lia.
  - repeat constructor. exists "X"%string. split; [reflexivity|].
    apply list_elem_of_singleton. reflexivity.
Qed.

Lemma example_row_error :
  RefTable_of_rows (Ref example_view) [2; 3; 7] = Throw (indexError 3).
Proof. reflexivity. Qed.

Lemma RefTable_of_rows_validates_witness :
  table_ok (Ref example_view) /\ Forall is_rownr [2; 0]
  /\ Forall (fun r => r < BaseTable_nrow (Ref example_view)) [2; 0]
  /\ exists t, RefTable_of_rows (Ref example_view) [2; 0] = Ok t
       /\ Forall (fun x => 0 <= x < 5) (rows (rt_rows t)).
Proof.
  assert (Hrn : Forall is_rownr [2; 0])
    by (repeat constructor; unfold is_rownr; lia).
  assert (Hall : Forall (fun r => r < BaseTable_nrow (Ref example_view)) [2; 0])
    by (repeat constructor; simpl; lia).
  split; [exact example_view_ok|]. split; [exact Hrn|]. split; [exact Hall|].
  destruct (proj1 (RefTable_of_rows_validates (Ref example_view) [2; 0]
                     example_view_ok Hrn) Hall) as (t & Ht & Hb & _ & _ & Hv).
  exists t. split; [exact Ht|]. rewrite Hb in Hv. exact Hv.
Defined.

(** *** Loading a persisted reference table *)

Lemma wrap64_small z : 0 <= z < 2^64 -> wrap64 z = z.
Proof. intros. unfold wrap64. by apply Z.mod_small. Qed.

Lemma wrap32_id z : 0 <= z < 2^32 -> wrap32 z = z.
Proof. intros. unfold wrap32. by apply Z.mod_small. Qed.

Lemma get_values_fmap (get : list token -> outcome (Z * list token)) (mk : Z -> token) :
  (forall v ios, get (mk v :: ios) = Ok (v, ios)) ->
  forall (n : nat) (vs : list Z) (rest : list token),
  (n <= length vs)%nat ->
  get_values get n ((mk <$> vs) ++ rest) = Ok (take n vs, (mk <$> drop n vs) ++ rest).
Proof.
  intros Hget. induction n as [|n IH]; intros vs rest Hn; [done|].
  destruct vs as [|v vs]; [cbn in Hn; lia|]. cbn [get_values fmap list_fmap app].
  rewrite Hget. cbn [mbind outcome_bind]. rewrite IH by (cbn in Hn; lia). done.
Qed.

Lemma put_loop_spec (mk : Z -> token) (vals : list Z) (nrrow : Z) :
  0 <= nrrow <= Z.of_nat (length vals) -> nrrow < 2^64 ->
  forall (fuel : nat) (done : Z) (ios : list token),
  0 <= done <= nrrow -> nrrow - done < Z.of_nat fuel ->
  put_loop fuel mk vals nrrow done ios
  = Ok (ios ++ (mk <$> take (Z.to_nat (nrrow - done)) (drop (Z.to_nat done) vals))).
Proof.
  intros Hn H64. induction fuel as [|fuel IH]; intros done ios Hd Hf; [lia|].
  cbn [put_loop]. destruct (decide (done < nrrow)) as [Hlt|Hge].
  - rewrite (wrap64_small (nrrow - done)) by lia.
    set (todo := Z.min (nrrow - done) 1048576).
    assert (Htodo : 1 <= todo <= nrrow - done) by (unfold todo; lia).
    destruct (decide _) as [_|Hbad]; [|lia].
    rewrite wrap64_small by lia. rewrite IH by lia.
    rewrite <- app_assoc, <- fmap_app. do 3 f_equal.
    replace (Z.to_nat (done + todo)) with (Z.to_nat done + Z.to_nat todo)%nat by lia.
    rewrite <- drop_drop, take_take_drop. f_equal. lia.
  - replace (nrrow - done) with 0 by lia. cbn. by rewrite app_nil_r.
Qed.

Lemma get_loop_spec (get : list token -> outcome (Z * list token)) (mk : Z -> token)
    (vals : list Z) (rest : list token) (nrrow : Z) :
  (forall v ios, get (mk v :: ios) = Ok (v, ios)) ->
  Z.of_nat (length vals) = nrrow -> nrrow < 2^64 ->
  forall (fuel : nat) (done : Z) (rows : list Z),
  0 <= done <= nrrow -> nrrow - done < Z.of_nat fuel ->
  length rows = length vals ->
  take (Z.to_nat done) rows = take (Z.to_nat done) vals ->
  get_loop fuel get nrrow nrrow done rows ((mk <$> drop (Z.to_nat done) vals) ++ rest)
  = Ok (vals, rest).
Proof.
  intros Hget Hn H64. induction fuel as [|fuel IH]; intros done rows Hd Hf Hlen Hpre; [lia|].
  cbn [get_loop]. destruct (decide (done < nrrow)) as [Hlt|Hge].
  - rewrite (wrap64_small (nrrow - done)) by lia.
    set (todo := Z.min (nrrow - done) 1048576).
    assert (Htodo : 1 <= todo <= nrrow - done) by (unfold todo; lia).
    rewrite (get_values_fmap get mk Hget) by (rewrite length_drop; lia).
    cbn [mbind outcome_bind]. destruct (decide _) as [_|Hbad]; [|lia].
    rewrite wrap64_small by lia. rewrite drop_drop.
    replace (Z.to_nat done + Z.to_nat todo)%nat with (Z.to_nat (done + todo)) by lia.
    apply IH; [lia|lia| |].
    + rewrite !length_app, length_take, length_take, !length_drop. lia.
    + rewrite Hpre.
      replace (Z.to_nat (done + todo)) with (Z.to_nat done + Z.to_nat todo)%nat by lia.
      rewrite app_assoc, take_take_drop.
      rewrite take_app_le by (rewrite length_take; lia).
      rewrite take_ge; [done|]. rewrite length_take. lia.
  - assert (done = nrrow) by lia. subst done.
    rewrite drop_ge by lia. cbn [fmap list_fmap app]. f_equal. f_equal.
    rewrite <- (take_ge rows (Z.to_nat nrrow)) by lia.
    rewrite Hpre. apply take_ge. lia.
Qed.

Lemma map_at_erase (m : name_map) (name c : string) :
  name <> c -> map_at (map_erase m name) c = map_at m c.
Proof.
  intros Hne. induction m as [|[k v] m IH]; [done|].
  unfold map_erase, name_map in *. rewrite filter_cons. cbn [fst].
  destruct (decide (k <> name)) as [Hk|Hk].
  - cbn [map_at]. destruct (decide (k = c)); [done|]. exact IH.
  - cbn [map_at]. destruct (decide (k = c)) as [->|]; [|exact IH].
    exfalso. apply Hk. congruence.
Qed.

Lemma map_at_erase_all (us : list string) (c : string) : forall m : name_map,
  c ∉ us -> map_at (foldl map_erase m us) c = map_at m c.
Proof.
  induction us as [|u us IH]; intros m Hc; [done|]. cbn [foldl].
  apply not_elem_of_cons in Hc as [Hne Hc].
  rewrite IH by done. apply map_at_erase. congruence.
Qed.

Lemma map_at_keys (m : name_map) :
  Forall (fun c => exists rc, map_at m c = Ok rc) m.*1.
Proof.
  induction m as [|[k v] m IH]; [constructor|]. cbn [fmap list_fmap fst].
  constructor.
  - exists v. cbn [map_at]. by destruct (decide (k = k)).
  - eapply Forall_impl; [exact IH|]. intros c (rc & Hrc). cbn [map_at].
    destruct (decide (k = c)); eauto.
Qed.

(** The column [c] of the name map refers to a column that the root
    table has. *)
Definition is_known (rootDesc : list string) (nameMap : name_map) (c : string) : bool :=
  match map_at nameMap c with
  | Ok rc => bool_decide (rc ∈ rootDesc)
  | Throw _ => false
  end.

(** The names of [names] whose column the root table has, and the
    others. *)
Definition kept (rootDesc : list string) (nameMap : name_map) (names : list string)
    : list string :=
  filter (fun c => is_known rootDesc nameMap c = true) names.

Definition disappeared (rootDesc : list string) (nameMap : name_map)
    (names : list string) : list string :=
  filter (fun c => is_known rootDesc nameMap c <> true) names.

(** No name collides: a column that is added to the description, with
    its name in the root table and then with its own name, has neither
    name in common with a column of [desc] or with a column added before
    it. *)
Definition collision_free (rootDesc : list string) (nameMap : name_map)
    (names desc : list string) : Prop :=
  forall pre name post mapVal,
    names = pre ++ name :: post ->
    map_at nameMap name = Ok mapVal -> mapVal ∈ rootDesc ->
    (mapVal ∉ desc ++ kept rootDesc nameMap pre)
    /\ (name ∉ desc ++ kept rootDesc nameMap pre).

(** The names that [makeDesc] works on: those of the map when none are
    given. *)
Definition names_used (nameMap : name_map) (names : list string) : list string :=
  if decide (length names = 0%nat) then nameMap.*1 else names.

Lemma is_known_true rootDesc nameMap c rc :
  map_at nameMap c = Ok rc -> rc ∈ rootDesc -> is_known rootDesc nameMap c = true.
Proof. intros H Hin. unfold is_known. rewrite H. by apply bool_decide_eq_true_2. Qed.

Lemma is_known_false rootDesc nameMap c rc :
  map_at nameMap c = Ok rc -> rc ∉ rootDesc -> is_known rootDesc nameMap c <> true.
Proof.
  intros H Hin. unfold is_known. rewrite H. rewrite bool_decide_eq_false_2 by done. done.
Qed.

Lemma kept_cons_known rootDesc nameMap c names :
  is_known rootDesc nameMap c = true ->
  kept rootDesc nameMap (c :: names) = c :: kept rootDesc nameMap names.
Proof. intros H. unfold kept. rewrite filter_cons. by rewrite decide_True. Qed.

Lemma kept_cons_unknown rootDesc nameMap c names :
  is_known rootDesc nameMap c <> true ->
  kept rootDesc nameMap (c :: names) = kept rootDesc nameMap names.
Proof. intros H. unfold kept. rewrite filter_cons. by rewrite decide_False. Qed.

Lemma collision_free_tail_known rootDesc nameMap name names desc :
  is_known rootDesc nameMap name = true ->
  collision_free rootDesc nameMap (name :: names) desc <->
  (forall mapVal, map_at nameMap name = Ok mapVal -> mapVal ∈ rootDesc ->
     (mapVal ∉ desc) /\ (name ∉ desc))
  /\ collision_free rootDesc nameMap names (desc ++ [name]).
Proof.
  intros Hk. split.
  - intros H. split.
    + intros mapVal Hm Hin. destruct (H [] name names mapVal eq_refl Hm Hin) as [H1 H2].
      cbn in H1, H2. by rewrite app_nil_r in H1, H2.
    + intros pre n post mapVal -> Hm Hin.
      destruct (H (name :: pre) n post mapVal eq_refl Hm Hin) as [H1 H2].
      rewrite kept_cons_known in H1, H2 by done.
      rewrite <- app_assoc. done.
  - intros [H0 H] pre n post mapVal Hsplit Hm Hin. destruct pre as [|p pre].
    + cbn in Hsplit. inversion Hsplit; subst n post. cbn. rewrite app_nil_r. by apply H0.
    + cbn in Hsplit. inversion Hsplit; subst p names.
      rewrite kept_cons_known by done.
      destruct (H pre n post mapVal eq_refl Hm Hin) as [H1 H2].
      rewrite <- app_assoc in H1, H2. done.
Qed.

Lemma collision_free_tail_unknown rootDesc nameMap name names desc :
  is_known rootDesc nameMap name <> true ->
  (forall mapVal, map_at nameMap name = Ok mapVal -> mapVal ∉ rootDesc) ->
  collision_free rootDesc nameMap (name :: names) desc <->
  collision_free rootDesc nameMap names desc.
Proof.
  intros Hk Hout. split.
  - intros H pre n post mapVal -> Hm Hin.
    destruct (H (name :: pre) n post mapVal eq_refl Hm Hin) as [H1 H2].
    by rewrite kept_cons_unknown in H1, H2 by done.
  - intros H pre n post mapVal Hsplit Hm Hin. destruct pre as [|p pre].
    + cbn in Hsplit. inversion Hsplit; subst n post. by destruct (Hout mapVal Hm).
    + cbn in Hsplit. inversion Hsplit; subst p names.
      rewrite kept_cons_unknown by done. by apply (H pre n post mapVal).
Qed.

Lemma rename_last (desc : list string) (name rc : string) :
  rc ∉ desc ->
  (fun c => if decide (c = rc) then name else c) <$> (desc ++ [rc]) = desc ++ [name].
Proof.
  intros Hout. rewrite fmap_app. cbn [fmap list_fmap].
  destruct (decide (rc = rc)); [|done]. f_equal.
  rewrite <- (list_fmap_id desc) at 2. apply list_fmap_ext. intros i c Hc.
  destruct (decide (c = rc)) as [->|]; [|done].
  destruct Hout. by eapply list_elem_of_lookup_2.
Qed.

(** One column is added to the description under its own name when
    neither of its names is in use. *)
Lemma add_rename (desc : list string) (name rc : string) :
  rc ∉ desc -> name ∉ desc ->
  (desc' ← addColumn desc rc;
   if decide (name <> rc) then renameColumn desc' name rc else Ok desc')
  = Ok (desc ++ [name]).
Proof.
  intros Hrc Hname. unfold addColumn. rewrite decide_False by done.
  cbn [mbind outcome_bind]. destruct (decide (name <> rc)) as [Hne|Heq].
  - unfold renameColumn. rewrite decide_True by (apply elem_of_app; right; by left).
    rewrite decide_False.
    + by rewrite rename_last.
    + intros Hin. apply elem_of_app in Hin as [Hin|Hin]; [done|].
      apply list_elem_of_singleton in Hin. done.
  - destruct (decide (name = rc)) as [->|]; [done|]. by destruct Heq.
Qed.

(** When the two calls succeed, neither name was in use. *)
Lemma add_rename_inv (desc : list string) (name rc : string) desc' :
  (desc' ← addColumn desc rc;
   if decide (name <> rc) then renameColumn desc' name rc else Ok desc')
  = Ok desc' ->
  (rc ∉ desc) /\ (name ∉ desc) /\ desc' = desc ++ [name].
Proof.
  intros H. pose proof H as H'. unfold addColumn in H'.
  destruct (decide (rc ∈ desc)) as [|Hrc]; [done|].
  cbn [mbind outcome_bind] in H'.
  assert (Hname : name ∉ desc).
  { destruct (decide (name <> rc)) as [Hne|Heq].
    - unfold renameColumn in H'. destruct (decide _); [|done].
      destruct (decide (name ∈ (desc ++ [rc]))) as [|Hout]; [done|].
      intros Hin. apply Hout. apply elem_of_app. by left.
    - destruct (decide (name = rc)) as [->|]; [done|]. by destruct Heq. }
  split; [done|]. split; [done|].
  rewrite add_rename in H by done. by inversion H.
Qed.

(** [makeDesc] on names without a collision. *)
Lemma makeDesc_loop_free rootDesc nameMap : forall names desc unknownCol,
  Forall (fun c => exists rc, map_at nameMap c = Ok rc) names ->
  collision_free rootDesc nameMap names desc ->
  makeDesc_loop rootDesc nameMap names desc unknownCol
  = Ok (desc ++ kept rootDesc nameMap names,
        unknownCol ++ disappeared rootDesc nameMap names).
Proof.
  induction names as [|name names IH]; intros desc unknownCol Hn Hfree.
  - cbn. by rewrite !app_nil_r.
  - apply Forall_cons in Hn as [(rc & Hrc) Hn]. cbn [makeDesc_loop].
    rewrite Hrc. cbn [mbind outcome_bind]. unfold disappeared. rewrite filter_cons.
    destruct (decide (rc ∈ rootDesc)) as [Hin|Hout].
    + pose proof (is_known_true _ _ _ _ Hrc Hin) as Hk.
      apply (proj1 (collision_free_tail_known _ _ _ _ _ Hk)) in Hfree as [H0 Hfree].
      destruct (H0 rc Hrc Hin) as [H1 H2].
      pose proof (add_rename desc name rc H1 H2) as Har.
      unfold addColumn in Har |- *. destruct (decide (rc ∈ desc)); [done|].
      cbn [mbind outcome_bind] in Har |- *. rewrite Har. cbn [mbind outcome_bind].
      rewrite IH by done. rewrite kept_cons_known by done.
      rewrite decide_False by (rewrite Hk; tauto). by rewrite <- app_assoc.
    + pose proof (is_known_false _ _ _ _ Hrc Hout) as Hk.
      assert (Hmap : forall mapVal, map_at nameMap name = Ok mapVal -> mapVal ∉ rootDesc)
        by (intros mapVal Hm; congruence).
      apply (proj1 (collision_free_tail_unknown _ _ _ _ _ Hk Hmap)) in Hfree.
      rewrite IH by done. rewrite kept_cons_unknown by done.
      rewrite decide_True by done. by rewrite <- app_assoc.
Qed.

(** [makeDesc] succeeds only on names without a collision. *)
Lemma makeDesc_loop_inv rootDesc nameMap : forall names desc unknownCol res,
  makeDesc_loop rootDesc nameMap names desc unknownCol = Ok res ->
  collision_free rootDesc nameMap names desc.
Proof.
  induction names as [|name names IH]; intros desc unknownCol res H.
  - intros pre n post mapVal Hsplit. by destruct pre.
  - cbn [makeDesc_loop] in H. destruct (map_at nameMap name) as [rc|e] eqn:Hrc; [|done].
    cbn [mbind outcome_bind] in H. destruct (decide (rc ∈ rootDesc)) as [Hin|Hout].
    + pose proof (is_known_true _ _ _ _ Hrc Hin) as Hk.
      apply (proj2 (collision_free_tail_known _ _ _ _ _ Hk)).
      destruct (addColumn desc rc) as [d1|e] eqn:Ea; [|done].
      cbn [mbind outcome_bind] in H.
      destruct (if decide (name <> rc) then renameColumn d1 name rc else Ok d1)
        as [d2|e] eqn:Er; [|done].
      cbn [mbind outcome_bind] in H.
      destruct (add_rename_inv desc name rc d2) as (H1 & H2 & ->).
      { rewrite Ea. cbn [mbind outcome_bind]. exact Er. }
      split; [|by eapply IH].
      intros mapVal Hm _. rewrite Hrc in Hm. inversion Hm; subst. done.
    + pose proof (is_known_false _ _ _ _ Hrc Hout) as Hk.
      assert (Hmap : forall mapVal, map_at nameMap name = Ok mapVal -> mapVal ∉ rootDesc)
        by (intros mapVal Hm; congruence).
      apply (proj2 (collision_free_tail_unknown _ _ _ _ _ Hk Hmap)). by eapply IH.
Qed.

(** The columns of a description made without a collision have names of
    their own. *)
Lemma collision_free_NoDup rootDesc nameMap : forall names desc,
  NoDup desc -> collision_free rootDesc nameMap names desc ->
  NoDup (desc ++ kept rootDesc nameMap names).
Proof.
  induction names as [|name names IH]; intros desc Hd Hfree.
  - cbn. by rewrite app_nil_r.
  - destruct (is_known rootDesc nameMap name) eqn:Hk.
    + pose proof Hk as Hk'. unfold is_known in Hk'.
      destruct (map_at nameMap name) as [rc|] eqn:Hrc; [|done].
      apply bool_decide_eq_true_1 in Hk'.
      apply (proj1 (collision_free_tail_known _ _ _ _ _ Hk)) in Hfree as [H0 Hfree].
      destruct (H0 rc Hrc Hk') as [_ H2].
      rewrite kept_cons_known by done.
      replace (desc ++ name :: kept rootDesc nameMap names)
        with ((desc ++ [name]) ++ kept rootDesc nameMap names) by (by rewrite <- app_assoc).
      apply IH; [|done]. apply NoDup_app. split; [done|]. split.
      * intros x Hx Hx'. apply list_elem_of_singleton in Hx'. by subst.
      * apply NoDup_singleton.
    + assert (Hk' : is_known rootDesc nameMap name <> true) by (by rewrite Hk).
      rewrite kept_cons_unknown by done. apply IH; [done|].
      intros pre n post mapVal -> Hm Hin.
      destruct (Hfree (name :: pre) n post mapVal eq_refl Hm Hin) as [H1 H2].
      by rewrite kept_cons_unknown in H1, H2 by done.
Qed.

Lemma names_used_mapped (nameMap : name_map) (names : list string) :
  Forall (fun c => exists rc, map_at nameMap c = Ok rc) names ->
  Forall (fun c => exists rc, map_at nameMap c = Ok rc) (names_used nameMap names).
Proof. intros H. unfold names_used. destruct (decide _); [apply map_at_keys|done]. Qed.

Lemma kept_known rootDesc nameMap names c :
  c ∈ kept rootDesc nameMap names ->
  exists rc, map_at nameMap c = Ok rc /\ rc ∈ rootDesc.
Proof.
  intros Hc. apply list_elem_of_filter in Hc as [Hk _]. unfold is_known in Hk.
  destruct (map_at nameMap c) as [rc|]; [|done].
  apply bool_decide_eq_true_1 in Hk. eauto.
Qed.

Lemma makeDesc_ok tab nameMap names :
  Forall (fun c => exists rc, map_at nameMap c = Ok rc) names ->
  collision_free (root_columns tab) nameMap (names_used nameMap names) [] ->
  exists colMap,
    makeDesc [] (root_columns tab) nameMap names
      = Ok (kept (root_columns tab) nameMap (names_used nameMap names),
            foldl map_erase nameMap
              (disappeared (root_columns tab) nameMap (names_used nameMap names)))
    /\ makeRefCol tab
         (foldl map_erase nameMap
            (disappeared (root_columns tab) nameMap (names_used nameMap names)))
         (kept (root_columns tab) nameMap (names_used nameMap names)) = Ok colMap.
Proof.
  intros Hn Hfree. unfold makeDesc. fold (names_used nameMap names).
  rewrite (makeDesc_loop_free _ _ _ _ _ (names_used_mapped _ _ Hn) Hfree).
  cbn [mbind outcome_bind app].
  destruct (makeRefCol_ok tab
              (foldl map_erase nameMap
                 (disappeared (root_columns tab) nameMap (names_used nameMap names)))
              (kept (root_columns tab) nameMap (names_used nameMap names)))
    as (colMap & Hc); [|eauto].
  apply Forall_forall. intros c Hc.
  destruct (kept_known _ _ _ _ Hc) as (rc & Hrc & Hin). exists rc. split; [|done].
  rewrite map_at_erase_all; [done|]. intros Hcu.
  apply list_elem_of_filter in Hcu as [Hk _]. apply Hk.
  by eapply is_known_true.
Qed.

(** With a collision of names [makeDesc] throws. *)
Lemma makeDesc_collision rootDesc nameMap names :
  ~ collision_free rootDesc nameMap (names_used nameMap names) [] ->
  exists e, makeDesc [] rootDesc nameMap names = Throw e.
Proof.
  intros Hcol. unfold makeDesc. fold (names_used nameMap names).
  destruct (makeDesc_loop rootDesc nameMap (names_used nameMap names) [] [])
    as [res|e] eqn:E; [|cbn; eauto].
  destruct Hcol. by eapply makeDesc_loop_inv.
Qed.

(** The reference tables that are written: the rows in use are within the
    storage, the numbers are values of [rownr_t], and every column of the
    description has its entry in the name map. *)
Definition persistable (t : ref_table) : Prop :=
  changed_p (rt_rows t) = true
  /\ 0 <= nrrow_p (rt_rows t) <= Z.of_nat (length (rowStorage_p (rt_rows t)))
  /\ is_rownr (nrrow_p (rt_rows t))
  /\ Forall is_rownr (rowStorage_p (rt_rows t))
  /\ is_rownr (root_nrow (baseTabPtr_p t))
  /\ Forall (fun c => exists rc, map_at (nameMap_p t) c = Ok rc) (tdescPtr_p t).

Section Loading.

Variable stripDirectory : string -> string -> string.
Variable addDirectory : string -> string -> string.
Variable Table_open : string -> Z -> outcome root_table.
Variable Table_Old : Z.
Variable Table_Update : Z.
Variable getTableInfo : string -> outcome unit.

(** What [getRef] does with the values of a persisted table, read from
    the stream as values of 64 bits ([version] 3) or of 32 bits. *)
Lemma getRef_stream (version : Z) (mk : Z -> token)
    name rootName nameMap names rootNrow rowOrd (vals : list Z) opt tab :
  (version = 3 /\ mk = VRownr \/ version = 2 /\ mk = VuInt) ->
  Z.of_nat (length vals) < 2^64 ->
  Forall (fun c => exists rc, map_at nameMap c = Ok rc) names ->
  Table_open (addDirectory rootName name)
    (if decide (opt = Table_Old) then Table_Old else Table_Update) = Ok tab ->
  getTableInfo name = Ok () ->
  let ios := [ObjStart "RefTable" version; VString rootName; VMap nameMap;
              VStrings names; mk rootNrow; VBool rowOrd;
              mk (Z.of_nat (length vals))] ++ (mk <$> vals) ++ [ObjEnd] in
  (rootNrow > root_nrow tab ->
     getRef addDirectory Table_open Table_Old Table_Update getTableInfo
       name (Z.of_nat (length vals)) ios opt = Throw TableInvOper)
  /\ (rootNrow <= root_nrow tab ->
      collision_free (root_columns tab) nameMap (names_used nameMap names) [] ->
      exists t2,
        getRef addDirectory Table_open Table_Old Table_Update getTableInfo
          name (Z.of_nat (length vals)) ios opt = Ok t2
        /\ baseTabPtr_p t2 = tab /\ rowOrd_p t2 = rowOrd
        /\ rt_rows t2 = {| rowStorage_p := vals;
                           nrrow_p := Z.of_nat (length vals);
                           changed_p := false |}
        /\ tdescPtr_p t2 = kept (root_columns tab) nameMap (names_used nameMap names))
  /\ (rootNrow <= root_nrow tab ->
      ~ collision_free (root_columns tab) nameMap (names_used nameMap names) [] ->
      exists e,
        getRef addDirectory Table_open Table_Old Table_Update getTableInfo
          name (Z.of_nat (length vals)) ios opt = Throw e).
Proof.
  intros Hv H64 Hnames Hopen Hinfo ios.
  assert (Hloop : forall get0, (forall v i, get0 (mk v :: i) = Ok (v, i)) ->
            get_loop (S (Z.to_nat (Z.of_nat (length vals)))) get0
              (Z.of_nat (length vals)) (Z.of_nat (length vals)) 0
              (replicate (Z.to_nat (Z.of_nat (length vals))) 0)
              ((mk <$> vals) ++ [ObjEnd]) = Ok (vals, [ObjEnd])).
  { intros get0 Hget0.
    apply (get_loop_spec get0 mk vals [ObjEnd] (Z.of_nat (length vals)) Hget0
             eq_refl H64 _ 0); [lia|lia| |done].
    rewrite length_replicate. lia. }
  assert (Htab : (if decide (opt = Table_Old)
                  then Table_open (addDirectory rootName name) Table_Old
                  else Table_open (addDirectory rootName name) Table_Update) = Ok tab).
  { destruct (decide (opt = Table_Old)); exact Hopen. }
  assert (Hrest : forall rowOrd0 (vals0 : list Z),
    let rest :=
      (if decide (rootNrow > root_nrow tab) then Throw TableInvOper
       else
         '(tdesc, nameMap0) ← makeDesc [] (root_columns tab) nameMap names;
         colMap ← makeRefCol tab nameMap0 tdesc;
         _ ← getTableInfo name;
         Ok {| tableName := name; baseTabPtr_p := tab; rowOrd_p := rowOrd0;
               nameMap_p := nameMap0; tdescPtr_p := tdesc; colMap_p := colMap;
               rt_rows := {| rowStorage_p := vals0;
                             nrrow_p := Z.of_nat (length vals);
                             changed_p := false |} |}) in
    (rootNrow > root_nrow tab -> rest = Throw TableInvOper)
    /\ (rootNrow <= root_nrow tab ->
        collision_free (root_columns tab) nameMap (names_used nameMap names) [] ->
        exists t2, rest = Ok t2
          /\ baseTabPtr_p t2 = tab /\ rowOrd_p t2 = rowOrd0
          /\ rt_rows t2 = {| rowStorage_p := vals0;
                             nrrow_p := Z.of_nat (length vals);
                             changed_p := false |}
          /\ tdescPtr_p t2 = kept (root_columns tab) nameMap (names_used nameMap names))
    /\ (rootNrow <= root_nrow tab ->
        ~ collision_free (root_columns tab) nameMap (names_used nameMap names) [] ->
        exists e, rest = Throw e)).
  { intros rowOrd0 vals0 rest. subst rest. split; [|split].
    - intros Hn. destruct (decide (rootNrow > root_nrow tab)); [done|lia].
    - intros Hn Hfree. destruct (decide (rootNrow > root_nrow tab)); [lia|].
      destruct (makeDesc_ok tab nameMap names Hnames Hfree) as (colMap & Hmd & Hmc).
      rewrite Hmd. cbn [mbind outcome_bind]. rewrite Hmc. cbn [mbind outcome_bind].
      rewrite Hinfo. cbn [mbind outcome_bind]. eexists. split; [reflexivity|]. done.
    - intros Hn Hcol. destruct (decide (rootNrow > root_nrow tab)); [lia|].
      destruct (makeDesc_collision (root_columns tab) nameMap names Hcol) as [e ->].
      cbn [mbind outcome_bind]. eauto. }
  unfold getRef, ios. cbn [app getstart].
  destruct (decide ("RefTable"%string = "RefTable"%string)) as [_|]; [|done].
  cbn [mbind outcome_bind].
  destruct Hv as [[-> ->]|[-> ->]].
  - destruct (decide (3 > 3)); [lia|]. cbn [get_String mbind outcome_bind get_Map].
    destruct (decide (3 > 1)); [|lia]. cbn [get_Strings mbind outcome_bind].
    destruct (decide (3 > 2)); [|lia].
    cbn [get_rownr get_Bool mbind outcome_bind].
    rewrite (Hloop get_rownr) by done. cbn [mbind outcome_bind getend].
    rewrite Htab. cbn [mbind outcome_bind]. apply Hrest.
  - destruct (decide (2 > 3)); [lia|]. cbn [get_String mbind outcome_bind get_Map].
    destruct (decide (2 > 1)); [|lia]. cbn [get_Strings mbind outcome_bind].
    destruct (decide (2 > 2)); [lia|].
    cbn [get_uInt get_Bool mbind outcome_bind].
    rewrite (Hloop get_uInt) by done. cbn [mbind outcome_bind getend].
    rewrite Htab. cbn [mbind outcome_bind]. apply Hrest.
Qed.

End Loading.

Section Roundtrip.

Variable stripDirectory : string -> string -> string.
Variable addDirectory : string -> string -> string.
Variable Table_open : string -> Z -> outcome root_table.
Variable Table_Old : Z.
Variable Table_Update : Z.
Variable getTableInfo : string -> outcome unit.

(** What [writeRefTable] puts in the stream for a table with changes. *)
Lemma writeRefTable_stream (t : ref_table) :
  persistable t ->
  exists t' version mk,
    (version = 3 /\ mk = VRownr \/ version = 2 /\ mk = VuInt)
    /\ writeRefTable stripDirectory t
       = Ok (t', VString "RefTable"
                   :: [ObjStart "RefTable" version;
                       VString (stripDirectory (root_name (baseTabPtr_p t)) (tableName t));
                       VMap (nameMap_p t); VStrings (tdescPtr_p t);
                       mk (root_nrow (baseTabPtr_p t)); VBool (rowOrd_p t);
                       mk (Z.of_nat (length (rows (rt_rows t))))]
                      ++ (mk <$> rows (rt_rows t)) ++ [ObjEnd]).
Proof.
  intros (Hch & Hn & Hn64 & Hst & Hroot & _). unfold writeRefTable. rewrite Hch.
  unfold rows. set (nrrow := nrrow_p (rt_rows t)) in *.
  set (storage := rowStorage_p (rt_rows t)) in *.
  assert (Hlen : Z.of_nat (length (take (Z.to_nat nrrow) storage)) = nrrow)
    by (rewrite length_take; lia).
  unfold is_rownr in *. rewrite Hlen.
  destruct (decide (nrrow < uInt_max /\ root_nrow (baseTabPtr_p t) < uInt_max
                    /\ Forall (fun r => r < uInt_max) storage)) as [(H1 & H2 & H3)|_].
  - destruct (decide (2 = 2)); [|lia].
    destruct (decide (0 <= nrrow <= Z.of_nat (length storage))); [|lia].
    assert (E : wrap32 <$> take (Z.to_nat nrrow) storage = take (Z.to_nat nrrow) storage).
    { rewrite <- (list_fmap_id (take (Z.to_nat nrrow) storage)) at 2.
      apply list_fmap_ext. intros i x Hx. apply lookup_take_Some in Hx as [Hx _].
      rewrite Forall_forall in H3, Hst.
      pose proof (H3 x (list_elem_of_lookup_2 _ _ _ Hx)).
      pose proof (Hst x (list_elem_of_lookup_2 _ _ _ Hx)).
      unfold id. apply wrap32_id. unfold uInt_max in *. lia. }
    rewrite E, put_loop_spec; [|lia|lia|lia|lia]. cbn [mbind outcome_bind].
    rewrite !wrap32_id by (unfold uInt_max in *; lia).
    rewrite Z.sub_0_r. change (Z.to_nat 0) with 0%nat. rewrite drop_0.
    rewrite take_ge by (rewrite length_take; lia).
    eexists _, 2, VuInt. split; [by right|]. cbn [app]. reflexivity.
  - destruct (decide (3 = 2)); [lia|].
    rewrite put_loop_spec; [|lia|lia|lia|lia]. cbn [mbind outcome_bind].
    rewrite Z.sub_0_r. change (Z.to_nat 0) with 0%nat. rewrite drop_0.
    eexists _, 3, VRownr. split; [by left|]. cbn [app]. reflexivity.
Qed.

(** X3: loading a persisted reference table. For a table that has been
    written by [writeRefTable] and whose root table can be opened again,
    [getRef] throws a [TableInvOper] when the root table now has fewer rows
    than the number recorded in the file. Otherwise, when no names collide
    while the description is made from the columns that the reopened root
    table still has, it makes a table on that root table with the row
    numbers, the number of rows and the order flag of the written table
    and with those columns; when names collide it throws and no table is
    made. A file of a version above 3 is refused with a [TableError]. *)
Theorem getRef_root_rows (t : ref_table) (opt : Z) (tab : root_table) :
  (forall root name, addDirectory (stripDirectory root name) name = root) ->
  persistable t ->
  Table_open (root_name (baseTabPtr_p t))
    (if decide (opt = Table_Old) then Table_Old else Table_Update) = Ok tab ->
  getTableInfo (tableName t) = Ok () ->
  (exists t' ios,
     writeRefTable stripDirectory t = Ok (t', VString "RefTable" :: ios)
     /\ (root_nrow (baseTabPtr_p t) > root_nrow tab ->
         getRef addDirectory Table_open Table_Old Table_Update getTableInfo
           (tableName t) (nrrow_p (rt_rows t)) ios opt = Throw TableInvOper)
     /\ (root_nrow (baseTabPtr_p t) <= root_nrow tab ->
         collision_free (root_columns tab) (nameMap_p t)
           (names_used (nameMap_p t) (tdescPtr_p t)) [] ->
         exists t2,
           getRef addDirectory Table_open Table_Old Table_Update getTableInfo
             (tableName t) (nrrow_p (rt_rows t)) ios opt = Ok t2
           /\ baseTabPtr_p t2 = tab
           /\ rowOrd_p t2 = rowOrd_p t
           /\ nrrow_p (rt_rows t2) = nrrow_p (rt_rows t)
           /\ rows (rt_rows t2) = rows (rt_rows t)
           /\ tdescPtr_p t2
              = kept (root_columns tab) (nameMap_p t)
                  (names_used (nameMap_p t) (tdescPtr_p t))
           /\ NoDup (tdescPtr_p t2))
     /\ (root_nrow (baseTabPtr_p t) <= root_nrow tab ->
         ~ collision_free (root_columns tab) (nameMap_p t)
             (names_used (nameMap_p t) (tdescPtr_p t)) [] ->
         exists e,
           getRef addDirectory Table_open Table_Old Table_Update getTableInfo
             (tableName t) (nrrow_p (rt_rows t)) ios opt = Throw e))
  /\ (forall version rest nrrow, version > 3 ->
      getRef addDirectory Table_open Table_Old Table_Update getTableInfo
        (tableName t) nrrow (ObjStart "RefTable" version :: rest) opt
      = Throw TableError).
Proof.
  intros Hpath Hp Hopen Hinfo. split.
  - destruct (writeRefTable_stream t Hp) as (t' & version & mk & Hv & Hw).
    pose proof Hp as (_ & Hn & Hn64 & _ & _ & Hnames).
    assert (Hlen : Z.of_nat (length (rows (rt_rows t))) = nrrow_p (rt_rows t))
      by (unfold rows; rewrite length_take; lia).
    rewrite Hlen in Hw. eexists t', _. split; [exact Hw|].
    rewrite <- Hpath with (root := root_name (baseTabPtr_p t)) (name := tableName t)
      in Hopen.
    destruct (getRef_stream addDirectory Table_open Table_Old Table_Update
                getTableInfo version mk (tableName t) _ _ _
                (root_nrow (baseTabPtr_p t)) (rowOrd_p t) (rows (rt_rows t)) opt tab
                Hv ltac:(unfold is_rownr in Hn64; lia) Hnames Hopen Hinfo)
      as (Herr & Hok & Hcol).
    rewrite Hlen in Herr, Hok, Hcol. split; [exact Herr|]. split; [|exact Hcol].
    intros Hle Hfree. destruct (Hok Hle Hfree) as (t2 & Hget & Hb & Ho & Hr & Hd).
    exists t2. rewrite Hr. cbn [nrrow_p]. split_and!; auto.
    + unfold rows at 1. cbn [nrrow_p rowStorage_p].
      rewrite <- Hlen, Nat2Z.id. apply firstn_all.
    + rewrite Hd.
      apply (collision_free_NoDup _ _ _ [] (NoDup_nil_2) Hfree).
  - intros version rest nrrow Hv. unfold getRef. cbn [getstart].
    destruct (decide ("RefTable"%string = "RefTable"%string)) as [_|]; [|done].
    cbn [mbind outcome_bind]. destruct (decide (version > 3)); [done|lia].
Qed.

End Roundtrip.

(** The files of the example: paths are kept as they are, the table
    [table] can be opened and has 6 rows by now. *)
Definition example_open (name : string) (opt : Z) : outcome root_table :=
  if decide (name = "table"%string)
  then Ok {| root_name := "table"; root_nrow := 6; root_columns := ["X"%string] |}
  else Throw TableError.

Lemma example_view_persistable : persistable example_view.
Proof.
  unfold persistable. cbn. split; [done|]. split; [lia|].
  unfold is_rownr. split; [lia|]. split; [repeat constructor; lia|].
  split; [lia|]. repeat constructor. by exists "X"%string.
Qed.

Lemma example_view_free :
  collision_free ["X"%string] (nameMap_p example_view)
    (names_used (nameMap_p example_view) (tdescPtr_p example_view)) [].
Proof.
  intros pre name post mapVal Hsplit Hm Hin.
  destruct pre as [|p [|q pre]]; cbn in Hsplit; inversion Hsplit; subst.
  cbn. split; apply not_elem_of_nil.
Qed.

Lemma getRef_root_rows_witness :
  persistable example_view
  /\ example_open (root_name (baseTabPtr_p example_view)) 1
     = Ok {| root_name := "table"; root_nrow := 6; root_columns := ["X"%string] |}
  /\ exists t' ios t2,
    writeRefTable (fun root _ => root) example_view
      = Ok (t', VString "RefTable" :: ios)
    /\ getRef (fun root _ => root) example_open 1 5 (fun _ => Ok ())
         "" 3 ios 1 = Ok t2
    /\ rows (rt_rows t2) = [3; 4; 0]
    /\ tdescPtr_p t2 = ["X"%string].
Proof.
  split; [exact example_view_persistable|]. split; [reflexivity|].
  destruct (getRef_root_rows (fun root _ => root) (fun root _ => root)
              example_open 1 5 (fun _ => Ok ()) example_view 1
              {| root_name := "table"; root_nrow := 6; root_columns := ["X"%string] |}
              (fun _ _ => eq_refl) example_view_persistable eq_refl eq_refl)
    as [(t' & ios & Hw & _ & Hok & _) _].
  destruct (Hok ltac:(simpl; lia) example_view_free)
    as (t2 & Hget & _ & _ & _ & Hrows & Hdesc & _).
  exists t', ios, t2. split; [exact Hw|]. split; [exact Hget|].
  split; [exact Hrows|exact Hdesc].
Defined.

(** The same view when the table has only 4 rows left. *)
Lemma getRef_shrunk_example :
  exists t' ios,
    writeRefTable (fun root _ => root) example_view
      = Ok (t', VString "RefTable" :: ios)
    /\ getRef (fun root _ => root)
         (fun _ _ => Ok {| root_name := "table"; root_nrow := 4;
                           root_columns := ["X"%string] |})
         1 5 (fun _ => Ok ()) "" 3 ios 1 = Throw TableInvOper.
Proof. eexists _, _. split; reflexivity. Qed.

(** A view with the columns [Y] and [Z] that are the columns [X] and [Y]
    of its root table: when it is loaded, the column [Y] of the root table
    is added to a description that has a column [Y] already, and [getRef]
    throws. *)
Definition renamed_root : root_table :=
  {| root_name := "table"; root_nrow := 5;
     root_columns := ["X"%string; "Y"%string] |}.

Definition renamed_view : ref_table :=
  {| tableName := "";
     baseTabPtr_p := renamed_root;
     rowOrd_p := true;
     nameMap_p := [("Y"%string, "X"%string); ("Z"%string, "Y"%string)];
     tdescPtr_p := ["Y"%string; "Z"%string];
     colMap_p := [("Y"%string, "X"%string); ("Z"%string, "Y"%string)];
     rt_rows := {| rowStorage_p := [1; 2]; nrrow_p := 2; changed_p := true |} |}.

Lemma getRef_collision_example :
  exists t' ios,
    writeRefTable (fun root _ => root) renamed_view
      = Ok (t', VString "RefTable" :: ios)
    /\ getRef (fun root _ => root) (fun _ _ => Ok renamed_root)
         1 5 (fun _ => Ok ()) "" 2 ios 1 = Throw TableError.
Proof. eexists _, _. split; reflexivity. Qed.

(** *** Row numbers through a reference table *)

(** [RefTable::rootRownr] of the table [r]: the row numbers in the root
    table of rows of this table; a row number outside the storage is
    [Undefined]. *)
Definition rootRownr (r : ref_table) (rownrs : list Z) : outcome (list Z) :=
  match mapM (fun i => rowStorage_p (rt_rows r) !! Z.to_nat i) rownrs with
  | Some rnr => Ok rnr
  | None => Throw Undefined
  end.

Lemma mapM_lookup_Some (storage : list Z) (l : list Z) :
  Forall (fun i => 0 <= i < Z.of_nat (length storage)) l ->
  exists rownrs, mapM (fun i => storage !! Z.to_nat i) l = Some rownrs
    /\ length rownrs = length l
    /\ forall (k : nat) i, l !! k = Some i -> rownrs !! k = storage !! Z.to_nat i.
Proof.
  induction 1 as [|i l Hi _ (rownrs & IH & Hlen & Hall)].
  - exists []. split; [done|]. split; [done|]. intros k i Hk. done.
  - destruct (lookup_lt_is_Some_2 storage (Z.to_nat i)) as [x Hx]; [lia|].
    exists (x :: rownrs). cbn [mapM]. rewrite Hx, IH. cbn.
    split; [done|]. split; [by rewrite Hlen|].
    intros [|k] j Hk; cbn in *; [by inversion Hk; subst|]. by apply Hall.
Qed.

(** The first loop of [adjustRownrs] on the storage of the table itself:
    a row number that refers to an earlier row gets the number that row
    has got already. *)
Lemma adjust_loop_same (rows : list Z) : forall (n k : nat) (a : list Z),
  (k + n = length a)%nat ->
  Forall (fun i => 0 <= i < Z.of_nat (length a)) (drop k a) ->
  exists res,
    adjust_loop true n (Z.of_nat k) rows a = Ok res
    /\ length res = length a
    /\ take k res = take k a
    /\ forall (j : nat) i, (k <= j)%nat -> a !! j = Some i ->
         res !! j = (if decide (i < Z.of_nat j) then res !! Z.to_nat i
                     else a !! Z.to_nat i).
Proof.
  induction n as [|n IH]; intros k a Hlen Hall.
  - exists a. cbn [adjust_loop]. split_and!; auto.
    intros j i Hj Hi. apply lookup_lt_Some in Hi. lia.
  - destruct (lookup_lt_is_Some_2 a k) as [x Hx]; [lia|].
    rewrite (drop_S _ _ _ Hx) in Hall. apply Forall_cons in Hall as [Hxr Hall].
    destruct (lookup_lt_is_Some_2 a (Z.to_nat x)) as [y Hy]; [lia|].
    destruct (IH (S k) (<[k := y]> a)) as (res & Hl & Hrl & Htake & Hres).
    { rewrite length_insert. lia. }
    { rewrite drop_insert_lt by lia. rewrite length_insert. done. }
    rewrite length_insert in Hrl.
    assert (Hk : res !! k = Some y).
    { rewrite <- (lookup_take_lt res (S k)) by lia. rewrite Htake.
      rewrite lookup_take_lt by lia. apply list_lookup_insert_eq. lia. }
    assert (Hpre : take k res = take k a).
    { assert (E : forall l : list Z, take k l = take k (take (S k) l)).
      { intros l. rewrite take_take. f_equal. lia. }
      rewrite (E res), Htake, <- E. apply take_insert_ge. lia. }
    exists res. split_and!; auto.
    + cbn [adjust_loop]. rewrite elem_lookup, Hx.
      unfold elem at 1. destruct (decide (0 <= x)); [|lia]. rewrite Hy.
      rewrite Nat2Z.id. replace (Z.of_nat k + 1) with (Z.of_nat (S k)) by lia.
      exact Hl.
    + intros j i Hj Hi. destruct (decide (j = k)) as [->|Hne].
      * rewrite Hx in Hi. inversion Hi; subst i. rewrite Hk.
        destruct (decide (x < Z.of_nat k)) as [Hlt|Hge]; [|done].
        rewrite <- (lookup_take_lt res k) by lia. rewrite Hpre.
        rewrite lookup_take_lt by lia. done.
      * rewrite (Hres j i) by (try lia; rewrite list_lookup_insert_ne by lia; done).
        destruct (decide (i < Z.of_nat j)); [done|].
        apply list_lookup_insert_ne. lia.
Qed.

(** X2: the row numbers of a view of a view. [RefTable::adjustRownrs] of
    a reference table replaces each of the first [nr] row numbers of a
    vector of the caller, which are rows of that table, by the row of the
    root table that table has there, as [rootRownr] gives it. The flag it
    returns is found by a loop that stops at the first row number that is
    not greater than the one before it: it tells whether the new row
    numbers are strictly increasing, and is set without a look at them
    when the order need not be determined. With fewer than [nr] row
    numbers the call fails on its assertion. When the vector is the
    storage of the table itself, the row numbers are replaced in place: a
    row number that refers to an earlier row gets the number that row has
    got already, and not the one it had. *)
Theorem adjustRownrs_root_rows (r : ref_table) (nr : Z) (rowStorage : list Z)
    (determineOrder : bool) :
  (0 <= nr <= Z.of_nat (length rowStorage) ->
   Forall (fun i => 0 <= i < Z.of_nat (length (rowStorage_p (rt_rows r))))
     (take (Z.to_nat nr) rowStorage) ->
   exists rownrs,
     RefTable_adjustRownrs r nr rowStorage determineOrder
       = Ok (rownrs, if determineOrder then bool_decide (ascending rownrs) else true)
     /\ rootRownr r (take (Z.to_nat nr) rowStorage) = Ok rownrs
     /\ Z.of_nat (length rownrs) = nr
     /\ forall (k : nat) i, (Z.of_nat k < nr) -> rowStorage !! k = Some i ->
          rownrs !! k = rowStorage_p (rt_rows r) !! Z.to_nat i)
  /\ (Z.of_nat (length rowStorage) < nr ->
      RefTable_adjustRownrs r nr rowStorage determineOrder = Throw AipsError)
  /\ (0 <= nr <= Z.of_nat (length (rowStorage_p (rt_rows r))) ->
      Forall (fun i => 0 <= i < nr) (take (Z.to_nat nr) (rowStorage_p (rt_rows r))) ->
      exists rownrs,
        RefTable_adjustRownrs_own r nr determineOrder
          = Ok (rownrs, if determineOrder then bool_decide (ascending rownrs) else true)
        /\ Z.of_nat (length rownrs) = nr
        /\ forall (k : nat) i, (Z.of_nat k < nr) ->
             rowStorage_p (rt_rows r) !! k = Some i ->
             rownrs !! k = (if decide (i < Z.of_nat k) then rownrs !! Z.to_nat i
                            else rowStorage_p (rt_rows r) !! Z.to_nat i)).
Proof.
  split; [|split].
  - intros Hnr Hall.
    destruct (RefTable_adjustRownrs_spec r nr rowStorage determineOrder Hnr Hall)
      as (rownrs & Hm & Hadj).
    destruct (mapM_lookup_Some _ _ Hall) as (rownrs' & Hm' & Hlen & Hmap).
    rewrite Hm in Hm'. inversion Hm'; subst rownrs'.
    exists rownrs. split; [done|]. split; [by unfold rootRownr; rewrite Hm|]. split.
    + rewrite Hlen, length_take. lia.
    + intros k i Hk Hi. apply Hmap. rewrite lookup_take_lt by lia. done.
  - intros Hlt. unfold RefTable_adjustRownrs, adjustRownrs_on.
    destruct (decide _); [lia|done].
  - intros Hnr Hall. unfold RefTable_adjustRownrs_own, adjustRownrs_on.
    destruct (decide _) as [_|]; [|lia]. cbv zeta.
    set (storage := rowStorage_p (rt_rows r)) in *.
    assert (Hlen : length (take (Z.to_nat nr) storage) = Z.to_nat nr)
      by (rewrite length_take; lia).
    destruct (adjust_loop_same [] (Z.to_nat nr) 0%nat (take (Z.to_nat nr) storage))
      as (rownrs & Hl & Hrl & _ & Hres).
    { lia. }
    { rewrite drop_0, Hlen. eapply Forall_impl; [exact Hall|].
      intros i Hi. cbn beta in *. lia. }
    change (Z.of_nat 0) with 0 in Hl. rewrite Hl. cbn [mbind outcome_bind].
    assert (Hn : Z.of_nat (length rownrs) = nr) by lia.
    exists rownrs. split; [|split; [done|]].
    + destruct determineOrder; [|done]. rewrite <- Hn at 1. by rewrite order_loop_all.
    + intros k i Hk Hi.
      assert (Hin : 0 <= i < nr).
      { rewrite Forall_forall in Hall. apply Hall.
        apply list_elem_of_lookup. exists k. rewrite lookup_take_lt by lia. done. }
      rewrite (Hres k i) by (try lia; rewrite lookup_take_lt by lia; done).
      destruct (decide (i < Z.of_nat k)); [done|]. apply lookup_take_lt. lia.
Qed.

(** Rows 2 and 0 of [example_view] are the rows 0 and 3 of its root table,
    which are not in order; on its own storage the rows 1, 2, 0 of a table
    become 2, 0, 2 and not 2, 0, 1. *)
Lemma adjustRownrs_root_rows_witness :
  (0 <= 2 <= Z.of_nat (length [2; 0; 7])
   /\ RefTable_adjustRownrs example_view 2 [2; 0; 7] true = Ok ([0; 3], true))
  /\ RefTable_adjustRownrs example_view 2 [0; 2; 7] true = Ok ([3; 0], false)
  /\ exists rownrs,
       RefTable_adjustRownrs_own
         {| tableName := ""; baseTabPtr_p := example_root; rowOrd_p := false;
            nameMap_p := []; tdescPtr_p := []; colMap_p := [];
            rt_rows := {| rowStorage_p := [1; 2; 0]; nrrow_p := 3;
                          changed_p := true |} |} 3 true
         = Ok (rownrs, bool_decide (ascending rownrs))
       /\ rownrs = [2; 0; 2].
Proof.
  assert (Hnr : 0 <= 2 <= Z.of_nat (length [2; 0; 7])) by (simpl; lia).
  split; [|split].
  - split; [exact Hnr|].
    destruct (proj1 (adjustRownrs_root_rows example_view 2 [2; 0; 7] true) Hnr)
      as (rownrs & Hadj & Hroot & _).
    + repeat constructor; simpl; lia.
    + vm_compute in Hroot. inversion Hroot; subst rownrs. exact Hadj.
  - reflexivity.
  - destruct (proj2 (proj2 (adjustRownrs_root_rows
                {| tableName := ""; baseTabPtr_p := example_root; rowOrd_p := false;
                   nameMap_p := []; tdescPtr_p := []; colMap_p := [];
                   rt_rows := {| rowStorage_p := [1; 2; 0]; nrrow_p := 3;
                                 changed_p := true |} |} 3 [] true)))
      as (rownrs & Hadj & _ & _).
    + simpl. lia.
    + repeat constructor; simpl; lia.
    + exists rownrs. split; [exact Hadj|].
      vm_compute in Hadj. by inversion Hadj.
Defined.

(** *** Columns that have disappeared from the root table *)

Lemma map_at_missing (m : name_map) (c : string) :
  c ∉ m.*1 -> map_at m c = Throw out_of_range.
Proof.
  induction m as [|[k v] m IH]; intros Hc; [done|]. cbn [map_at].
  cbn [fmap list_fmap fst] in Hc. apply not_elem_of_cons in Hc as [Hne Hc].
  destruct (decide (k = c)); [congruence|]. by apply IH.
Qed.

Lemma map_erase_keys (m : name_map) (u c : string) :
  c ∈ (map_erase m u).*1 -> c ∈ m.*1 /\ c <> u.
Proof.
  unfold map_erase. intros Hc. apply list_elem_of_fmap in Hc as ([k v] & -> & Hkv).
  unfold name_map in *. apply list_elem_of_filter in Hkv as [Hne Hkv]. cbn [fst] in *.
  split; [|done]. apply list_elem_of_fmap. by exists (k, v).
Qed.

Lemma map_erase_all_keys (us : list string) (c : string) : forall m : name_map,
  c ∈ (foldl map_erase m us).*1 -> c ∈ m.*1 /\ c ∉ us.
Proof.
  induction us as [|u us IH]; intros m Hc; cbn [foldl] in *.
  - split; [done|]. apply not_elem_of_nil.
  - apply IH in Hc as [Hc Hnot]. apply map_erase_keys in Hc as [Hc Hne].
    split; [done|]. apply not_elem_of_cons. done.
Qed.

(** X4: [makeDesc] for a list of column names that all have an entry in
    the name map. A column whose column in the root table still exists is
    added to the description under its name in the root table and then
    renamed. When no name collides (neither name of such a column is the
    name of a column added before it), the description gets these columns
    in the order of the list, each under a name of its own; the other
    columns lose their entry in the name map, the entries of the columns of
    the description are kept, and so the columns of the new table can be
    made by [makeRefCol]. When a name collides, [makeDesc] throws. A column
    name without an entry in the name map makes it fail with
    [std::out_of_range]. *)
Theorem makeDesc_drops_unknown (tab : root_table) (nameMap : name_map)
    (names : list string) :
  names <> [] ->
  (Forall (fun c => exists rc, map_at nameMap c = Ok rc) names ->
   collision_free (root_columns tab) nameMap names [] ->
   exists nameMap' colMap,
     makeDesc [] (root_columns tab) nameMap names
       = Ok (filter (fun c => is_known (root_columns tab) nameMap c = true) names,
             nameMap')
     /\ NoDup (filter (fun c => is_known (root_columns tab) nameMap c = true) names)
     /\ (forall c, is_known (root_columns tab) nameMap c = true ->
           map_at nameMap' c = map_at nameMap c)
     /\ (forall c, c ∈ names -> is_known (root_columns tab) nameMap c <> true ->
           map_at nameMap' c = Throw out_of_range)
     /\ makeRefCol tab nameMap'
          (filter (fun c => is_known (root_columns tab) nameMap c = true) names)
        = Ok colMap)
  /\ (~ collision_free (root_columns tab) nameMap names [] ->
      exists e, makeDesc [] (root_columns tab) nameMap names = Throw e)
  /\ (forall c, c ∈ names -> map_at nameMap c = Throw out_of_range ->
      exists e, makeDesc [] (root_columns tab) nameMap names = Throw e).
Proof.
  intros Hne.
  assert (Hused : names_used nameMap names = names).
  { unfold names_used. destruct (decide _) as [Hl|_]; [|done].
    destruct names; [done|discriminate]. }
  split; [|split].
  - intros Hall Hfree. rewrite <- Hused in Hfree.
    destruct (makeDesc_ok tab nameMap names Hall Hfree) as (colMap & Hmd & Hmc).
    pose proof (collision_free_NoDup _ _ _ [] (NoDup_nil_2) Hfree) as Hnd.
    rewrite Hused in *. unfold kept, disappeared in *. cbn [app] in Hnd.
    eexists _, colMap. split; [exact Hmd|]. split; [exact Hnd|].
    split; [|split; [|exact Hmc]].
    + intros c Hc. apply map_at_erase_all. intros Hin.
      apply list_elem_of_filter in Hin as [Hn _]. done.
    + intros c Hc Hn. apply map_at_missing. intros Hin.
      apply map_erase_all_keys in Hin as [_ Hnot]. apply Hnot.
      by apply list_elem_of_filter.
  - intros Hcol. apply makeDesc_collision. by rewrite Hused.
  - intros c Hc Hmiss. unfold makeDesc.
    destruct (decide (length names = 0%nat)) as [Hl|_].
    { destruct names; [done|discriminate]. }
    assert (H : forall desc unknownCol,
              exists e, makeDesc_loop (root_columns tab) nameMap names desc unknownCol
                        = Throw e).
    { clear Hne Hused. induction names as [|n names IH]; intros desc unknownCol.
      - by apply elem_of_nil in Hc.
      - cbn [makeDesc_loop]. destruct (map_at nameMap n) as [rc|e] eqn:En.
        + cbn [mbind outcome_bind].
          apply elem_of_cons in Hc as [->|Hc]; [congruence|].
          destruct (decide _); [|by apply IH].
          destruct (addColumn desc rc) as [d1|e1]; [|cbn; eauto].
          cbn [mbind outcome_bind].
          destruct (if decide (n <> rc) then renameColumn d1 n rc else Ok d1)
            as [d2|e2]; [|cbn; eauto].
          cbn [mbind outcome_bind]. by apply IH.
        + cbn [mbind outcome_bind]. eauto. }
    destruct (H [] []) as [e ->]. cbn [mbind outcome_bind]. eauto.
Qed.

(** Of the columns [A] and [B], the column of [B] is no longer in the
    root table; the columns [Y] and [Z] that are the columns [X] and [Y]
    of the root table cannot be put in a description in this order. *)
Lemma makeDesc_drops_unknown_witness :
  ([ "A"%string; "B"%string ] <> []
   /\ makeDesc [] ["X"%string] [("A"%string, "X"%string); ("B"%string, "Y"%string)]
        ["A"%string; "B"%string]
      = Ok (["A"%string], [("A"%string, "X"%string)]))
  /\ exists e,
       makeDesc [] ["X"%string; "Y"%string]
         [("Y"%string, "X"%string); ("Z"%string, "Y"%string)]
         ["Y"%string; "Z"%string] = Throw e.
Proof.
  assert (Hne : [ "A"%string; "B"%string ] <> []) by discriminate.
  split.
  - split; [exact Hne|].
    destruct (proj1 (makeDesc_drops_unknown
                       {| root_name := "table"; root_nrow := 5;
                          root_columns := ["X"%string] |}
                       [("A"%string, "X"%string); ("B"%string, "Y"%string)]
                       ["A"%string; "B"%string] Hne))
      as (nameMap' & colMap & Hmd & _).
    + repeat constructor; eexists; reflexivity.
    + intros pre name post mapVal Hsplit Hm Hin.
      destruct pre as [|p [|q [|q' pre]]]; cbn in Hsplit; inversion Hsplit; subst.
      * cbn. split; apply not_elem_of_nil.
      * vm_compute in Hm. inversion Hm; subst mapVal.
        apply list_elem_of_singleton in Hin. discriminate.
    + reflexivity.
  - apply (proj1 (proj2 (makeDesc_drops_unknown
                           {| root_name := "table"; root_nrow := 5;
                              root_columns := ["X"%string; "Y"%string] |}
                           [("Y"%string, "X"%string); ("Z"%string, "Y"%string)]
                           ["Y"%string; "Z"%string] ltac:(discriminate)))).
    intros Hfree.
    destruct (Hfree ["Y"%string] "Z"%string [] "Y"%string eq_refl eq_refl) as [H _].
    + apply elem_of_cons. right. by left.
    + apply H. vm_compute. by left.
Defined.

(** *** Adding and removing rows of a reference table *)

(** [rowStorage_p.resize (n, True)]: the values are kept, the new ones are
    not set (0 in the model). *)
Definition resize_copy (l : list Z) (n : Z) : list Z :=
  take (Z.to_nat n) l ++ replicate (Z.to_nat n - length l) 0.

Section AddRownr.

(** The value of [rownr_t(1.2f * nrow)], which is computed in single
    precision. *)
Variable scaled : Z -> Z.

(** [RefTable::addRownr]; a store outside the storage is [Undefined]. *)
Definition addRownr (t : state) (rnr : Z) : outcome state :=
  let nrow := Z.of_nat (length (rowStorage_p t)) in
  let rowStorage :=
    if decide (nrrow_p t >= nrow)
    then resize_copy (rowStorage_p t) (Z.max (wrap64 (nrow + 1024)) (scaled nrow))
    else rowStorage_p t in
  if decide (0 <= nrrow_p t < Z.of_nat (length rowStorage)) then
    Ok {| rowStorage_p := <[Z.to_nat (nrrow_p t) := rnr]> rowStorage;
          nrrow_p := wrap64 (nrrow_p t + 1);
          changed_p := true |}
  else Throw Undefined.

End AddRownr.

(** [RefTable::addRownrRange]: [std::iota] fills the new rows; when the
    new number of rows is below the old one it runs out of the storage. *)
Definition addRownrRange (t : state) (startRownr endRownr : Z) : outcome state :=
  let nrow := Z.of_nat (length (rowStorage_p t)) in
  let new_nrrow_p := wrap64 (nrrow_p t + endRownr - startRownr + 1) in
  let rowStorage :=
    if decide (new_nrrow_p > nrow) then resize_copy (rowStorage_p t) new_nrrow_p
    else rowStorage_p t in
  if decide (0 <= nrrow_p t <= new_nrrow_p) then
    Ok {| rowStorage_p :=
            take (Z.to_nat (nrrow_p t)) rowStorage
            ++ (wrap64 <$> seqZ startRownr (new_nrrow_p - nrrow_p t))
            ++ drop (Z.to_nat new_nrrow_p) rowStorage;
          nrrow_p := new_nrrow_p;
          changed_p := true |}
  else Throw Undefined.

(** [RefTable::setNrrow] *)
Definition setNrrow (t : state) (nrrow : Z) : outcome state :=
  if decide (nrrow > nrrow_p t) then Throw TableError
  else Ok {| rowStorage_p := rowStorage_p t; nrrow_p := nrrow; changed_p := true |}.

(** [objmove (rows+to, rows+from, n)] on the storage. *)
Definition objmove (rows : list Z) (to from n : Z) : outcome (list Z) :=
  if decide (0 <= to /\ 0 <= from /\ 0 <= n
             /\ from + n <= Z.of_nat (length rows)
             /\ to + n <= Z.of_nat (length rows)) then
    Ok (take (Z.to_nat to) rows
        ++ take (Z.to_nat n) (drop (Z.to_nat from) rows)
        ++ drop (Z.to_nat (to + n)) rows)
  else Throw Undefined.

(** [RefTable::removeRow] *)
Definition removeRow (t : state) (rownr : Z) : outcome state :=
  if decide (rownr >= nrrow_p t) then Throw TableInvOper
  else
    rows ← (if decide (rownr < wrap64 (nrrow_p t - 1))
            then objmove (rowStorage_p t) rownr (wrap64 (rownr + 1))
                   (wrap64 (nrrow_p t - rownr - 1))
            else Ok (rowStorage_p t));
    Ok {| rowStorage_p := rows; nrrow_p := wrap64 (nrrow_p t - 1); changed_p := true |}.

(** [RefTable::removeAllRow] *)
Definition removeAllRow (t : state) : state :=
  {| rowStorage_p := rowStorage_p t; nrrow_p := 0; changed_p := true |}.

(** [RefTable::rowNumbers] *)
Definition rowNumbers (t : state) : outcome (list Z) :=
  if decide (nrrow_p t = Z.of_nat (length (rowStorage_p t))) then Ok (rowStorage_p t)
  else if decide (0 <= nrrow_p t <= Z.of_nat (length (rowStorage_p t)))
       then Ok (take (Z.to_nat (nrrow_p t)) (rowStorage_p t))
       else Throw AipsError.

(** A table whose rows are within its storage. *)
Definition rows_ok (t : state) : Prop :=
  0 <= nrrow_p t <= Z.of_nat (length (rowStorage_p t))
  /\ Z.of_nat (length (rowStorage_p t)) + 1024 < 2^64.

Lemma rowNumbers_rows (t : state) : rows_ok t -> rowNumbers t = Ok (rows t).
Proof.
  intros [Hn _]. unfold rowNumbers, rows. destruct (decide _) as [E|_].
  - rewrite E, Nat2Z.id, firstn_all. done.
  - destruct (decide _); [done|lia].
Qed.

Lemma resize_copy_take (l : list Z) (n : Z) (k : nat) :
  (k <= length l)%nat -> Z.of_nat k <= n ->
  take k (resize_copy l n) = take k l.
Proof.
  intros Hk Hn. unfold resize_copy.
  rewrite take_app_le by (rewrite length_take; lia).
  rewrite take_take. f_equal. lia.
Qed.

Lemma length_resize_copy (l : list Z) (n : Z) :
  0 <= n -> Z.of_nat (length (resize_copy l n)) = n.
Proof.
  intros Hn. unfold resize_copy. rewrite length_app, length_take, length_replicate. lia.
Qed.

(** X5: [addRownr] on a table whose rows are within its storage never
    fails: the row number becomes the last row of the table, which has one
    row more and is marked as changed. The storage is left as it is when
    it has a place left; when it is full it is made larger, to the greater
    of its size plus 1024 and what the computation in single precision
    gives, so by at least 1024 places, and the rows it has are kept. *)
Theorem addRownr_appends (scaled : Z -> Z) (t : state) (rnr : Z) :
  rows_ok t ->
  exists t',
    addRownr scaled t rnr = Ok t'
    /\ rows t' = rows t ++ [rnr]
    /\ nrrow_p t' = nrrow_p t + 1
    /\ nrrow_p t' <= Z.of_nat (length (rowStorage_p t'))
    /\ changed_p t' = true
    /\ (nrrow_p t < Z.of_nat (length (rowStorage_p t)) ->
        length (rowStorage_p t') = length (rowStorage_p t))
    /\ (nrrow_p t = Z.of_nat (length (rowStorage_p t)) ->
        Z.of_nat (length (rowStorage_p t'))
        = Z.max (Z.of_nat (length (rowStorage_p t)) + 1024)
                (scaled (Z.of_nat (length (rowStorage_p t))))
        /\ Z.of_nat (length (rowStorage_p t)) + 1024
           <= Z.of_nat (length (rowStorage_p t'))).
Proof.
  intros [Hn H64]. unfold addRownr. cbv zeta.
  set (nrow := Z.of_nat (length (rowStorage_p t))) in *.
  set (storage := if decide (nrrow_p t >= nrow)
                  then resize_copy (rowStorage_p t)
                         (Z.max (wrap64 (nrow + 1024)) (scaled nrow))
                  else rowStorage_p t).
  assert (Hw : wrap64 (nrow + 1024) = nrow + 1024)
    by (apply wrap64_small; lia).
  assert (Hst : nrrow_p t < Z.of_nat (length storage)
                /\ take (Z.to_nat (nrrow_p t)) storage
                   = take (Z.to_nat (nrrow_p t)) (rowStorage_p t)
                /\ (nrrow_p t < nrow -> length storage = length (rowStorage_p t))
                /\ (nrrow_p t = nrow ->
                    Z.of_nat (length storage) = Z.max (nrow + 1024) (scaled nrow))).
  { subst storage. destruct (decide _) as [Hge|Hlt].
    - rewrite length_resize_copy by lia. split; [lia|]. split.
      + apply resize_copy_take; lia.
      + split; [lia|]. intros _. by rewrite Hw.
    - split; [lia|]. split; [done|]. split; [done|lia]. }
  destruct Hst as (Hlt & Htake & Hsame & Hgrow).
  destruct (decide (0 <= nrrow_p t < Z.of_nat (length storage))) as [_|]; [|lia].
  eexists. split; [reflexivity|]. unfold rows. cbn [rowStorage_p nrrow_p changed_p].
  rewrite (wrap64_small (nrrow_p t + 1)) by lia. rewrite length_insert.
  split; [|split; [done|split; [lia|split; [done|split; [done|]]]]].
  - replace (Z.to_nat (nrrow_p t + 1)) with (S (Z.to_nat (nrrow_p t))) by lia.
    rewrite (take_S_r _ _ rnr) by (apply list_lookup_insert_eq; lia).
    rewrite take_insert_ge by lia. by rewrite Htake.
  - intros He. rewrite (Hgrow He). split; [done|lia].
Qed.

(** A table with two rows in a storage of two places gets a storage of
    1026 places. *)
Lemma addRownr_appends_witness :
  rows_ok {| rowStorage_p := [3; 4]; nrrow_p := 2; changed_p := false |}
  /\ exists t',
       addRownr (fun n => 12 * n / 10)
         {| rowStorage_p := [3; 4]; nrrow_p := 2; changed_p := false |} 0 = Ok t'
       /\ rows t' = [3; 4; 0]
       /\ Z.of_nat (length (rowStorage_p t')) = 1026.
Proof.
  assert (Hok : rows_ok {| rowStorage_p := [3; 4]; nrrow_p := 2; changed_p := false |})
    by (unfold rows_ok; simpl; lia).
  split; [exact Hok|].
  destruct (addRownr_appends (fun n => 12 * n / 10) _ 0 Hok)
    as (t' & Ht & Hr & _ & _ & _ & _ & Hg).
  exists t'. split; [exact Ht|]. split; [exact Hr|].
  destruct (Hg eq_refl) as [Hlen _]. exact Hlen.
Defined.

Lemma objmove_deletes (l : list Z) (r n : nat) :
  (r < n <= length l)%nat ->
  take (n - 1) (take r l ++ take (n - r - 1) (drop (S r) l) ++ drop (r + (n - r - 1)) l)
  = take r (take n l) ++ drop (S r) (take n l).
Proof.
  intros H. rewrite app_assoc.
  rewrite take_app_length' by (rewrite length_app, !length_take, length_drop; lia).
  rewrite take_take. replace (r `min` n)%nat with r by lia. f_equal.
  rewrite take_drop_commute. do 2 f_equal. lia.
Qed.

(** X6: [removeRow] on a table whose rows are within its storage throws
    [TableInvOper] for a row number that is not a row of the table, and
    otherwise takes that row out: the rows after it move one place to the
    front and the table has one row less. *)
Theorem removeRow_deletes (t : state) (rownr : Z) :
  rows_ok t ->
  (nrrow_p t <= rownr -> removeRow t rownr = Throw TableInvOper)
  /\ (0 <= rownr < nrrow_p t ->
      exists t',
        removeRow t rownr = Ok t'
        /\ rows t' = take (Z.to_nat rownr) (rows t) ++ drop (S (Z.to_nat rownr)) (rows t)
        /\ nrrow_p t' = nrrow_p t - 1
        /\ length (rowStorage_p t') = length (rowStorage_p t)).
Proof.
  intros [Hn H64]. unfold removeRow. split.
  - intros Hge. destruct (decide _); [done|lia].
  - intros Hr. destruct (decide (rownr >= nrrow_p t)); [lia|].
    rewrite (wrap64_small (nrrow_p t - 1)) by lia.
    destruct (decide (rownr < nrrow_p t - 1)) as [Hlt|Hlast].
    + rewrite (wrap64_small (rownr + 1)), (wrap64_small (nrrow_p t - rownr - 1)) by lia.
      unfold objmove. destruct (decide _) as [_|Hbad]; [|lia].
      cbn [mbind outcome_bind]. eexists. split; [reflexivity|].
      unfold rows. cbn [rowStorage_p nrrow_p].
      split; [|split; [done|]].
      * replace (Z.to_nat (nrrow_p t - 1)) with (Z.to_nat (nrrow_p t) - 1)%nat by lia.
        replace (Z.to_nat (nrrow_p t - rownr - 1))
          with (Z.to_nat (nrrow_p t) - Z.to_nat rownr - 1)%nat by lia.
        replace (Z.to_nat (rownr + 1)) with (S (Z.to_nat rownr)) by lia.
        replace (Z.to_nat (rownr + (nrrow_p t - rownr - 1)))
          with (Z.to_nat rownr + (Z.to_nat (nrrow_p t) - Z.to_nat rownr - 1))%nat by lia.
        apply objmove_deletes. lia.
      * rewrite !length_app, !length_take, !length_drop. lia.
    + cbn [mbind outcome_bind]. eexists. split; [reflexivity|].
      unfold rows. cbn [rowStorage_p nrrow_p]. split; [|done].
      assert (rownr = nrrow_p t - 1) by lia. subst rownr.
      rewrite take_take.
      replace (Z.to_nat (nrrow_p t - 1) `min` Z.to_nat (nrrow_p t))%nat
        with (Z.to_nat (nrrow_p t - 1)) by lia.
      rewrite drop_ge by (rewrite length_take; lia). by rewrite app_nil_r.
Qed.

Lemma removeRow_deletes_witness :
  rows_ok {| rowStorage_p := [3; 4; 0; 9]; nrrow_p := 3; changed_p := false |}
  /\ exists t',
       removeRow {| rowStorage_p := [3; 4; 0; 9]; nrrow_p := 3; changed_p := false |} 0
         = Ok t'
       /\ rows t' = [4; 0].
Proof.
  assert (Hok : rows_ok {| rowStorage_p := [3; 4; 0; 9]; nrrow_p := 3;
                           changed_p := false |})
    by (unfold rows_ok; simpl; lia).
  split; [exact Hok|].
  destruct (proj2 (removeRow_deletes _ 0 Hok)) as (t' & Ht & Hr & _).
  - simpl. lia.
  - exists t'. split; [exact Ht|exact Hr].
Defined.

(** X7: [addRownrRange] on a table whose rows are within its storage adds
    the row numbers from [startRownr] up to and including [endRownr], in
    this order, after the rows of the table; an empty range
    ([endRownr = startRownr - 1]) adds nothing. *)
Theorem addRownrRange_appends (t : state) (startRownr endRownr : Z) :
  rows_ok t ->
  0 <= startRownr <= endRownr + 1 -> endRownr < 2^64 ->
  nrrow_p t + (endRownr - startRownr + 1) < 2^64 ->
  exists t',
    addRownrRange t startRownr endRownr = Ok t'
    /\ rows t' = rows t ++ seqZ startRownr (endRownr - startRownr + 1)
    /\ nrrow_p t' = nrrow_p t + (endRownr - startRownr + 1)
    /\ nrrow_p t' <= Z.of_nat (length (rowStorage_p t')).
Proof.
  intros [Hn H64] Hs He Hnew. unfold addRownrRange. cbv zeta.
  rewrite (wrap64_small (nrrow_p t + endRownr - startRownr + 1)) by lia.
  set (new := nrrow_p t + endRownr - startRownr + 1).
  set (storage := if decide (new > Z.of_nat (length (rowStorage_p t)))
                  then resize_copy (rowStorage_p t) new else rowStorage_p t).
  assert (Hst : new <= Z.of_nat (length storage)
                /\ take (Z.to_nat (nrrow_p t)) storage
                   = take (Z.to_nat (nrrow_p t)) (rowStorage_p t)).
  { subst storage. destruct (decide _) as [Hgt|Hle]; [|split; [lia|done]].
    rewrite length_resize_copy by lia. split; [lia|].
    apply resize_copy_take; lia. }
  destruct Hst as [Hlen Htake].
  destruct (decide (0 <= nrrow_p t <= new)) as [_|]; [|lia].
  assert (Hseq : wrap64 <$> seqZ startRownr (new - nrrow_p t)
                 = seqZ startRownr (endRownr - startRownr + 1)).
  { replace (new - nrrow_p t) with (endRownr - startRownr + 1) by lia.
    rewrite <- (list_fmap_id (seqZ startRownr (endRownr - startRownr + 1))) at 2.
    apply list_fmap_ext. intros i x Hx. unfold id.
    destruct (decide (Z.of_nat i < endRownr - startRownr + 1)) as [Hi|Hi].
    - rewrite lookup_seqZ_lt in Hx by done. inversion Hx; subst x.
      apply wrap64_small. lia.
    - rewrite lookup_seqZ_ge in Hx by lia. done. }
  eexists. split; [reflexivity|]. unfold rows. cbn [rowStorage_p nrrow_p].
  rewrite Hseq.
  assert (Hl1 : length (take (Z.to_nat (nrrow_p t)) storage) = Z.to_nat (nrrow_p t))
    by (rewrite length_take; lia).
  assert (Hl2 : length (seqZ startRownr (endRownr - startRownr + 1))
                = Z.to_nat (endRownr - startRownr + 1)) by apply length_seqZ.
  split; [|split; [lia|]].
  - rewrite app_assoc. rewrite take_app_length'; [by rewrite Htake|].
    rewrite length_app, Hl1, Hl2. lia.
  - rewrite !length_app, Hl1, Hl2, length_drop. lia.
Qed.

Lemma addRownrRange_appends_witness :
  rows_ok {| rowStorage_p := [3; 4]; nrrow_p := 1; changed_p := false |}
  /\ exists t',
       addRownrRange {| rowStorage_p := [3; 4]; nrrow_p := 1; changed_p := false |} 5 7
         = Ok t'
       /\ rows t' = [3; 5; 6; 7].
Proof.
  assert (Hok : rows_ok {| rowStorage_p := [3; 4]; nrrow_p := 1; changed_p := false |})
    by (unfold rows_ok; simpl; lia).
  split; [exact Hok|].
  destruct (addRownrRange_appends _ 5 7 Hok) as (t' & Ht & Hr & _);
    [lia|lia|simpl; lia|].
  exists t'. split; [exact Ht|exact Hr].
Defined.

End RefTable.

Module ISMBucket.

(** ** ISMBucket.cc: a bucket of the incremental storage manager *)

(** *** Arrays and loops *)

(** [a[i]] for a [Block] or a raw pointer; outside the allocation it is an
    error of the model. *)
Definition at_ {A} (l : list A) (i : Z) : option A :=
  if decide (0 <= i < Z.of_nat (length l)) then l !! Z.to_nat i else None.

(** [a[i] = x] *)
Definition upd {A} (l : list A) (i : Z) (x : A) : option (list A) :=
  if decide (0 <= i < Z.of_nat (length l)) then Some (<[Z.to_nat i := x]> l) else None.

(** The [leng] bytes at [buf + pos]. *)
Definition bytes_at (buf : list Z) (pos leng : Z) : option (list Z) :=
  if decide (0 <= pos /\ 0 <= leng /\ pos + leng <= Z.of_nat (length buf))
  then Some (take (Z.to_nat leng) (drop (Z.to_nat pos) buf)) else None.

(** [memcpy (dst + pos, src, length src)] *)
Definition memcpy (dst : list Z) (pos : Z) (src : list Z) : option (list Z) :=
  if decide (0 <= pos /\ pos + Z.of_nat (length src) <= Z.of_nat (length dst))
  then Some (take (Z.to_nat pos) dst ++ src
             ++ drop (Z.to_nat pos + length src) dst)
  else None.

(** Modelled from the spec: [Block] (casa/Containers/Block.h) is not part
    of the sources at hand. [Block::resize (n)] allocates a larger block
    and keeps the elements; the new elements are not initialised (zero in
    the model); a smaller size leaves the block as it is. *)
Definition resize_block (l : list Z) (n : Z) : list Z :=
  l ++ replicate (Z.to_nat n - length l) 0.

(** The first elements of a block are overwritten by the values [vs]. *)
Definition fill_block (l vs : list Z) : list Z :=
  vs ++ drop (length vs) l.

(** [for (i=i0; i<i0+n; i++) body], with [n] the iterations still to do. *)
Fixpoint for_loop {St} (n i : nat) (body : nat -> St -> option St) (s : St)
    : option St :=
  match n with
  | O => Some s
  | S n' => s' ← body i s; for_loop n' (S i) body s'
  end.

(** [for (i=0; i<n; i++) body] *)
Definition for_upto {St} (n : nat) (body : nat -> St -> option St) (s : St)
    : option St :=
  for_loop n 0%nat body s.

(** *** External format of an unsigned integer *)

Definition uIntSize : Z := 4.
Definition rownrSize : Z := 8.

Fixpoint encodeLE (n : nat) (v : Z) : list Z :=
  match n with
  | O => []
  | S n => v mod 256 :: encodeLE n (v / 256)
  end.

Fixpoint decodeLE (bs : list Z) : Z :=
  match bs with
  | [] => 0
  | b :: bs => b + 256 * decodeLE bs
  end.

(** Big-endian (canonical) or little-endian format, as the storage manager
    was created. *)
Definition encode (be : bool) (n : nat) (v : Z) : list Z :=
  if be then rev (encodeLE n v) else encodeLE n v.

Definition decode (be : bool) (bs : list Z) : Z :=
  decodeLE (if be then rev bs else bs).

(** [writeuInt (out, in, nr)] and [writeRownr (out, in, nr)]: the bytes
    written for the values [vs]. *)
Definition writeuInt (be : bool) (vs : list Z) : list Z :=
  flat_map (encode be 4) vs.

Definition writeRownr (be : bool) (vs : list Z) : list Z :=
  flat_map (encode be 8) vs.

(** [readuInt (&v, buf + pos, 1)] *)
Definition readuInt (be : bool) (buf : list Z) (pos : Z) : option Z :=
  decode be <$> bytes_at buf pos uIntSize.

Definition readRownr (be : bool) (buf : list Z) (pos : Z) : option Z :=
  decode be <$> bytes_at buf pos rownrSize.

(** [n] values of [size] bytes each from [buf + pos]. *)
Fixpoint read_values (be : bool) (size : Z) (buf : list Z) (pos : Z) (n : nat)
    : option (list Z) :=
  match n with
  | O => Some []
  | S n =>
      v ← decode be <$> bytes_at buf pos size;
      vs ← read_values be size buf (pos + size) n;
      Some (v :: vs)
  end.

(** *** The storage manager and the bucket *)

(** What a bucket asks its parent [ISMBase] and [DataManager] for. *)
Record ISMBase : Type := mkISMBase {
  ncolumn : nat;
  bucketSize : Z;
  asBigEndian : bool;
  nrow : Z;
  getFixedLength : nat -> Z;
  MAXROWNR32 : Z
}.

Record bucket : Type := mkBucket {
  dataLeng_p : Z;
  indexLeng_p : Z;
  rowIndex_p : list (list Z);
  offIndex_p : list (list Z);
  indexUsed_p : list Z;
  data_p : list Z
}.

Definition set_dataLeng (b : bucket) (v : Z) : bucket :=
  mkBucket v (indexLeng_p b) (rowIndex_p b) (offIndex_p b) (indexUsed_p b) (data_p b).
Definition set_indexLeng (b : bucket) (v : Z) : bucket :=
  mkBucket (dataLeng_p b) v (rowIndex_p b) (offIndex_p b) (indexUsed_p b) (data_p b).
Definition set_rowIndex (b : bucket) (v : list (list Z)) : bucket :=
  mkBucket (dataLeng_p b) (indexLeng_p b) v (offIndex_p b) (indexUsed_p b) (data_p b).
Definition set_offIndex (b : bucket) (v : list (list Z)) : bucket :=
  mkBucket (dataLeng_p b) (indexLeng_p b) (rowIndex_p b) v (indexUsed_p b) (data_p b).
Definition set_indexUsed (b : bucket) (v : list Z) : bucket :=
  mkBucket (dataLeng_p b) (indexLeng_p b) (rowIndex_p b) (offIndex_p b) v (data_p b).
Definition set_data (b : bucket) (v : list Z) : bucket :=
  mkBucket (dataLeng_p b) (indexLeng_p b) (rowIndex_p b) (offIndex_p b) (indexUsed_p b) v.

(** [ISMBucket (parent, 0)]: an empty bucket. *)
Definition ISMBucket_new (st : ISMBase) : bucket :=
  {| dataLeng_p := 0;
     indexLeng_p := wrap32 (uIntSize + Z.of_nat (ncolumn st) * uIntSize);
     rowIndex_p := replicate (ncolumn st) [];
     offIndex_p := replicate (ncolumn st) [];
     indexUsed_p := replicate (ncolumn st) 0;
     data_p := replicate (Z.to_nat (bucketSize st)) 0 |}.

(** The loop of [ISMBucket::copy] over the columns, for one of the two
    index blocks: the block is resized to the number of entries in use and
    these are copied. *)
Definition copy_blocks (used : list Z) (mine theirs : list (list Z)) (nrcol : nat)
    : option (list (list Z)) :=
  mapM (fun i : nat =>
          nused ← used !! i;
          blk ← mine !! i;
          src ← theirs !! i;
          if decide (0 <= nused <= Z.of_nat (length src))
          then Some (fill_block (resize_block blk nused) (take (Z.to_nat nused) src))
          else None)
       (seq 0 nrcol).

(** [ISMBucket::copy] *)
Definition copy (st : ISMBase) (this that : bucket) : option bucket :=
  rowIndex ← copy_blocks (indexUsed_p that) (rowIndex_p this) (rowIndex_p that) (ncolumn st);
  offIndex ← copy_blocks (indexUsed_p that) (offIndex_p this) (offIndex_p that) (ncolumn st);
  bytes ← bytes_at (data_p that) 0 (dataLeng_p that);
  data ← memcpy (data_p this) 0 bytes;
  Some {| dataLeng_p := dataLeng_p that;
          indexLeng_p := indexLeng_p that;
          rowIndex_p := rowIndex;
          offIndex_p := offIndex;
          indexUsed_p := indexUsed_p that;
          data_p := data |}.

(** *** Searching the row index *)

(** Modelled from the spec: [binarySearchBrackets] (casa/Utilities/BinarySearch)
    is not part of the sources at hand. A get "does a binary search in the
    column's row index": on the first [n] elements of an ascending container
    the search returns the index of an exact match with [found] set, and
    otherwise the index of the first greater element with [found] unset. *)
Fixpoint bsearch_loop (fuel : nat) (container : list Z) (value lower upper : Z)
    : option (bool * Z) :=
  match fuel with
  | O => None
  | S fuel =>
      if decide (lower <= upper) then
        let middle := (upper + lower) / 2 in
        x ← at_ container middle;
        if decide (x < value) then bsearch_loop fuel container value (middle + 1) upper
        else if decide (value < x) then bsearch_loop fuel container value lower (middle - 1)
        else Some (true, middle)
      else Some (false, lower)
  end.

Definition binarySearchBrackets (container : list Z) (value n : Z)
    : option (bool * Z) :=
  if decide (n = 0) then Some (false, 0)
  else bsearch_loop (S (Z.to_nat n)) container value 0 (n - 1).

(** [ISMBucket::getOffset]: the offset the returned reference points at. *)
Definition getOffset (b : bucket) (colnr : nat) (rownr : Z) : option Z :=
  rowIndex ← rowIndex_p b !! colnr;
  offIndex ← offIndex_p b !! colnr;
  used ← indexUsed_p b !! colnr;
  '(found, inx) ← binarySearchBrackets rowIndex rownr used;
  let inx := if (found : bool) then inx else wrap32 (inx - 1) in
  at_ offIndex inx.

(** The results of [ISMBucket::getInterval]: the returned index and the
    reference arguments [start], [end] and [offset]. *)
Record interval : Type := mkInterval {
  iv_index : Z;
  iv_start : Z;
  iv_end : Z;
  iv_offset : Z
}.

Definition getInterval (b : bucket) (colnr : nat) (rownr bucketNrrow : Z)
    : option interval :=
  rowIndex ← rowIndex_p b !! colnr;
  offIndex ← offIndex_p b !! colnr;
  used ← indexUsed_p b !! colnr;
  '(found, inx) ← binarySearchBrackets rowIndex rownr used;
  let index := inx in
  let inx := if (found : bool) then inx else wrap32 (inx - 1) in
  offset ← at_ offIndex inx;
  start ← at_ rowIndex inx;
  let inx := wrap32 (inx + 1) in
  end_ ← (if decide (inx = used) then Some bucketNrrow else at_ rowIndex inx);
  Some (mkInterval index start (wrap64 (end_ - 1)) offset).

(** [ISMBucket::check]: [None] when every column's row index is strictly
    increasing (the C++ function returns [True]), otherwise the offending
    column, index, row and previous row. *)
Fixpoint check_column (n : nat) (it : Z) (rowIndex : list Z)
    : option (option (Z * Z * Z)) :=
  match n with
  | O => Some None
  | S n =>
      r ← at_ rowIndex it;
      p ← at_ rowIndex (it - 1);
      if decide (r <= p) then Some (Some (it, r, p))
      else check_column n (it + 1) rowIndex
  end.

Fixpoint check_loop (n col_i : nat) (b : bucket)
    : option (option (nat * Z * Z * Z)) :=
  match n with
  | O => Some None
  | S n =>
      rowIndex ← rowIndex_p b !! col_i;
      used ← indexUsed_p b !! col_i;
      r ← check_column (Z.to_nat used - 1) 1 rowIndex;
      match r with
      | Some (it, row, prev) => Some (Some (col_i, it, row, prev))
      | None => check_loop n (S col_i) b
      end
  end.

Definition check (st : ISMBase) (b : bucket) : option (option (nat * Z * Z * Z)) :=
  check_loop (ncolumn st) 0%nat b.

(** *** Writing and reading a bucket *)

(** The loop of [write] that looks for a row number above [MAXROWNR32]:
    the last row number of every column is inspected. *)
Fixpoint use32_loop (st : ISMBase) (n i : nat) (b : bucket) : option bool :=
  match n with
  | O => Some true
  | S n =>
      nr ← indexUsed_p b !! i;
      if decide (nr > 0) then
        rowIndex ← rowIndex_p b !! i;
        last ← at_ rowIndex (nr - 1);
        if decide (last > MAXROWNR32 st) then Some false
        else use32_loop st n (S i) b
      else use32_loop st n (S i) b
  end.

(** The index block written for column [i]. *)
Definition write_column (st : ISMBase) (use32 : bool) (b : bucket) (i : nat)
    : option (list Z) :=
  nr ← indexUsed_p b !! i;
  rowIndex ← rowIndex_p b !! i;
  offIndex ← offIndex_p b !! i;
  if decide (0 <= nr /\ nr <= Z.of_nat (length rowIndex)
             /\ nr <= Z.of_nat (length offIndex)) then
    let rows := take (Z.to_nat nr) rowIndex in
    let offs := take (Z.to_nat nr) offIndex in
    Some (writeuInt (asBigEndian st) [nr]
          ++ (if use32 then writeuInt (asBigEndian st) (wrap32 <$> rows)
              else writeRownr (asBigEndian st) rows)
          ++ writeuInt (asBigEndian st) offs)
  else None.

(** [ISMBucket::write]: the contents of [bucketStorage] afterwards. *)
Definition write (st : ISMBase) (b : bucket) (bucketStorage : list Z)
    : option (list Z) :=
  use32 ← use32_loop st (ncolumn st) 0%nat b;
  let offset := wrap32 (dataLeng_p b + uIntSize) in
  let woffset := if (use32 : bool) then offset else Z.lor offset 0x80000000 in
  data ← bytes_at (data_p b) 0 (dataLeng_p b);
  index ← mapM (write_column st use32 b) (seq 0 (ncolumn st));
  let written := writeuInt (asBigEndian st) [woffset] ++ data ++ concat index in
  if decide (Z.of_nat (length written) <= bucketSize st
             /\ Z.of_nat (length written) <= Z.of_nat (length bucketStorage))
  then Some (written ++ drop (length written) bucketStorage)
  else None.

(** The state of the loop of [read] over the columns. *)
Record read_state : Type := mkReadState {
  rd_offset : Z;
  rd_bucket : bucket
}.

Definition read_column (st : ISMBase) (use32 : bool) (bucketStorage : list Z)
    (i : nat) (s : read_state) : option read_state :=
  let b := rd_bucket s in
  let offset := rd_offset s in
  nr ← readuInt (asBigEndian st) bucketStorage offset;
  let offset := offset + uIntSize in
  indexUsed ← upd (indexUsed_p b) (Z.of_nat i) nr;
  let indexLeng := wrap32 (indexLeng_p b + uIntSize) in
  rows ← (if use32
          then read_values (asBigEndian st) uIntSize bucketStorage offset (Z.to_nat nr)
          else read_values (asBigEndian st) rownrSize bucketStorage offset (Z.to_nat nr));
  let offset := offset + nr * (if use32 then uIntSize else rownrSize) in
  offs ← read_values (asBigEndian st) uIntSize bucketStorage offset (Z.to_nat nr);
  let offset := offset + nr * uIntSize in
  oldRows ← rowIndex_p b !! i;
  oldOffs ← offIndex_p b !! i;
  rowIndex ← upd (rowIndex_p b) (Z.of_nat i) (fill_block (resize_block oldRows nr) rows);
  offIndex ← upd (offIndex_p b) (Z.of_nat i) (fill_block (resize_block oldOffs nr) offs);
  Some (mkReadState offset
          {| dataLeng_p := dataLeng_p b;
             indexLeng_p := wrap32 (indexLeng + nr * (uIntSize + rownrSize));
             rowIndex_p := rowIndex;
             offIndex_p := offIndex;
             indexUsed_p := indexUsed;
             data_p := data_p b |}).

(** [ISMBucket::read] *)
Definition read (st : ISMBase) (b : bucket) (bucketStorage : list Z)
    : option bucket :=
  offset ← readuInt (asBigEndian st) bucketStorage 0;
  let type := Z.land offset 0xf0000000 in
  let offset := Z.land offset 0x0fffffff in
  let use32 := bool_decide (type = 0) in
  let dataLeng := wrap32 (offset - uIntSize) in
  bytes ← bytes_at bucketStorage uIntSize dataLeng;
  data ← memcpy (data_p b) 0 bytes;
  let b := {| dataLeng_p := dataLeng;
              indexLeng_p := uIntSize;
              rowIndex_p := rowIndex_p b;
              offIndex_p := offIndex_p b;
              indexUsed_p := indexUsed_p b;
              data_p := data |} in
  s ← for_upto (ncolumn st) (read_column st use32 bucketStorage)
        (mkReadState offset b);
  Some (rd_bucket s).

(** [ISMBucket (parent, bucketStorage)]: a bucket read from storage. *)
Definition ISMBucket_read (st : ISMBase) (bucketStorage : list Z) : option bucket :=
  read st (ISMBucket_new st) bucketStorage.

(** *** Changing the data of a bucket *)

(** [ISMBucket::getLength] of the item at [data_p + pos] *)
Definition getLength (st : ISMBase) (fixedLength : Z) (data : list Z) (pos : Z)
    : option Z :=
  if decide (fixedLength <> 0) then Some fixedLength
  else readuInt (asBigEndian st) data pos.

(** The inner loop of [removeData] for one column. *)
Definition adjust_offsets (used : Z) (offIndex : list Z) (offset leng : Z)
    : option (list Z) :=
  if decide (used <= Z.of_nat (length offIndex)) then
    Some (((fun o => if decide (o > offset) then wrap32 (o - leng) else o)
             <$> take (Z.to_nat used) offIndex)
          ++ drop (Z.to_nat used) offIndex)
  else None.

(** [ISMBucket::removeData] *)
Definition removeData (st : ISMBase) (b : bucket) (offset leng : Z) : option bucket :=
  leng ← getLength st leng (data_p b) offset;
  let dataLeng := wrap32 (dataLeng_p b - leng) in
  if decide (dataLeng > offset) then
    moved ← bytes_at (data_p b) (offset + leng) (dataLeng - offset);
    data ← memcpy (data_p b) offset moved;
    offIndex ← mapM (fun i : nat =>
                       used ← indexUsed_p b !! i;
                       blk ← offIndex_p b !! i;
                       adjust_offsets used blk offset leng)
                    (seq 0 (length (offIndex_p b)));
    Some {| dataLeng_p := dataLeng;
            indexLeng_p := indexLeng_p b;
            rowIndex_p := rowIndex_p b;
            offIndex_p := offIndex;
            indexUsed_p := indexUsed_p b;
            data_p := data |}
  else Some (set_dataLeng b dataLeng).

(** [ISMBucket::insertData]: the bytes are the [leng] bytes at [src + spos];
    the result is the bucket and the offset of the new item. *)
Definition insertData (st : ISMBase) (b : bucket) (src : list Z) (spos leng : Z)
    : option (bucket * Z) :=
  if decide (wrap32 (dataLeng_p b + leng + indexLeng_p b) <= bucketSize st) then
    bytes ← bytes_at src spos leng;
    data ← memcpy (data_p b) (dataLeng_p b) bytes;
    let offset := dataLeng_p b in
    Some (set_dataLeng (set_data b data) (wrap32 (dataLeng_p b + leng)), offset)
  else None.

(** The loop of [addData] that shifts the entries from [index] on one place
    to the right, starting at [i = nrused]. *)
Fixpoint shift_right (n : nat) (i : Z) (rowIndex offIndex : list Z)
    : option (list Z * list Z) :=
  match n with
  | O => Some (rowIndex, offIndex)
  | S n =>
      r ← at_ rowIndex (i - 1);
      rowIndex ← upd rowIndex i r;
      o ← at_ offIndex (i - 1);
      offIndex ← upd offIndex i o;
      shift_right n (i - 1) rowIndex offIndex
  end.

(** [ISMBucket::addData] (the [DebugAssert] is compiled out) *)
Definition addData (st : ISMBase) (b : bucket) (colnr : nat) (rownr index : Z)
    (src : list Z) (spos leng : Z) : option bucket :=
  rowIndex ← rowIndex_p b !! colnr;
  offIndex ← offIndex_p b !! colnr;
  nrused ← indexUsed_p b !! colnr;
  let '(rowIndex, offIndex) :=
    if decide (Z.of_nat (length offIndex) <= nrused)
    then (resize_block rowIndex (wrap32 (nrused + 32)),
          resize_block offIndex (wrap32 (nrused + 32)))
    else (rowIndex, offIndex) in
  rowIndex ← (if decide (index < nrused) then
                r ← at_ rowIndex index;
                if decide (rownr = r) then upd rowIndex index (wrap64 (r + 1))
                else Some rowIndex
              else Some rowIndex);
  '(rowIndex, offIndex) ← shift_right (Z.to_nat (nrused - index)) nrused rowIndex offIndex;
  indexUsed ← upd (indexUsed_p b) (Z.of_nat colnr) (wrap32 (nrused + 1));
  rowIndex ← upd rowIndex index rownr;
  let b := {| dataLeng_p := dataLeng_p b;
              indexLeng_p := wrap32 (indexLeng_p b + (uIntSize + rownrSize));
              rowIndex_p := rowIndex_p b;
              offIndex_p := offIndex_p b;
              indexUsed_p := indexUsed;
              data_p := data_p b |} in
  '(b, offset) ← insertData st b src spos leng;
  offIndex ← upd offIndex index offset;
  Some (set_offIndex (set_rowIndex b (<[colnr := rowIndex]> (rowIndex_p b)))
          (<[colnr := offIndex]> (offIndex_p b))).

(** [ISMBucket::copyData]: the other bucket afterwards and the length. *)
Definition copyData (st : ISMBase) (this other : bucket) (colnr : nat)
    (toRownr fromIndex toIndex : Z) : option (bucket * Z) :=
  offIndex ← offIndex_p this !! colnr;
  off ← at_ offIndex fromIndex;
  leng ← getLength st (getFixedLength st colnr) (data_p this) off;
  other ← addData st other colnr toRownr toIndex (data_p this) off leng;
  Some (other, leng).

(** [objmove (&a[to], &a[from], n)] *)
Definition objmove (a : list Z) (to from n : Z) : option (list Z) :=
  if decide (0 <= from /\ 0 <= n /\ from + n <= Z.of_nat (length a)) then
    memcpy a to (take (Z.to_nat n) (drop (Z.to_nat from) a))
  else None.

(** [ISMBucket::shiftLeft]; the caller passes the blocks and the use count
    of column [colnr] of the bucket itself. *)
Definition shiftLeft (st : ISMBase) (b : bucket) (colnr : nat) (index nr leng : Z)
    : option bucket :=
  b ← for_upto (Z.to_nat nr)
        (fun i b =>
           offIndex ← offIndex_p b !! colnr;
           off ← at_ offIndex (wrap32 (index + Z.of_nat i));
           removeData st b off leng)
        b;
  rowIndex ← rowIndex_p b !! colnr;
  offIndex ← offIndex_p b !! colnr;
  nused ← indexUsed_p b !! colnr;
  '(rowIndex, offIndex) ←
    (if decide (nused > wrap32 (index + nr)) then
       r ← objmove rowIndex index (wrap32 (index + nr)) (wrap32 (nused - index - nr));
       o ← objmove offIndex index (wrap32 (index + nr)) (wrap32 (nused - index - nr));
       Some (r, o)
     else Some (rowIndex, offIndex));
  indexUsed ← upd (indexUsed_p b) (Z.of_nat colnr) (wrap32 (nused - nr));
  Some {| dataLeng_p := dataLeng_p b;
          indexLeng_p := wrap32 (indexLeng_p b - nr * (uIntSize + rownrSize));
          rowIndex_p := <[colnr := rowIndex]> (rowIndex_p b);
          offIndex_p := <[colnr := offIndex]> (offIndex_p b);
          indexUsed_p := indexUsed;
          data_p := data_p b |}.

(** *** Splitting a bucket *)

(** The two new buckets and the [duplicated] block during a split. *)
Record split_state : Type := mkSplit {
  sp_left : bucket;
  sp_right : bucket;
  sp_duplicated : list bool
}.

(** The first loop of [simpleSplit]: the last row number in the bucket. *)
Definition lastRow_of (st : ISMBase) (this : bucket) : option Z :=
  for_upto (ncolumn st)
    (fun i lastRow =>
       rowIndex ← rowIndex_p this !! i;
       used ← indexUsed_p this !! i;
       row ← at_ rowIndex (wrap32 (used - 1));
       Some (if decide (row > lastRow) then row else lastRow))
    0.

(** The body of the second loop of [simpleSplit], for column [i]. *)
Definition simpleSplit_column (st : ISMBase) (this : bucket) (rownr : Z)
    (i : nat) (s : split_state) : option split_state :=
  used ← indexUsed_p this !! i;
  let index := wrap32 (used - 1) in
  rowIndex ← rowIndex_p this !! i;
  row ← at_ rowIndex index;
  '(right_, _) ← copyData st this (sp_right s) i 0 index 0;
  dup ← upd (sp_duplicated s) (Z.of_nat i) true;
  if decide (row = rownr) then
    left_ ← shiftLeft st (sp_left s) i index 1 (getFixedLength st i);
    dup ← upd dup (Z.of_nat i) false;
    Some (mkSplit left_ right_ dup)
  else Some (mkSplit (sp_left s) right_ dup).

(** [ISMBucket::simpleSplit]: [Some None] when it returns [False], otherwise
    the buckets, the [duplicated] block and [splitRownr]. *)
Definition simpleSplit (st : ISMBase) (this : bucket) (s : split_state) (rownr : Z)
    : option (option (split_state * Z)) :=
  lastRow ← lastRow_of st this;
  if decide (rownr < lastRow) then Some None
  else
    left_ ← copy st (sp_left s) this;
    s ← for_upto (ncolumn st) (simpleSplit_column st this rownr)
          (mkSplit left_ (sp_right s) (sp_duplicated s));
    Some (Some (s, rownr)).

(** The loop of [getSplit]; it stops at the latest at [i = nr-1]. *)
Fixpoint getSplit_loop (fuel : nat) (totLeng : Z) (rowLeng cumLeng : list Z)
    (nr i diff : Z) : option (Z * Z) :=
  match fuel with
  | O => None
  | S fuel =>
      c1 ← at_ cumLeng (i - 1);
      r ← at_ rowLeng i;
      c ← at_ cumLeng i;
      if decide (c1 < wrap32 (r + totLeng - c) /\ i < wrap32 (nr - 1)) then
        getSplit_loop fuel totLeng rowLeng cumLeng nr (i + 1)
          (wrap32 (r + totLeng - c - c1))
      else Some (i, diff)
  end.

(** [ISMBucket::getSplit] *)
Definition getSplit (totLeng : Z) (rowLeng cumLeng : list Z) : option Z :=
  let nr := Z.of_nat (length rowLeng) in
  if decide (nr <= 2) then Some 1
  else
    '(i, diff) ← getSplit_loop (length rowLeng) totLeng rowLeng cumLeng nr 1 0;
    if decide (diff > 0) then
      c1 ← at_ cumLeng (i - 1);
      c ← at_ cumLeng i;
      r ← at_ rowLeng i;
      if decide (wrap32 (c1 + c - r - totLeng) > diff) then Some (i - 1)
      else Some i
    else Some i.

(** Modelled from the spec: [GenSort<rownr_t>::sort] with [Sort::Ascending]
    and [Sort::NoDuplicates] (casa/Utilities/GenSort) is not part of the
    sources at hand: "sort it (uniquely) to get all row numbers with a
    value". The model is the sorted sequence of the distinct values, whose
    length is the returned number of unique elements. *)
Fixpoint insert_unique (x : Z) (l : list Z) : list Z :=
  match l with
  | [] => [x]
  | y :: l' =>
      if decide (x < y) then x :: l
      else if decide (x = y) then l
      else y :: insert_unique x l'
  end.

Definition sort_unique (l : list Z) : list Z := foldr insert_unique [] l.

(** The row numbers of all values in all columns, the new item first. *)
Definition all_rows (st : ISMBase) (this : bucket) (rownr : Z) : option (list Z) :=
  cols ← mapM (fun i : nat =>
                 used ← indexUsed_p this !! i;
                 rowIndex ← rowIndex_p this !! i;
                 if decide (0 <= used <= Z.of_nat (length rowIndex))
                 then Some (take (Z.to_nat used) rowIndex) else None)
              (seq 0 (ncolumn st));
  Some (rownr :: concat cols).

(** The test [cursor[i] < indexUsed_p[i] && rowIndex_p[i][cursor[i]] == row];
    the row index is read only when the cursor is in range. *)
Definition matches (this : bucket) (cursor : list Z) (i : nat) (row : Z)
    : option bool :=
  c ← cursor !! i;
  used ← indexUsed_p this !! i;
  if decide (c < used) then
    rowIndex ← rowIndex_p this !! i;
    r ← at_ rowIndex c;
    Some (bool_decide (r = row))
  else Some false.

(** [cursor[i]++] *)
Definition incr (cursor : list Z) (i : nat) : option (list Z) :=
  c ← cursor !! i;
  upd cursor (Z.of_nat i) (wrap32 (c + 1)).

(** [Matrix<uInt> itemLeng(nrcol, nruniq)], kept as the list of its columns
    [j], each the list of the lengths of the items of the row [rows[j]]. *)
Definition mat_get (m : list (list Z)) (i j : nat) : option Z :=
  col ← m !! j; col !! i.

Definition mat_set (m : list (list Z)) (i j : nat) (v : Z) : option (list (list Z)) :=
  col ← m !! j;
  col ← upd col (Z.of_nat i) v;
  upd m (Z.of_nat j) col.

Record leng_state : Type := mkLeng {
  ls_cursor : list Z;
  ls_itemLeng : list (list Z);
  ls_index : Z
}.

(** The loop of [split] that gets the length of all data items. *)
Definition item_lengths (st : ISMBase) (this : bucket) (rows : list Z) (rownr : Z)
    : option leng_state :=
  let nrcol := ncolumn st in
  let nruniq := length rows in
  for_upto nruniq
    (fun j s =>
       row ← rows !! j;
       s ← for_upto nrcol
             (fun i s =>
                m ← matches this (ls_cursor s) i row;
                if (m : bool) then
                  c ← ls_cursor s !! i;
                  offIndex ← offIndex_p this !! i;
                  off ← at_ offIndex c;
                  leng ← getLength st (getFixedLength st i) (data_p this) off;
                  itemLeng ← mat_set (ls_itemLeng s) i j (wrap32 (2 * uIntSize + leng));
                  cursor ← incr (ls_cursor s) i;
                  Some (mkLeng cursor itemLeng (ls_index s))
                else Some s)
             s;
       Some (if decide (rownr = row)
             then mkLeng (ls_cursor s) (ls_itemLeng s) (Z.of_nat j) else s))
    (mkLeng (replicate nrcol 0) (replicate nruniq (replicate nrcol 0)) 0).

Record size_state : Type := mkSize {
  ss_size : list Z;
  ss_rowLeng : list Z;
  ss_cumLeng : list Z;
  ss_totLeng : Z
}.

(** The loop of [split] that determines the length of all items in each
    row, the cumulative and the total size. *)
Definition row_lengths (st : ISMBase) (itemLeng : list (list Z)) (nruniq : nat)
    : option size_state :=
  let nrcol := ncolumn st in
  for_upto nruniq
    (fun j s =>
       s ← for_upto nrcol
             (fun i s =>
                v ← mat_get itemLeng i j;
                '(size, totLeng) ←
                  (if decide (v <> 0) then
                     size ← upd (ss_size s) (Z.of_nat i) v;
                     Some (size, wrap32 (ss_totLeng s + v))
                   else Some (ss_size s, ss_totLeng s));
                sz ← size !! i;
                r ← ss_rowLeng s !! j;
                rowLeng ← upd (ss_rowLeng s) (Z.of_nat j) (wrap32 (r + sz));
                Some (mkSize size rowLeng (ss_cumLeng s) totLeng))
             s;
       cumLeng ← upd (ss_cumLeng s) (Z.of_nat j) (ss_totLeng s);
       Some (mkSize (ss_size s) (ss_rowLeng s) cumLeng (ss_totLeng s)))
    (mkSize (replicate nrcol 0) (replicate nruniq 0) (replicate nruniq 0) 0).

(** The state of the copy loops: the cursors into the columns of this
    bucket and the bucket written to. *)
Record copy_state : Type := mkCopy {
  cs_cursor : list Z;
  cs_toCursor : list Z;
  cs_bucket : bucket;
  cs_duplicated : list bool
}.

(** "Now copy values until the split index": the rows before the split go
    to the left bucket. *)
Definition copy_left (st : ISMBase) (this : bucket) (rows : list Z) (index : Z)
    (s : copy_state) : option copy_state :=
  for_upto (Z.to_nat index)
    (fun j s =>
       row ← rows !! j;
       for_upto (ncolumn st)
         (fun i s =>
            m ← matches this (cs_cursor s) i row;
            if (m : bool) then
              c ← cs_cursor s !! i;
              '(left_, _) ← copyData st this (cs_bucket s) i row c c;
              cursor ← incr (cs_cursor s) i;
              Some (mkCopy cursor (cs_toCursor s) left_ (cs_duplicated s))
            else Some s)
         s)
    s.

(** "Start with filling in the start values for that block": the first
    value of every column of the right bucket. *)
Definition copy_right_start (st : ISMBase) (this : bucket) (splitRownr : Z)
    (s : copy_state) : option copy_state :=
  for_upto (ncolumn st)
    (fun i s =>
       m ← matches this (cs_cursor s) i splitRownr;
       c ← cs_cursor s !! i;
       if (m : bool) then
         '(right_, _) ← copyData st this (cs_bucket s) i 0 c 0;
         cursor ← incr (cs_cursor s) i;
         dup ← upd (cs_duplicated s) (Z.of_nat i) false;
         Some (mkCopy cursor (cs_toCursor s) right_ dup)
       else
         '(right_, _) ← copyData st this (cs_bucket s) i 0 (wrap32 (c - 1)) 0;
         dup ← upd (cs_duplicated s) (Z.of_nat i) true;
         Some (mkCopy (cs_cursor s) (cs_toCursor s) right_ dup))
    s.

(** "Now copy the rest of the values": [index] is the split index plus 1. *)
Definition copy_right_rest (st : ISMBase) (this : bucket) (rows : list Z)
    (splitRownr : Z) (index : nat) (s : copy_state) : option copy_state :=
  for_loop (length rows - index) index
    (fun j s =>
       row ← rows !! j;
       for_upto (ncolumn st)
         (fun i s =>
            m ← matches this (cs_cursor s) i row;
            if (m : bool) then
              c ← cs_cursor s !! i;
              tc ← cs_toCursor s !! i;
              '(right_, _) ← copyData st this (cs_bucket s) i
                              (wrap64 (row - splitRownr)) c tc;
              cursor ← incr (cs_cursor s) i;
              toCursor ← incr (cs_toCursor s) i;
              Some (mkCopy cursor toCursor right_ (cs_duplicated s))
            else Some s)
         s)
    s.

(** [Block<Bool>::resize (n)] *)
Definition resize_bools (l : list bool) (n : nat) : list bool :=
  take n l ++ replicate (n - length l) false.

(** The general split, after the attempt of a simple split. *)
Definition general_split (st : ISMBase) (this : bucket) (s0 : split_state)
    (colnr : nat) (rownr lengToAdd : Z) : option (split_state * Z) :=
  let nrcol := ncolumn st in
  unsorted ← all_rows st this rownr;
  let rows := sort_unique unsorted in
  let nruniq := length rows in
  if decide (nruniq = 1%nat) then
    r ← simpleSplit st this s0 rownr;
    match r with
    | Some res => Some res
    | None => None
    end
  else
    ls ← item_lengths st this rows rownr;
    let index := ls_index ls in
    v ← mat_get (ls_itemLeng ls) colnr (Z.to_nat index);
    itemLeng ← mat_set (ls_itemLeng ls) colnr (Z.to_nat index)
                 (if decide (v = 0) then wrap32 (lengToAdd + 2 * uIntSize)
                  else wrap32 (v + lengToAdd));
    ss ← row_lengths st itemLeng nruniq;
    index ← getSplit (ss_totLeng ss) (ss_rowLeng ss) (ss_cumLeng ss);
    l ← copy_left st this rows index
          (mkCopy (replicate nrcol 0) (replicate nrcol 1) (sp_left s0)
             (sp_duplicated s0));
    splitRownr ← at_ rows index;
    r ← copy_right_start st this splitRownr
          (mkCopy (cs_cursor l) (replicate nrcol 1) (sp_right s0)
             (cs_duplicated l));
    r ← copy_right_rest st this rows splitRownr (Z.to_nat (index + 1)) r;
    Some (mkSplit (cs_bucket l) (cs_bucket r) (cs_duplicated r), splitRownr).

(** [ISMBucket::split]: the left and the right bucket, the [duplicated]
    block and the returned row number of the split. *)
Definition split (st : ISMBase) (this : bucket) (duplicated : list bool)
    (bucketStartRow bucketNrrow : Z) (colnr : nat) (rownr lengToAdd : Z)
    : option (split_state * Z) :=
  if decide (bucketNrrow > 1) then
    let s0 := mkSplit (ISMBucket_new st) (ISMBucket_new st)
                (resize_bools duplicated (ncolumn st)) in
    r ← (if decide (wrap64 (bucketStartRow + bucketNrrow) >= nrow st)
         then simpleSplit st this s0 rownr else Some None);
    match r with
    | Some res => Some res
    | None => general_split st this s0 colnr rownr lengToAdd
    end
  else None.

(** *** getSplit *)

(** "length of left bucket = cumLeng[i-1]" and "length of right bucket =
    rowLeng[i] + totleng - cumLeng[i]" when the bucket is split at [i]. *)
Definition leftSize (cumLeng : list Z) (i : Z) : Z :=
  default 0 (at_ cumLeng (i - 1)).

Definition rightSize (totLeng : Z) (rowLeng cumLeng : list Z) (i : Z) : Z :=
  default 0 (at_ rowLeng i) + totLeng - default 0 (at_ cumLeng i).

Definition sizeDiff (totLeng : Z) (rowLeng cumLeng : list Z) (i : Z) : Z :=
  Z.abs (leftSize cumLeng i - rightSize totLeng rowLeng cumLeng i).

(** Lengths as [split] computes them: all sizes are below 2^32 and the
    cumulative length never exceeds the total. *)
Definition lengths_ok (totLeng : Z) (rowLeng cumLeng : list Z) : Prop :=
  length cumLeng = length rowLeng
  /\ 0 <= totLeng
  /\ Forall (fun r => 0 <= r /\ r + totLeng < 2^32) rowLeng
  /\ Forall (fun c => 0 <= c <= totLeng) cumLeng.

Lemma at_Some {A} (l : list A) (i : Z) :
  0 <= i < Z.of_nat (length l) -> exists x, at_ l i = Some x /\ l !! Z.to_nat i = Some x.
Proof.
  intros H. unfold at_. destruct (decide _) as [_|]; [|lia].
  destruct (lookup_lt_is_Some_2 l (Z.to_nat i)) as [x Hx]; [lia|]. eauto.
Qed.


Lemma at_None {A} (l : list A) (i : Z) :
  ~ (0 <= i < Z.of_nat (length l)) -> at_ l i = None.
Proof. intros H. unfold at_. destruct (decide _); [contradiction|reflexivity]. Qed.

Lemma getSplit_loop_range totLeng rowLeng cumLeng nr : forall fuel i diff i' diff',
  getSplit_loop fuel totLeng rowLeng cumLeng nr i diff = Some (i', diff') ->
  1 <= i <= nr - 1 -> (diff > 0 -> 2 <= i) ->
  1 <= i' <= nr - 1 /\ (diff' > 0 -> 2 <= i').
Proof.
  induction fuel as [|fuel IH]; intros i diff i' diff' H Hi Hd; [discriminate|].
  cbn [getSplit_loop] in H.
  destruct (at_ cumLeng (i - 1)) as [c1|]; [|discriminate].
  destruct (at_ rowLeng i) as [r|]; [|discriminate].
  destruct (at_ cumLeng i) as [c|]; [|discriminate].
  cbn [mbind option_bind] in H.
  destruct (decide _) as [[_ Hlt]|_].
  - apply IH in H; [exact H| |lia].
    assert (wrap32 (nr - 1) <= nr - 1); [|lia].
    unfold wrap32. apply Z.mod_le; lia.
  - inversion H; subst. auto.
Qed.

(** The index [getSplit] returns is a row of the bucket other than the
    first one. *)
Lemma getSplit_range totLeng rowLeng cumLeng i :
  getSplit totLeng rowLeng cumLeng = Some i ->
  (2 <= length rowLeng)%nat ->
  1 <= i <= Z.of_nat (length rowLeng) - 1.
Proof.
  unfold getSplit. intros H Hnr.
  destruct (decide _) as [|Hn]; [inversion H; lia|].
  destruct (getSplit_loop _ _ _ _ _ _ _) as [[k diff]|] eqn:E; [|discriminate].
  apply getSplit_loop_range in E as [Hk Hd]; [|lia|lia].
  cbn [mbind option_bind] in H.
  destruct (decide (diff > 0)) as [Hpos|]; [|inversion H; lia].
  specialize (Hd Hpos).
  destruct (at_ cumLeng (k - 1)); [|discriminate].
  destruct (at_ cumLeng k); [|discriminate].
  destruct (at_ rowLeng k); [|discriminate].
  cbn [mbind option_bind] in H.
  destruct (decide _); inversion H; lia.
Qed.

(** With at most two rows the bucket is split in the middle. *)
Lemma getSplit_two totLeng rowLeng cumLeng :
  (length rowLeng <= 2)%nat -> getSplit totLeng rowLeng cumLeng = Some 1.
Proof. intros H. unfold getSplit. destruct (decide _); [done|lia]. Qed.

(** The walk over the cumulative lengths from [i] on: it stops at the
    first index [k] where the left size is no longer smaller than the
    right size, or at the last index, and [diff] is then the difference of
    the sizes at [k-1] (when the walk made a step). *)
Lemma getSplit_loop_walk totLeng rowLeng cumLeng :
  lengths_ok totLeng rowLeng cumLeng ->
  Z.of_nat (length rowLeng) < 2^32 ->
  forall (fuel : nat) i diff,
  1 <= i <= Z.of_nat (length rowLeng) - 1 ->
  Z.of_nat (length rowLeng) - i <= Z.of_nat fuel ->
  exists k diff',
    getSplit_loop fuel totLeng rowLeng cumLeng (Z.of_nat (length rowLeng)) i diff
      = Some (k, diff')
    /\ i <= k <= Z.of_nat (length rowLeng) - 1
    /\ (forall j, i <= j < k ->
          leftSize cumLeng j < rightSize totLeng rowLeng cumLeng j)
    /\ (k < Z.of_nat (length rowLeng) - 1 ->
          rightSize totLeng rowLeng cumLeng k <= leftSize cumLeng k)
    /\ diff' = (if decide (k = i) then diff
                else rightSize totLeng rowLeng cumLeng (k - 1)
                     - leftSize cumLeng (k - 1)).
Proof.
  intros (Hlen & Htot & Hrow & Hcum) Hnr.
  induction fuel as [|fuel IH]; intros i diff Hi Hfuel; [lia|].
  cbn [getSplit_loop].
  destruct (at_Some cumLeng (i - 1)) as (c1 & Ec1 & Lc1); [lia|].
  destruct (at_Some rowLeng i) as (r & Er & Lr); [lia|].
  destruct (at_Some cumLeng i) as (c & Ec & Lc); [lia|].
  rewrite Ec1, Er, Ec. cbn [mbind option_bind].
  pose proof (Forall_lookup_1 _ _ _ _ Hcum Lc1) as Hc1. cbv beta in Hc1.
  pose proof (Forall_lookup_1 _ _ _ _ Hcum Lc) as Hc. cbv beta in Hc.
  pose proof (Forall_lookup_1 _ _ _ _ Hrow Lr) as Hr. cbv beta in Hr.
  assert (Hw : wrap32 (r + totLeng - c) = r + totLeng - c).
  { unfold wrap32. apply Z.mod_small. lia. }
  assert (Hw1 : wrap32 (Z.of_nat (length rowLeng) - 1) = Z.of_nat (length rowLeng) - 1).
  { unfold wrap32. apply Z.mod_small. lia. }
  rewrite Hw, Hw1.
  assert (HL : leftSize cumLeng i = c1) by (unfold leftSize; by rewrite Ec1).
  assert (HR : rightSize totLeng rowLeng cumLeng i = r + totLeng - c)
    by (unfold rightSize; by rewrite Er, Ec).
  destruct (decide _) as [[Hlt Hlast]|Hstop].
  - destruct (IH (i + 1) (wrap32 (r + totLeng - c - c1))) as (k & d & -> & Hk & Hbefore & Hat & Hd);
      [lia|lia|].
    exists k, d. split; [done|]. split; [lia|]. split; [|split; [done|]].
    + intros j Hj. destruct (decide (j = i)) as [->|]; [lia|]. apply Hbefore. lia.
    + destruct (decide (k = i)); [lia|]. rewrite Hd.
      destruct (decide (k = i + 1)) as [->|]; [|done].
      replace (i + 1 - 1) with i by lia. rewrite HL, HR.
      unfold wrap32. apply Z.mod_small. lia.
  - exists i, diff. split; [done|]. split; [lia|]. split; [intros; lia|].
    split; [|by destruct (decide (i = i))].
    intros Hlast. lia.
Qed.

(** What [getSplit] returns for three or more rows: with [k] the index
    where the walk stops, it is [k] or [k-1], whichever gives the smaller
    difference of the sizes, as long as the left size has reached the
    right size at [k]. When the walk ends at the last index with the left
    size still smaller, the unsigned difference [left - right] wraps around
    and the previous index is returned whatever the sizes are. *)
Lemma getSplit_spec totLeng rowLeng cumLeng :
  lengths_ok totLeng rowLeng cumLeng ->
  Forall (fun r => 2 * (r + totLeng) < 2^32) rowLeng ->
  3 <= Z.of_nat (length rowLeng) < 2^32 ->
  exists k,
    1 <= k <= Z.of_nat (length rowLeng) - 1
    /\ (forall j, 1 <= j < k ->
          leftSize cumLeng j < rightSize totLeng rowLeng cumLeng j)
    /\ (k < Z.of_nat (length rowLeng) - 1 ->
          rightSize totLeng rowLeng cumLeng k <= leftSize cumLeng k)
    /\ getSplit totLeng rowLeng cumLeng =
         Some (if decide (k = 1) then 1
               else if decide (leftSize cumLeng k < rightSize totLeng rowLeng cumLeng k)
               then k - 1
               else if decide (sizeDiff totLeng rowLeng cumLeng k
                               > sizeDiff totLeng rowLeng cumLeng (k - 1))
               then k - 1 else k).
Proof.
  intros Hok Hsmall Hnr.
  destruct (getSplit_loop_walk totLeng rowLeng cumLeng Hok (proj2 Hnr)
              (length rowLeng) 1 0) as (k & d & Hloop & Hk & Hbefore & Hat & Hd); [lia|lia|].
  destruct Hok as (Hlen & Htot & Hrow & Hcum).
  exists k. split; [lia|]. split; [done|]. split; [done|].
  unfold getSplit. cbv zeta.
  destruct (decide (Z.of_nat (length rowLeng) <= 2)) as [|_]; [lia|].
  rewrite Hloop. cbn [mbind option_bind].
  destruct (decide (k = 1)) as [->|Hk1].
  { subst d. destruct (decide (0 > 0)); [lia|done]. }
  destruct (at_Some cumLeng (k - 1)) as (c1 & Ec1 & Lc1); [lia|].
  destruct (at_Some rowLeng k) as (r & Er & Lr); [lia|].
  destruct (at_Some cumLeng k) as (c & Ec & Lc); [lia|].
  destruct (at_Some cumLeng (k - 1 - 1)) as (c0 & Ec0 & Lc0); [lia|].
  destruct (at_Some rowLeng (k - 1)) as (r1 & Er1 & Lr1); [lia|].
  pose proof (Forall_lookup_1 _ _ _ _ Hcum Lc1) as Hc1. cbv beta in Hc1.
  pose proof (Forall_lookup_1 _ _ _ _ Hcum Lc) as Hc. cbv beta in Hc.
  pose proof (Forall_lookup_1 _ _ _ _ Hcum Lc0) as Hc0. cbv beta in Hc0.
  pose proof (Forall_lookup_1 _ _ _ _ Hsmall Lr) as Hr. cbv beta in Hr.
  pose proof (Forall_lookup_1 _ _ _ _ Hsmall Lr1) as Hr1. cbv beta in Hr1.
  pose proof (Forall_lookup_1 _ _ _ _ Hrow Lr) as Hr'. cbv beta in Hr'.
  pose proof (Forall_lookup_1 _ _ _ _ Hrow Lr1) as Hr1'. cbv beta in Hr1'.
  assert (HLk : leftSize cumLeng k = c1) by (unfold leftSize; by rewrite Ec1).
  assert (HRk : rightSize totLeng rowLeng cumLeng k = r + totLeng - c)
    by (unfold rightSize; by rewrite Er, Ec).
  assert (HL1 : leftSize cumLeng (k - 1) = c0) by (unfold leftSize; by rewrite Ec0).
  assert (HR1 : rightSize totLeng rowLeng cumLeng (k - 1) = r1 + totLeng - c1)
    by (unfold rightSize; by rewrite Er1, Ec1).
  pose proof (Hbefore (k - 1)) as Hprev. rewrite HL1, HR1 in Hprev.
  specialize (Hprev ltac:(lia)).
  rewrite HL1, HR1 in Hd. destruct (decide (k = 1)); [lia|]. subst d.
  destruct (decide (r1 + totLeng - c1 - c0 > 0)); [|lia].
  rewrite Ec1, Ec, Er. cbn [mbind option_bind].
  unfold sizeDiff. rewrite HLk, HRk, HL1, HR1.
  destruct (decide (c1 < r + totLeng - c)) as [Hlt|Hge].
  - (* the walk ended at the last index: the difference wraps around *)
    assert (Hw : wrap32 (c1 + c - r - totLeng) = 2^32 - (r + totLeng - c - c1)).
    { unfold wrap32.
      replace (c1 + c - r - totLeng) with (2^32 - (r + totLeng - c - c1) + (-1) * 2^32) by lia.
      rewrite Z.mod_add by lia. apply Z.mod_small. lia. }
    rewrite Hw.
    match goal with |- context [decide ?P] => destruct (decide P) end; [done|lia].
  - assert (Hw : wrap32 (c1 + c - r - totLeng) = c1 - (r + totLeng - c)).
    { unfold wrap32. rewrite Z.mod_small; lia. }
    rewrite Hw.
    rewrite (Z.abs_eq (c1 - (r + totLeng - c))) by lia.
    rewrite (Z.abs_neq (c0 - (r1 + totLeng - c1))) by lia.
    replace (- (c0 - (r1 + totLeng - c1))) with (r1 + totLeng - c1 - c0) by lia.
    repeat match goal with |- context [decide ?P] => destruct (decide P) end;
      try done; lia.
Qed.

(** C3: [getSplit] on the lengths of a bucket with one column holding the
    values of three rows, the last one much longer. The walk ends at the
    last index 2 with the left size (20) still smaller than the right size
    (1000); splitting there differs by 980 and splitting at 1 by 1000, yet
    index 1 is returned: the unsigned difference in the final comparison
    wraps around. *)
Theorem getSplit_last_index_wraps :
  getSplit 1020 [10; 10; 1000] [10; 20; 1020] = Some 1
  /\ leftSize [10; 20; 1020] 2 < rightSize 1020 [10; 10; 1000] [10; 20; 1020] 2
  /\ sizeDiff 1020 [10; 10; 1000] [10; 20; 1020] 2 = 980
  /\ sizeDiff 1020 [10; 10; 1000] [10; 20; 1020] 1 = 1000.
Proof. repeat split; reflexivity. Qed.

(** *** getOffset and getInterval *)

(** The row index of column [colnr] that is in use, with its offsets. *)
Definition column_of (b : bucket) (colnr : nat) (rows offs : list Z) : Prop :=
  exists rowIndex offIndex used,
    rowIndex_p b !! colnr = Some rowIndex
    /\ offIndex_p b !! colnr = Some offIndex
    /\ indexUsed_p b !! colnr = Some used
    /\ 0 <= used < 2^32
    /\ used <= Z.of_nat (length rowIndex) < 2^32
    /\ used <= Z.of_nat (length offIndex) < 2^32
    /\ rows = take (Z.to_nat used) rowIndex
    /\ offs = take (Z.to_nat used) offIndex.

(** [k] is the index of the greatest entry of [rows] that is less than or
    equal to [rownr]. *)
Definition greatest_le (rows : list Z) (rownr : Z) (k : nat) : Prop :=
  (exists r, rows !! k = Some r /\ r <= rownr)
  /\ forall j r, rows !! j = Some r -> r <= rownr -> (j <= k)%nat.




Lemma ascending_lookup_lt (l : list Z) : forall (i j : nat) x y,
  ascending l -> l !! i = Some x -> l !! j = Some y -> (i < j)%nat -> x < y.
Proof.
  induction l as [|a l IH]; intros i j x y Hl Hi Hj Hij; [done|].
  apply StronglySorted_inv in Hl as [Hl Ha].
  destruct j as [|j]; [lia|]. destruct i as [|i]; simpl in *.
  - inversion Hi; subst. rewrite Forall_forall in Ha. apply Ha.
    eapply list_elem_of_lookup_2; eauto.
  - eapply IH; eauto. lia.
Qed.

Lemma ascending_lookup_le (l : list Z) (i j : nat) x y :
  ascending l -> l !! i = Some x -> l !! j = Some y -> (i <= j)%nat -> x <= y.
Proof.
  intros Hl Hi Hj Hij. destruct (decide (i = j)) as [->|].
  - rewrite Hi in Hj. inversion Hj. lia.
  - pose proof (ascending_lookup_lt l i j x y Hl Hi Hj). lia.
Qed.

Lemma bsearch_loop_spec (c : list Z) (n value : Z) :
  0 <= n <= Z.of_nat (length c) -> ascending (take (Z.to_nat n) c) ->
  forall (fuel : nat) lower upper,
  0 <= lower -> upper < n -> lower <= upper + 1 -> upper - lower + 1 < Z.of_nat fuel ->
  (forall (j : nat) x, Z.of_nat j < lower -> c !! j = Some x -> x < value) ->
  (forall (j : nat) x, upper < Z.of_nat j < n -> c !! j = Some x -> value < x) ->
  exists (found : bool) p,
    bsearch_loop fuel c value lower upper = Some (found, p)
    /\ 0 <= p <= n
    /\ (found = true -> p < n /\ c !! Z.to_nat p = Some value)
    /\ (found = false ->
          (forall (j : nat) x, Z.of_nat j < p -> c !! j = Some x -> x < value)
          /\ (forall (j : nat) x, p <= Z.of_nat j < n -> c !! j = Some x -> value < x)).
Proof.
  intros Hn Hsorted.
  assert (Hmono : forall (i j : nat) x y, (i <= j)%nat -> Z.of_nat j < n ->
            c !! i = Some x -> c !! j = Some y -> x <= y).
  { intros i j x y Hij Hj Hi Hy.
    eapply (ascending_lookup_le _ i j); eauto; rewrite lookup_take_lt by lia; done. }
  induction fuel as [|fuel IH]; intros lower upper Hl Hu Hlu Hfuel Hlow Hup; [lia|].
  cbn [bsearch_loop].
  destruct (decide (lower <= upper)) as [Hle|Hgt].
  - set (middle := (upper + lower) / 2).
    assert (Hmid : lower <= middle <= upper).
    { unfold middle. split.
      - apply Z.div_le_lower_bound; lia.
      - apply Z.div_le_upper_bound; lia. }
    destruct (at_Some c middle) as (x & Ex & Lx); [lia|]. rewrite Ex.
    cbn [mbind option_bind].
    destruct (decide (x < value)) as [Hxv|Hxv]; [|destruct (decide (value < x)) as [Hvx|Hvx]].
    + apply IH; try lia; intros j y Hj Hy.
      * assert (y <= x); [|lia].
        apply (Hmono j (Z.to_nat middle) y x); auto; lia.
      * apply (Hup j); auto; lia.
    + apply IH; try lia; intros j y Hj Hy; [by apply (Hlow j)|].
      destruct (decide (upper < Z.of_nat j)); [apply (Hup j); auto; lia|].
      assert (x <= y); [|lia]. apply (Hmono (Z.to_nat middle) j x y); auto; lia.
    + exists true, middle. split; [done|]. split; [lia|]. split; [|done].
      intros _. split; [lia|]. rewrite Lx. f_equal. lia.
  - exists false, lower. split; [done|]. split; [lia|]. split; [done|].
    intros _. split; [done|]. intros j x Hj Hx. apply (Hup j); auto. lia.
Qed.

(** The contract of the binary search on an ascending row index. *)
Lemma binarySearchBrackets_spec (c : list Z) (n value : Z) :
  0 <= n <= Z.of_nat (length c) -> ascending (take (Z.to_nat n) c) ->
  exists (found : bool) p,
    binarySearchBrackets c value n = Some (found, p)
    /\ 0 <= p <= n
    /\ (found = true -> p < n /\ c !! Z.to_nat p = Some value)
    /\ (found = false ->
          (forall (j : nat) x, Z.of_nat j < p -> c !! j = Some x -> x < value)
          /\ (forall (j : nat) x, p <= Z.of_nat j < n -> c !! j = Some x -> value < x)).
Proof.
  intros Hn Hsorted. unfold binarySearchBrackets.
  destruct (decide (n = 0)) as [->|Hn0].
  - exists false, 0. split; [done|]. split; [lia|]. split; [done|].
    intros _. split; intros; lia.
  - apply bsearch_loop_spec; auto; try lia; intros; lia.
Qed.

Lemma wrap32_small z : 0 <= z < 2^32 -> wrap32 z = z.
Proof. intros. unfold wrap32. by apply Z.mod_small. Qed.








(** A bucket of a storage manager with two columns: column 0 has values
    of 4 bytes starting at rows 0 and 3, column 1 has values of variable
    length starting at rows 0, 2 and 4. *)
Definition example_bucket : bucket :=
  {| dataLeng_p := 26;
     indexLeng_p := 72;
     rowIndex_p := [[0; 3]; [0; 2; 4]];
     offIndex_p := [[0; 10]; [4; 14; 19]];
     indexUsed_p := [2; 3];
     data_p := [0; 0; 0; 1; 0; 0; 0; 6; 65; 66; 0; 0; 0; 2; 0; 0; 0; 5; 67;
                0; 0; 0; 7; 68; 69; 70] ++ replicate 102 0 |}.






(** *** The external format is read back *)

Lemma length_encodeLE n v : length (encodeLE n v) = n.
Proof. revert v. induction n as [|n IH]; intros v; simpl; [done|]. by rewrite IH. Qed.

Lemma length_encode be n v : length (encode be n v) = n.
Proof. unfold encode. destruct be; [rewrite length_rev|]; apply length_encodeLE. Qed.

Lemma decodeLE_encodeLE n : forall v, 0 <= v < 256 ^ Z.of_nat n ->
  decodeLE (encodeLE n v) = v.
Proof.
  induction n as [|n IH]; intros v Hv.
  - simpl in *. lia.
  - cbn [encodeLE decodeLE]. rewrite IH.
    + pose proof (Z.div_mod v 256). lia.
    + rewrite Nat2Z.inj_succ, Z.pow_succ_r in Hv by lia.
      split; [apply Z.div_pos; lia|]. apply Z.div_lt_upper_bound; lia.
Qed.

Lemma decode_encode be n v : 0 <= v < 256 ^ Z.of_nat n ->
  decode be (encode be n v) = v.
Proof.
  intros Hv. unfold decode, encode. destruct be.
  - rewrite rev_involutive. by apply decodeLE_encodeLE.
  - by apply decodeLE_encodeLE.
Qed.

Lemma length_flat_map_encode be (n : nat) (vs : list Z) :
  length (flat_map (encode be n) vs) = (n * length vs)%nat.
Proof.
  induction vs as [|v vs IH]; simpl; [lia|].
  rewrite length_app, length_encode, IH. lia.
Qed.

Lemma length_writeuInt be vs : Z.of_nat (length (writeuInt be vs)) = 4 * Z.of_nat (length vs).
Proof. unfold writeuInt. rewrite length_flat_map_encode. lia. Qed.

Lemma length_writeRownr be vs : Z.of_nat (length (writeRownr be vs)) = 8 * Z.of_nat (length vs).
Proof. unfold writeRownr. rewrite length_flat_map_encode. lia. Qed.

(** Reading inside a buffer: the bytes of a block that starts at [pos]. *)
Lemma bytes_at_app (pre x post : list Z) (pos leng : Z) :
  pos = Z.of_nat (length pre) -> leng = Z.of_nat (length x) ->
  bytes_at (pre ++ x ++ post) pos leng = Some x.
Proof.
  intros -> ->. unfold bytes_at. rewrite !length_app.
  destruct (decide _) as [_|]; [|lia]. f_equal.
  rewrite !Nat2Z.id, drop_app_length, take_app_length. done.
Qed.

Lemma read_values_app be (size : nat) : forall (vs : list Z) (pre post : list Z) pos,
  pos = Z.of_nat (length pre) ->
  Forall (fun v => 0 <= v < 256 ^ Z.of_nat size) vs ->
  read_values be (Z.of_nat size) (pre ++ flat_map (encode be size) vs ++ post) pos
    (length vs) = Some vs.
Proof.
  induction vs as [|v vs IH]; intros pre post pos Hpos Hvs; [done|].
  inversion Hvs as [|? ? Hv Hvs']; subst.
  cbn [read_values length flat_map]. rewrite <- !app_assoc.
  rewrite (bytes_at_app pre (encode be size v)); [|done|by rewrite length_encode].
  cbn [fmap option_fmap option_map mbind option_bind]. rewrite decode_encode by done.
  replace (pre ++ encode be size v ++ flat_map (encode be size) vs ++ post)
    with ((pre ++ encode be size v) ++ flat_map (encode be size) vs ++ post)
    by by rewrite <- app_assoc.
  rewrite IH; [done| |done]. rewrite length_app, length_encode. lia.
Qed.

Lemma readuInt_app be (pre post : list Z) pos v :
  pos = Z.of_nat (length pre) -> 0 <= v < 2^32 ->
  readuInt be (pre ++ writeuInt be [v] ++ post) pos = Some v.
Proof.
  intros Hpos Hv. unfold readuInt, writeuInt. cbn [flat_map]. rewrite app_nil_r.
  rewrite bytes_at_app; [|done|by rewrite length_encode].
  cbn [fmap option_fmap option_map]. by rewrite decode_encode.
Qed.

(** *** The type bits of the header *)

Lemma land_type_bits x : 0 <= x ->
  Z.land x 0xf0000000 = ((x / 2^28) mod 16) * 2^28.
Proof.
  intros Hx.
  change 0xf0000000 with (Z.shiftl (Z.ones 4) 28).
  rewrite <- Z.shiftl_mul_pow2, <- (Z.land_ones _ 4), <- Z.shiftr_div_pow2 by lia.
  apply Z.bits_inj'. intros n Hn.
  rewrite Z.land_spec. destruct (decide (n < 28)).
  - rewrite !Z.shiftl_spec_low by lia. apply andb_false_r.
  - rewrite !Z.shiftl_spec, Z.land_spec, Z.shiftr_spec by lia.
    f_equal. f_equal. lia.
Qed.

Lemma land_offset_bits x : 0 <= x -> Z.land x 0x0fffffff = x mod 2^28.
Proof. intros Hx. change 0x0fffffff with (Z.ones 28). by rewrite Z.land_ones. Qed.

Lemma lor_flag x : 0 <= x < 2^31 -> Z.lor x 0x80000000 = x + 2^31.
Proof.
  intros Hx. pose proof (Z.add_lor_land x (2^31)) as H.
  assert (Hl : Z.land x (2^31) = 0).
  { apply Z.bits_inj'. intros n Hn. rewrite Z.land_spec, Z.bits_0, Z.pow2_bits_eqb by lia.
    destruct (Z.eqb_spec 31 n) as [<-|]; [|apply andb_false_r].
    rewrite andb_true_r. destruct (decide (x = 0)) as [->|]; [apply Z.bits_0|].
    apply Z.bits_above_log2; [lia|]. apply Z.log2_lt_pow2; lia. }
  change 0x80000000 with (2^31). lia.
Qed.

(** *** Well-formed buckets *)

(** The sizes of the storage manager are values of [uInt]. *)
Definition st_ok (st : ISMBase) : Prop :=
  0 <= bucketSize st < 2^32 /\ 0 <= MAXROWNR32 st < 2^32.

(** The entries of column [i] that are in use. *)
Definition used_of (b : bucket) (i : nat) : Z := default 0 (indexUsed_p b !! i).

Definition rows_of (b : bucket) (i : nat) : list Z :=
  take (Z.to_nat (used_of b i)) (default [] (rowIndex_p b !! i)).

Definition offs_of (b : bucket) (i : nat) : list Z :=
  take (Z.to_nat (used_of b i)) (default [] (offIndex_p b !! i)).

(** The length of the index as [indexLeng_p] counts it: the offset at the
    beginning of the bucket, and per column the number of entries and a
    row number and an offset per entry. *)
Definition index_length (used : list Z) : Z :=
  uIntSize + foldr (fun u acc => uIntSize + u * (uIntSize + rownrSize) + acc) 0 used.

(** The invariant of a bucket of storage manager [st]: every column has
    its blocks, of which the first [indexUsed_p[i]] entries are in use; the
    row index of a column is strictly increasing; index and data fit in
    the bucket. *)
Definition column_ok (b : bucket) (i : nat) : Prop :=
  exists rowIndex offIndex used,
    rowIndex_p b !! i = Some rowIndex
    /\ offIndex_p b !! i = Some offIndex
    /\ indexUsed_p b !! i = Some used
    /\ 0 <= used <= Z.of_nat (length rowIndex)
    /\ used <= Z.of_nat (length offIndex)
    /\ Z.of_nat (length rowIndex) < 2^32
    /\ Z.of_nat (length offIndex) < 2^32
    /\ ascending (take (Z.to_nat used) rowIndex)
    /\ Forall is_rownr (take (Z.to_nat used) rowIndex)
    /\ Forall is_uInt (take (Z.to_nat used) offIndex).

Definition bucket_ok (st : ISMBase) (b : bucket) : Prop :=
  length (rowIndex_p b) = ncolumn st
  /\ length (offIndex_p b) = ncolumn st
  /\ length (indexUsed_p b) = ncolumn st
  /\ (forall i, (i < ncolumn st)%nat -> column_ok b i)
  /\ 0 <= dataLeng_p b
  /\ Z.of_nat (length (data_p b)) = bucketSize st
  /\ indexLeng_p b = index_length (indexUsed_p b)
  /\ dataLeng_p b + indexLeng_p b <= bucketSize st.

(** Some row number in use is above [MAXROWNR32]. *)
Definition row_above (st : ISMBase) (b : bucket) : Prop :=
  exists i r, (i < ncolumn st)%nat /\ r ∈ rows_of b i /\ r > MAXROWNR32 st.

(** The index block of a column in the external format. *)
Definition col_block (be use32 : bool) (used : Z) (rows offs : list Z) : list Z :=
  writeuInt be [used]
  ++ (if use32 then writeuInt be (wrap32 <$> rows) else writeRownr be rows)
  ++ writeuInt be offs.

(** The bytes [write] produces: the header, the data and the index. *)
Definition written (st : ISMBase) (b : bucket) (use32 : bool) : list Z :=
  writeuInt (asBigEndian st)
    [if use32 then dataLeng_p b + uIntSize
     else Z.lor (dataLeng_p b + uIntSize) 0x80000000]
  ++ take (Z.to_nat (dataLeng_p b)) (data_p b)
  ++ concat ((fun i => col_block (asBigEndian st) use32 (used_of b i)
                         (rows_of b i) (offs_of b i)) <$> seq 0 (ncolumn st)).

(** The bucket [read] builds from what [write] wrote for [b]: the blocks
    hold the entries in use and the data buffer the data. *)
Definition trimmed (st : ISMBase) (b : bucket) : bucket :=
  {| dataLeng_p := dataLeng_p b;
     indexLeng_p := indexLeng_p b;
     rowIndex_p := rows_of b <$> seq 0 (ncolumn st);
     offIndex_p := offs_of b <$> seq 0 (ncolumn st);
     indexUsed_p := indexUsed_p b;
     data_p := take (Z.to_nat (dataLeng_p b)) (data_p b)
               ++ replicate (Z.to_nat (bucketSize st - dataLeng_p b)) 0 |}.

Lemma mapM_seq_Some {A} (f : nat -> option A) (g : nat -> A) (k n : nat) :
  (forall i, (k <= i < k + n)%nat -> f i = Some (g i)) ->
  mapM f (seq k n) = Some (g <$> seq k n).
Proof.
  revert k. induction n as [|n IH]; intros k H; [done|].
  cbn [seq mapM fmap list_fmap]. rewrite H by lia. cbn [mbind option_bind].
  rewrite IH by (intros; apply H; lia). done.
Qed.

Lemma column_ok_used b i : column_ok b i ->
  indexUsed_p b !! i = Some (used_of b i)
  /\ (exists rowIndex, rowIndex_p b !! i = Some rowIndex
        /\ used_of b i <= Z.of_nat (length rowIndex) < 2^32
        /\ rows_of b i = take (Z.to_nat (used_of b i)) rowIndex)
  /\ (exists offIndex, offIndex_p b !! i = Some offIndex
        /\ used_of b i <= Z.of_nat (length offIndex) < 2^32
        /\ offs_of b i = take (Z.to_nat (used_of b i)) offIndex)
  /\ 0 <= used_of b i < 2^32
  /\ Z.of_nat (length (rows_of b i)) = used_of b i
  /\ Z.of_nat (length (offs_of b i)) = used_of b i
  /\ ascending (rows_of b i)
  /\ Forall is_rownr (rows_of b i)
  /\ Forall is_uInt (offs_of b i).
Proof.
  intros (rowIndex & offIndex & used & Hr & Ho & Hu & Hu1 & Hu2 & Hl1 & Hl2 & Ha & Hrr & Hoo).
  unfold rows_of, offs_of, used_of. rewrite Hr, Ho, Hu. unfold default. cbn [from_option id].
  assert (used < 2^32) by lia.
  split; [done|]. split; [exists rowIndex; repeat split; auto; lia|].
  split; [exists offIndex; repeat split; auto; lia|].
  split; [lia|]. rewrite !length_take. repeat split; auto; lia.
Qed.

(** The loop of [write] over the last row numbers finds a row number above
    [MAXROWNR32] exactly when there is one. *)
Lemma use32_loop_spec st b : forall n i,
  (forall j, (i <= j < i + n)%nat -> column_ok b j) ->
  exists u, use32_loop st n i b = Some u
    /\ (u = false <-> exists j r, (i <= j < i + n)%nat /\ r ∈ rows_of b j
                                /\ r > MAXROWNR32 st).
Proof.
  induction n as [|n IH]; intros i Hcols.
  - exists true. split; [done|]. split; [done|]. intros (j & r & Hj & _). lia.
  - cbn [use32_loop].
    destruct (column_ok_used b i (Hcols i ltac:(lia)))
      as (Hu & (rowIndex & Hr & Hlr & Hrows) & _ & Hused & Hlen & _ & Hasc & _).
    rewrite Hu. cbn [mbind option_bind].
    destruct (IH (S i)) as (u & Hloop & Hspec); [intros; apply Hcols; lia|].
    assert (Hrest : (exists j r, (S i <= j < S i + n)%nat /\ r ∈ rows_of b j
                       /\ r > MAXROWNR32 st) ->
                    exists j r, (i <= j < i + S n)%nat /\ r ∈ rows_of b j
                       /\ r > MAXROWNR32 st).
    { intros (j & r & Hj & H). exists j, r. split; [lia|done]. }
    destruct (decide (used_of b i > 0)) as [Hpos|Hzero].
    + rewrite Hr. cbn [mbind option_bind].
      destruct (at_Some rowIndex (used_of b i - 1)) as (last & -> & Llast); [lia|].
      cbn [mbind option_bind].
      assert (Hlast : rows_of b i !! Z.to_nat (used_of b i - 1) = Some last).
      { rewrite Hrows, lookup_take_lt by lia. done. }
      destruct (decide (last > MAXROWNR32 st)) as [Habove|Hbelow].
      * exists false. split; [done|]. split; [|done]. intros _.
        exists i, last. split; [lia|]. split; [|done].
        eapply list_elem_of_lookup_2; eauto.
      * exists u. split; [done|]. rewrite Hspec. split; [by apply Hrest|].
        intros (j & r & Hj & Hin & Hr'). destruct (decide (j = i)) as [->|].
        -- exfalso. apply list_elem_of_lookup_1 in Hin as [k Hk].
           assert (r <= last); [|lia].
           eapply (ascending_lookup_le _ k (Z.to_nat (used_of b i - 1))); eauto.
           apply lookup_lt_Some in Hk. lia.
        -- exists j, r. split; [lia|done].
    + exists u. split; [done|]. rewrite Hspec. split; [by apply Hrest|].
      intros (j & r & Hj & Hin & Hr'). destruct (decide (j = i)) as [->|].
      * exfalso. apply list_elem_of_lookup_1 in Hin as [k Hk].
        apply lookup_lt_Some in Hk. lia.
      * exists j, r. split; [lia|done].
Qed.

Lemma write_column_spec st use32 b i : column_ok b i ->
  write_column st use32 b i
  = Some (col_block (asBigEndian st) use32 (used_of b i) (rows_of b i) (offs_of b i)).
Proof.
  intros Hc. destruct (column_ok_used b i Hc)
    as (Hu & (rowIndex & Hr & Hlr & Hrows) & (offIndex & Ho & Hlo & Hoffs) & Hused & _).
  unfold write_column. rewrite Hu, Hr, Ho. cbn [mbind option_bind].
  destruct (decide _) as [_|]; [|lia]. by rewrite Hrows, Hoffs.
Qed.

Lemma length_col_block be use32 used rows offs :
  Z.of_nat (length rows) = used -> Z.of_nat (length offs) = used ->
  Z.of_nat (length (col_block be use32 used rows offs))
  = uIntSize + used * (if use32 then uIntSize else rownrSize) + used * uIntSize.
Proof.
  intros Hr Ho. unfold col_block, uIntSize, rownrSize.
  rewrite !length_app, !Nat2Z.inj_add, !length_writeuInt.
  destruct use32.
  - rewrite length_writeuInt, length_fmap. simpl length. lia.
  - rewrite length_writeRownr. simpl length. lia.
Qed.

Lemma used_list st b : bucket_ok st b ->
  indexUsed_p b = used_of b <$> seq 0 (ncolumn st).
Proof.
  intros (_ & _ & Hlen & _). apply list_eq. intros i.
  rewrite list_lookup_fmap. destruct (decide (i < ncolumn st)%nat).
  - rewrite lookup_seq_lt by done. cbn. unfold used_of.
    destruct (lookup_lt_is_Some_2 (indexUsed_p b) i) as [u ->]; [lia|]. done.
  - rewrite lookup_seq_ge by lia. cbn. apply lookup_ge_None. lia.
Qed.

Lemma index_blocks_length st b use32 : forall n k,
  (forall j, (k <= j < k + n)%nat -> column_ok b j) ->
  Z.of_nat (length (concat ((fun i => col_block (asBigEndian st) use32 (used_of b i)
                         (rows_of b i) (offs_of b i)) <$> seq k n)))
  <= foldr (fun u acc => uIntSize + u * (uIntSize + rownrSize) + acc) 0
       (used_of b <$> seq k n)
  /\ 0 <= Z.of_nat (length (concat ((fun i => col_block (asBigEndian st) use32
                         (used_of b i) (rows_of b i) (offs_of b i)) <$> seq k n))).
Proof.
  induction n as [|n IH]; intros k Hcols; [simpl; lia|].
  cbn [seq fmap list_fmap concat foldr]. rewrite length_app, Nat2Z.inj_add.
  destruct (column_ok_used b k (Hcols k ltac:(lia)))
    as (_ & _ & _ & Hused & Hlr & Hlo & _).
  rewrite (length_col_block _ _ _ _ _ Hlr Hlo).
  destruct (IH (S k)) as [IH1 IH2]; [intros; apply Hcols; lia|].
  change (list_fmap nat Z (used_of b)) with (fmap (M:=list) (used_of b)).
  change (list_fmap nat (list Z) ?f) with (fmap (M:=list) f) in *.
  unfold uIntSize, rownrSize in *. destruct use32; lia.
Qed.

Lemma indexLeng_lower st b : bucket_ok st b -> uIntSize <= indexLeng_p b.
Proof.
  intros Hok. pose proof (used_list st b Hok) as Hused.
  destruct Hok as (_ & _ & _ & Hcols & _ & _ & Hil & _).
  destruct (index_blocks_length st b true (ncolumn st) 0) as [H1 H0];
    [intros; apply Hcols; lia|].
  rewrite Hil. unfold index_length. rewrite Hused. lia.
Qed.

(** [write] succeeds on a well-formed bucket: the storage then starts with
    the header, the data and the index; row numbers are written as 32-bit
    values unless one of them is above [MAXROWNR32]. *)
Lemma write_spec st b storage :
  st_ok st -> bucket_ok st b -> Z.of_nat (length storage) = bucketSize st ->
  exists use32 : bool,
    (use32 = false <-> row_above st b)
    /\ write st b storage
       = Some (written st b use32 ++ drop (length (written st b use32)) storage)
    /\ Z.of_nat (length (written st b use32)) <= bucketSize st.
Proof.
  intros [Hbs Hmax] Hok Hst. pose proof (used_list st b Hok) as Hused.
  destruct Hok as (Hl1 & Hl2 & Hl3 & Hcols & Hd0 & Hdata & Hil & Hfit).
  destruct (use32_loop_spec st b (ncolumn st) 0) as (use32 & Hu & Hspec);
    [intros; apply Hcols; lia|].
  exists use32. split; [rewrite Hspec; unfold row_above; split;
    intros (j & r & Hj & H); exists j, r; (split; [lia|done])|].
  destruct (index_blocks_length st b use32 (ncolumn st) 0) as [Hlen Hlen0];
    [intros; apply Hcols; lia|].
  rewrite <- Hused in Hlen.
  assert (Hil0 : uIntSize <= indexLeng_p b).
  { rewrite Hil. unfold index_length. unfold uIntSize in *. lia. }
  assert (Hwlen : Z.of_nat (length (written st b use32)) <= bucketSize st).
  { unfold written. rewrite !length_app, !Nat2Z.inj_add, length_writeuInt, length_take.
    rewrite Hil in Hfit. unfold index_length in Hfit. simpl length.
    unfold uIntSize in *. lia. }
  split; [|done].
  unfold write. rewrite Hu. cbn [mbind option_bind].
  unfold bytes_at. destruct (decide _) as [_|]; [|unfold uIntSize in *; lia].
  cbn [mbind option_bind].
  rewrite (mapM_seq_Some _ (fun i => col_block (asBigEndian st) use32 (used_of b i)
                                       (rows_of b i) (offs_of b i)))
    by (intros; apply write_column_spec, Hcols; lia).
  cbn [mbind option_bind].
  rewrite wrap32_small by (unfold uIntSize in *; lia).
  change (Z.to_nat 0) with 0%nat. rewrite drop_0.
  fold (written st b use32).
  destruct (decide _) as [_|]; [done|lia].
Qed.

(** The bucket after [read_column] has read the block of column [k] of
    the bucket [b] that was written. *)
Definition read_step (b : bucket) (k : nat) (b0 : bucket) : bucket :=
  {| dataLeng_p := dataLeng_p b0;
     indexLeng_p := wrap32 (wrap32 (indexLeng_p b0 + uIntSize)
                            + used_of b k * (uIntSize + rownrSize));
     rowIndex_p := <[k := rows_of b k]> (rowIndex_p b0);
     offIndex_p := <[k := offs_of b k]> (offIndex_p b0);
     indexUsed_p := <[k := used_of b k]> (indexUsed_p b0);
     data_p := data_p b0 |}.

Fixpoint read_steps (b : bucket) (n k : nat) (b0 : bucket) : bucket :=
  match n with
  | O => b0
  | S n => read_steps b n (S k) (read_step b k b0)
  end.

Lemma upd_Some {A} (l : list A) (i : nat) x :
  (i < length l)%nat -> upd l (Z.of_nat i) x = Some (<[i := x]> l).
Proof.
  intros H. unfold upd. destruct (decide _); [|lia]. by rewrite Nat2Z.id.
Qed.

Lemma fill_fresh_block (vs : list Z) (n : Z) :
  Z.of_nat (length vs) = n -> fill_block (resize_block [] n) vs = vs.
Proof.
  intros H. unfold fill_block, resize_block. cbn [app length].
  rewrite drop_replicate, Nat.sub_0_r.
  replace (Z.to_nat n - length vs)%nat with 0%nat by lia. apply app_nil_r.
Qed.

Lemma read_column_spec st use32 b k (pre post : list Z) b0 :
  column_ok b k ->
  (use32 = true -> Forall is_uInt (rows_of b k)) ->
  rowIndex_p b0 !! k = Some [] -> offIndex_p b0 !! k = Some [] ->
  (k < length (indexUsed_p b0))%nat ->
  read_column st use32
    (pre ++ col_block (asBigEndian st) use32 (used_of b k) (rows_of b k) (offs_of b k)
         ++ post)
    k (mkReadState (Z.of_nat (length pre)) b0)
  = Some (mkReadState
            (Z.of_nat (length pre)
             + Z.of_nat (length (col_block (asBigEndian st) use32 (used_of b k)
                                   (rows_of b k) (offs_of b k))))
            (read_step b k b0)).
Proof.
  intros Hc H32 Hk1' Hk2' Hk3.
  pose proof (lookup_lt_Some _ _ _ Hk1') as Hk1.
  pose proof (lookup_lt_Some _ _ _ Hk2') as Hk2.
  destruct (column_ok_used b k Hc)
    as (_ & _ & _ & Hused & Hlr & Hlo & _ & Hrr & Hoo).
  rewrite (length_col_block _ _ _ _ _ Hlr Hlo).
  unfold read_column. cbn [rd_bucket rd_offset].
  unfold col_block. rewrite <- !app_assoc.
  rewrite readuInt_app by (auto; lia). cbn [mbind option_bind].
  rewrite upd_Some by done. cbn [mbind option_bind].
  set (be := asBigEndian st).
  set (rowbytes := if use32 then writeuInt be (wrap32 <$> rows_of b k)
                   else writeRownr be (rows_of b k)).
  assert (Hrows :
    (if use32
     then read_values be uIntSize
            (pre ++ writeuInt be [used_of b k] ++ rowbytes
                 ++ writeuInt be (offs_of b k) ++ post)
            (Z.of_nat (length pre) + uIntSize) (Z.to_nat (used_of b k))
     else read_values be rownrSize
            (pre ++ writeuInt be [used_of b k] ++ rowbytes
                 ++ writeuInt be (offs_of b k) ++ post)
            (Z.of_nat (length pre) + uIntSize) (Z.to_nat (used_of b k)))
    = Some (rows_of b k)).
  { replace (Z.to_nat (used_of b k)) with (length (rows_of b k)) by lia.
    replace (pre ++ writeuInt be [used_of b k] ++ rowbytes
                 ++ writeuInt be (offs_of b k) ++ post)
      with ((pre ++ writeuInt be [used_of b k]) ++ rowbytes
                 ++ writeuInt be (offs_of b k) ++ post) by by rewrite <- app_assoc.
    assert (Hpos : Z.of_nat (length pre) + uIntSize
                   = Z.of_nat (length (pre ++ writeuInt be [used_of b k]))).
    { rewrite length_app, Nat2Z.inj_add, length_writeuInt. simpl. unfold uIntSize. lia. }
    subst rowbytes. destruct use32.
    - assert (Hw : wrap32 <$> rows_of b k = rows_of b k).
      { specialize (H32 eq_refl). clear -H32. induction H32 as [|x l Hx _ IH]; [done|].
        cbn. rewrite IH. f_equal. by apply wrap32_small. }
      rewrite Hw. change uIntSize with (Z.of_nat 4) at 1. unfold writeuInt at 2.
      apply read_values_app; [done|]. exact (H32 eq_refl).
    - change rownrSize with (Z.of_nat 8). unfold writeRownr.
      apply read_values_app; [done|]. exact Hrr. }
  rewrite Hrows. cbn [mbind option_bind].
  assert (Hrowlen : Z.of_nat (length rowbytes)
                    = used_of b k * (if use32 then uIntSize else rownrSize)).
  { subst rowbytes. unfold uIntSize, rownrSize. destruct use32.
    - rewrite length_writeuInt, length_fmap. lia.
    - rewrite length_writeRownr. lia. }
  assert (Hoffs :
    read_values be uIntSize
      (pre ++ writeuInt be [used_of b k] ++ rowbytes
           ++ writeuInt be (offs_of b k) ++ post)
      (Z.of_nat (length pre) + uIntSize
       + used_of b k * (if use32 then uIntSize else rownrSize))
      (Z.to_nat (used_of b k))
    = Some (offs_of b k)).
  { replace (pre ++ writeuInt be [used_of b k] ++ rowbytes
                 ++ writeuInt be (offs_of b k) ++ post)
      with ((pre ++ writeuInt be [used_of b k] ++ rowbytes)
                 ++ writeuInt be (offs_of b k) ++ post)
      by by rewrite <- !app_assoc.
    replace (Z.to_nat (used_of b k)) with (length (offs_of b k)) by lia.
    change (read_values be uIntSize) with (read_values be (Z.of_nat 4)).
    change (writeuInt be (offs_of b k)) with (flat_map (encode be 4) (offs_of b k)).
    apply read_values_app; [|exact Hoo].
    rewrite !length_app, !Nat2Z.inj_add, length_writeuInt, Hrowlen. simpl length.
    unfold uIntSize. lia. }
  rewrite Hoffs. cbn [mbind option_bind].
  rewrite Hk1', Hk2'. cbn [mbind option_bind].
  rewrite !fill_fresh_block by done.
  rewrite !upd_Some by done. cbn [mbind option_bind].
  unfold read_step. f_equal. f_equal.
  unfold uIntSize, rownrSize. destruct use32; lia.
Qed.

Lemma read_columns_spec st use32 b : forall (n k : nat) (pre post : list Z) b0,
  (forall j, (k <= j < k + n)%nat ->
     column_ok b j /\ (use32 = true -> Forall is_uInt (rows_of b j))) ->
  (forall j, (k <= j < k + n)%nat -> rowIndex_p b0 !! j = Some []) ->
  (forall j, (k <= j < k + n)%nat -> offIndex_p b0 !! j = Some []) ->
  (k + n <= length (indexUsed_p b0))%nat ->
  for_loop n k
    (read_column st use32
       (pre ++ concat ((fun i => col_block (asBigEndian st) use32 (used_of b i)
                                  (rows_of b i) (offs_of b i)) <$> seq k n) ++ post))
    (mkReadState (Z.of_nat (length pre)) b0)
  = Some (mkReadState
            (Z.of_nat (length pre)
             + Z.of_nat (length (concat ((fun i => col_block (asBigEndian st) use32
                  (used_of b i) (rows_of b i) (offs_of b i)) <$> seq k n))))
            (read_steps b n k b0)).
Proof.
  induction n as [|n IH]; intros k pre post b0 Hcols H1 H2 H3.
  - cbn. do 2 f_equal. lia.
  - cbn [seq fmap list_fmap concat for_loop read_steps].
    change (list_fmap nat (list Z) ?f) with (fmap (M:=list) f).
    rewrite <- app_assoc.
    destruct (Hcols k ltac:(lia)) as [Hc H32].
    rewrite read_column_spec by (auto; try lia; try (apply H1; lia); try (apply H2; lia)).
    cbn [mbind option_bind].
    rewrite <- Nat2Z.inj_add, <- length_app.
    replace (pre ++ col_block (asBigEndian st) use32 (used_of b k) (rows_of b k) (offs_of b k)
               ++ concat ((fun i => col_block (asBigEndian st) use32 (used_of b i)
                                      (rows_of b i) (offs_of b i)) <$> seq (S k) n) ++ post)
      with ((pre ++ col_block (asBigEndian st) use32 (used_of b k) (rows_of b k) (offs_of b k))
               ++ concat ((fun i => col_block (asBigEndian st) use32 (used_of b i)
                                      (rows_of b i) (offs_of b i)) <$> seq (S k) n) ++ post)
      by by rewrite <- app_assoc.
    rewrite IH.
    + do 2 f_equal. rewrite !length_app. lia.
    + intros j Hj. apply Hcols. lia.
    + intros j Hj. cbn. rewrite list_lookup_insert_ne by lia. apply H1. lia.
    + intros j Hj. cbn. rewrite list_lookup_insert_ne by lia. apply H2. lia.
    + cbn. rewrite length_insert. lia.
Qed.

Lemma take_S_insert {A} (l : list A) (k : nat) x :
  (k < length l)%nat -> take (S k) (<[k := x]> l) = take k l ++ [x].
Proof.
  intros H. rewrite (take_S_r _ _ x) by by apply list_lookup_insert_eq.
  by rewrite take_insert_ge by lia.
Qed.

Lemma wrap32_add_l a b : wrap32 (wrap32 a + b) = wrap32 (a + b).
Proof. unfold wrap32. apply Zplus_mod_idemp_l. Qed.

Lemma wrap32_range a : 0 <= wrap32 a < 2^32.
Proof. unfold wrap32. apply Z.mod_pos_bound. lia. Qed.

Lemma read_steps_fields b : forall (n k : nat) b0,
  0 <= indexLeng_p b0 < 2^32 ->
  length (rowIndex_p b0) = (k + n)%nat -> length (offIndex_p b0) = (k + n)%nat ->
  length (indexUsed_p b0) = (k + n)%nat ->
  rowIndex_p (read_steps b n k b0) = take k (rowIndex_p b0) ++ (rows_of b <$> seq k n)
  /\ offIndex_p (read_steps b n k b0) = take k (offIndex_p b0) ++ (offs_of b <$> seq k n)
  /\ indexUsed_p (read_steps b n k b0) = take k (indexUsed_p b0) ++ (used_of b <$> seq k n)
  /\ dataLeng_p (read_steps b n k b0) = dataLeng_p b0
  /\ data_p (read_steps b n k b0) = data_p b0
  /\ indexLeng_p (read_steps b n k b0)
     = wrap32 (indexLeng_p b0
               + foldr (fun u acc => uIntSize + u * (uIntSize + rownrSize) + acc) 0
                   (used_of b <$> seq k n)).
Proof.
  induction n as [|n IH]; intros k b0 H0 H1 H2 H3.
  - cbn [read_steps seq fmap list_fmap foldr]. rewrite !app_nil_r, !firstn_all2 by lia.
    rewrite Z.add_0_r, wrap32_small by done. done.
  - cbn [read_steps seq fmap list_fmap foldr].
    change (list_fmap nat ?B ?f) with (fmap (M:=list) f).
    destruct (IH (S k) (read_step b k b0)) as (E1 & E2 & E3 & E4 & E5 & E6);
      [apply wrap32_range|cbn; rewrite length_insert; lia..|].
    rewrite E1, E2, E3, E4, E5, E6. cbn [read_step rowIndex_p offIndex_p indexUsed_p
      dataLeng_p data_p indexLeng_p].
    rewrite !take_S_insert by lia. rewrite <- !app_assoc.
    repeat split; try done.
    rewrite !wrap32_add_l, <- Z.add_assoc, wrap32_add_l.
    apply (f_equal wrap32). unfold uIntSize, rownrSize. lia.
Qed.

Lemma not_row_above_uInt st b i :
  st_ok st -> (i < ncolumn st)%nat -> column_ok b i -> ~ row_above st b ->
  Forall is_uInt (rows_of b i).
Proof.
  intros [_ Hmax] Hi Hc Hno.
  destruct (column_ok_used b i Hc) as (_ & _ & _ & _ & _ & _ & _ & Hrr & _).
  rewrite Forall_forall in Hrr |- *. intros r Hr. specialize (Hrr _ Hr).
  unfold is_uInt, is_rownr in *. split; [lia|].
  destruct (decide (r > MAXROWNR32 st)); [|lia].
  exfalso. apply Hno. exists i, r. auto.
Qed.

Lemma readuInt_head be (post : list Z) v :
  0 <= v < 2^32 -> readuInt be (writeuInt be [v] ++ post) 0 = Some v.
Proof. intros Hv. by apply (readuInt_app be [] post 0 v). Qed.

(** [read] of what [write] wrote, into an empty bucket of the same storage
    manager, when the offset of the index leaves the four type bits of the
    header free. *)
Lemma read_written st b (use32 : bool) (rest : list Z) :
  st_ok st -> bucket_ok st b ->
  (use32 = false <-> row_above st b) ->
  dataLeng_p b + uIntSize < 2^28 ->
  ISMBucket_read st (written st b use32 ++ rest) = Some (trimmed st b).
Proof.
  intros Hst Hok Hu Hsmall. pose proof (used_list st b Hok) as Hused.
  assert (Hsz : uIntSize = 4) by reflexivity.
  pose proof Hok as (Hl1 & Hl2 & Hl3 & Hcols & Hd0 & Hdata & Hil & Hfit).
  destruct Hst as [Hbs Hmax].
  assert (Hil0 : uIntSize <= indexLeng_p b).
  { destruct (index_blocks_length st b true (ncolumn st) 0) as [_ H0];
      [intros; apply Hcols; lia|].
    destruct (index_blocks_length st b true (ncolumn st) 0) as [H1 _];
      [intros; apply Hcols; lia|].
    rewrite Hil. unfold index_length. rewrite Hused. lia. }
  unfold ISMBucket_read, read, written.
  set (woffset := if use32 then dataLeng_p b + uIntSize
                  else Z.lor (dataLeng_p b + uIntSize) 0x80000000).
  set (blocks := concat ((fun i => col_block (asBigEndian st) use32 (used_of b i)
                            (rows_of b i) (offs_of b i)) <$> seq 0 (ncolumn st))).
  assert (Hw : woffset = dataLeng_p b + uIntSize + (if use32 then 0 else 2^31)).
  { subst woffset. destruct use32; [lia|]. apply lor_flag. unfold uIntSize in *. lia. }
  rewrite <- !app_assoc.
  rewrite readuInt_head by (unfold uIntSize in *; destruct use32; simpl; lia).
  cbn [mbind option_bind].
  assert (Htype : bool_decide (Z.land woffset 0xf0000000 = 0) = use32).
  { rewrite land_type_bits by (unfold uIntSize in *; destruct use32; lia).
    rewrite Hw. unfold uIntSize in *. destruct use32.
    - rewrite Z.add_0_r, Z.div_small by lia. by apply bool_decide_eq_true.
    - replace (dataLeng_p b + 4 + 2 ^ 31) with (dataLeng_p b + 4 + 8 * 2^28) by lia.
      rewrite Z.div_add, Z.div_small by lia. by apply bool_decide_eq_false. }
  assert (Hoff : Z.land woffset 0x0fffffff = dataLeng_p b + uIntSize).
  { rewrite land_offset_bits by (unfold uIntSize in *; destruct use32; lia).
    rewrite Hw. unfold uIntSize in *. destruct use32.
    - rewrite Z.add_0_r. apply Z.mod_small. lia.
    - replace (dataLeng_p b + 4 + 2 ^ 31) with (dataLeng_p b + 4 + 8 * 2^28) by lia.
      rewrite Z.mod_add by lia. apply Z.mod_small. lia. }
  rewrite Htype, Hoff.
  replace (dataLeng_p b + uIntSize - uIntSize) with (dataLeng_p b) by lia.
  rewrite (wrap32_small (dataLeng_p b)) by lia.
  assert (Hdl : Z.of_nat (length (take (Z.to_nat (dataLeng_p b)) (data_p b))) = dataLeng_p b).
  { rewrite length_take. lia. }
  rewrite (bytes_at_app (writeuInt (asBigEndian st) [woffset]));
    [|by rewrite length_writeuInt|by rewrite Hdl].
  cbn [mbind option_bind].
  unfold memcpy. cbn [ISMBucket_new data_p]. rewrite length_replicate.
  destruct (decide _) as [_|]; [|lia]. cbn [mbind option_bind].
  change (Z.to_nat 0) with 0%nat. rewrite take_0, Nat.add_0_l. cbn [app].
  rewrite drop_replicate.
  replace (Z.to_nat (bucketSize st) - length (take (Z.to_nat (dataLeng_p b)) (data_p b)))%nat
    with (Z.to_nat (bucketSize st - dataLeng_p b)) by lia.
  unfold for_upto.
  replace (writeuInt (asBigEndian st) [woffset]
             ++ take (Z.to_nat (dataLeng_p b)) (data_p b) ++ blocks ++ rest)
    with ((writeuInt (asBigEndian st) [woffset]
             ++ take (Z.to_nat (dataLeng_p b)) (data_p b)) ++ blocks ++ rest)
    by by rewrite <- app_assoc.
  replace (dataLeng_p b + uIntSize)
    with (Z.of_nat (length (writeuInt (asBigEndian st) [woffset]
                              ++ take (Z.to_nat (dataLeng_p b)) (data_p b))))
    by (rewrite length_app, Nat2Z.inj_add, length_writeuInt, Hdl; simpl; unfold uIntSize; lia).
  subst blocks.
  rewrite read_columns_spec; cbn [rowIndex_p offIndex_p indexUsed_p ISMBucket_new];
    rewrite ?length_replicate; try lia;
    try (intros j Hj; apply lookup_replicate_2; lia).
  2:{ intros j Hj. split; [apply Hcols; lia|]. intros ->.
      apply (not_row_above_uInt st); auto; try lia; try done.
      - apply Hcols; lia.
      - intros Habove. apply Hu in Habove. discriminate. }
  cbn [mbind option_bind rd_bucket]. f_equal.
  match goal with |- read_steps b ?n ?k ?b0 = _ =>
    destruct (read_steps_fields b n k b0) as (E1 & E2 & E3 & E4 & E5 & E6) end.
  { cbn [indexLeng_p]. lia. }
  { cbn [rowIndex_p ISMBucket_new]. by rewrite length_replicate. }
  { cbn [offIndex_p ISMBucket_new]. by rewrite length_replicate. }
  { cbn [indexUsed_p ISMBucket_new]. by rewrite length_replicate. }
  cbn [rowIndex_p offIndex_p indexUsed_p indexLeng_p dataLeng_p data_p ISMBucket_new] in *.
  cbn [take app] in E1, E2, E3.
  unfold trimmed.
  match goal with |- ?x = _ => destruct x as [dl il ri oi iu dp] end.
  cbn [rowIndex_p offIndex_p indexUsed_p indexLeng_p dataLeng_p data_p] in *.
  rewrite E1, E2, E3, E4, E5, E6, <- Hused. f_equal.
  rewrite Hil. unfold index_length. rewrite Hused. apply wrap32_small.
  fold (index_length (used_of b <$> seq 0 (ncolumn st))). rewrite <- Hused, <- Hil.
  unfold uIntSize in *. lia.
Qed.

Lemma at_take {A} (l : list A) (n i : Z) :
  0 <= i < n -> n <= Z.of_nat (length l) -> at_ (take (Z.to_nat n) l) i = at_ l i.
Proof.
  intros Hi Hn. unfold at_. rewrite length_take.
  destruct (decide _), (decide _); try lia; try done.
  apply lookup_take_lt. lia.
Qed.

Lemma bsearch_loop_take (c : list Z) (n v : Z) : n <= Z.of_nat (length c) ->
  forall (fuel : nat) lower upper, 0 <= lower -> upper < n ->
  bsearch_loop fuel (take (Z.to_nat n) c) v lower upper = bsearch_loop fuel c v lower upper.
Proof.
  intros Hn. induction fuel as [|fuel IH]; intros lower upper Hl Hu; [done|].
  cbn [bsearch_loop]. destruct (decide (lower <= upper)); [|done].
  assert (lower <= (upper + lower) / 2 <= upper).
  { split; [apply Z.div_le_lower_bound|apply Z.div_le_upper_bound]; lia. }
  rewrite at_take by lia. destruct (at_ c _) as [x|]; [|done]. cbn [mbind option_bind].
  rewrite !IH by lia. done.
Qed.

Lemma bsearch_loop_index (c : list Z) (v : Z) : forall (fuel : nat) lower upper found p,
  lower <= upper + 1 ->
  bsearch_loop fuel c v lower upper = Some (found, p) ->
  lower <= p <= upper + 1 /\ (found = true -> p <= upper).
Proof.
  induction fuel as [|fuel IH]; intros lower upper found p Hlu H; [discriminate|].
  cbn [bsearch_loop] in H. destruct (decide (lower <= upper)).
  - assert (lower <= (upper + lower) / 2 <= upper).
    { split; [apply Z.div_le_lower_bound|apply Z.div_le_upper_bound]; lia. }
    destruct (at_ c _) as [x|]; [|discriminate]. cbn [mbind option_bind] in H.
    destruct (decide (x < v)); [|destruct (decide (v < x))].
    + apply IH in H as [H1 H2]; [|lia]. split; [lia|]. intros Hf. specialize (H2 Hf). lia.
    + apply IH in H as [H1 H2]; [|lia]. split; [lia|]. intros Hf. specialize (H2 Hf). lia.
    + inversion H; subst. split; [lia|]. intros _. lia.
  - inversion H; subst. split; [lia|discriminate].
Qed.

Lemma binarySearchBrackets_take (c : list Z) (n v : Z) :
  0 <= n <= Z.of_nat (length c) ->
  binarySearchBrackets (take (Z.to_nat n) c) v n = binarySearchBrackets c v n
  /\ forall found p, binarySearchBrackets c v n = Some (found, p) ->
       0 <= p <= n /\ (found = true -> p < n).
Proof.
  intros Hn. unfold binarySearchBrackets. destruct (decide (n = 0)).
  - split; [done|]. intros found p H. inversion H; subst. split; [lia|discriminate].
  - split; [apply bsearch_loop_take; lia|].
    intros found p H. apply bsearch_loop_index in H as [H1 H2]; [|lia].
    split; [lia|]. intros Hf. specialize (H2 Hf). lia.
Qed.

(** The gets do not see the entries that are not in use. *)
Lemma gets_trimmed st b (colnr : nat) (rownr bucketNrrow : Z) :
  bucket_ok st b ->
  getOffset (trimmed st b) colnr rownr = getOffset b colnr rownr
  /\ getInterval (trimmed st b) colnr rownr bucketNrrow
     = getInterval b colnr rownr bucketNrrow.
Proof.
  intros Hok. pose proof Hok as (Hl1 & Hl2 & Hl3 & Hcols & _).
  unfold getOffset, getInterval. cbn [trimmed rowIndex_p offIndex_p indexUsed_p].
  rewrite !list_lookup_fmap.
  destruct (decide (colnr < ncolumn st)%nat) as [Hc|Hc].
  - rewrite lookup_seq_lt by done. cbn [fmap option_fmap option_map Nat.add mbind option_bind].
    destruct (column_ok_used b colnr (Hcols _ Hc))
      as (Hu & (rowIndex & Hr & Hlr & Hrows) & (offIndex & Ho & Hlo & Hoffs) & Hused & _).
    rewrite Hu, Hr, Ho, Hrows, Hoffs. cbn [mbind option_bind].
    destruct (binarySearchBrackets_take rowIndex (used_of b colnr) rownr) as [-> Hrange]; [lia|].
    destruct (binarySearchBrackets rowIndex rownr (used_of b colnr)) as [[found p]|]; [|done].
    destruct (Hrange found p eq_refl) as [Hp Hfound]. cbn [mbind option_bind].
    set (inx := if found then p else wrap32 (p - 1)).
    assert (Hinx : 0 <= inx < used_of b colnr \/ (inx = 2^32 - 1 /\ found = false)).
    { subst inx. destruct found; [left; specialize (Hfound eq_refl); lia|].
      destruct (decide (p = 0)) as [->|]; [right; done|].
      left. rewrite wrap32_small; lia. }
    destruct Hinx as [Hin|[Hout _]].
    + rewrite (at_take offIndex) by lia. split; [reflexivity|].
      destruct (at_ offIndex inx); [|reflexivity]. cbn [mbind option_bind].
      rewrite (at_take rowIndex _ inx) by lia.
      destruct (at_ rowIndex inx); [|reflexivity]. cbn [mbind option_bind].
      rewrite wrap32_small by lia.
      destruct (decide (inx + 1 = used_of b colnr)); [reflexivity|].
      rewrite at_take by lia. reflexivity.
    + rewrite !(at_None _ inx); [done|lia|rewrite length_take; lia|lia|rewrite length_take; lia].
  - rewrite lookup_seq_ge by lia. rewrite (lookup_ge_None_2 (rowIndex_p b)) by lia. done.
Qed.

Lemma rows_of_trimmed st b i : (i < ncolumn st)%nat -> bucket_ok st b ->
  used_of (trimmed st b) i = used_of b i
  /\ rows_of (trimmed st b) i = rows_of b i
  /\ offs_of (trimmed st b) i = offs_of b i.
Proof.
  intros Hi Hok. unfold rows_of at 1, offs_of at 1, used_of at 1 2.
  cbn [trimmed rowIndex_p offIndex_p indexUsed_p].
  rewrite !list_lookup_fmap, lookup_seq_lt by done.
  cbn [fmap option_fmap option_map Nat.add default from_option id].
  split; [done|]. fold (used_of b i).
  unfold default. cbn [from_option id]. unfold rows_of, offs_of.
  rewrite !take_take, !Nat.min_id. done.
Qed.

Lemma written_length_le st b use32 storage :
  Z.of_nat (length (written st b use32)) <= Z.of_nat (length storage) ->
  length (written st b use32 ++ drop (length (written st b use32)) storage)
  = length storage.
Proof. intros H. rewrite length_app, length_drop. lia. Qed.

(** C1: [write] into a buffer followed by [read] of the buffer into an
    empty bucket of the same storage manager, for a bucket whose index
    offset [dataLeng + 4] is below 2^28. Both succeed and the bucket read
    has the same data length and index length, the same entry counts, row
    numbers and offsets in every column and the same data bytes, hence the
    same results of [getOffset] and [getInterval] for every row. The header
    holds the index offset, with the top bit set exactly when a row number
    above [MAXROWNR32] is stored; the row numbers are then written as
    64-bit values and otherwise as 32-bit values. *)
Theorem write_read_roundtrip st b storage :
  st_ok st -> bucket_ok st b -> Z.of_nat (length storage) = bucketSize st ->
  dataLeng_p b + uIntSize < 2^28 ->
  exists w b' (use32 : bool) header,
    write st b storage = Some w
    /\ ISMBucket_read st w = Some b'
    /\ dataLeng_p b' = dataLeng_p b
    /\ indexLeng_p b' = indexLeng_p b
    /\ indexUsed_p b' = indexUsed_p b
    /\ (forall i, (i < ncolumn st)%nat ->
          rows_of b' i = rows_of b i /\ offs_of b' i = offs_of b i)
    /\ take (Z.to_nat (dataLeng_p b)) (data_p b')
       = take (Z.to_nat (dataLeng_p b)) (data_p b)
    /\ (forall colnr rownr, getOffset b' colnr rownr = getOffset b colnr rownr)
    /\ (forall colnr rownr n,
          getInterval b' colnr rownr n = getInterval b colnr rownr n)
    /\ readuInt (asBigEndian st) w 0 = Some header
    /\ Z.land header 0x0fffffff = dataLeng_p b + uIntSize
    /\ (Z.testbit header 31 = true <-> row_above st b)
    /\ (use32 = false <-> row_above st b)
    /\ take (length (written st b use32)) w
       = writeuInt (asBigEndian st) [header]
         ++ take (Z.to_nat (dataLeng_p b)) (data_p b)
         ++ concat ((fun i =>
                       writeuInt (asBigEndian st) [used_of b i]
                       ++ (if use32
                           then writeuInt (asBigEndian st) (rows_of b i)
                           else writeRownr (asBigEndian st) (rows_of b i))
                       ++ writeuInt (asBigEndian st) (offs_of b i))
                    <$> seq 0 (ncolumn st)).
Proof.
  intros Hst Hok Hlen Hsmall.
  destruct (write_spec st b storage Hst Hok Hlen) as (use32 & Hu & Hw & Hwl).
  pose proof (read_written st b use32 (drop (length (written st b use32)) storage)
                Hst Hok Hu Hsmall) as Hr.
  pose proof Hok as (Hl1 & Hl2 & Hl3 & Hcols & Hd0 & Hdata & Hil & Hfit).
  set (header := if use32 then dataLeng_p b + uIntSize
                 else Z.lor (dataLeng_p b + uIntSize) 0x80000000).
  assert (Hsz : uIntSize = 4) by reflexivity.
  pose proof (indexLeng_lower st b Hok) as Hil0.
  assert (Hh : header = dataLeng_p b + uIntSize + (if use32 then 0 else 2^31)).
  { subst header. destruct use32; [lia|]. apply lor_flag. lia. }
  exists (written st b use32 ++ drop (length (written st b use32)) storage),
    (trimmed st b), use32, header.
  split; [done|]. split; [done|]. split; [done|]. split; [done|]. split; [done|].
  split; [intros i Hi; by apply rows_of_trimmed|].
  split.
  { cbn [trimmed data_p]. rewrite take_app_le by (rewrite length_take; lia).
    by rewrite take_take, Nat.min_id. }
  split; [intros; by apply (gets_trimmed st)|].
  split; [intros; by apply (gets_trimmed st)|].
  split.
  { unfold written. rewrite <- !app_assoc. apply readuInt_head.
    rewrite Hh. destruct use32; lia. }
  split.
  { rewrite land_offset_bits by (rewrite Hh; destruct use32; lia). rewrite Hh.
    destruct use32.
    - rewrite Z.add_0_r. apply Z.mod_small. lia.
    - replace (dataLeng_p b + uIntSize + 2 ^ 31)
        with (dataLeng_p b + uIntSize + 8 * 2^28) by lia.
      rewrite Z.mod_add by lia. apply Z.mod_small. lia. }
  split.
  { rewrite <- Hu, Hh. destruct use32.
    - rewrite Z.add_0_r. split; [|discriminate]. intros Hbit. exfalso.
      rewrite Z.bits_above_log2 in Hbit; [discriminate|lia|].
      apply Z.log2_lt_pow2; lia.
    - split; [done|]. intros _. apply Z.testbit_true; [lia|].
      replace (dataLeng_p b + uIntSize + 2 ^ 31)
        with (dataLeng_p b + uIntSize + 1 * 2^31) by lia.
      rewrite Z.div_add, Z.div_small by lia. reflexivity. }
  split; [done|].
  rewrite take_app_length. unfold written. f_equal. f_equal. f_equal.
  apply list_fmap_ext. intros k i Hi. apply lookup_seq in Hi as [-> Hi].
  cbn [Nat.add]. unfold col_block. destruct use32; [|done].
  f_equal. f_equal. f_equal.
  assert (H32 : Forall is_uInt (rows_of b k)).
  { apply (not_row_above_uInt st); auto. intros Ha. apply Hu in Ha. discriminate. }
  clear -H32. induction H32 as [|x l Hx _ IH]; [done|].
  cbn. rewrite IH. f_equal. by apply wrap32_small.
Qed.

(** The storage manager of [example_bucket]: two columns, the first of
    fixed length 4, buckets of 128 bytes in canonical format. *)
Definition example_st : ISMBase :=
  {| ncolumn := 2;
     bucketSize := 128;
     asBigEndian := true;
     nrow := 5;
     getFixedLength := fun i => if decide (i = 0%nat) then 4 else 0;
     MAXROWNR32 := 2^31 - 1 |}.

Lemma example_st_ok : st_ok example_st.
Proof. unfold st_ok. simpl. lia. Qed.

Lemma example_bucket_ok : bucket_ok example_st example_bucket.
Proof.
  unfold bucket_ok. simpl.
  repeat split; try reflexivity; try lia.
  intros i Hi. destruct i as [|[|i]]; [| |lia].
  - exists [0; 3], [0; 10], 2. simpl.
    repeat split; try reflexivity; try lia; repeat constructor; unfold is_rownr, is_uInt; lia.
  - exists [0; 2; 4], [4; 14; 19], 3. simpl.
    repeat split; try reflexivity; try lia; repeat constructor; unfold is_rownr, is_uInt; lia.
Qed.

Lemma write_read_roundtrip_witness :
  st_ok example_st /\ bucket_ok example_st example_bucket
  /\ exists w b', write example_st example_bucket (replicate 128 0) = Some w
       /\ ISMBucket_read example_st w = Some b'
       /\ forall colnr rownr,
            getOffset b' colnr rownr = getOffset example_bucket colnr rownr.
Proof.
  split; [exact example_st_ok|]. split; [exact example_bucket_ok|].
  destruct (write_read_roundtrip example_st example_bucket (replicate 128 0)
              example_st_ok example_bucket_ok)
    as (w & b' & use32 & header & Hw & Hr & _ & _ & _ & _ & _ & Hget & _).
  - reflexivity.
  - unfold uIntSize. simpl. lia.
  - exists w, b'. auto.
Defined.

(** A bucket of 2^28 + 16 bytes that holds 2^28 - 4 bytes of data and no
    index entry: the offset of its index is 2^28. *)
Definition large_st : ISMBase :=
  {| ncolumn := 1;
     bucketSize := 2^28 + 16;
     asBigEndian := true;
     nrow := 0;
     getFixedLength := fun _ => 4;
     MAXROWNR32 := 2^31 - 1 |}.

Definition large_bucket : bucket :=
  {| dataLeng_p := 2^28 - 4;
     indexLeng_p := 8;
     rowIndex_p := [[]];
     offIndex_p := [[]];
     indexUsed_p := [0];
     data_p := replicate (Z.to_nat (2^28 + 16)) 0 |}.

Definition large_storage : list Z := replicate (Z.to_nat (2^28 + 16)) 0.

(** When the offset of the index is 2^28 the header has one of the four
    type bits set without a 64-bit row number being stored: [read] takes
    the row numbers for 64-bit values and the offset for 0. *)
Lemma read_large_offset st b storage :
  st_ok st -> bucket_ok st b -> Z.of_nat (length storage) = bucketSize st ->
  ~ row_above st b -> dataLeng_p b + uIntSize = 2^28 ->
  exists w, write st b storage = Some w /\ ISMBucket_read st w = None.
Proof.
  intros Hst Hok Hlen Hno Hlarge.
  destruct (write_spec st b storage Hst Hok Hlen) as (use32 & Hu & Hw & Hwl).
  assert (use32 = true) as ->.
  { destruct use32; [done|]. exfalso. apply Hno. by apply Hu. }
  eexists. split; [exact Hw|].
  assert (Hwlen : length (written st b true ++ drop (length (written st b true)) storage)
                  = length storage) by (apply written_length_le; lia).
  destruct Hst as [Hbs _].
  set (W := written st b true ++ drop (length (written st b true)) storage) in *.
  assert (Hhdr : readuInt (asBigEndian st) W 0 = Some (2^28)).
  { subst W. unfold written. rewrite <- !app_assoc. rewrite Hlarge.
    apply readuInt_head. lia. }
  unfold ISMBucket_read, read. rewrite Hhdr. cbn [mbind option_bind].
  change (Z.land (2 ^ 28) 268435455) with 0.
  change (wrap32 (0 - uIntSize)) with (2^32 - 4).
  unfold bytes_at.
  destruct (decide _) as [Hfit|]; [|done].
  exfalso. rewrite Hwlen in Hfit. unfold uIntSize in Hfit. lia.
Qed.

Lemma large_st_ok : st_ok large_st.
Proof. unfold st_ok, large_st. cbn [bucketSize MAXROWNR32]. lia. Qed.

Lemma large_bucket_ok : bucket_ok large_st large_bucket.
Proof.
  unfold bucket_ok, large_bucket, large_st.
  cbn [rowIndex_p offIndex_p indexUsed_p dataLeng_p indexLeng_p data_p ncolumn bucketSize].
  split; [reflexivity|]. split; [reflexivity|]. split; [reflexivity|].
  split.
  { intros i Hi. exists [], [], 0. unfold column_ok.
    cbn [rowIndex_p offIndex_p indexUsed_p].
    destruct i as [|i]; [|lia].
    split; [reflexivity|]. split; [reflexivity|]. split; [reflexivity|].
    split; [cbn [length]; lia|]. split; [cbn [length]; lia|].
    split; [cbn [length]; lia|]. split; [cbn [length]; lia|].
    change (Z.to_nat 0) with 0%nat. cbn [take].
    split; [constructor|]. split; constructor. }
  split; [lia|]. split; [rewrite length_replicate; lia|].
  split; [reflexivity|lia].
Qed.

Lemma large_bucket_no_row : ~ row_above large_st large_bucket.
Proof.
  intros (i & r & Hi & Hr & _). unfold large_st in Hi. cbn [ncolumn] in Hi.
  destruct i as [|i]; [|lia].
  unfold rows_of, used_of, large_bucket in Hr. cbn [rowIndex_p indexUsed_p] in Hr.
  change (r ∈ @nil Z) in Hr. by apply elem_of_nil in Hr.
Qed.

(** C1, as stated for every bucket: [write] succeeds on the bucket with
    2^28 - 4 bytes of data and [read] of what was written fails. *)
Lemma write_read_large_offset_fails :
  exists w, write large_st large_bucket large_storage = Some w
    /\ ISMBucket_read large_st w = None.
Proof.
  apply read_large_offset.
  - exact large_st_ok.
  - exact large_bucket_ok.
  - unfold large_storage, large_st. cbn [bucketSize]. rewrite length_replicate. lia.
  - exact large_bucket_no_row.
  - reflexivity.
Qed.

(** *** Adding a value at the end of a column *)

(** A bucket with the blocks of [n] columns. *)
Definition shape (n : nat) (o : bucket) : Prop :=
  length (rowIndex_p o) = n /\ length (offIndex_p o) = n
  /\ length (indexUsed_p o) = n.

(** The entries in use of column [i] are within its blocks. *)
Definition col_valid (o : bucket) (i : nat) : Prop :=
  exists rowIndex offIndex used,
    rowIndex_p o !! i = Some rowIndex
    /\ offIndex_p o !! i = Some offIndex
    /\ indexUsed_p o !! i = Some used
    /\ 0 <= used <= Z.of_nat (length rowIndex)
    /\ used <= Z.of_nat (length offIndex).

(** The columns other than [i] are the same in both buckets. *)
Definition same_columns_but (i : nat) (o o' : bucket) : Prop :=
  forall j, j <> i ->
    rowIndex_p o' !! j = rowIndex_p o !! j
    /\ offIndex_p o' !! j = offIndex_p o !! j
    /\ indexUsed_p o' !! j = indexUsed_p o !! j.



Lemma bytes_at_inv (buf : list Z) (pos leng : Z) bytes :
  bytes_at buf pos leng = Some bytes ->
  0 <= pos /\ 0 <= leng /\ pos + leng <= Z.of_nat (length buf)
  /\ bytes = take (Z.to_nat leng) (drop (Z.to_nat pos) buf)
  /\ Z.of_nat (length bytes) = leng.
Proof.
  unfold bytes_at. destruct (decide _) as [(H1 & H2 & H3)|]; [|discriminate].
  intros H; inversion H; subst. repeat split; auto.
  rewrite length_take, length_drop. lia.
Qed.

Lemma memcpy_inv (dst : list Z) (pos : Z) (src dst' : list Z) :
  memcpy dst pos src = Some dst' ->
  0 <= pos /\ pos + Z.of_nat (length src) <= Z.of_nat (length dst)
  /\ length dst' = length dst
  /\ take (Z.to_nat pos) dst' = take (Z.to_nat pos) dst
  /\ bytes_at dst' pos (Z.of_nat (length src)) = Some src.
Proof.
  unfold memcpy. destruct (decide _) as [[H1 H2]|]; [|discriminate].
  intros H; inversion H; subst. split; [done|]. split; [done|].
  assert (Hlt : length (take (Z.to_nat pos) dst) = Z.to_nat pos)
    by (rewrite length_take; lia).
  split; [|split].
  - rewrite !length_app, length_take, length_drop. lia.
  - rewrite take_app_le by lia. rewrite take_take. f_equal. lia.
  - rewrite <- (Nat2Z.id (length (take (Z.to_nat pos) dst))) in Hlt.
    apply bytes_at_app; lia.
Qed.


Lemma resize_block_take (l : list Z) (n : Z) (k : nat) :
  (k <= length l)%nat -> take k (resize_block l n) = take k l.
Proof. intros H. unfold resize_block. by rewrite take_app_le. Qed.

Lemma length_resize_block (l : list Z) (n : Z) :
  Z.of_nat (length (resize_block l n)) = Z.max (Z.of_nat (length l)) n.
Proof. unfold resize_block. rewrite length_app, length_replicate. lia. Qed.




Lemma column_of_view b i rows offs :
  column_of b i rows offs ->
  rows_of b i = rows /\ offs_of b i = offs
  /\ used_of b i = Z.of_nat (length rows)
  /\ length offs = length rows.
Proof.
  intros (rowIndex & offIndex & used & Hr & Ho & Hu & Hu32 & Hrl & Hol & -> & ->).
  unfold rows_of, offs_of, used_of. rewrite Hr, Ho, Hu. cbn [default from_option id].
  rewrite !length_take. repeat split; auto; lia.
Qed.



Lemma column_of_inj b i rows offs rows' offs' :
  column_of b i rows offs -> column_of b i rows' offs' ->
  rows' = rows /\ offs' = offs.
Proof.
  intros H1 H2. apply column_of_view in H1 as (<- & <- & _).
  apply column_of_view in H2 as (<- & <- & _). done.
Qed.




(** *** Values kept in a bucket *)


Lemma bytes_at_take (buf buf' : list Z) (n pos leng : Z) v :
  take (Z.to_nat n) buf' = take (Z.to_nat n) buf ->
  length buf' = length buf ->
  pos + leng <= n ->
  bytes_at buf pos leng = Some v -> bytes_at buf' pos leng = Some v.
Proof.
  intros Ht Hl Hn H. pose proof H as Hi.
  apply bytes_at_inv in Hi as (Hp & Hl0 & Hfit & -> & _).
  unfold bytes_at. rewrite Hl. destruct (decide _) as [_|Hn']; [|lia]. f_equal.
  apply list_eq. intros k. rewrite !lookup_take, !lookup_drop.
  destruct (decide (k < Z.to_nat leng)%nat) as [Hk|Hk]; [|done].
  assert (E : forall b : list Z, b !! (Z.to_nat pos + k)%nat
               = take (Z.to_nat n) b !! (Z.to_nat pos + k)%nat)
    by (intros b; rewrite lookup_take_lt by lia; done).
  by rewrite (E buf), (E buf'), Ht.
Qed.



(** *** The sorted row numbers and the cursors of a split *)





Lemma ascending_take (l : list Z) (n : nat) : ascending l -> ascending (take n l).
Proof.
  unfold ascending. intros H. rewrite <- (take_drop n l) in H.
  by apply StronglySorted_app_1_l in H.
Qed.

Lemma ascending_drop (l : list Z) (n : nat) : ascending l -> ascending (drop n l).
Proof.
  unfold ascending. intros H. rewrite <- (take_drop n l) in H.
  by apply StronglySorted_app_1_r in H.
Qed.









(** *** Copying the values of this bucket to a new bucket *)


Section Copying.

Variable st : ISMBase.
Variable this : bucket.









End Copying.

(** *** The copy loops of the general split *)






Section Loops.

Variable st : ISMBase.
Variable this : bucket.
Variable rows : list Z.

Hypothesis Hcols : forall j, (j < ncolumn st)%nat -> column_ok this j.
Hypothesis Hrows : ascending rows.
Hypothesis Hin : forall i x, (i < ncolumn st)%nat -> x ∈ rows_of this i -> x ∈ rows.

















End Loops.

(** *** The start values of the right bucket *)

Section Start.

Variable st : ISMBase.
Variable this : bucket.

Hypothesis Hcols : forall j, (j < ncolumn st)%nat -> column_ok this j.











End Start.

(** *** The result of a split *)






Lemma bucket_ok_columns st b :
  bucket_ok st b -> forall j, (j < ncolumn st)%nat -> column_ok b j.
Proof. intros (_ & _ & _ & H & _). exact H. Qed.


(** *** The simple split *)







Section Simple.

Variable st : ISMBase.
Variable this : bucket.
Variable rownr : Z.

Hypothesis Hthis : bucket_ok st this.
Hypothesis Hlast : forall i, (i < ncolumn st)%nat ->
  1 <= Z.of_nat (length (rows_of this i))
  /\ Forall (fun x => x <= rownr) (rows_of this i).



End Simple.


(** *** The split invariant *)



(** [getOffset] gives the offset of the greatest entry that is not above
    the row. *)
Lemma getOffset_greatest b i rows offs rownr (k : nat) off :
  column_of b i rows offs -> ascending rows ->
  greatest_le rows rownr k -> offs !! k = Some off ->
  getOffset b i rownr = Some off.
Proof.
  intros (rowIndex & offIndex & used & Hr & Ho & Hu & Hu32 & Hrl & Hol & -> & ->) Hasc
         [(r & Hk & Hle) Hmax] Hoff.
  pose proof (lookup_lt_Some _ _ _ Hk) as Hklt. rewrite length_take in Hklt.
  unfold getOffset. rewrite Hr, Ho, Hu. cbn [mbind option_bind].
  destruct (binarySearchBrackets_spec rowIndex used rownr ltac:(lia) Hasc)
    as (found & p & -> & Hp & Hf1 & Hf2).
  cbn [mbind option_bind].
  assert (Hidx : (if found then p else wrap32 (p - 1)) = Z.of_nat k).
  { destruct found.
    - destruct (Hf1 eq_refl) as [Hpu Hpr].
      assert (Hpk : (Z.to_nat p <= k)%nat).
      { apply (Hmax _ rownr); [|lia]. rewrite lookup_take_lt by lia. done. }
      destruct (decide (Z.to_nat p = k)) as [|Hne]; [lia|].
      assert (rownr < r); [|lia].
      eapply (ascending_lookup_lt _ (Z.to_nat p) k); eauto; [|lia].
      rewrite lookup_take_lt by lia. done.
    - destruct (Hf2 eq_refl) as [Hlow Hhigh].
      rewrite lookup_take_lt in Hk by lia.
      assert (Hkp : Z.of_nat k < p).
      { destruct (decide (Z.of_nat k < p)); [done|].
        pose proof (Hhigh k r ltac:(lia) Hk). lia. }
      rewrite wrap32_small by lia.
      destruct (lookup_lt_is_Some_2 rowIndex (Z.to_nat (p - 1))) as [x Hx]; [lia|].
      assert (x < rownr).
      { apply (Hlow (Z.to_nat (p - 1))); [lia|done]. }
      assert ((Z.to_nat (p - 1) <= k)%nat); [|lia].
      apply (Hmax _ x); [|lia]. rewrite lookup_take_lt by lia. done. }
  rewrite Hidx. rewrite lookup_take_lt in Hoff by lia.
  destruct (at_Some offIndex (Z.of_nat k)) as (o & -> & Ho'); [lia|].
  rewrite Nat2Z.id in Ho'. congruence.
Qed.







(** The simple split of [example_bucket] for a value of row 4, the last row
    of the bucket: column 1 has a value of that row, which leaves the left
    bucket, column 0 has not. *)
Lemma simple_split_example :
  exists s,
    split example_st example_bucket [] 0 5 1 4 4 = Some (s, 4)
    /\ rows_of (sp_left s) 0 = [0; 3] /\ rows_of (sp_left s) 1 = [0; 2]
    /\ rows_of (sp_right s) 0 = [0] /\ rows_of (sp_right s) 1 = [0]
    /\ sp_duplicated s = [true; false].
Proof.
  eexists. split; [vm_compute; reflexivity|]. vm_compute. auto.
Qed.

(** The general split of [example_bucket] for a value of row 2: the bucket
    is split at row 3, where column 0 has a value and column 1 has not. *)
Lemma general_split_example :
  exists s,
    split example_st example_bucket [] 0 5 0 2 4 = Some (s, 3)
    /\ rows_of (sp_left s) 0 = [0] /\ rows_of (sp_left s) 1 = [0; 2]
    /\ rows_of (sp_right s) 0 = [0] /\ rows_of (sp_right s) 1 = [0; 1]
    /\ sp_duplicated s = [false; true].
Proof.
  eexists. split; [vm_compute; reflexivity|]. vm_compute. auto.
Qed.

(** *** Adding a value to a column *)

(** [ISMBucket::canAddData] *)
Definition canAddData (st : ISMBase) (b : bucket) (leng : Z) : bool :=
  bool_decide (wrap32 (dataLeng_p b + leng + indexLeng_p b + uIntSize + rownrSize)
               <= bucketSize st).

(** [ISMBucket::canReplaceData] *)
Definition canReplaceData (st : ISMBase) (b : bucket) (newLeng oldLeng : Z) : bool :=
  bool_decide (wrap32 (dataLeng_p b + newLeng - oldLeng + indexLeng_p b)
               <= bucketSize st).

(** [ISMBucket::replaceData]: the bucket afterwards and the offset of the
    item. *)
Definition replaceData (st : ISMBase) (b : bucket) (offset : Z) (src : list Z)
    (spos newLeng oldLeng : Z) : option (bucket * Z) :=
  if decide (wrap32 (dataLeng_p b + newLeng - oldLeng + indexLeng_p b)
             <= bucketSize st) then
    if decide (oldLeng = newLeng) then
      bytes ← bytes_at src spos newLeng;
      data ← memcpy (data_p b) offset bytes;
      Some (set_data b data, offset)
    else
      b ← removeData st b offset oldLeng;
      insertData st b src spos newLeng
  else None.

(** The list [l] with [x] put in at place [n]. *)
Definition inserted (n : nat) (x : Z) (l : list Z) : list Z :=
  take n l ++ x :: drop n l.

Lemma lookup_inserted (n : nat) (x : Z) (l : list Z) (k : nat) :
  (n <= length l)%nat ->
  inserted n x l !! k
  = if decide (k < n)%nat then l !! k
    else if decide (k = n) then Some x else l !! (k - 1)%nat.
Proof.
  intros Hn. unfold inserted. destruct (decide (k < n)%nat) as [Hlt|Hge].
  - rewrite lookup_app_l by (rewrite length_take; lia). by rewrite lookup_take_lt.
  - rewrite lookup_app_r by (rewrite length_take; lia). rewrite length_take.
    replace (n `min` length l)%nat with n by lia.
    destruct (decide (k = n)) as [->|Hne].
    + by rewrite Nat.sub_diag.
    + destruct (k - n)%nat as [|m] eqn:Em; [lia|]. rewrite lookup_cons.
      rewrite lookup_drop. f_equal. lia.
Qed.

Lemma length_inserted (n : nat) (x : Z) (l : list Z) :
  length (inserted n x l) = S (length l).
Proof.
  unfold inserted. rewrite length_app. cbn [length].
  rewrite length_take, length_drop. lia.
Qed.

(** The loop of [addData] that shifts the entries: entry [k] gets the
    value of entry [k - 1] for the [n] entries up to [i]. *)
Lemma shift_right_spec : forall (n : nat) (i : Z) (rowIndex offIndex : list Z),
  Z.of_nat n <= i -> i < Z.of_nat (length rowIndex) -> i < Z.of_nat (length offIndex) ->
  exists r o,
    shift_right n i rowIndex offIndex = Some (r, o)
    /\ length r = length rowIndex /\ length o = length offIndex
    /\ (forall k : nat,
          r !! k = if decide (i - Z.of_nat n < Z.of_nat k <= i)
                   then rowIndex !! (k - 1)%nat else rowIndex !! k)
    /\ (forall k : nat,
          o !! k = if decide (i - Z.of_nat n < Z.of_nat k <= i)
                   then offIndex !! (k - 1)%nat else offIndex !! k).
Proof.
  induction n as [|n IH]; intros i rowIndex offIndex Hn Hr Ho.
  - exists rowIndex, offIndex. cbn [shift_right]. split_and!; auto.
    + intros k. destruct (decide _); [lia|done].
    + intros k. destruct (decide _); [lia|done].
  - cbn [shift_right].
    destruct (at_Some rowIndex (i - 1)) as (x & -> & Hx); [lia|].
    destruct (at_Some offIndex (i - 1)) as (y & -> & Hy); [lia|].
    cbn [mbind option_bind]. unfold upd.
    destruct (decide (0 <= i < Z.of_nat (length rowIndex))); [|lia].
    destruct (decide (0 <= i < Z.of_nat (length offIndex))); [|lia].
    cbn [mbind option_bind].
    destruct (IH (i - 1) (<[Z.to_nat i := x]> rowIndex) (<[Z.to_nat i := y]> offIndex))
      as (r & o & -> & Hlr & Hlo & Hrk & Hok);
      [lia|rewrite length_insert; lia|rewrite length_insert; lia|].
    exists r, o. rewrite length_insert in Hlr, Hlo. split_and!; auto.
    + intros k. rewrite Hrk.
      destruct (decide (i - 1 - Z.of_nat n < Z.of_nat k <= i - 1)) as [Hin|Hout].
      * destruct (decide _); [|lia]. rewrite list_lookup_insert_ne by lia. done.
      * destruct (decide (Z.of_nat k = i)) as [Hk|Hk].
        -- destruct (decide _); [|lia]. replace k with (Z.to_nat i) by lia.
           rewrite list_lookup_insert_eq by lia. rewrite <- Hx. f_equal. lia.
        -- destruct (decide _); [lia|]. rewrite list_lookup_insert_ne by lia. done.
    + intros k. rewrite Hok.
      destruct (decide (i - 1 - Z.of_nat n < Z.of_nat k <= i - 1)) as [Hin|Hout].
      * destruct (decide _); [|lia]. rewrite list_lookup_insert_ne by lia. done.
      * destruct (decide (Z.of_nat k = i)) as [Hk|Hk].
        -- destruct (decide _); [|lia]. replace k with (Z.to_nat i) by lia.
           rewrite list_lookup_insert_eq by lia. rewrite <- Hy. f_equal. lia.
        -- destruct (decide _); [lia|]. rewrite list_lookup_insert_ne by lia. done.
Qed.

(** The entries in use after the shift and the store at [index]. *)
Lemma take_shifted_insert (l l' : list Z) (index used : nat) (x : Z) :
  (index <= used)%nat -> (used < length l)%nat -> length l' = length l ->
  (forall k : nat,
     l' !! k = if decide (Z.of_nat used - Z.of_nat (used - index) < Z.of_nat k
                          <= Z.of_nat used)
               then l !! (k - 1)%nat else l !! k) ->
  take (S used) (<[index := x]> l') = inserted index x (take used l).
Proof.
  intros Hi Hu Hlen Hk. apply list_eq. intros k.
  rewrite lookup_inserted by (rewrite length_take; lia).
  destruct (decide (k < S used)%nat) as [Hlt|Hge].
  - rewrite lookup_take_lt by lia.
    destruct (decide (k = index)) as [->|Hne].
    + rewrite list_lookup_insert_eq by lia.
      destruct (decide (index < index)%nat); [lia|]. by destruct (decide (index = index)).
    + rewrite list_lookup_insert_ne by done. rewrite Hk.
      destruct (decide (k < index)%nat).
      * destruct (decide _); [lia|]. by rewrite lookup_take_lt by lia.
      * destruct (decide (k = index)); [done|].
        destruct (decide _); [|lia]. by rewrite lookup_take_lt by lia.
  - rewrite lookup_take_ge by lia.
    destruct (decide (k < index)%nat); [lia|]. destruct (decide (k = index)); [lia|].
    symmetry. apply lookup_ge_None. rewrite length_take. lia.
Qed.

Lemma ascending_inserted (n : nat) (x : Z) (l : list Z) :
  ascending l -> Forall (fun a => a < x) (take n l) ->
  Forall (fun a => x < a) (drop n l) -> ascending (inserted n x l).
Proof.
  intros Hl Ht Hd. unfold inserted, ascending. apply StronglySorted_app.
  split; [|split].
  - intros a c Ha Hc. rewrite Forall_forall in Ht, Hd. pose proof (Ht a Ha).
    apply elem_of_cons in Hc as [->|Hc]; [done|]. pose proof (Hd c Hc). lia.
  - by apply ascending_take.
  - constructor; [by apply ascending_drop|done].
Qed.

Lemma ascending_bumped (n : nat) (x : Z) (l : list Z) :
  ascending l -> l !! n = Some x ->
  (forall r, l !! S n = Some r -> x + 1 < r) ->
  ascending (<[n := x + 1]> l)
  /\ Forall (fun a => a < x) (take n (<[n := x + 1]> l))
  /\ Forall (fun a => x < a) (drop n (<[n := x + 1]> l)).
Proof.
  intros Hl Hn Hnext. pose proof (lookup_lt_Some _ _ _ Hn) as Hlt.
  assert (Hbefore : Forall (fun a => a < x) (take n l)).
  { apply Forall_forall. intros a Ha. apply list_elem_of_lookup in Ha as [k Hk].
    pose proof (lookup_lt_Some _ _ _ Hk) as Hkl. rewrite length_take in Hkl.
    rewrite lookup_take_lt in Hk by lia.
    apply (ascending_lookup_lt l k n a x Hl Hk Hn). lia. }
  assert (Hafter : Forall (fun a => x + 1 < a) (drop (S n) l)).
  { apply Forall_forall. intros a Ha. apply list_elem_of_lookup in Ha as [k Hk].
    rewrite lookup_drop in Hk.
    destruct (lookup_lt_is_Some_2 l (S n)) as [r Hr].
    { apply lookup_lt_Some in Hk. lia. }
    pose proof (Hnext r Hr).
    pose proof (ascending_lookup_le l (S n) (S n + k) r a Hl Hr Hk ltac:(lia)). lia. }
  rewrite insert_take_drop by done. split; [|split].
  - unfold ascending. apply StronglySorted_app. split; [|split].
    + intros a c Ha Hc. rewrite Forall_forall in Hbefore, Hafter.
      pose proof (Hbefore a Ha).
      apply elem_of_cons in Hc as [->|Hc]; [lia|]. pose proof (Hafter c Hc). lia.
    + by apply ascending_take.
    + constructor; [by apply ascending_drop|done].
  - rewrite take_app_le by (rewrite length_take; lia).
    rewrite take_take, Nat.min_id. done.
  - rewrite drop_app_ge by (rewrite length_take; lia). rewrite length_take.
    replace (n - n `min` length l)%nat with 0%nat by lia. rewrite drop_0.
    constructor; [lia|]. eapply Forall_impl; [exact Hafter|].
    intros a Ha. cbn beta in *. lia.
Qed.

Lemma index_length_bound (l : list Z) : forall (i : nat) u,
  Forall (fun v => 0 <= v) l -> l !! i = Some u ->
  2 * uIntSize + u * (uIntSize + rownrSize) <= index_length l.
Proof.
  unfold index_length, uIntSize, rownrSize.
  induction l as [|a l IH]; intros i u Hall Hi; [done|].
  apply Forall_cons in Hall as [Ha Hall]. cbn [foldr].
  assert (H0 : 0 <= foldr (fun u acc => 4 + u * (4 + 8) + acc) 0 l).
  { clear IH Hi. induction Hall; cbn [foldr]; lia. }
  destruct i as [|i]; cbn in Hi.
  - inversion Hi; subst. lia.
  - pose proof (IH i u Hall Hi). lia.
Qed.

Lemma index_length_insert (l : list Z) : forall (i : nat) u v,
  l !! i = Some u ->
  index_length (<[i := v]> l) = index_length l + (v - u) * (uIntSize + rownrSize).
Proof.
  unfold index_length, uIntSize, rownrSize.
  induction l as [|a l IH]; intros i u v Hi; [done|].
  destruct i as [|i]; cbn in Hi.
  - inversion Hi; subst. change (<[0%nat := v]> (u :: l)) with (v :: l).
    cbn [foldr]. lia.
  - change (<[S i := v]> (a :: l)) with (a :: <[i := v]> l).
    cbn [foldr]. pose proof (IH i u v Hi) as E. lia.
Qed.

Lemma wrap64_id z : 0 <= z < 2^64 -> wrap64 z = z.
Proof. intros. unfold wrap64. by apply Z.mod_small. Qed.

(** The row numbers of a column when a value of row [rownr] is put in at
    [index]: an entry of the same row that is there gets the next row. *)
Definition bumped (index : nat) (rownr : Z) (rows : list Z) : list Z :=
  if decide (rows !! index = Some rownr) then <[index := rownr + 1]> rows else rows.

Lemma bumped_spec (index : nat) (rownr : Z) (rows : list Z) :
  ascending rows ->
  Forall (fun a => a < rownr) (take index rows) ->
  Forall (fun a => rownr <= a) (drop index rows) ->
  (rows !! index = Some rownr ->
     forall r, rows !! S index = Some r -> rownr + 1 < r) ->
  ascending (bumped index rownr rows)
  /\ Forall (fun a => a < rownr) (take index (bumped index rownr rows))
  /\ Forall (fun a => rownr < a) (drop index (bumped index rownr rows))
  /\ length (bumped index rownr rows) = length rows.
Proof.
  intros Hasc Ht Hd Hb. unfold bumped.
  destruct (decide (rows !! index = Some rownr)) as [E|E].
  - destruct (ascending_bumped index rownr rows Hasc E (Hb E)) as (H1 & H2 & H3).
    rewrite length_insert. done.
  - split; [done|]. split; [done|]. split; [|done].
    apply Forall_forall. intros a Ha. pose proof Ha as Ha'.
    rewrite Forall_forall in Hd. apply Hd in Ha'.
    destruct (decide (a = rownr)) as [->|]; [|lia]. exfalso.
    apply list_elem_of_lookup in Ha as [k Hk]. rewrite lookup_drop in Hk.
    destruct k as [|k]; [rewrite Nat.add_0_r in Hk; done|].
    destruct (lookup_lt_is_Some_2 rows index) as [r Hr].
    { apply lookup_lt_Some in Hk. lia. }
    pose proof (ascending_lookup_lt rows index (index + S k) r rownr Hasc Hr Hk ltac:(lia)).
    assert (rownr <= r); [|lia]. apply Hd. apply list_elem_of_lookup.
    exists 0%nat. rewrite lookup_drop, Nat.add_0_r. done.
Qed.

(** The row index block after the first steps of [addData]: the blocks are
    made longer when they are full and an entry of the same row is moved to
    the next row. *)
Lemma addData_bump (rowIndex : list Z) (used index rownr : Z) :
  0 <= index <= used -> used <= Z.of_nat (length rowIndex) ->
  (rowIndex !! Z.to_nat index = Some rownr -> index < used -> rownr + 1 < 2^64) ->
  is_rownr rownr ->
  exists r2,
    (if decide (index < used) then
       r ← at_ rowIndex index;
       if decide (rownr = r) then upd rowIndex index (wrap64 (r + 1))
       else Some rowIndex
     else Some rowIndex) = Some r2
    /\ length r2 = length rowIndex
    /\ take (Z.to_nat used) r2
       = bumped (Z.to_nat index) rownr (take (Z.to_nat used) rowIndex).
Proof.
  intros Hi Hu Hb Hrn. unfold bumped.
  destruct (decide (index < used)) as [Hlt|Hge].
  - destruct (at_Some rowIndex index) as (r & -> & Hr); [lia|].
    cbn [mbind option_bind]. rewrite lookup_take_lt by lia. rewrite Hr.
    destruct (decide (rownr = r)) as [<-|Hne].
    + destruct (decide (Some rownr = Some rownr)); [|done].
      unfold upd. destruct (decide _); [|lia].
      rewrite wrap64_id by (unfold is_rownr in Hrn; specialize (Hb Hr Hlt); lia).
      eexists. split; [reflexivity|]. rewrite length_insert. split; [done|].
      rewrite take_insert_lt by lia. done.
    + destruct (decide (Some r = Some rownr)) as [E|_]; [congruence|].
      exists rowIndex. done.
  - exists rowIndex. split; [done|]. split; [done|].
    rewrite lookup_take_ge by lia. destruct (decide (None = Some rownr)); done.
Qed.

(** [addData] on the blocks of column [colnr], when the new entry fits in
    the bucket and no counter overflows. *)
Lemma addData_blocks st b colnr rowIndex offIndex (u index : nat) rownr src spos leng bytes :
  rowIndex_p b !! colnr = Some rowIndex ->
  offIndex_p b !! colnr = Some offIndex ->
  indexUsed_p b !! colnr = Some (Z.of_nat u) ->
  (u <= length rowIndex)%nat -> length rowIndex = length offIndex ->
  Z.of_nat (length rowIndex) < 2^32 -> Z.of_nat u + 32 < 2^32 ->
  (index <= u)%nat ->
  (take u rowIndex !! index = Some rownr -> rownr + 1 < 2^64) ->
  is_rownr rownr ->
  0 <= dataLeng_p b -> 0 <= indexLeng_p b ->
  dataLeng_p b + leng + indexLeng_p b + uIntSize + rownrSize <= bucketSize st ->
  bucketSize st < 2^32 ->
  Z.of_nat (length (data_p b)) = bucketSize st ->
  bytes_at src spos leng = Some bytes ->
  exists r' o' data',
    addData st b colnr rownr (Z.of_nat index) src spos leng
    = Some {| dataLeng_p := dataLeng_p b + leng;
              indexLeng_p := indexLeng_p b + (uIntSize + rownrSize);
              rowIndex_p := <[colnr := r']> (rowIndex_p b);
              offIndex_p := <[colnr := o']> (offIndex_p b);
              indexUsed_p := <[colnr := Z.of_nat (S u)]> (indexUsed_p b);
              data_p := data' |}
    /\ length r' = length o' /\ (u < length r')%nat /\ Z.of_nat (length r') < 2^32
    /\ take (S u) r' = inserted index rownr (bumped index rownr (take u rowIndex))
    /\ take (S u) o' = inserted index (dataLeng_p b) (take u offIndex)
    /\ length data' = length (data_p b)
    /\ take (Z.to_nat (dataLeng_p b)) data' = take (Z.to_nat (dataLeng_p b)) (data_p b)
    /\ bytes_at data' (dataLeng_p b) leng = Some bytes.
Proof.
  intros Hr Ho Hu Hur Hlen Hl32 Hu32 Hi Hb Hrn Hd0 Hi0 Hfit Hbs Hdata Hbytes.
  unfold uIntSize, rownrSize in *.
  pose proof (bytes_at_inv _ _ _ _ Hbytes) as (_ & Hl0 & _ & _ & Hbl).
  unfold addData. rewrite Hr, Ho, Hu. cbn [mbind option_bind].
  set (blocks := if decide (Z.of_nat (length offIndex) <= Z.of_nat u)
                 then (resize_block rowIndex (wrap32 (Z.of_nat u + 32)),
                       resize_block offIndex (wrap32 (Z.of_nat u + 32)))
                 else (rowIndex, offIndex)).
  assert (Hblocks : exists r1 o1, blocks = (r1, o1)
            /\ take u r1 = take u rowIndex /\ take u o1 = take u offIndex
            /\ length r1 = length o1 /\ (u < length r1)%nat
            /\ Z.of_nat (length r1) < 2^32).
  { subst blocks. destruct (decide _).
    - eexists _, _. split; [reflexivity|].
      rewrite !resize_block_take by lia. rewrite !wrap32_small by lia.
      pose proof (length_resize_block rowIndex (Z.of_nat u + 32)) as E1.
      pose proof (length_resize_block offIndex (Z.of_nat u + 32)) as E2.
      split_and!; try done; lia.
    - eexists _, _. split; [reflexivity|]. split_and!; try done; lia. }
  destruct Hblocks as (r1 & o1 & -> & Hr1 & Ho1 & Hlen1 & Hu1 & Hl1).
  destruct (addData_bump r1 (Z.of_nat u) (Z.of_nat index) rownr)
    as (r2 & -> & Hlen2 & Hr2); [lia|lia| |done|].
  { rewrite Nat2Z.id. intros E Hlt. apply Hb. rewrite <- Hr1.
    rewrite lookup_take_lt by lia. done. }
  rewrite !Nat2Z.id in Hr2. rewrite Hr1 in Hr2.
  cbn [mbind option_bind].
  replace (Z.to_nat (Z.of_nat u - Z.of_nat index)) with (u - index)%nat by lia.
  destruct (shift_right_spec (u - index) (Z.of_nat u) r2 o1)
    as (r3 & o3 & -> & Hlen3 & Hleno3 & Hr3 & Ho3); [lia|lia|lia|].
  cbn [mbind option_bind].
  assert (Hc : (colnr < length (indexUsed_p b))%nat)
    by (apply lookup_lt_is_Some; eauto).
  rewrite (upd_Some (indexUsed_p b) colnr) by exact Hc. cbn [mbind option_bind].
  rewrite (upd_Some r3 index) by lia. cbn [mbind option_bind].
  unfold insertData, uIntSize, rownrSize.
  cbn [dataLeng_p indexLeng_p data_p rowIndex_p offIndex_p indexUsed_p].
  rewrite (wrap32_small (indexLeng_p b + (4 + 8))) by lia.
  rewrite (wrap32_small (dataLeng_p b + leng + _)) by lia.
  destruct (decide _) as [_|]; [|lia].
  rewrite Hbytes. cbn [mbind option_bind].
  destruct (memcpy (data_p b) (dataLeng_p b) bytes) as [data'|] eqn:Em.
  2:{ unfold memcpy in Em. destruct (decide _); [discriminate|lia]. }
  apply memcpy_inv in Em as (_ & _ & Hdl & Htake & Hstored). rewrite Hbl in Hstored.
  cbn [mbind option_bind]. rewrite (upd_Some o3 index) by lia.
  cbn [mbind option_bind].
  exists (<[index := rownr]> r3), (<[index := dataLeng_p b]> o3), data'.
  split.
  { unfold set_offIndex, set_rowIndex, set_dataLeng, set_data.
    cbn [dataLeng_p indexLeng_p data_p rowIndex_p offIndex_p indexUsed_p].
    rewrite !wrap32_small by lia. do 2 f_equal. f_equal. lia. }
  rewrite !length_insert. split_and!; try done; try lia.
  - rewrite <- Hr2. apply take_shifted_insert; try done; lia.
  - rewrite <- Ho1. apply take_shifted_insert; try done; lia.
Qed.

(** The conditions of the [DebugAssert] of [addData] on an ascending row
    index: the entries before [index] are below [rownr], the others are
    not. *)
Lemma index_bounds (rows : list Z) (index : nat) (rownr : Z) :
  ascending rows -> (index <= length rows)%nat ->
  (forall r, rows !! (index - 1)%nat = Some r -> (0 < index)%nat -> r < rownr) ->
  (forall r, rows !! index = Some r -> rownr <= r) ->
  Forall (fun a => a < rownr) (take index rows)
  /\ Forall (fun a => rownr <= a) (drop index rows).
Proof.
  intros Hasc Hi Hprev Hnext. split; apply Forall_forall; intros a Ha;
    apply list_elem_of_lookup in Ha as [k Hk].
  - pose proof (lookup_lt_Some _ _ _ Hk) as Hkl. rewrite length_take in Hkl.
    rewrite lookup_take_lt in Hk by lia.
    destruct (lookup_lt_is_Some_2 rows (index - 1)) as [r Hr]; [lia|].
    pose proof (Hprev r Hr ltac:(lia)).
    pose proof (ascending_lookup_le rows k (index - 1) a r Hasc Hk Hr ltac:(lia)). lia.
  - rewrite lookup_drop in Hk.
    destruct (lookup_lt_is_Some_2 rows index) as [r Hr].
    { apply lookup_lt_Some in Hk. lia. }
    pose proof (Hnext r Hr).
    pose proof (ascending_lookup_le rows index (index + k) r a Hasc Hr Hk ltac:(lia)). lia.
Qed.

Lemma Forall_inserted (P : Z -> Prop) (n : nat) (x : Z) (l : list Z) :
  Forall P l -> P x -> Forall P (inserted n x l).
Proof.
  intros Hl Hx. unfold inserted. apply Forall_app. split.
  - by apply Forall_take.
  - constructor; [done|]. by apply Forall_drop.
Qed.

Lemma Forall_bumped (index : nat) (rownr : Z) (rows : list Z) :
  Forall is_rownr rows -> (rows !! index = Some rownr -> rownr + 1 < 2^64) ->
  is_rownr rownr -> Forall is_rownr (bumped index rownr rows).
Proof.
  intros Hl Hb Hr. unfold bumped. destruct (decide _) as [E|]; [|done].
  apply Forall_insert; [done|]. specialize (Hb E). unfold is_rownr in *. lia.
Qed.

Lemma used_nonneg st b : bucket_ok st b -> Forall (fun v => 0 <= v) (indexUsed_p b).
Proof.
  intros Hok. rewrite (used_list st b Hok). apply Forall_fmap, Forall_forall.
  intros i Hi. apply elem_of_seq in Hi. cbn.
  destruct (column_ok_used b i) as (_ & _ & _ & H & _); [|lia].
  apply (bucket_ok_columns st b Hok). lia.
Qed.

(** The new entry is the greatest one that is not above [rownr]. *)
Lemma greatest_inserted (rows : list Z) (index : nat) (rownr : Z) :
  (index <= length rows)%nat -> ascending (inserted index rownr rows) ->
  greatest_le (inserted index rownr rows) rownr index.
Proof.
  intros Hi Hasc.
  assert (Hx : inserted index rownr rows !! index = Some rownr).
  { rewrite lookup_inserted by done. destruct (decide (index < index)%nat); [lia|].
    by destruct (decide (index = index)). }
  split; [exists rownr; split; [done|lia]|].
  intros j r Hj Hle. destruct (decide (j <= index)%nat); [done|].
  pose proof (ascending_lookup_lt _ index j rownr r Hasc Hx Hj ltac:(lia)). lia.
Qed.

(** X8: [ISMBucket::addData] puts a value in at place [index] of a column.
    When the bucket is well-formed, the conditions of the [DebugAssert]
    hold, [canAddData] says that the value fits, the bucket size leaves
    room for the sum in [uInt], and an entry of the same row at [index] can
    move to the next row, then the call succeeds, the bucket is again
    well-formed, the row number and the offset of the new value are entries
    [index] of the column (an entry of the same row has got the next row),
    the other columns are unchanged, the bytes are stored behind the old
    data, and [getOffset] finds them for row [rownr]. *)
Theorem addData_inserts st b colnr (index : nat) rownr src spos leng bytes :
  st_ok st -> bucket_ok st b -> (colnr < ncolumn st)%nat ->
  length (default [] (rowIndex_p b !! colnr))
  = length (default [] (offIndex_p b !! colnr)) ->
  (index <= length (rows_of b colnr))%nat ->
  (forall r, rows_of b colnr !! (index - 1)%nat = Some r -> (0 < index)%nat ->
             r < rownr) ->
  (forall r, rows_of b colnr !! index = Some r -> rownr <= r) ->
  (rows_of b colnr !! index = Some rownr ->
     rownr + 1 < 2^64
     /\ forall r, rows_of b colnr !! S index = Some r -> rownr + 1 < r) ->
  is_rownr rownr ->
  canAddData st b leng = true -> leng + bucketSize st + 12 < 2^32 ->
  bytes_at src spos leng = Some bytes ->
  exists b',
    addData st b colnr rownr (Z.of_nat index) src spos leng = Some b'
    /\ bucket_ok st b'
    /\ rows_of b' colnr = inserted index rownr (bumped index rownr (rows_of b colnr))
    /\ offs_of b' colnr = inserted index (dataLeng_p b) (offs_of b colnr)
    /\ same_columns_but colnr b b'
    /\ getOffset b' colnr rownr = Some (dataLeng_p b)
    /\ dataLeng_p b' = dataLeng_p b + leng
    /\ bytes_at (data_p b') (dataLeng_p b) leng = Some bytes
    /\ take (Z.to_nat (dataLeng_p b)) (data_p b')
       = take (Z.to_nat (dataLeng_p b)) (data_p b).
Proof.
  intros [Hbs _] Hok Hcol Hlen Hi Hprev Hnext Hbump Hrn Hcan Hsum Hbytes.
  pose proof (used_nonneg st b Hok) as Hnn.
  pose proof (indexLeng_lower st b Hok) as Hil0.
  pose proof Hok as (Hl1 & Hl2 & Hl3 & Hcols & Hd0 & Hdata & Hil & Hfit).
  pose proof (bytes_at_inv _ _ _ _ Hbytes) as (_ & Hleng0 & _ & _ & _).
  destruct (column_ok_used b colnr (Hcols colnr Hcol))
    as (Hu & (rowIndex & Hr & Hrl & Hrows) & (offIndex & Ho & Hol & Hoffs)
        & Hu32 & Hlr & Hlo & Hasc & Hrow64 & Hoff32).
  rewrite Hr, Ho in Hlen. cbn [default from_option id] in Hlen.
  set (u := Z.to_nat (used_of b colnr)) in *.
  assert (Eu : used_of b colnr = Z.of_nat u) by lia. rewrite Eu in Hu.
  pose proof (index_length_bound _ _ _ Hnn Hu) as Hub.
  unfold canAddData in Hcan. apply bool_decide_eq_true in Hcan.
  unfold uIntSize, rownrSize in *.
  rewrite wrap32_small in Hcan by lia.
  destruct (index_bounds _ index rownr Hasc Hi Hprev Hnext) as [Hbefore Hafter].
  destruct (bumped_spec index rownr (rows_of b colnr) Hasc Hbefore Hafter)
    as (Hasc' & Hbefore' & Hafter' & Hlen').
  { intros E. by destruct (Hbump E). }
  pose proof (ascending_inserted index rownr _ Hasc' Hbefore' Hafter') as Hasc''.
  destruct (addData_blocks st b colnr rowIndex offIndex u index rownr src spos leng bytes)
    as (r' & o' & data' & Hadd & Hlro & Hur & Hr32 & Hrows' & Hoffs' & Hdlen
        & Htake & Hstored); try done; unfold uIntSize, rownrSize; try lia.
  { rewrite <- Hrows. intros E. by destruct (Hbump E). }
  rewrite <- Hrows in Hrows'. rewrite <- Hoffs in Hoffs'.
  eexists. split; [exact Hadd|].
  set (b' := {| dataLeng_p := dataLeng_p b + leng |}).
  assert (Hcolumn : column_of b' colnr
            (inserted index rownr (bumped index rownr (rows_of b colnr)))
            (inserted index (dataLeng_p b) (offs_of b colnr))).
  { exists r', o', (Z.of_nat (S u)). subst b'.
    cbn [rowIndex_p offIndex_p indexUsed_p].
    rewrite !list_lookup_insert_eq by lia. rewrite Nat2Z.id.
    split_and!; try done; lia. }
  destruct (column_of_view _ _ _ _ Hcolumn) as (Hrv & Hov & _ & _).
  split; [|split_and!; try done].
  - unfold bucket_ok. subst b'.
    cbn [dataLeng_p indexLeng_p data_p rowIndex_p offIndex_p indexUsed_p].
    rewrite !length_insert. split_and!; try done; try lia.
    + intros i Hic. destruct (decide (i = colnr)) as [->|Hne].
      * unfold column_ok. cbn [rowIndex_p offIndex_p indexUsed_p].
        exists r', o', (Z.of_nat (S u)). rewrite !list_lookup_insert_eq by lia.
        rewrite Nat2Z.id, Hrows', Hoffs'. split_and!; try done; try lia.
        -- apply Forall_inserted; [|done]. apply Forall_bumped; try done.
           intros E. by destruct (Hbump E).
        -- apply Forall_inserted; [done|]. unfold is_uInt. lia.
      * destruct (Hcols i Hic) as (ri & oi & ui & H1 & H2 & H3 & H4).
        unfold column_ok. cbn [rowIndex_p offIndex_p indexUsed_p].
        exists ri, oi, ui. rewrite !list_lookup_insert_ne by done. done.
    + rewrite (index_length_insert _ _ _ _ Hu). unfold uIntSize, rownrSize. lia.
    + unfold uIntSize, rownrSize. lia.
  - intros j Hj. subst b'. cbn [rowIndex_p offIndex_p indexUsed_p].
    rewrite !list_lookup_insert_ne by done. done.
  - apply (getOffset_greatest _ _ _ _ _ index _ Hcolumn Hasc'').
    + apply greatest_inserted; [lia|done].
    + rewrite lookup_inserted by lia. destruct (decide (index < index)%nat); [lia|].
      by destruct (decide (index = index)).
Qed.

(** A value of 6 bytes for row 2 of column 1 of [example_bucket], put in
    at place 1: the entry of row 2 moves to row 3. *)
Lemma addData_inserts_witness :
  bucket_ok example_st example_bucket
  /\ canAddData example_st example_bucket 6 = true
  /\ exists b',
       addData example_st example_bucket 1 2 1 [0; 0; 0; 6; 71; 72] 0 6 = Some b'
       /\ bucket_ok example_st b'
       /\ rows_of b' 1 = [0; 2; 3; 4]
       /\ offs_of b' 1 = [4; 26; 14; 19]
       /\ getOffset b' 1 2 = Some 26.
Proof.
  split; [exact example_bucket_ok|]. split; [reflexivity|].
  destruct (addData_inserts example_st example_bucket 1 1 2 [0; 0; 0; 6; 71; 72] 0 6
              [0; 0; 0; 6; 71; 72] example_st_ok example_bucket_ok)
    as (b' & Hadd & Hok & Hrows & Hoffs & _ & Hget & _).
  - simpl. lia.
  - reflexivity.
  - simpl. lia.
  - simpl. intros r E _. inversion E. lia.
  - simpl. intros r E. inversion E. lia.
  - simpl. intros _. split; [lia|]. intros r E. inversion E. lia.
  - unfold is_rownr. lia.
  - reflexivity.
  - simpl. lia.
  - reflexivity.
  - exists b'. split_and!; try done.
Defined.

(** *** What check reports *)

(** A list of which each element is above the one before it. *)
Lemma ascending_adjacent (l : list Z) :
  (forall (k : nat) p r, l !! k = Some p -> l !! S k = Some r -> p < r) ->
  ascending l.
Proof.
  induction l as [|a l IH]; intros Hadj; [constructor|].
  assert (Hl : ascending l).
  { apply IH. intros k p r Hp Hr. apply (Hadj (S k) p r); done. }
  constructor; [done|].
  destruct l as [|c l]; [constructor|].
  assert (Hac : a < c) by (apply (Hadj 0%nat); done).
  constructor; [done|]. apply StronglySorted_inv in Hl as [_ Hc].
  eapply Forall_impl; [exact Hc|]. intros x Hx. cbn beta in *. lia.
Qed.

(** The inner loop of [check] from index [it] on, for [n] entries. *)
Lemma check_column_spec (rowIndex : list Z) : forall (n : nat) (it : Z),
  1 <= it -> ((0 < n)%nat -> it + Z.of_nat n <= Z.of_nat (length rowIndex)) ->
  (check_column n it rowIndex = Some None
   /\ forall k : nat, it <= Z.of_nat k < it + Z.of_nat n ->
        forall p r, rowIndex !! (k - 1)%nat = Some p -> rowIndex !! k = Some r -> p < r)
  \/ exists (k : nat) r p,
       check_column n it rowIndex = Some (Some (Z.of_nat k, r, p))
       /\ it <= Z.of_nat k < it + Z.of_nat n
       /\ rowIndex !! k = Some r /\ rowIndex !! (k - 1)%nat = Some p /\ r <= p
       /\ forall j : nat, it <= Z.of_nat j < Z.of_nat k ->
            forall p r, rowIndex !! (j - 1)%nat = Some p -> rowIndex !! j = Some r -> p < r.
Proof.
  induction n as [|n IH]; intros it Hit Hn.
  - left. split; [done|]. intros k Hk. lia.
  - specialize (Hn ltac:(lia)). cbn [check_column].
    destruct (at_Some rowIndex it) as (r & -> & Hr); [lia|].
    destruct (at_Some rowIndex (it - 1)) as (p & -> & Hp); [lia|].
    cbn [mbind option_bind].
    replace (Z.to_nat (it - 1)) with (Z.to_nat it - 1)%nat in Hp by lia.
    destruct (decide (r <= p)) as [Hle|Hgt].
    + right. exists (Z.to_nat it), r, p. rewrite Z2Nat.id by lia.
      split_and!; try done; lia.
    + destruct (IH (it + 1)) as [[Hc Hall]|(k & r' & p' & Hc & Hk & Hr' & Hp' & Hle & Hall)];
        [lia|lia| |].
      * left. split; [done|]. intros k Hk p' r' Hp' Hr'.
        destruct (decide (Z.of_nat k = it)) as [E|E].
        -- replace k with (Z.to_nat it) in * by lia. simplify_eq. lia.
        -- apply (Hall k); [lia|done|done].
      * right. exists k, r', p'. split_and!; try done; try lia.
        intros j Hj p'' r'' Hp'' Hr''.
        destruct (decide (Z.of_nat j = it)) as [E|E].
        -- replace j with (Z.to_nat it) in * by lia. simplify_eq. lia.
        -- apply (Hall j); [lia|done|done].
Qed.

(** X9: [ISMBucket::check] goes through the columns in order and through
    the entries in use of each. It returns [True] exactly when the row
    index of every column is strictly increasing. Otherwise it reports the
    first column with two entries out of order and the first such index in
    it, with the row at that index and the row before it: the reported row
    is not above the previous one, and everything before that place is in
    order. *)
Theorem check_reports st b :
  (forall i, (i < ncolumn st)%nat -> col_valid b i) ->
  (check st b = Some None
   <-> forall i, (i < ncolumn st)%nat -> ascending (rows_of b i))
  /\ (check st b = Some None
      \/ exists (c it : nat) row prev,
           check st b = Some (Some (c, Z.of_nat it, row, prev))
           /\ (c < ncolumn st)%nat /\ (1 <= it)%nat
           /\ rows_of b c !! it = Some row
           /\ rows_of b c !! (it - 1)%nat = Some prev
           /\ row <= prev
           /\ ascending (take it (rows_of b c))
           /\ forall i, (i < c)%nat -> ascending (rows_of b i)).
Proof.
  intros Hvalid. unfold check.
  assert (H : forall n col_i, (col_i + n = ncolumn st)%nat ->
            (check_loop n col_i b = Some None
             /\ forall i, (col_i <= i < ncolumn st)%nat -> ascending (rows_of b i))
            \/ exists (c it : nat) row prev,
                 check_loop n col_i b = Some (Some (c, Z.of_nat it, row, prev))
                 /\ (col_i <= c < ncolumn st)%nat /\ (1 <= it)%nat
                 /\ rows_of b c !! it = Some row
                 /\ rows_of b c !! (it - 1)%nat = Some prev
                 /\ row <= prev
                 /\ ascending (take it (rows_of b c))
                 /\ forall i, (col_i <= i < c)%nat -> ascending (rows_of b i)).
  { induction n as [|n IH]; intros col_i Hn.
    - left. split; [done|]. intros i Hi. lia.
    - cbn [check_loop].
      destruct (Hvalid col_i ltac:(lia))
        as (rowIndex & offIndex & used & Hr & Ho & Hu & Hu0 & Hol).
      rewrite Hr, Hu. cbn [mbind option_bind].
      assert (Hrows : rows_of b col_i = take (Z.to_nat used) rowIndex).
      { unfold rows_of, used_of. by rewrite Hr, Hu. }
      destruct (check_column_spec rowIndex (Z.to_nat used - 1) 1)
        as [[-> Hall]|(k & r & p & -> & Hk & Hkr & Hkp & Hle & Hall)]; [lia|lia| |].
      + cbn [mbind option_bind].
        assert (Hasc : ascending (rows_of b col_i)).
        { rewrite Hrows. apply ascending_adjacent. intros k p r Hp Hr'.
          pose proof (lookup_lt_Some _ _ _ Hr') as Hlt. rewrite length_take in Hlt.
          rewrite lookup_take_lt in Hp, Hr' by lia.
          apply (Hall (S k)); [lia| |done].
          by replace (S k - 1)%nat with k by lia. }
        destruct (IH (S col_i) ltac:(lia))
          as [[Hc Hrest]|(c & it & row & prev & Hc & Hcr & Hit & H1 & H2 & H3 & H4 & H5)].
        * left. split; [done|]. intros i Hi.
          destruct (decide (i = col_i)) as [->|]; [done|]. apply Hrest. lia.
        * right. exists c, it, row, prev. split_and!; try done; try lia.
          intros i Hi. destruct (decide (i = col_i)) as [->|]; [done|]. apply H5. lia.
      + cbn [mbind option_bind]. right. exists col_i, k, r, p.
        rewrite Hrows. rewrite !lookup_take_lt by lia.
        split_and!; try done; try lia.
        * rewrite take_take. apply ascending_adjacent. intros j p' r' Hp' Hr'.
          pose proof (lookup_lt_Some _ _ _ Hr') as Hlt. rewrite length_take in Hlt.
          rewrite lookup_take_lt in Hp', Hr' by lia.
          apply (Hall (S j)); [lia| |done].
          by replace (S j - 1)%nat with j by lia. }
  destruct (H (ncolumn st) 0%nat eq_refl)
    as [[Hc Hall]|(c & it & row & prev & Hc & Hcr & Hit & H1 & H2 & H3 & H4 & H5)].
  - split; [|by left]. split; [|done]. intros _ i Hi. apply Hall. lia.
  - split.
    + split; [rewrite Hc; discriminate|]. intros Hall. exfalso.
      pose proof (ascending_lookup_lt _ (it - 1) it prev row (Hall c ltac:(lia)) H2 H1
                    ltac:(lia)). lia.
    + right. exists c, it, row, prev. split_and!; try done; try lia.
      intros i Hi. apply H5. lia.
Qed.

(** A bucket of [example_st] of which the second column has the rows 0, 4
    and 2: [check] reports index 2 of column 1. *)
Lemma check_reports_witness :
  check example_st (set_rowIndex example_bucket [[0; 3]; [0; 4; 2]])
  = Some (Some (1%nat, 2, 2, 4))
  /\ ~ ascending (rows_of (set_rowIndex example_bucket [[0; 3]; [0; 4; 2]]) 1).
Proof.
  split; [reflexivity|].
  destruct (check_reports example_st
              (set_rowIndex example_bucket [[0; 3]; [0; 4; 2]])) as [[_ Hall] _].
  - intros i Hi. destruct i as [|[|i]]; [| |simpl in Hi; lia].
    + exists [0; 3], [0; 10], 2. simpl. split_and!; try done; lia.
    + exists [0; 4; 2], [4; 14; 19], 3. simpl. split_and!; try done; lia.
  - intros Hasc. assert (Hc : check example_st
                   (set_rowIndex example_bucket [[0; 3]; [0; 4; 2]]) = Some None).
    { apply Hall. intros i Hi. destruct i as [|[|i]]; [| |simpl in Hi; lia].
      - repeat constructor.
      - exact Hasc. }
    discriminate Hc.
Defined.

(** *** Copying a bucket *)

(** The block of a column after the loop of [copy]: the entries in use of
    the other bucket, followed by what the block had behind them. *)
Definition copied_block (mine theirs : list (list Z)) (used : list Z) (i : nat) : list Z :=
  fill_block (resize_block (default [] (mine !! i)) (default 0 (used !! i)))
             (take (Z.to_nat (default 0 (used !! i))) (default [] (theirs !! i))).

Lemma copy_blocks_spec used mine theirs nrcol :
  length used = nrcol -> length mine = nrcol -> length theirs = nrcol ->
  (forall i nused src, used !! i = Some nused -> theirs !! i = Some src ->
     0 <= nused <= Z.of_nat (length src)) ->
  copy_blocks used mine theirs nrcol
  = Some (copied_block mine theirs used <$> seq 0 nrcol).
Proof.
  intros Hu Hm Ht Hle. unfold copy_blocks. apply mapM_seq_Some. intros i Hi.
  destruct (lookup_lt_is_Some_2 used i) as [nused Hnused]; [lia|].
  destruct (lookup_lt_is_Some_2 mine i) as [blk Hblk]; [lia|].
  destruct (lookup_lt_is_Some_2 theirs i) as [src Hsrc]; [lia|].
  unfold copied_block. rewrite Hnused, Hblk, Hsrc. cbn [mbind option_bind].
  destruct (decide _) as [|Hn]; [done|]. destruct Hn. eauto.
Qed.

Lemma copied_block_take mine theirs used (i : nat) nused src :
  used !! i = Some nused -> theirs !! i = Some src ->
  0 <= nused <= Z.of_nat (length src) ->
  take (Z.to_nat nused) (copied_block mine theirs used i) = take (Z.to_nat nused) src
  /\ Z.of_nat (length (copied_block mine theirs used i))
     = Z.max (Z.of_nat (length (default [] (mine !! i)))) nused.
Proof.
  intros Hu Ht Hn. unfold copied_block, fill_block. rewrite Hu, Ht.
  cbn [default from_option id]. split.
  - rewrite take_app_le by (rewrite length_take; lia).
    rewrite take_take, Nat.min_id. done.
  - rewrite length_app, length_drop, !length_take.
    pose proof (length_resize_block (default [] (mine !! i)) nused). lia.
Qed.

(** Two buckets with the same entries in use and the same data in use
    answer every get alike. *)
Lemma gets_of_used st b b' :
  bucket_ok st b -> bucket_ok st b' ->
  dataLeng_p b' = dataLeng_p b -> indexLeng_p b' = indexLeng_p b ->
  indexUsed_p b' = indexUsed_p b ->
  (forall i, (i < ncolumn st)%nat ->
     rows_of b' i = rows_of b i /\ offs_of b' i = offs_of b i) ->
  take (Z.to_nat (dataLeng_p b)) (data_p b') = take (Z.to_nat (dataLeng_p b)) (data_p b) ->
  forall colnr rownr bucketNrrow,
    getOffset b' colnr rownr = getOffset b colnr rownr
    /\ getInterval b' colnr rownr bucketNrrow = getInterval b colnr rownr bucketNrrow.
Proof.
  intros Hok Hok' Hd Hi Hu Hcols Hdata colnr rownr bucketNrrow.
  assert (E : trimmed st b' = trimmed st b).
  { unfold trimmed. rewrite Hd, Hi, Hu, Hdata. f_equal.
    - apply list_eq. intros k. rewrite !list_lookup_fmap.
      destruct (decide (k < ncolumn st)%nat) as [Hk|Hk].
      + rewrite lookup_seq_lt by done. cbn. f_equal. by apply Hcols.
      + by rewrite lookup_seq_ge by lia.
    - apply list_eq. intros k. rewrite !list_lookup_fmap.
      destruct (decide (k < ncolumn st)%nat) as [Hk|Hk].
      + rewrite lookup_seq_lt by done. cbn. f_equal. by apply Hcols.
      + by rewrite lookup_seq_ge by lia. }
  destruct (gets_trimmed st b colnr rownr bucketNrrow Hok) as [<- <-].
  destruct (gets_trimmed st b' colnr rownr bucketNrrow Hok') as [<- <-].
  by rewrite E.
Qed.

(** X10: [ISMBucket::copy] makes a bucket a copy of another bucket of the
    same storage manager: the call succeeds, the bucket is well-formed, it
    has the data length and for every column the entries in use (row
    numbers and offsets) of the other bucket, the data in use are the
    same bytes, and every [getOffset] and [getInterval] gives what it gives
    on the other bucket. What the blocks and the data buffer had behind
    the part in use is not cleared. *)
Theorem copy_faithful st this that :
  bucket_ok st this -> bucket_ok st that ->
  exists b',
    copy st this that = Some b'
    /\ bucket_ok st b'
    /\ dataLeng_p b' = dataLeng_p that
    /\ (forall i, (i < ncolumn st)%nat ->
          rows_of b' i = rows_of that i /\ offs_of b' i = offs_of that i)
    /\ take (Z.to_nat (dataLeng_p that)) (data_p b')
       = take (Z.to_nat (dataLeng_p that)) (data_p that)
    /\ drop (Z.to_nat (dataLeng_p that)) (data_p b')
       = drop (Z.to_nat (dataLeng_p that)) (data_p this)
    /\ forall colnr rownr bucketNrrow,
         getOffset b' colnr rownr = getOffset that colnr rownr
         /\ getInterval b' colnr rownr bucketNrrow
            = getInterval that colnr rownr bucketNrrow.
Proof.
  intros Hthis Hthat.
  pose proof Hthis as (Hl1 & Hl2 & Hl3 & Hcols & Hd0 & Hdata & Hil & Hfit).
  pose proof Hthat as (Hl1' & Hl2' & Hl3' & Hcols' & Hd0' & Hdata' & Hil' & Hfit').
  pose proof (indexLeng_lower st that Hthat) as Hlow. unfold uIntSize in Hlow.
  assert (Hvalid : forall i nused, indexUsed_p that !! i = Some nused ->
            exists rowIndex offIndex,
              rowIndex_p that !! i = Some rowIndex /\ offIndex_p that !! i = Some offIndex
              /\ 0 <= nused <= Z.of_nat (length rowIndex)
              /\ nused <= Z.of_nat (length offIndex)
              /\ Z.of_nat (length rowIndex) < 2^32 /\ Z.of_nat (length offIndex) < 2^32
              /\ ascending (take (Z.to_nat nused) rowIndex)
              /\ Forall is_rownr (take (Z.to_nat nused) rowIndex)
              /\ Forall is_uInt (take (Z.to_nat nused) offIndex)).
  { intros i nused Hu. assert (Hi : (i < ncolumn st)%nat).
    { apply lookup_lt_Some in Hu. lia. }
    destruct (Hcols' i Hi) as (ri & oi & ui & H1 & H2 & H3 & H4).
    exists ri, oi. simplify_eq. split_and!; try done; tauto. }
  unfold copy.
  rewrite (copy_blocks_spec _ _ (rowIndex_p that)); try done.
  2:{ intros i nused src Hu Hs. destruct (Hvalid i nused Hu) as (ri & oi & H1 & H2 & H3 & _).
      simplify_eq. done. }
  rewrite (copy_blocks_spec _ _ (offIndex_p that)); try done.
  2:{ intros i nused src Hu Hs. destruct (Hvalid i nused Hu) as (ri & oi & H1 & H2 & H3 & H4 & _).
      simplify_eq. lia. }
  cbn [mbind option_bind].
  destruct (bytes_at (data_p that) 0 (dataLeng_p that)) as [bytes|] eqn:Eb.
  2:{ unfold bytes_at in Eb. destruct (decide _); [discriminate|lia]. }
  pose proof (bytes_at_inv _ _ _ _ Eb) as (_ & _ & _ & Hbytes & Hbl).
  cbn [mbind option_bind].
  destruct (memcpy (data_p this) 0 bytes) as [data|] eqn:Em.
  2:{ unfold memcpy in Em. destruct (decide _); [discriminate|lia]. }
  cbn [mbind option_bind]. eexists. split; [reflexivity|].
  set (b' := {| dataLeng_p := dataLeng_p that |}).
  assert (Hdlen : length data = length (data_p this)).
  { by apply memcpy_inv in Em as (_ & _ & ? & _). }
  assert (Htake : take (Z.to_nat (dataLeng_p that)) data
                  = take (Z.to_nat (dataLeng_p that)) (data_p that)).
  { unfold memcpy in Em. destruct (decide _); [|discriminate]. inversion Em; subst data.
    change (Z.to_nat 0) with 0%nat. cbn [take app]. rewrite drop_0 in Hbytes.
    rewrite take_app_le by lia. rewrite take_ge by lia. done. }
  assert (Hdrop : drop (Z.to_nat (dataLeng_p that)) data
                  = drop (Z.to_nat (dataLeng_p that)) (data_p this)).
  { unfold memcpy in Em. destruct (decide _); [|discriminate]. inversion Em; subst data.
    change (Z.to_nat 0) with 0%nat. cbn [take app Nat.add].
    rewrite drop_app_ge by lia. rewrite drop_drop. f_equal. lia. }
  assert (Hcolumns : forall i, (i < ncolumn st)%nat ->
            column_ok b' i
            /\ rows_of b' i = rows_of that i /\ offs_of b' i = offs_of that i).
  { intros i Hi.
    destruct (lookup_lt_is_Some_2 (indexUsed_p that) i) as [nused Hu]; [lia|].
    destruct (Hvalid i nused Hu)
      as (ri & oi & Hr & Ho & Hn & Hno & Hr32 & Ho32 & Hasc & Hrow & Hoff).
    destruct (copied_block_take (rowIndex_p this) (rowIndex_p that) _ i nused ri Hu Hr Hn)
      as [Hrt Hrl].
    destruct (copied_block_take (offIndex_p this) (offIndex_p that) _ i nused oi Hu Ho
                ltac:(lia)) as [Hot Hol].
    destruct (Hcols i Hi) as (ri0 & oi0 & ui0 & Hr0 & Ho0 & _ & _ & _ & Hr032 & Ho032 & _).
    rewrite Hr0 in Hrl. rewrite Ho0 in Hol. cbn [default from_option id] in Hrl, Hol.
    assert (Hlr : rowIndex_p b' !! i
                  = Some (copied_block (rowIndex_p this) (rowIndex_p that)
                            (indexUsed_p that) i)).
    { subst b'. cbn [rowIndex_p]. rewrite list_lookup_fmap, lookup_seq_lt by done. done. }
    assert (Hlo : offIndex_p b' !! i
                  = Some (copied_block (offIndex_p this) (offIndex_p that)
                            (indexUsed_p that) i)).
    { subst b'. cbn [offIndex_p]. rewrite list_lookup_fmap, lookup_seq_lt by done. done. }
    split; [|split].
    - eexists _, _, nused. split; [exact Hlr|]. split; [exact Hlo|].
      split; [exact Hu|]. rewrite Hrt, Hot. split_and!; try done; lia.
    - unfold rows_of, used_of. rewrite Hlr, Hr. subst b'. cbn [indexUsed_p].
      rewrite Hu. cbn [default from_option id]. done.
    - unfold offs_of, used_of. rewrite Hlo, Ho. subst b'. cbn [indexUsed_p].
      rewrite Hu. cbn [default from_option id]. done. }
  assert (Hok' : bucket_ok st b').
  { unfold bucket_ok. subst b'.
    cbn [dataLeng_p indexLeng_p data_p rowIndex_p offIndex_p indexUsed_p].
    rewrite !length_fmap, !length_seq. split_and!; try done; try lia.
    intros i Hi. by destruct (Hcolumns i Hi). }
  split; [done|]. split; [done|]. split; [intros i Hi; by destruct (Hcolumns i Hi)|].
  split; [done|]. split; [done|].
  apply (gets_of_used st that b'); try done.
  intros i Hi. by destruct (Hcolumns i Hi).
Qed.

(** The copy of [example_bucket] into an empty bucket. *)
Lemma copy_faithful_witness :
  bucket_ok example_st (ISMBucket_new example_st)
  /\ exists b',
       copy example_st (ISMBucket_new example_st) example_bucket = Some b'
       /\ rows_of b' 1 = [0; 2; 4] /\ offs_of b' 1 = [4; 14; 19]
       /\ getOffset b' 1 3 = Some 14.
Proof.
  assert (Hnew : bucket_ok example_st (ISMBucket_new example_st)).
  { unfold bucket_ok. simpl. split_and!; try done; try lia.
    intros i Hi. destruct i as [|[|i]]; [| |lia].
    - exists [], [], 0. simpl. split_and!; try done; try lia; constructor.
    - exists [], [], 0. simpl. split_and!; try done; try lia; constructor. }
  split; [exact Hnew|].
  destruct (copy_faithful example_st (ISMBucket_new example_st) example_bucket
              Hnew example_bucket_ok)
    as (b' & Hc & _ & _ & Hcols & _ & _ & Hget).
  exists b'. split; [exact Hc|].
  destruct (Hcols 1%nat) as [-> ->]; [simpl; lia|].
  split; [reflexivity|]. split; [reflexivity|].
  destruct (Hget 1%nat 3 5) as [-> _]. reflexivity.
Defined.

(** *** Removing a value *)

(** The bytes at [pos'] of [buf'] are the bytes at [pos] of [buf] when the
    buffers agree there byte by byte. *)
Lemma bytes_at_ext (buf buf' : list Z) (pos pos' leng : Z) v :
  bytes_at buf pos leng = Some v ->
  0 <= pos' -> pos' + leng <= Z.of_nat (length buf') ->
  (forall k : nat, Z.of_nat k < leng ->
     buf' !! (Z.to_nat pos' + k)%nat = buf !! (Z.to_nat pos + k)%nat) ->
  bytes_at buf' pos' leng = Some v.
Proof.
  intros H Hp Hfit Hk. apply bytes_at_inv in H as (Hp0 & Hl0 & Hfit0 & -> & _).
  unfold bytes_at. destruct (decide _) as [_|]; [|lia]. f_equal.
  apply list_eq. intros k. rewrite !lookup_take, !lookup_drop.
  destruct (decide (k < Z.to_nat leng)%nat); [|done]. apply Hk. lia.
Qed.

(** The data after the [memmove] of [removeData]. *)
Lemma moved_data (data : list Z) (offset leng dataLeng : Z) moved data' :
  0 <= offset -> 0 <= leng -> offset < dataLeng ->
  dataLeng + leng <= Z.of_nat (length data) ->
  bytes_at data (offset + leng) (dataLeng - offset) = Some moved ->
  memcpy data offset moved = Some data' ->
  length data' = length data
  /\ (forall k : nat, Z.of_nat k < offset -> data' !! k = data !! k)
  /\ (forall k : nat, offset <= Z.of_nat k < dataLeng ->
        data' !! k = data !! (k + Z.to_nat leng)%nat).
Proof.
  intros Ho Hl Hd Hfit Hb Hm.
  apply bytes_at_inv in Hb as (_ & _ & _ & Hmoved & Hml).
  pose proof (memcpy_inv _ _ _ _ Hm) as (_ & _ & Hlen & Htake & Hstored).
  split; [done|]. split.
  - intros k Hk.
    rewrite <- (lookup_take_lt data' (Z.to_nat offset) k) by lia.
    rewrite Htake. by rewrite lookup_take_lt by lia.
  - intros k Hk. apply bytes_at_inv in Hstored as (_ & _ & _ & Hs & _).
    assert (E : moved !! (k - Z.to_nat offset)%nat = data' !! k).
    { rewrite Hs at 1. rewrite lookup_take_lt by lia. rewrite lookup_drop.
      f_equal. lia. }
    rewrite <- E, Hmoved. rewrite lookup_take_lt by lia. rewrite lookup_drop.
    f_equal. lia.
Qed.

(** The offsets of a column after the inner loop of [removeData]. *)
Definition adjusted_block (b : bucket) (offset leng : Z) (i : nat) : list Z :=
  ((fun o => if decide (o > offset) then wrap32 (o - leng) else o)
     <$> take (Z.to_nat (default 0 (indexUsed_p b !! i))) (default [] (offIndex_p b !! i)))
  ++ drop (Z.to_nat (default 0 (indexUsed_p b !! i))) (default [] (offIndex_p b !! i)).

(** What [removeData] does to a well-formed bucket. *)
Lemma removeData_spec st b offset fixedLength leng :
  st_ok st -> bucket_ok st b ->
  getLength st fixedLength (data_p b) offset = Some leng ->
  0 <= offset -> 0 <= leng -> offset + leng <= dataLeng_p b ->
  exists b',
    removeData st b offset fixedLength = Some b'
    /\ bucket_ok st b'
    /\ dataLeng_p b' = dataLeng_p b - leng
    /\ indexUsed_p b' = indexUsed_p b
    /\ (forall i, (i < ncolumn st)%nat ->
          rows_of b' i = rows_of b i
          /\ length (offs_of b' i) = length (offs_of b i))
    /\ forall i (k : nat) o L v, (i < ncolumn st)%nat ->
         offs_of b i !! k = Some o -> 0 < L ->
         bytes_at (data_p b) o L = Some v -> o + L <= dataLeng_p b ->
         o + L <= offset \/ offset + leng <= o ->
         offs_of b' i !! k = Some (if decide (o > offset) then o - leng else o)
         /\ (if decide (o > offset) then o - leng else o) + L <= dataLeng_p b'
         /\ bytes_at (data_p b') (if decide (o > offset) then o - leng else o) L
            = Some v.
Proof.
  intros [Hbs _] Hok Hlen Ho Hl Hfit.
  pose proof Hok as (Hl1 & Hl2 & Hl3 & Hcols & Hd0 & Hdata & Hil & Hfitb).
  pose proof (indexLeng_lower st b Hok) as Hlow. unfold uIntSize in Hlow.
  unfold removeData. rewrite Hlen. cbn [mbind option_bind].
  rewrite wrap32_small by lia.
  destruct (decide (dataLeng_p b - leng > offset)) as [Hmid|Hend].
  - destruct (bytes_at (data_p b) (offset + leng) (dataLeng_p b - leng - offset))
      as [moved|] eqn:Eb.
    2:{ unfold bytes_at in Eb. destruct (decide _); [discriminate|lia]. }
    cbn [mbind option_bind].
    pose proof (bytes_at_inv _ _ _ _ Eb) as (_ & _ & _ & _ & Hml).
    destruct (memcpy (data_p b) offset moved) as [data'|] eqn:Em.
    2:{ unfold memcpy in Em. destruct (decide _); [discriminate|lia]. }
    cbn [mbind option_bind].
    destruct (moved_data (data_p b) offset leng (dataLeng_p b - leng) moved data'
                Ho Hl ltac:(lia) ltac:(lia) Eb Em)
      as (Hdlen & Hbefore & Hbehind).
    rewrite (mapM_seq_Some _ (adjusted_block b offset leng)).
    2:{ intros i Hi. destruct (Hcols i ltac:(lia))
          as (ri & oi & ui & Hr & Hoi & Hu & Hu0 & Hol & _).
        unfold adjusted_block, adjust_offsets. rewrite Hu, Hoi.
        cbn [mbind option_bind default from_option id].
        destruct (decide _); [done|lia]. }
    cbn [mbind option_bind]. eexists. split; [reflexivity|].
    set (b' := {| dataLeng_p := dataLeng_p b - leng |}).
    assert (Hcolumns : forall i, (i < ncolumn st)%nat ->
              column_ok b' i /\ rows_of b' i = rows_of b i
              /\ offs_of b' i
                 = (fun o => if decide (o > offset) then wrap32 (o - leng) else o)
                     <$> offs_of b i).
    { intros i Hi. destruct (Hcols i Hi)
        as (ri & oi & ui & Hr & Hoi & Hu & Hu0 & Hol & Hr32 & Ho32 & Hasc & Hrow & Hoff).
      assert (Hlo : offIndex_p b' !! i = Some (adjusted_block b offset leng i)).
      { subst b'. cbn [offIndex_p]. rewrite list_lookup_fmap, lookup_seq_lt by lia. done. }
      assert (Hadj : adjusted_block b offset leng i
                = ((fun o => if decide (o > offset) then wrap32 (o - leng) else o)
                     <$> take (Z.to_nat ui) oi) ++ drop (Z.to_nat ui) oi).
      { unfold adjusted_block. by rewrite Hu, Hoi. }
      assert (Htake : take (Z.to_nat ui) (adjusted_block b offset leng i)
                = (fun o => if decide (o > offset) then wrap32 (o - leng) else o)
                    <$> take (Z.to_nat ui) oi).
      { rewrite Hadj. rewrite take_app_length'; [done|].
        rewrite length_fmap, length_take. lia. }
      assert (Hlength : length (adjusted_block b offset leng i) = length oi).
      { rewrite Hadj, length_app, length_fmap, <- length_app. by rewrite take_drop. }
      split; [|split].
      - exists ri, (adjusted_block b offset leng i), ui. rewrite Hlo, Htake, Hlength.
        subst b'. cbn [rowIndex_p indexUsed_p]. split_and!; try done; try lia.
        apply Forall_fmap. eapply Forall_impl; [exact Hoff|].
        intros o Hoo. cbn. destruct (decide _); [apply wrap32_range|done].
      - unfold rows_of, used_of. subst b'. cbn [rowIndex_p indexUsed_p]. done.
      - unfold offs_of, used_of. rewrite Hlo, Hoi. subst b'. cbn [indexUsed_p].
        rewrite Hu. cbn [default from_option id]. done. }
    split; [|split; [done|split; [done|split]]].
    + unfold bucket_ok. subst b'.
      cbn [dataLeng_p indexLeng_p data_p rowIndex_p offIndex_p indexUsed_p].
      rewrite length_fmap, length_seq. split_and!; try done; try lia.
      intros i Hi. by destruct (Hcolumns i Hi).
    + intros i Hi. destruct (Hcolumns i Hi) as (_ & -> & ->). by rewrite length_fmap.
    + intros i k o L v Hi Hk HL Hv HoL Hsep.
      destruct (Hcolumns i Hi) as (_ & _ & ->). rewrite list_lookup_fmap, Hk.
      cbn [fmap option_fmap option_map]. subst b'. cbn [dataLeng_p data_p].
      pose proof (bytes_at_inv _ _ _ _ Hv) as (Ho0 & _ & _ & _ & _).
      destruct (decide (o > offset)) as [Hgt|Hle].
      * rewrite wrap32_small by lia. split; [done|]. split; [lia|].
        apply (bytes_at_ext _ _ _ _ _ _ Hv); [lia|lia|].
        intros j Hj. rewrite Hbehind by lia. f_equal. lia.
      * split; [done|]. split; [lia|].
        apply (bytes_at_ext _ _ _ _ _ _ Hv); [lia|lia|].
        intros j Hj.
        destruct (decide (Z.of_nat (Z.to_nat o + j) < offset)) as [Hlt|Hge];
          [by apply Hbefore|].
        rewrite Hbehind by lia. f_equal. lia.
  - eexists. split; [reflexivity|].
    assert (Hcolumns : forall i, rows_of (set_dataLeng b (dataLeng_p b - leng)) i = rows_of b i
                                 /\ offs_of (set_dataLeng b (dataLeng_p b - leng)) i
                                    = offs_of b i) by done.
    split; [|split; [done|split; [done|split]]].
    + unfold bucket_ok, column_ok.
      cbn [set_dataLeng dataLeng_p indexLeng_p data_p rowIndex_p offIndex_p indexUsed_p].
      split_and!; try done; lia.
    + intros i Hi. destruct (Hcolumns i) as [-> ->]. done.
    + intros i k o L v Hi Hk HL Hv HoL Hsep.
      destruct (Hcolumns i) as [_ ->]. cbn [set_dataLeng dataLeng_p data_p].
      destruct (decide (o > offset)) as [Hgt|Hle]; [lia|].
      split; [done|]. split; [lia|done].
Qed.

(** X11: [ISMBucket::removeData] takes the value at [offset] out of the
    data of a well-formed bucket: the call succeeds, the bucket stays
    well-formed, the data get shorter by the length of the value, the row
    numbers of all columns stay, and every other value (one that does not
    overlap the value taken out) is still found through its index entry
    with the same bytes; the entries of the values behind the removed one
    point [leng] bytes lower. *)
Theorem removeData_keeps st b offset fixedLength leng :
  st_ok st -> bucket_ok st b ->
  getLength st fixedLength (data_p b) offset = Some leng ->
  0 <= offset -> 0 <= leng -> offset + leng <= dataLeng_p b ->
  exists b',
    removeData st b offset fixedLength = Some b'
    /\ bucket_ok st b'
    /\ dataLeng_p b' = dataLeng_p b - leng
    /\ indexUsed_p b' = indexUsed_p b
    /\ (forall i, (i < ncolumn st)%nat ->
          rows_of b' i = rows_of b i
          /\ length (offs_of b' i) = length (offs_of b i))
    /\ forall i (k : nat) o L v, (i < ncolumn st)%nat ->
         offs_of b i !! k = Some o -> 0 < L ->
         bytes_at (data_p b) o L = Some v -> o + L <= dataLeng_p b ->
         o + L <= offset \/ offset + leng <= o ->
         offs_of b' i !! k = Some (if decide (o > offset) then o - leng else o)
         /\ (if decide (o > offset) then o - leng else o) + L <= dataLeng_p b'
         /\ bytes_at (data_p b') (if decide (o > offset) then o - leng else o) L
            = Some v.
Proof. apply removeData_spec. Qed.

(** The value of 5 bytes at offset 14 of [example_bucket] (row 2 of column
    1) is taken out: the value of row 4 of that column, 7 bytes at offset
    19, is then at offset 14. *)
Lemma removeData_keeps_witness :
  getLength example_st 0 (data_p example_bucket) 14 = Some 5
  /\ exists b',
       removeData example_st example_bucket 14 0 = Some b'
       /\ dataLeng_p b' = 21
       /\ offs_of b' 1 !! 2%nat = Some 14
       /\ bytes_at (data_p b') 14 7 = Some [0; 0; 0; 7; 68; 69; 70].
Proof.
  split; [reflexivity|].
  destruct (removeData_keeps example_st example_bucket 14 0 5
              example_st_ok example_bucket_ok)
    as (b' & Hr & _ & Hd & _ & _ & Hkeep).
  - reflexivity.
  - lia.
  - lia.
  - simpl. lia.
  - exists b'. split; [exact Hr|]. split; [exact Hd|].
    destruct (Hkeep 1%nat 2%nat 19 7 [0; 0; 0; 7; 68; 69; 70]) as (H1 & _ & H2).
    + simpl. lia.
    + reflexivity.
    + lia.
    + reflexivity.
    + simpl. lia.
    + right. lia.
    + split; [exact H1|exact H2].
Defined.

(** *** Replacing a value *)

Lemma memcpy_behind (dst : list Z) (pos : Z) (src dst' : list Z) :
  memcpy dst pos src = Some dst' ->
  forall k : nat, pos + Z.of_nat (length src) <= Z.of_nat k -> dst' !! k = dst !! k.
Proof.
  unfold memcpy. destruct (decide _) as [[H1 H2]|]; [|discriminate].
  intros H k Hk; inversion H; subst.
  rewrite lookup_app_r by (rewrite length_take; lia).
  rewrite lookup_app_r by (rewrite length_take; lia).
  rewrite lookup_drop, length_take. f_equal. lia.
Qed.

(** Where a value at offset [o] is after the value of [oldLeng] bytes at
    [offset] got [newLeng] bytes: nothing moves when the lengths are the
    same, otherwise the values behind it move down. *)
Definition replaced_offset (offset newLeng oldLeng o : Z) : Z :=
  if decide (oldLeng = newLeng) then o
  else if decide (o > offset) then o - oldLeng else o.

(** X12: [ISMBucket::replaceData] gives the value at [offset] new bytes.
    When [canReplaceData] says that they fit (and the sum stays within
    [uInt]), the call succeeds and the bucket stays well-formed. With the
    same length the bytes are overwritten in place and no offset changes;
    otherwise the old value is taken out and the new bytes are put behind
    the other data, and that place is the new offset. In both cases the
    row numbers stay and every other value is still found through its
    index entry with the same bytes. *)
Theorem replaceData_replaces st b offset src spos newLeng oldLeng bytes :
  st_ok st -> bucket_ok st b ->
  canReplaceData st b newLeng oldLeng = true -> newLeng + bucketSize st < 2^32 ->
  0 <= offset -> 0 < oldLeng -> offset + oldLeng <= dataLeng_p b ->
  bytes_at src spos newLeng = Some bytes ->
  exists b',
    replaceData st b offset src spos newLeng oldLeng
    = Some (b', if decide (oldLeng = newLeng) then offset
                else dataLeng_p b - oldLeng)
    /\ bucket_ok st b'
    /\ dataLeng_p b' = dataLeng_p b + newLeng - oldLeng
    /\ bytes_at (data_p b')
         (if decide (oldLeng = newLeng) then offset else dataLeng_p b - oldLeng)
         newLeng = Some bytes
    /\ (forall i, (i < ncolumn st)%nat ->
          rows_of b' i = rows_of b i
          /\ length (offs_of b' i) = length (offs_of b i))
    /\ forall i (k : nat) o L v, (i < ncolumn st)%nat ->
         offs_of b i !! k = Some o -> 0 < L ->
         bytes_at (data_p b) o L = Some v -> o + L <= dataLeng_p b ->
         o + L <= offset \/ offset + oldLeng <= o ->
         offs_of b' i !! k = Some (replaced_offset offset newLeng oldLeng o)
         /\ bytes_at (data_p b') (replaced_offset offset newLeng oldLeng o) L = Some v.
Proof.
  intros Hst Hok Hcan Hsum Ho Hold Hfit Hbytes. pose proof Hst as [Hbs _].
  pose proof Hok as (Hl1 & Hl2 & Hl3 & Hcols & Hd0 & Hdata & Hil & Hfitb).
  pose proof (indexLeng_lower st b Hok) as Hlow. unfold uIntSize in Hlow.
  pose proof (bytes_at_inv _ _ _ _ Hbytes) as (_ & Hnew & _ & _ & Hbl).
  unfold canReplaceData in Hcan. apply bool_decide_eq_true in Hcan.
  rewrite wrap32_small in Hcan by lia.
  unfold replaceData, replaced_offset. rewrite wrap32_small by lia.
  destruct (decide (_ <= bucketSize st)) as [_|]; [|lia].
  destruct (decide (oldLeng = newLeng)) as [->|Hne].
  - rewrite Hbytes. cbn [mbind option_bind].
    destruct (memcpy (data_p b) offset bytes) as [data'|] eqn:Em.
    2:{ unfold memcpy in Em. destruct (decide _); [discriminate|lia]. }
    cbn [mbind option_bind].
    pose proof (memcpy_behind _ _ _ _ Em) as Hbehind'.
    apply memcpy_inv in Em as (_ & _ & Hdlen & Htake & Hstored). rewrite Hbl in Hstored.
    eexists. split; [reflexivity|].
    assert (Hcolumns : forall i, rows_of (set_data b data') i = rows_of b i
                                 /\ offs_of (set_data b data') i = offs_of b i) by done.
    cbn [set_data dataLeng_p data_p].
    split; [|split; [lia|split; [done|split]]].
    + unfold bucket_ok, column_ok.
      cbn [set_data dataLeng_p indexLeng_p data_p rowIndex_p offIndex_p indexUsed_p].
      split_and!; try done; lia.
    + intros i Hi. destruct (Hcolumns i) as [-> ->]. done.
    + intros i k o L v Hi Hk HL Hv HoL Hsep.
      destruct (Hcolumns i) as [_ ->]. split; [done|].
      pose proof (bytes_at_inv _ _ _ _ Hv) as (Ho0 & _ & _ & _ & _).
      destruct Hsep as [Hbefore|Hbehind].
      * apply (bytes_at_take (data_p b) data' offset); try done.
      * apply (bytes_at_ext _ _ _ _ _ _ Hv); [lia|lia|]. intros j Hj.
        apply Hbehind'. lia.
  - destruct (removeData_spec st b offset oldLeng oldLeng Hst Hok)
      as (b1 & -> & Hok1 & Hd1 & Hu1 & Hrows1 & Hkeep1); try lia.
    { unfold getLength. destruct (decide _); [done|lia]. }
    cbn [mbind option_bind].
    pose proof Hok1 as (Hl1' & Hl2' & Hl3' & Hcols' & Hd0' & Hdata' & Hil' & Hfitb').
    assert (Hix : indexLeng_p b1 = indexLeng_p b) by (by rewrite Hil', Hu1, Hil).
    unfold insertData. rewrite Hd1, Hix. rewrite !wrap32_small by lia.
    destruct (decide (_ <= bucketSize st)) as [_|]; [|lia].
    rewrite Hbytes. cbn [mbind option_bind].
    destruct (memcpy (data_p b1) (dataLeng_p b - oldLeng) bytes) as [data'|] eqn:Em.
    2:{ unfold memcpy in Em. destruct (decide _); [discriminate|lia]. }
    cbn [mbind option_bind].
    apply memcpy_inv in Em as (_ & _ & Hdlen & Htake & Hstored). rewrite Hbl in Hstored.
    eexists. split; [reflexivity|].
    set (b' := set_dataLeng (set_data b1 data') (dataLeng_p b - oldLeng + newLeng)).
    assert (Hcolumns : forall i, rows_of b' i = rows_of b1 i
                                 /\ offs_of b' i = offs_of b1 i) by done.
    split; [|split; [subst b'; cbn [set_dataLeng dataLeng_p]; lia|split; [done|split]]].
    + unfold bucket_ok, column_ok. subst b'.
      cbn [set_data set_dataLeng dataLeng_p indexLeng_p data_p rowIndex_p offIndex_p
           indexUsed_p].
      split_and!; try done; lia.
    + intros i Hi. destruct (Hcolumns i) as [-> ->]. by apply Hrows1.
    + intros i k o L v Hi Hk HL Hv HoL Hsep.
      destruct (Hcolumns i) as [_ ->].
      destruct (Hkeep1 i k o L v Hi Hk HL Hv HoL Hsep) as (H1 & H2 & H3).
      split; [done|]. subst b'. cbn [set_data set_dataLeng data_p].
      apply (bytes_at_take (data_p b1) data' (dataLeng_p b - oldLeng)); try done. lia.
Qed.

(** The value of 5 bytes at offset 14 of [example_bucket] gets 7 bytes:
    they are put at offset 21, and the value that was at offset 19 is at
    offset 14. *)
Lemma replaceData_replaces_witness :
  canReplaceData example_st example_bucket 7 5 = true
  /\ exists b',
       replaceData example_st example_bucket 14 [0; 0; 0; 7; 71; 72; 73] 0 7 5
       = Some (b', 21)
       /\ bytes_at (data_p b') 21 7 = Some [0; 0; 0; 7; 71; 72; 73]
       /\ offs_of b' 1 !! 2%nat = Some 14
       /\ bytes_at (data_p b') 14 7 = Some [0; 0; 0; 7; 68; 69; 70].
Proof.
  split; [reflexivity|].
  destruct (replaceData_replaces example_st example_bucket 14 [0; 0; 0; 7; 71; 72; 73]
              0 7 5 [0; 0; 0; 7; 71; 72; 73] example_st_ok example_bucket_ok)
    as (b' & Hr & _ & _ & Hnew & _ & Hkeep).
  - reflexivity.
  - simpl. lia.
  - lia.
  - lia.
  - simpl. lia.
  - reflexivity.
  - exists b'. split; [exact Hr|]. split; [exact Hnew|].
    destruct (Hkeep 1%nat 2%nat 19 7 [0; 0; 0; 7; 68; 69; 70]) as (H1 & H2).
    + simpl. lia.
    + reflexivity.
    + lia.
    + reflexivity.
    + simpl. lia.
    + right. lia.
    + split; [exact H1|exact H2].
Defined.

(** *** Where getSplit splits *)

(** X13: [ISMBucket::getSplit] on three or more rows, for lengths that
    stay within [uInt]: the walk stops at the first index [k] where the
    right size is no longer above the left size, or at the last index;
    the result is [k] or [k - 1] and lies between 1 and the number of
    rows minus 1. It is [k - 1] when the left size at [k] is still below
    the right size (the difference in [uInt] is then above every real
    difference) or when the difference at [k] is above that at [k - 1],
    and [k] otherwise; a walk that stops at once gives 1. *)
Theorem getSplit_walk totLeng rowLeng cumLeng :
  lengths_ok totLeng rowLeng cumLeng ->
  Forall (fun r => 2 * (r + totLeng) < 2^32) rowLeng ->
  3 <= Z.of_nat (length rowLeng) < 2^32 ->
  exists k i,
    getSplit totLeng rowLeng cumLeng = Some i
    /\ 1 <= k <= Z.of_nat (length rowLeng) - 1
    /\ 1 <= i <= Z.of_nat (length rowLeng) - 1
    /\ (forall j, 1 <= j < k ->
          leftSize cumLeng j < rightSize totLeng rowLeng cumLeng j)
    /\ (k < Z.of_nat (length rowLeng) - 1 ->
          rightSize totLeng rowLeng cumLeng k <= leftSize cumLeng k)
    /\ i = (if decide (k = 1) then 1
            else if decide (leftSize cumLeng k < rightSize totLeng rowLeng cumLeng k)
            then k - 1
            else if decide (sizeDiff totLeng rowLeng cumLeng k
                            > sizeDiff totLeng rowLeng cumLeng (k - 1))
            then k - 1 else k).
Proof.
  intros Hok Hr Hnr.
  destruct (getSplit_spec totLeng rowLeng cumLeng Hok Hr Hnr)
    as (k & Hk & Hbefore & Hat & Hget).
  eexists k, _. split; [exact Hget|]. split; [done|]. split; [|done].
  repeat destruct (decide _); lia.
Qed.

(** Rows of 10, 30, 10, 10 and 40 bytes: the walk stops at index 3, where
    the left and the right bucket would both have 50 bytes; splitting at
    index 2 would give 40 and 60, so the result is 3. *)
Lemma getSplit_walk_witness :
  lengths_ok 100 [10; 30; 10; 10; 40] [10; 40; 50; 60; 100]
  /\ getSplit 100 [10; 30; 10; 10; 40] [10; 40; 50; 60; 100] = Some 3.
Proof.
  assert (Hok : lengths_ok 100 [10; 30; 10; 10; 40] [10; 40; 50; 60; 100]).
  { unfold lengths_ok. split_and!; try done; repeat constructor; lia. }
  split; [exact Hok|].
  destruct (getSplit_walk 100 [10; 30; 10; 10; 40] [10; 40; 50; 60; 100] Hok)
    as (k & i & Hget & _).
  - repeat constructor; lia.
  - simpl. lia.
  - reflexivity.
Defined.

(** *** Taking entries out of a column *)

(** Entry [k] of column [i] points at the [L] bytes [v] at offset [o] of
    the data. *)
Definition located (b : bucket) (i k : nat) (o L : Z) (v : list Z) : Prop :=
  offs_of b i !! k = Some o /\ 0 < L /\ o + L <= dataLeng_p b
  /\ bytes_at (data_p b) o L = Some v.

(** Two values, given by offset and length, do not overlap. *)
Definition apart (o L o' L' : Z) : Prop := o + L <= o' \/ o' + L' <= o.

(** The length of all values of [items] (offset and length), and of those
    that start below [o]. *)
Definition total (items : list (Z * Z)) : Z :=
  foldr (fun it acc => it.2 + acc) 0 items.

Definition below (items : list (Z * Z)) (o : Z) : Z :=
  foldr (fun it acc => (if decide (it.1 < o) then it.2 else 0) + acc) 0 items.

(** A list without the [nr] elements from [index] on. *)
Definition cut {A} (index nr : nat) (l : list A) : list A :=
  take index l ++ drop (index + nr) l.

(** The offset [o] after the value of [L0] bytes at [o0] is removed. *)
Definition shift1 (o0 L0 o : Z) : Z := if decide (o > o0) then o - L0 else o.

Lemma getLength_of_bytes st fixedLength (buf : list Z) (o L : Z) (v : list Z) L' :
  bytes_at buf o L = Some v -> getLength st fixedLength v 0 = Some L' ->
  getLength st fixedLength buf o = Some L'.
Proof.
  unfold getLength. destruct (decide _); [done|]. unfold readuInt.
  intros Hb Hr. apply fmap_Some in Hr as (bs & Hbs & ->).
  pose proof (bytes_at_inv _ _ _ _ Hb) as (Ho & HL & Hfit & Hv & Hlen).
  pose proof (bytes_at_inv _ _ _ _ Hbs) as (_ & _ & Hfit' & _ & _).
  rewrite (bytes_at_ext v buf 0 o uIntSize bs Hbs Ho); [done|lia|].
  intros k Hk. rewrite Hv. rewrite lookup_take_lt by lia. rewrite lookup_drop.
  f_equal.
Qed.

Lemma apart_shift (o0 L0 o L o' L' : Z) :
  0 < L -> 0 < L' -> 0 <= L0 ->
  apart o L o0 L0 -> apart o' L' o0 L0 -> apart o L o' L' ->
  apart (shift1 o0 L0 o) L (shift1 o0 L0 o') L'.
Proof.
  unfold apart, shift1. intros. destruct (decide _), (decide _); lia.
Qed.

Lemma total_shift (f : Z -> Z) (items : list (Z * Z)) :
  total ((fun it => (f it.1, it.2)) <$> items) = total items.
Proof.
  unfold total. induction items as [|[o L] items IH]; [done|].
  cbn [fmap list_fmap foldr fst snd]. cbn [fmap] in IH. by rewrite IH.
Qed.

Lemma below_shift (o0 L0 o L : Z) (items : list (Z * Z)) :
  0 < L -> 0 <= L0 -> apart o L o0 L0 ->
  (forall j o' L', items !! j = Some (o', L') ->
     0 < L' /\ apart o L o' L' /\ apart o' L' o0 L0) ->
  below ((fun it => (shift1 o0 L0 it.1, it.2)) <$> items) (shift1 o0 L0 o)
  = below items o.
Proof.
  intros HL HL0 Ha. unfold below.
  induction items as [|[o' L'] items IH]; intros Hitems; [done|].
  cbn [fmap list_fmap foldr fst snd]. cbn [fmap] in IH. rewrite IH.
  2:{ intros j o1 L1 Hj. apply (Hitems (S j)). exact Hj. }
  destruct (Hitems 0%nat o' L' eq_refl) as (HL' & Ha1 & Ha2).
  f_equal. unfold apart, shift1 in *.
  destruct (decide (o' > o0)), (decide (o > o0)), (decide (_ < _)), (decide (o' < o));
    lia.
Qed.

Lemma lookup_cut_lt {A} (index nr : nat) (l : list A) (k : nat) :
  (k < index)%nat -> (index <= length l)%nat -> cut index nr l !! k = l !! k.
Proof.
  intros Hk Hl. unfold cut. rewrite lookup_app_l by (rewrite length_take; lia).
  by apply lookup_take_lt.
Qed.

Lemma lookup_cut_ge {A} (index nr : nat) (l : list A) (k : nat) :
  (index <= k)%nat -> (index <= length l)%nat ->
  cut index nr l !! k = l !! (k + nr)%nat.
Proof.
  intros Hk Hl. unfold cut. rewrite lookup_app_r by (rewrite length_take; lia).
  rewrite length_take, lookup_drop. f_equal. lia.
Qed.

Lemma length_cut {A} (index nr : nat) (l : list A) :
  (index + nr <= length l)%nat -> length (cut index nr l) = (length l - nr)%nat.
Proof. intros H. unfold cut. rewrite length_app, length_take, length_drop. lia. Qed.

Lemma ascending_cut (index nr : nat) (l : list Z) :
  ascending l -> ascending (cut index nr l).
Proof.
  intros H. unfold cut, ascending.
  apply StronglySorted_app_2; [|by apply ascending_take|by apply ascending_drop].
  intros x y Hx Hy. unfold ascending in H.
  rewrite <- (take_drop index l) in H.
  eapply StronglySorted_app_1_elem_of; [exact H|exact Hx|].
  rewrite <- drop_drop in Hy.
  apply list_elem_of_lookup in Hy as [k Hk]. rewrite lookup_drop in Hk.
  by eapply list_elem_of_lookup_2.
Qed.

Lemma Forall_cut {A} (P : A -> Prop) (index nr : nat) (l : list A) :
  Forall P l -> Forall P (cut index nr l).
Proof.
  intros H. unfold cut. apply Forall_app. split; [by apply Forall_take|by apply Forall_drop].
Qed.

(** The [objmove] of [shiftLeft] closes the gap in the entries in use. *)
Lemma objmove_cut (a : list Z) (index nr used : Z) :
  0 <= index -> 0 <= nr -> index + nr < used -> used <= Z.of_nat (length a) ->
  exists a',
    objmove a index (index + nr) (used - index - nr) = Some a'
    /\ length a' = length a
    /\ take (Z.to_nat (used - nr)) a'
       = cut (Z.to_nat index) (Z.to_nat nr) (take (Z.to_nat used) a).
Proof.
  intros Hi Hn Hu Hl. unfold objmove. destruct (decide _) as [_|]; [|lia].
  set (src := take (Z.to_nat (used - index - nr)) (drop (Z.to_nat (index + nr)) a)).
  assert (Hsrc : length src = Z.to_nat (used - index - nr)).
  { subst src. rewrite length_take, length_drop. lia. }
  unfold memcpy. destruct (decide _) as [_|]; [|lia].
  eexists. split; [reflexivity|]. split.
  - rewrite !length_app, length_take, length_drop. lia.
  - rewrite app_assoc. rewrite take_app_le by (rewrite length_app, length_take; lia).
    rewrite take_ge by (rewrite length_app, length_take; lia).
    unfold cut. rewrite take_take. f_equal; [f_equal; lia|].
    subst src. rewrite skipn_firstn_comm. f_equal; [lia|f_equal; lia].
Qed.

(** An entry in use of a well-formed column is an entry of its block. *)
Lemma located_block st b (i k : nat) o L v :
  bucket_ok st b -> (i < ncolumn st)%nat -> located b i k o L v ->
  exists offIndex,
    offIndex_p b !! i = Some offIndex /\ offIndex !! k = Some o
    /\ Z.of_nat k < used_of b i /\ used_of b i <= Z.of_nat (length offIndex)
    /\ Z.of_nat (length offIndex) < 2^32 /\ 0 <= o.
Proof.
  intros Hok Hi (Hk & HL & Hfit & Hb).
  destruct Hok as (_ & _ & _ & Hcols & _).
  destruct (Hcols i Hi) as (ri & oi & u & Hr & Ho & Hu & Hu0 & Hol & Hr32 & Ho32 & _).
  unfold offs_of, used_of in *. rewrite Ho, Hu in *. cbn [default from_option id] in *.
  apply lookup_take_Some in Hk as [Hk Hlt].
  apply bytes_at_inv in Hb as (Ho0 & _).
  exists oi. split_and!; auto; lia.
Qed.

(** The loop of [shiftLeft] that removes the values: the values [items]
    (offset and length) of the entries from [index + j0] on are taken out
    of the data one by one; every value that overlaps none of them is
    still at its entry, as many bytes lower as were removed below it. *)
Lemma shiftLeft_loop st (colnr index : nat) fixedLength :
  st_ok st -> (colnr < ncolumn st)%nat ->
  forall (n : nat) (items : list (Z * Z)) (j0 : nat) b,
    length items = n -> bucket_ok st b ->
    (forall (j : nat) o L, items !! j = Some (o, L) ->
       exists v, located b colnr (index + j0 + j) o L v
                 /\ getLength st fixedLength v 0 = Some L) ->
    (forall (j j' : nat) o L o' L', j <> j' ->
       items !! j = Some (o, L) -> items !! j' = Some (o', L') -> apart o L o' L') ->
    exists b',
      for_loop n j0
        (fun i b =>
           offIndex ← offIndex_p b !! colnr;
           off ← at_ offIndex (wrap32 (Z.of_nat index + Z.of_nat i));
           removeData st b off fixedLength) b = Some b'
      /\ bucket_ok st b'
      /\ dataLeng_p b' = dataLeng_p b - total items
      /\ indexUsed_p b' = indexUsed_p b
      /\ (forall i, (i < ncolumn st)%nat ->
            rows_of b' i = rows_of b i
            /\ length (offs_of b' i) = length (offs_of b i))
      /\ forall (i k : nat) o L v, (i < ncolumn st)%nat ->
           located b i k o L v ->
           (forall (j : nat) o' L', items !! j = Some (o', L') -> apart o L o' L') ->
           located b' i k (o - below items o) L v.
Proof.
  intros Hst Hc. induction n as [|n IH]; intros items j0 b Hn Hok Hitems Hapart.
  { destruct items; [|done]. exists b. cbn [for_loop total below foldr].
    split_and!; auto; try lia. intros i k o L v _ Hl _.
    by rewrite Z.sub_0_r. }
  destruct items as [|[o0 L0] items]; [done|]. cbn [length] in Hn.
  destruct (Hitems 0%nat o0 L0 eq_refl) as (v0 & Hloc0 & Hlen0).
  rewrite Nat.add_0_r in Hloc0.
  destruct (located_block _ _ _ _ _ _ _ Hok Hc Hloc0)
    as (oi & Hoi & Hk0 & Hu0 & Hul & Ho32 & Ho0).
  pose proof Hloc0 as (_ & HL0 & Hfit0 & Hb0).
  destruct (removeData_spec st b o0 fixedLength L0 Hst Hok)
    as (b1 & Hrm & Hok1 & Hdl1 & Hiu1 & Hrows1 & Hkeep1); [|lia|lia|lia|].
  { by eapply getLength_of_bytes. }
  assert (Hmove : forall (i k : nat) o L v, (i < ncolumn st)%nat ->
            located b i k o L v -> apart o L o0 L0 ->
            located b1 i k (shift1 o0 L0 o) L v).
  { intros i k o L v Hi (H1 & H2 & H3 & H4) Ha.
    destruct (Hkeep1 i k o L v Hi H1 H2 H4 H3 Ha) as (E1 & E2 & E3).
    unfold located, shift1. auto. }
  set (items1 := (fun it : Z * Z => (shift1 o0 L0 it.1, it.2)) <$> items).
  destruct (IH items1 (S j0) b1) as (b' & Hloop & Hok' & Hdl' & Hiu' & Hrows' & Hkeep').
  { subst items1. rewrite length_fmap. lia. }
  { exact Hok1. }
  { intros j o L Hj. subst items1. rewrite list_lookup_fmap in Hj.
    destruct (items !! j) as [[o' L']|] eqn:Ej; [|done]. cbn in Hj.
    inversion Hj; subst o L; clear Hj.
    destruct (Hitems (S j) o' L' Ej) as (v & Hloc & Hlen).
    exists v. split; [|done].
    replace (index + S j0 + j)%nat with (index + j0 + S j)%nat by lia.
    apply Hmove; [done|done|]. apply (Hapart (S j) 0%nat); [done|done|done]. }
  { intros j j' o L o' L' Hne Hj Hj'. subst items1.
    rewrite list_lookup_fmap in Hj, Hj'.
    destruct (items !! j) as [[p Lp]|] eqn:Ej; [|done].
    destruct (items !! j') as [[q Lq]|] eqn:Ej'; [|done]. cbn in Hj, Hj'.
    inversion Hj; subst o L; clear Hj. inversion Hj'; subst o' L'; clear Hj'.
    destruct (Hitems (S j) p Lp Ej) as (vp & (_ & HLp & _) & _).
    destruct (Hitems (S j') q Lq Ej') as (vq & (_ & HLq & _) & _).
    apply apart_shift; [lia|lia|lia| | |].
    - apply (Hapart (S j) 0%nat); [done|done|done].
    - apply (Hapart (S j') 0%nat); [done|done|done].
    - apply (Hapart (S j) (S j')); [lia|done|done]. }
  exists b'. split_and!.
  - cbn [for_loop]. rewrite Hoi. cbn [mbind option_bind].
    replace (wrap32 (Z.of_nat index + Z.of_nat j0)) with (Z.of_nat (index + j0))
      by (rewrite wrap32_small; lia).
    assert (Hat : at_ oi (Z.of_nat (index + j0)) = Some o0).
    { unfold at_. destruct (decide _) as [_|]; [|lia]. by rewrite Nat2Z.id. }
    rewrite Hat. cbn [mbind option_bind]. rewrite Hrm. cbn [mbind option_bind].
    exact Hloop.
  - exact Hok'.
  - rewrite Hdl', Hdl1. subst items1. rewrite total_shift.
    unfold total. cbn [foldr snd]. lia.
  - by rewrite Hiu', Hiu1.
  - intros i Hi. destruct (Hrows' i Hi) as [E1 E2]. destruct (Hrows1 i Hi) as [E3 E4].
    split; congruence.
  - intros i k o L v Hi Hloc Hap.
    pose proof Hloc as (_ & HL & _).
    assert (Ha0 : apart o L o0 L0) by (apply (Hap 0%nat); done).
    assert (Hrest : forall (j : nat) o' L', items !! j = Some (o', L') ->
              0 < L' /\ apart o L o' L' /\ apart o' L' o0 L0).
    { intros j o' L' Hj.
      destruct (Hitems (S j) o' L' Hj) as (v' & (_ & HL' & _) & _).
      split; [lia|]. split; [apply (Hap (S j)); done|].
      apply (Hapart (S j) 0%nat); [done|done|done]. }
    replace (o - below ((o0, L0) :: items) o)
      with (shift1 o0 L0 o - below items1 (shift1 o0 L0 o)).
    2:{ subst items1. rewrite (below_shift o0 L0 o L items); [|lia|lia|done|done].
        unfold below at 2. cbn [foldr fst snd]. fold (below items o).
        unfold shift1. destruct (decide (o > o0)), (decide (o0 < o)); lia. }
    apply Hkeep'; [done|by apply Hmove|].
    intros j o' L' Hj. subst items1. rewrite list_lookup_fmap in Hj.
    destruct (items !! j) as [[q Lq]|] eqn:Ej; [|done]. cbn in Hj.
    inversion Hj; subst o' L'; clear Hj.
    destruct (Hrest j q Lq Ej) as (HLq & Ha1 & Ha2).
    apply apart_shift; [lia|lia|lia|done|done|done].
Qed.

(** The two [objmove] calls of [shiftLeft], which are skipped when the
    entries taken out are the last ones. *)
Lemma shiftLeft_moves (rowIndex offIndex : list Z) (index nr used : Z) :
  0 <= index -> 0 <= nr -> index + nr <= used ->
  used <= Z.of_nat (length rowIndex) -> used <= Z.of_nat (length offIndex) ->
  used < 2^32 ->
  exists rowIndex' offIndex',
    (if decide (used > wrap32 (index + nr)) then
       r ← objmove rowIndex index (wrap32 (index + nr)) (wrap32 (used - index - nr));
       o ← objmove offIndex index (wrap32 (index + nr)) (wrap32 (used - index - nr));
       Some (r, o)
     else Some (rowIndex, offIndex)) = Some (rowIndex', offIndex')
    /\ length rowIndex' = length rowIndex
    /\ length offIndex' = length offIndex
    /\ take (Z.to_nat (used - nr)) rowIndex'
       = cut (Z.to_nat index) (Z.to_nat nr) (take (Z.to_nat used) rowIndex)
    /\ take (Z.to_nat (used - nr)) offIndex'
       = cut (Z.to_nat index) (Z.to_nat nr) (take (Z.to_nat used) offIndex).
Proof.
  intros Hi Hn Hu Hr Ho H32. rewrite (wrap32_small (index + nr)) by lia.
  destruct (decide (used > index + nr)) as [Hgt|Hle].
  - rewrite (wrap32_small (used - index - nr)) by lia.
    destruct (objmove_cut rowIndex index nr used) as (r & -> & Hrl & Hrt); try lia.
    destruct (objmove_cut offIndex index nr used) as (o & -> & Hol & Hot); try lia.
    cbn [mbind option_bind]. exists r, o. auto.
  - exists rowIndex, offIndex. split_and!; auto.
    + unfold cut. rewrite take_take, drop_ge by (rewrite length_take; lia).
      rewrite app_nil_r. f_equal. lia.
    + unfold cut. rewrite take_take, drop_ge by (rewrite length_take; lia).
      rewrite app_nil_r. f_equal. lia.
Qed.

(** X22: [ISMBucket::shiftLeft] takes [nr] entries from [index] on out of
    a column of a well-formed bucket. When these entries point at values
    of more than 0 bytes within the data that do not overlap one another,
    each of the fixed length given or, when that is 0, of the length that
    the value holds in its first 4 bytes: the call succeeds and the bucket
    stays well-formed; the data get shorter by the length of all these
    values; the column has [nr] entries less, its row numbers being the
    old ones without those from [index] to [index + nr - 1]; the other
    columns keep their row numbers; and every value of the bucket that
    overlaps none of the removed ones is still found with the same bytes,
    at the same entry (in the column itself [nr] entries lower when it
    was behind the removed ones), as many bytes lower in the data as were
    removed below it. *)
Theorem shiftLeft_removes st b (colnr index : nat) (items : list (Z * Z)) fixedLength :
  st_ok st -> bucket_ok st b -> (colnr < ncolumn st)%nat ->
  Z.of_nat (index + length items) <= used_of b colnr ->
  (forall (j : nat) o L, items !! j = Some (o, L) ->
     exists v, located b colnr (index + j) o L v
               /\ getLength st fixedLength v 0 = Some L) ->
  (forall (j j' : nat) o L o' L', j <> j' ->
     items !! j = Some (o, L) -> items !! j' = Some (o', L') -> apart o L o' L') ->
  exists b',
    shiftLeft st b colnr (Z.of_nat index) (Z.of_nat (length items)) fixedLength = Some b'
    /\ bucket_ok st b'
    /\ dataLeng_p b' = dataLeng_p b - total items
    /\ used_of b' colnr = used_of b colnr - Z.of_nat (length items)
    /\ rows_of b' colnr = cut index (length items) (rows_of b colnr)
    /\ (forall i, (i < ncolumn st)%nat -> i <> colnr ->
          used_of b' i = used_of b i /\ rows_of b' i = rows_of b i)
    /\ forall (i k : nat) o L v, (i < ncolumn st)%nat ->
         located b i k o L v ->
         (forall (j : nat) o' L', items !! j = Some (o', L') -> apart o L o' L') ->
         located b' i
           (if decide (i = colnr /\ (index + length items <= k)%nat)
            then (k - length items)%nat else k)
           (o - below items o) L v.
Proof.
  intros Hst Hok Hc Hused Hitems Hapart.
  destruct (shiftLeft_loop st colnr index fixedLength Hst Hc (length items) items 0%nat b
              eq_refl Hok)
    as (b1 & Hloop & Hok1 & Hdl1 & Hiu1 & Hrows1 & Hkeep1).
  { intros j o L Hj. rewrite Nat.add_0_r. by apply Hitems. }
  { exact Hapart. }
  unfold shiftLeft, for_upto. rewrite Nat2Z.id, Hloop. cbn [mbind option_bind].
  pose proof Hok1 as (Hl1 & Hl2 & Hl3 & Hcols & Hd0 & Hdata & Hil & Hfit).
  destruct (Hcols colnr Hc)
    as (ri & oi & u & Hr & Ho & Hu & Hu0 & Hol & Hr32 & Ho32 & Hasc & Hrn & Hon).
  assert (Eu : used_of b colnr = u) by (unfold used_of; by rewrite <- Hiu1, Hu).
  rewrite Eu in Hused.
  rewrite Hr, Ho, Hu. cbn [mbind option_bind].
  destruct (shiftLeft_moves ri oi (Z.of_nat index) (Z.of_nat (length items)) u)
    as (ri' & oi' & -> & Hrl & Holn & Hrt & Hot); try lia.
  cbn [mbind option_bind].
  rewrite (wrap32_small (u - Z.of_nat (length items))) by lia.
  rewrite (upd_Some (indexUsed_p b1) colnr) by lia. cbn [mbind option_bind].
  rewrite !Nat2Z.id in Hrt, Hot.
  set (nr := length items) in *.
  set (b' := {| dataLeng_p := dataLeng_p b1 |}).
  assert (Eused : used_of b' colnr = u - Z.of_nat nr).
  { unfold used_of. subst b'. cbn [indexUsed_p].
    by rewrite list_lookup_insert_eq by lia. }
  assert (Erows : rows_of b' colnr = cut index nr (rows_of b1 colnr)).
  { unfold rows_of. rewrite Eused. unfold used_of. rewrite Hu. subst b'.
    cbn [rowIndex_p]. rewrite list_lookup_insert_eq by lia. rewrite Hr.
    cbn [default from_option id]. exact Hrt. }
  assert (Eoffs : offs_of b' colnr = cut index nr (offs_of b1 colnr)).
  { unfold offs_of. rewrite Eused. unfold used_of. rewrite Hu. subst b'.
    cbn [offIndex_p]. rewrite list_lookup_insert_eq by lia. rewrite Ho.
    cbn [default from_option id]. exact Hot. }
  assert (Eother : forall i, i <> colnr ->
            rowIndex_p b' !! i = rowIndex_p b1 !! i
            /\ offIndex_p b' !! i = offIndex_p b1 !! i
            /\ indexUsed_p b' !! i = indexUsed_p b1 !! i).
  { intros i Hi. subst b'. cbn [rowIndex_p offIndex_p indexUsed_p].
    by rewrite !list_lookup_insert_ne by done. }
  exists b'. split; [reflexivity|]. split_and!.
  - (* the bucket is well-formed *)
    assert (Hnn : Forall (fun v => 0 <= v) (<[colnr := u - Z.of_nat nr]> (indexUsed_p b1))).
    { apply Forall_insert; [by eapply used_nonneg|lia]. }
    pose proof (index_length_bound _ colnr (u - Z.of_nat nr) Hnn) as Hlow.
    rewrite list_lookup_insert_eq in Hlow by lia. specialize (Hlow eq_refl).
    rewrite (index_length_insert _ colnr u _ Hu) in Hlow.
    destruct Hst as [Hbs _]. unfold uIntSize, rownrSize in *.
    unfold bucket_ok. subst b'.
    cbn [dataLeng_p indexLeng_p rowIndex_p offIndex_p indexUsed_p data_p].
    rewrite !length_insert.
    rewrite (index_length_insert _ colnr u _ Hu). unfold uIntSize, rownrSize.
    rewrite wrap32_small by lia.
    split_and!; auto; try lia.
    intros i Hi. destruct (decide (i = colnr)) as [->|Hne].
    + exists ri', oi', (u - Z.of_nat nr).
      cbn [rowIndex_p offIndex_p indexUsed_p].
      rewrite !list_lookup_insert_eq by lia.
      split_and!; auto; try lia.
      * rewrite Hrt. by apply ascending_cut.
      * rewrite Hrt. by apply Forall_cut.
      * rewrite Hot. by apply Forall_cut.
    + destruct (Hcols i Hi) as (ri0 & oi0 & u0 & H1 & H2 & H3 & Hrest).
      exists ri0, oi0, u0. cbn [rowIndex_p offIndex_p indexUsed_p].
      rewrite !list_lookup_insert_ne by done. auto.
  - subst b'. cbn [dataLeng_p]. exact Hdl1.
  - rewrite Eused, Eu. done.
  - rewrite Erows. by destruct (Hrows1 colnr Hc) as [-> _].
  - intros i Hi Hne. destruct (Eother i Hne) as (E1 & E2 & E3).
    destruct (Hrows1 i Hi) as [Er _].
    assert (E : used_of b' i = used_of b i).
    { unfold used_of. by rewrite E3, Hiu1. }
    split; [exact E|]. rewrite <- Er. unfold rows_of. rewrite E1, E.
    unfold used_of. by rewrite Hiu1.
  - intros i k o L v Hi Hloc Hap.
    destruct (Hkeep1 i k o L v Hi Hloc Hap) as (Hk1 & HL & Hfit1 & Hb1).
    unfold located. split_and!; auto.
    destruct (decide (i = colnr)) as [->|Hne].
    + rewrite Eoffs.
      pose proof (lookup_lt_Some _ _ _ Hk1) as Hklt.
      unfold offs_of in Hklt. rewrite length_take in Hklt. unfold used_of in Hklt.
      rewrite Hu, Ho in Hklt. cbn [default from_option id] in Hklt.
      assert (Holen : (index <= length (offs_of b1 colnr))%nat).
      { unfold offs_of. rewrite length_take. unfold used_of. rewrite Hu, Ho.
        cbn [default from_option id]. lia. }
      destruct (decide (index + nr <= k)%nat) as [Hge|Hlt].
      * destruct (decide _) as [_|Hn]; [|by destruct Hn].
        rewrite lookup_cut_ge by lia. rewrite <- Hk1. f_equal. lia.
      * destruct (decide _) as [[_ Hn]|_]; [lia|].
        destruct (decide (k < index)%nat) as [Hki|Hki].
        { by rewrite lookup_cut_lt by lia. }
        exfalso.
        destruct (lookup_lt_is_Some_2 items (k - index)) as [[oj Lj] Hj];
          [subst nr; lia|].
        destruct (Hitems _ _ _ Hj) as (vj & (Hkj & HLj & _) & _).
        replace (index + (k - index))%nat with k in Hkj by lia.
        destruct Hloc as (Hk & _). rewrite Hk in Hkj. inversion Hkj; subst oj.
        pose proof (Hap _ _ _ Hj) as Ha. unfold apart in Ha. lia.
    + destruct (decide _) as [[Hn _]|_]; [done|].
      destruct (Eother i Hne) as (E1 & E2 & E3).
      rewrite <- Hk1. unfold offs_of, used_of. by rewrite E2, E3.
Qed.

(** The first two entries of column 1 of [example_bucket], values of 6
    bytes at offset 4 and of 5 bytes at offset 14, are taken out: the
    value of row 4, 7 bytes at offset 19, is then the first entry of the
    column, at offset 8, and the value of row 3 of column 0, at offset 10,
    is at offset 4. *)
Lemma shiftLeft_removes_witness :
  exists b',
    shiftLeft example_st example_bucket 1 0 2 0 = Some b'
    /\ bucket_ok example_st b'
    /\ dataLeng_p b' = 15
    /\ rows_of b' 1 = [4]
    /\ located b' 1 0 8 7 [0; 0; 0; 7; 68; 69; 70]
    /\ located b' 0 1 4 4 [0; 0; 0; 2].
Proof.
  destruct (shiftLeft_removes example_st example_bucket 1 0 [(4, 6); (14, 5)] 0
              example_st_ok example_bucket_ok)
    as (b' & Hs & Hok & Hd & _ & Hrows & _ & Hkeep).
  - simpl. lia.
  - vm_compute. discriminate.
  - intros [|[|j]] o L Hj; inversion Hj; subst.
    + exists [0; 0; 0; 6; 65; 66]. repeat split; try reflexivity; simpl; lia.
    + exists [0; 0; 0; 5; 67]. repeat split; try reflexivity; simpl; lia.
  - intros [|[|j]] [|[|j']] o L o' L' Hne Hj Hj'; inversion Hj; inversion Hj'; subst;
      try done; unfold apart; lia.
  - exists b'. split; [exact Hs|]. split; [exact Hok|]. split; [exact Hd|].
    split; [exact Hrows|]. split.
    + apply (Hkeep 1%nat 2%nat 19 7 [0; 0; 0; 7; 68; 69; 70]).
      * simpl. lia.
      * repeat split; try reflexivity; simpl; lia.
      * intros [|[|j]] o' L' Hj; inversion Hj; subst; unfold apart; lia.
    + apply (Hkeep 0%nat 1%nat 10 4 [0; 0; 0; 2]).
      * simpl. lia.
      * repeat split; try reflexivity; simpl; lia.
      * intros [|[|j]] o' L' Hj; inversion Hj; subst; unfold apart; lia.
Defined.

End ISMBucket.

Module StIndArray.

(** ** StIndArray.cc: arrays stored indirectly in a file *)

(** The exception of the data managers with its message; [Undefined]
    stands for a run that reads or writes outside an array or overflows a
    signed integer. *)
Inductive exn : Type :=
| DataManInternalError (msg : string)
| Undefined.

Inductive outcome (A : Type) : Type :=
| Ok (a : A)
| Throw (e : exn).

Arguments Ok {A} a.
Arguments Throw {A} e.

#[global] Instance outcome_ret : MRet outcome := fun A a => Ok a.
#[global] Instance outcome_bind : MBind outcome :=
  fun A B f m => match m with Ok a => f a | Throw e => Throw e end.

(** The values of an [IPosition] are of type [ssize_t]. *)
Definition ssize (z : Z) : outcome Z :=
  if decide (- 2^63 <= z < 2^63) then Ok z else Throw Undefined.

(** [pos(i)] for an [IPosition] *)
Definition ipos (pos : list Z) (i : nat) : outcome Z :=
  match pos !! i with Some v => Ok v | None => Throw Undefined end.

Record StIndArray : Type := mkStIndArray {
  fileOffset_p : Z;
  arrOffset_p : Z;
  shape_p : list Z
}.

(** [StIndArray::checkShape]; [IPosition::isEqual] holds for positions of
    the same length with the same values. *)
Definition checkShape (userArrayShape tableArrayShape : list Z) : outcome unit :=
  if decide (userArrayShape = tableArrayShape) then Ok ()
  else Throw (DataManInternalError "StManIndArray::get/put shapes not conforming").

(** Modelled from the spec: [ArrayPositionIterator] (casa/Arrays) is not
    part of the sources at hand. "Loop through the slice a vector at a
    time": an iterator made with [byDim = 1] goes through the positions of
    the vectors along the first axis, the second axis going fastest;
    [pos()] has 0 for the first axis. [positions] lists the positions of
    an array of the given shape, the first axis going fastest. *)
Fixpoint positions (shape : list Z) : list (list Z) :=
  match shape with
  | [] => [[]]
  | n :: shape => p ← positions shape; (fun i => i :: p) <$> seqZ 0 n
  end.

Definition iter_positions (shape : list Z) : list (list Z) :=
  (fun p => 0 :: p) <$> positions (tail shape).

(** The loop of [getSliceData] and [putSliceData] that turns the position
    of a vector in the slice into the offset in the table array:
    [for (i=ndim-1; i>0; i--)]. *)
Fixpoint offset_loop (i : nat) (blc pos inc shape : list Z) (offset : Z) : outcome Z :=
  match i with
  | O => Ok offset
  | S i' =>
      b ← ipos blc i;
      p ← ipos pos i;
      c ← ipos inc i;
      x ← ssize (p * c);
      x ← ssize (b + x);
      let offset := wrap64 (offset + x) in
      s ← ipos shape i';
      offset_loop i' blc pos inc shape (wrap64 (offset * s))
  end.

(** The offset of the vector at position [pos]. *)
Definition vector_offset (blc pos inc shape : list Z) : outcome Z :=
  offset ← offset_loop (length blc - 1) blc pos inc shape 0;
  b ← ipos blc 0;
  Ok (wrap64 (offset + b)).

Section Elements.

(** The type of the array elements: one of [Bool], [uChar], ..., [String]. *)
Context {T : Type}.

(** Modelled from the spec: [StManArrayFile] (tables/DataMan) is not part
    of the sources at hand. "Indirect Array Store": the file holds the
    elements of an array behind its shape. [ios.get (fileOffset, start,
    leng, buf)] reads the [leng] elements from element [start] on of the
    array at [fileOffset] into [buf], and [ios.put] writes them from
    [buf]. In the model [arr] are the elements of that array in the file
    and [buf] is the place [valp] of the user array [value]. *)
Definition ios_get (arr : list T) (start leng : Z) (value : list T) (valp : Z)
    : outcome (list T) :=
  if decide (0 <= start /\ 0 <= leng /\ start + leng <= Z.of_nat (length arr)
             /\ 0 <= valp /\ valp + leng <= Z.of_nat (length value))
  then Ok (take (Z.to_nat valp) value
           ++ take (Z.to_nat leng) (drop (Z.to_nat start) arr)
           ++ drop (Z.to_nat (valp + leng)) value)
  else Throw Undefined.

Definition ios_put (arr : list T) (start leng : Z) (value : list T) (valp : Z)
    : outcome (list T) :=
  if decide (0 <= start /\ 0 <= leng /\ start + leng <= Z.of_nat (length arr)
             /\ 0 <= valp /\ valp + leng <= Z.of_nat (length value))
  then Ok (take (Z.to_nat start) arr
           ++ take (Z.to_nat leng) (drop (Z.to_nat valp) value)
           ++ drop (Z.to_nat (start + leng)) arr)
  else Throw Undefined.

(** The functions [getVecBoolV], ..., [getVecStringV] made by the macro
    [STINDARRAY_GETPUT], and [getVecfloatV]: the result is the user array. *)
Fixpoint getVec_loop (n : nat) (arr : list T) (start inc valp : Z) (value : list T)
    : outcome (list T) :=
  match n with
  | O => Ok value
  | S n =>
      value ← ios_get arr start 1 value valp;
      getVec_loop n arr (wrap64 (start + inc)) inc (valp + 1) value
  end.

Definition getVec (arr : list T) (start leng inc valInx : Z) (value : list T)
    : outcome (list T) :=
  if decide (inc = 1) then ios_get arr start leng value valInx
  else getVec_loop (Z.to_nat leng) arr start inc valInx value.

(** The functions [putVecBoolV], ..., [putVecStringV]: the result is the
    array in the file. *)
Fixpoint putVec_loop (n : nat) (arr : list T) (start inc valp : Z) (value : list T)
    : outcome (list T) :=
  match n with
  | O => Ok arr
  | S n =>
      arr ← ios_put arr start 1 value valp;
      putVec_loop n arr (wrap64 (start + inc)) inc (valp + 1) value
  end.

Definition putVec (arr : list T) (start leng inc valInx : Z) (value : list T)
    : outcome (list T) :=
  if decide (inc = 1) then ios_put arr start leng value valInx
  else putVec_loop (Z.to_nat leng) arr start inc valInx value.

(** The loop of [getSliceData] over the vectors of the slice. *)
Fixpoint get_vectors (iter : list (list Z)) (arr : list T) (blc inc shape : list Z)
    (leng count : Z) (value : list T) : outcome (list T) :=
  match iter with
  | [] => Ok value
  | pos :: iter =>
      offset ← vector_offset blc pos inc shape;
      c ← ipos inc 0;
      value ← getVec arr offset leng (wrap64 c) count value;
      get_vectors iter arr blc inc shape leng (wrap64 (count + leng)) value
  end.

(** [StIndArray::getSliceData]. The slicer [ns] gives the positions [blc],
    [inc] and [shape], each of [ns.ndim()] values, by
    [inferShapeFromSource]; [arr] is the array in the file at
    [fileOffset_p + arrOffset_p]. *)
Definition getSliceData (this : StIndArray) (arr : list T) (blc inc shape : list Z)
    (value : list T) (userShape : list Z) : outcome (list T) :=
  _ ← checkShape userShape shape;
  leng ← ipos shape 0;
  let leng := wrap64 leng in
  if decide (length blc = 1%nat) then
    b ← ipos blc 0;
    c ← ipos inc 0;
    getVec arr (wrap64 b) leng (wrap64 c) 0 value
  else
    get_vectors (iter_positions shape) arr blc inc (shape_p this) leng 0 value.

(** The loop of [putSliceData]. *)
Fixpoint put_vectors (iter : list (list Z)) (arr : list T) (blc inc shape : list Z)
    (leng count : Z) (value : list T) : outcome (list T) :=
  match iter with
  | [] => Ok arr
  | pos :: iter =>
      offset ← vector_offset blc pos inc shape;
      c ← ipos inc 0;
      arr ← putVec arr offset leng (wrap64 c) count value;
      put_vectors iter arr blc inc shape leng (wrap64 (count + leng)) value
  end.

(** [StIndArray::putSliceData] *)
Definition putSliceData (this : StIndArray) (arr : list T) (blc inc shape : list Z)
    (value : list T) (userShape : list Z) : outcome (list T) :=
  _ ← checkShape userShape shape;
  leng ← ipos shape 0;
  let leng := wrap64 leng in
  if decide (length blc = 1%nat) then
    b ← ipos blc 0;
    c ← ipos inc 0;
    putVec arr (wrap64 b) leng (wrap64 c) 0 value
  else
    put_vectors (iter_positions shape) arr blc inc (shape_p this) leng 0 value.

End Elements.

(** *** Positions and offsets *)

(** The place of the element at position [pos] of an array of the given
    shape, the first axis going fastest. *)
Fixpoint lin (shape pos : list Z) : Z :=
  match shape, pos with
  | s :: shape, p :: pos => p + s * lin shape pos
  | _, _ => 0
  end.

(** A position within an array of the given shape. *)
Definition in_shape (shape pos : list Z) : Prop :=
  Forall2 (fun s p => 0 <= p < s) shape pos.

(** The number of elements of an array of the given shape. *)
Definition product (shape : list Z) : Z := foldr Z.mul 1 shape.

(** The position in the table array of the element at position [pos] of
    the slice. *)
Fixpoint src_index (blc inc pos : list Z) : list Z :=
  match blc, inc, pos with
  | b :: blc, c :: inc, p :: pos => (b + p * c) :: src_index blc inc pos
  | _, _, _ => []
  end.

(** What a slicer gives for an array of shape [shape_p]: a first position,
    a step and a number of elements for every axis that stay within the
    array; the step is a value of [ssize_t]. *)
Inductive slice_ok : list Z -> list Z -> list Z -> list Z -> Prop :=
| slice_ok_nil : slice_ok [] [] [] []
| slice_ok_cons b c s sp blc inc shape shape_p :
    0 <= b -> 1 <= c < 2^63 -> 1 <= s -> b + (s - 1) * c < sp ->
    slice_ok blc inc shape shape_p ->
    slice_ok (b :: blc) (c :: inc) (s :: shape) (sp :: shape_p).

(** *** Arithmetic of positions *)

Lemma wrap64_exact z : 0 <= z < 2^64 -> wrap64 z = z.
Proof. intros. unfold wrap64. by apply Z.mod_small. Qed.

Lemma wrap64_add_l a b : wrap64 (wrap64 a + b) = wrap64 (a + b).
Proof. unfold wrap64. by rewrite Zplus_mod_idemp_l. Qed.

Lemma wrap64_mul_l a b : wrap64 (wrap64 a * b) = wrap64 (a * b).
Proof. unfold wrap64. by rewrite Zmult_mod_idemp_l. Qed.

Lemma product_pos (shape : list Z) : Forall (fun s => 1 <= s) shape -> 1 <= product shape.
Proof.
  induction 1 as [|s shape Hs _ IH]; cbn [product foldr]; [lia|].
  fold (product shape). nia.
Qed.

Lemma in_shape_length shape pos : in_shape shape pos -> length pos = length shape.
Proof. intros H. symmetry. by eapply Forall2_length. Qed.

(** The place of a position within the array is below the number of
    elements. *)
Lemma lin_bound shape pos :
  in_shape shape pos -> 0 <= lin shape pos < product shape.
Proof.
  induction 1 as [|s p shape pos Hp _ IH]; cbn [lin product foldr]; [lia|].
  fold (product shape). nia.
Qed.

(** Different positions have different places. *)
Lemma lin_inj shape pos pos' :
  in_shape shape pos -> in_shape shape pos' ->
  lin shape pos = lin shape pos' -> pos = pos'.
Proof.
  intros H. revert pos'. induction H as [|s p shape pos Hp Hrest IH]; intros pos' H' E.
  - by inversion H'.
  - inversion H' as [|s' p' shape' pos'' Hp' Hrest']; subst. cbn [lin] in E.
    pose proof (lin_bound _ _ Hrest). pose proof (lin_bound _ _ Hrest').
    assert (lin shape pos = lin shape pos'') by nia.
    assert (p = p') by nia. subst. f_equal. by apply IH.
Qed.

Lemma slice_ok_length blc inc shape shape_p :
  slice_ok blc inc shape shape_p ->
  length inc = length blc /\ length shape = length blc /\ length shape_p = length blc.
Proof. induction 1; cbn [length]; [done|]. lia. Qed.

Lemma slice_ok_shape blc inc shape shape_p :
  slice_ok blc inc shape shape_p ->
  Forall (fun s => 1 <= s) shape /\ Forall (fun s => 1 <= s) shape_p.
Proof.
  induction 1 as [|b c s sp blc inc shape shape_p Hb Hc Hs Hsp _ [IH1 IH2]]; [done|].
  split; constructor; try done. nia.
Qed.

(** The position in the table array of a position of the slice is within
    the table array. *)
Lemma src_index_in_shape blc inc shape shape_p pos :
  slice_ok blc inc shape shape_p -> in_shape shape pos ->
  in_shape shape_p (src_index blc inc pos).
Proof.
  intros H. revert pos. induction H as [|b c s sp blc inc shape shape_p Hb Hc Hs Hsp _ IH];
    intros pos Hpos.
  - inversion Hpos. constructor.
  - inversion Hpos as [|s' p shape' pos' Hp Hrest]; subst. cbn [src_index].
    constructor; [nia|]. by apply IH.
Qed.

Lemma src_index_inj blc inc shape shape_p pos pos' :
  slice_ok blc inc shape shape_p -> in_shape shape pos -> in_shape shape pos' ->
  src_index blc inc pos = src_index blc inc pos' -> pos = pos'.
Proof.
  intros H. revert pos pos'.
  induction H as [|b c s sp blc inc shape shape_p Hb Hc Hs Hsp _ IH];
    intros pos pos' Hpos Hpos' E.
  - inversion Hpos. by inversion Hpos'.
  - inversion Hpos as [|s1 p shape1 pos1 Hp Hrest]; subst.
    inversion Hpos' as [|s2 p' shape2 pos2 Hp' Hrest']; subst.
    cbn [src_index] in E. inversion E as [[E1 E2]].
    assert (p = p') by nia. subst. f_equal. by apply IH.
Qed.

Lemma src_index_lookup blc inc pos (i : nat) b c p :
  blc !! i = Some b -> inc !! i = Some c -> pos !! i = Some p ->
  src_index blc inc pos !! i = Some (b + p * c).
Proof.
  revert inc pos i. induction blc as [|b0 blc IH]; intros inc pos i Hb Hc Hp; [done|].
  destruct inc as [|c0 inc]; [done|]. destruct pos as [|p0 pos]; [done|].
  destruct i as [|i]; cbn in *.
  - by simplify_eq.
  - by apply IH.
Qed.

(** *** The positions of the iterator *)

Lemma lookup_bind_uniform {A B} (f : A -> list B) (n : nat) (l : list A) :
  (forall a, length (f a) = n) ->
  forall q x, (l ≫= f) !! q = Some x ->
    exists (j i : nat) a, q = (j * n + i)%nat /\ (i < n)%nat
                          /\ l !! j = Some a /\ f a !! i = Some x.
Proof.
  intros Hn. induction l as [|a l IH]; intros q x Hq; [done|].
  cbn [mbind list_bind] in Hq. change (list_bind _ _ f l) with (l ≫= f) in Hq.
  destruct (decide (q < n)%nat) as [Hlt|Hge].
  - rewrite lookup_app_l in Hq by (rewrite Hn; lia).
    exists 0%nat, q, a. split_and!; done.
  - rewrite lookup_app_r in Hq by (rewrite Hn; lia). rewrite Hn in Hq.
    destruct (IH _ _ Hq) as (j & i & a' & E & Hi & Hj & Hx).
    exists (S j), i, a'. split_and!; try done. lia.
Qed.

Lemma length_bind_uniform {A B} (f : A -> list B) (n : nat) (l : list A) :
  (forall a, length (f a) = n) -> length (l ≫= f) = (length l * n)%nat.
Proof.
  intros Hn. induction l as [|a l IH]; [done|].
  cbn [mbind list_bind]. change (list_bind _ _ f l) with (l ≫= f).
  rewrite length_app, Hn, IH. cbn [length]. lia.
Qed.

Lemma lookup_bind_uniform_2 {A B} (f : A -> list B) (n : nat) (l : list A) :
  (forall a, length (f a) = n) ->
  forall (j i : nat) a x, (i < n)%nat -> l !! j = Some a -> f a !! i = Some x ->
    (l ≫= f) !! (j * n + i)%nat = Some x.
Proof.
  intros Hn. induction l as [|a0 l IH]; intros j i a x Hi Hj Hx; [done|].
  cbn [mbind list_bind]. change (list_bind _ _ f l) with (l ≫= f).
  destruct j as [|j]; cbn in Hj.
  - simplify_eq. rewrite lookup_app_l by (rewrite Hn; lia). done.
  - rewrite lookup_app_r by (rewrite Hn; lia). rewrite Hn.
    replace (S j * n + i - n)%nat with (j * n + i)%nat by lia. by eapply IH.
Qed.

(** The positions are listed in the order of their places. *)
Lemma positions_lookup shape : Forall (fun s => 0 <= s) shape ->
  forall pos, in_shape shape pos ->
    positions shape !! Z.to_nat (lin shape pos) = Some pos.
Proof.
  induction 1 as [|s shape Hs Hshape IH]; intros pos Hpos.
  - by inversion Hpos.
  - inversion Hpos as [|s' p shape' pos' Hp Hrest]; subst. cbn [positions lin].
    pose proof (lin_bound _ _ Hrest) as Hb.
    replace (Z.to_nat (p + s * lin shape pos'))
      with (Z.to_nat (lin shape pos') * Z.to_nat s + Z.to_nat p)%nat by nia.
    eapply (lookup_bind_uniform_2 _ (Z.to_nat s)).
    + intros a. by rewrite length_fmap, length_seqZ.
    + lia.
    + by apply IH.
    + rewrite list_lookup_fmap, lookup_seqZ_lt by lia. cbn. f_equal. f_equal. lia.
Qed.

Lemma positions_length shape : Forall (fun s => 0 <= s) shape ->
  Z.of_nat (length (positions shape)) = product shape.
Proof.
  induction 1 as [|s shape Hs Hshape IH]; [done|]. cbn [positions product foldr].
  fold (product shape).
  rewrite (length_bind_uniform _ (Z.to_nat s))
    by (intros a; by rewrite length_fmap, length_seqZ).
  nia.
Qed.

Lemma positions_in_shape shape : Forall (fun s => 0 <= s) shape ->
  forall (q : nat) pos, positions shape !! q = Some pos ->
    in_shape shape pos /\ lin shape pos = Z.of_nat q.
Proof.
  induction 1 as [|s shape Hs Hshape IH]; intros q pos Hq.
  - destruct q; [|done]. cbn in Hq. simplify_eq. split; [constructor|done].
  - cbn [positions] in Hq.
    apply (lookup_bind_uniform _ (Z.to_nat s)) in Hq
      as (j & i & p & -> & Hi & Hj & Hx);
      [|intros a; by rewrite length_fmap, length_seqZ].
    rewrite list_lookup_fmap, lookup_seqZ_lt in Hx by lia. cbn in Hx. simplify_eq.
    destruct (IH _ _ Hj) as [Hin Hlin]. split.
    + constructor; [lia|done].
    + cbn [lin]. rewrite Hlin. nia.
Qed.

(** *** The offset of a vector *)

Lemma slice_ok_lookup blc inc shape shape_p (i : nat) b c s sp :
  slice_ok blc inc shape shape_p ->
  blc !! i = Some b -> inc !! i = Some c -> shape !! i = Some s ->
  shape_p !! i = Some sp ->
  0 <= b /\ 1 <= c < 2^63 /\ 1 <= s /\ b + (s - 1) * c < sp.
Proof.
  intros H. revert i. induction H as [|b0 c0 s0 sp0 blc inc shape shape_p ? ? ? ? _ IH];
    intros i Hb Hc Hs Hsp; [done|].
  destruct i as [|i]; cbn in *.
  - by simplify_eq.
  - by apply (IH i).
Qed.

Lemma product_lookup_le shape (i : nat) s :
  Forall (fun s => 1 <= s) shape -> shape !! i = Some s -> s <= product shape.
Proof.
  intros H. revert i. induction H as [|s0 shape Hs0 Hshape IH]; intros i Hi; [done|].
  cbn [product foldr]. fold (product shape). pose proof (product_pos _ Hshape).
  destruct i as [|i]; cbn in Hi.
  - simplify_eq. nia.
  - pose proof (IH _ Hi). nia.
Qed.

Lemma slice_ok_product blc inc shape shape_p :
  slice_ok blc inc shape shape_p -> product shape <= product shape_p.
Proof.
  induction 1 as [|b c s sp blc inc shape shape_p Hb Hc Hs Hsp H IH]; [done|].
  cbn [product foldr]. fold (product shape) (product shape_p).
  destruct (slice_ok_shape _ _ _ _ H) as [H1 H2].
  pose proof (product_pos _ H1). pose proof (product_pos _ H2).
  assert (s <= sp) by nia. apply Z.mul_le_mono_nonneg; lia.
Qed.

Lemma lin_drop shape pos (i : nat) s p :
  shape !! i = Some s -> pos !! i = Some p ->
  lin (drop i shape) (drop i pos) = p + s * lin (drop (S i) shape) (drop (S i) pos).
Proof.
  intros Hs Hp. rewrite (drop_S _ _ _ Hs), (drop_S _ _ _ Hp). done.
Qed.

(** The loop from axis [i] down, entered with what the axes above [i]
    have given, ends with the offset of the vector apart from the first
    axis. *)
Lemma offset_loop_spec blc inc shape shape_p pos :
  slice_ok blc inc shape shape_p -> in_shape shape pos ->
  product shape_p < 2^63 ->
  forall (i : nat) si s0, shape_p !! i = Some si -> shape_p !! 0%nat = Some s0 ->
    offset_loop i blc pos inc shape_p
      (wrap64 (si * lin (drop (S i) shape_p) (drop (S i) (src_index blc inc pos))))
    = Ok (wrap64 (s0 * lin (drop 1 shape_p) (drop 1 (src_index blc inc pos)))).
Proof.
  intros Hok Hpos Hprod.
  destruct (slice_ok_length _ _ _ _ Hok) as (Hl1 & Hl2 & Hl3).
  pose proof (in_shape_length _ _ Hpos) as Hl4.
  destruct (slice_ok_shape _ _ _ _ Hok) as [_ Hsp1].
  induction i as [|i IH]; intros si s0 Hsi Hs0.
  - cbn [offset_loop]. by simplify_eq.
  - cbn [offset_loop]. pose proof (lookup_lt_Some _ _ _ Hsi) as Hlt.
    destruct (lookup_lt_is_Some_2 blc (S i)) as [b Hb]; [lia|].
    destruct (lookup_lt_is_Some_2 inc (S i)) as [c Hc]; [lia|].
    destruct (lookup_lt_is_Some_2 pos (S i)) as [p Hp]; [lia|].
    destruct (lookup_lt_is_Some_2 shape (S i)) as [s Hs]; [lia|].
    destruct (lookup_lt_is_Some_2 shape_p i) as [s' Hs']; [lia|].
    destruct (slice_ok_lookup _ _ _ _ _ _ _ _ _ Hok Hb Hc Hs Hsi) as (Hb0 & Hc1 & Hs1 & Hfit).
    pose proof (Forall2_lookup_lr _ _ _ _ _ _ Hpos Hs Hp) as Hpr. cbn beta in Hpr.
    pose proof (product_lookup_le _ _ _ Hsp1 Hsi) as Hle.
    unfold ipos. rewrite Hb, Hp, Hc, Hs'. cbn [mbind outcome_bind].
    unfold ssize. destruct (decide (- 2^63 <= p * c < 2^63)) as [_|]; [|nia].
    cbn [mbind outcome_bind].
    destruct (decide (- 2^63 <= b + p * c < 2^63)) as [_|]; [|nia].
    cbn [mbind outcome_bind].
    rewrite wrap64_add_l, wrap64_mul_l.
    rewrite <- (IH s' s0 Hs' Hs0). f_equal. f_equal.
    rewrite (lin_drop shape_p (src_index blc inc pos) (S i) si (b + p * c) Hsi
               (src_index_lookup _ _ _ _ _ _ _ Hb Hc Hp)).
    lia.
Qed.

(** The offset of the vector at a position of the iterator is the place
    of its first element in the table array. *)
Lemma vector_offset_spec blc inc shape shape_p pos :
  slice_ok blc inc shape shape_p -> in_shape shape (0 :: pos) ->
  product shape_p < 2^63 ->
  vector_offset blc (0 :: pos) inc shape_p
  = Ok (lin shape_p (src_index blc inc (0 :: pos))).
Proof.
  intros Hok Hpos Hprod.
  destruct (slice_ok_length _ _ _ _ Hok) as (Hl1 & Hl2 & Hl3).
  pose proof (in_shape_length _ _ Hpos) as Hl4. cbn [length] in Hl4.
  pose proof (lin_bound _ _ (src_index_in_shape _ _ _ _ _ Hok Hpos)) as Hbound.
  destruct blc as [|b blc]; [cbn [length] in *; lia|].
  destruct inc as [|c inc]; [done|]. destruct shape_p as [|s0 shape_p]; [done|].
  unfold vector_offset. cbn [length]. replace (S (length blc) - 1)%nat with (length blc) by lia.
  destruct (lookup_lt_is_Some_2 (s0 :: shape_p) (length blc)) as [si Hsi];
    [cbn [length] in *; lia|].
  pose proof (offset_loop_spec _ _ _ _ _ Hok Hpos Hprod (length blc) si s0 Hsi eq_refl) as E.
  rewrite drop_ge in E by (cbn [length] in *; lia).
  cbn [lin] in E. rewrite Z.mul_0_r in E. change (wrap64 0) with 0 in E. rewrite E.
  cbn [mbind outcome_bind]. unfold ipos. cbn [lookup list_lookup mbind outcome_bind].
  rewrite wrap64_add_l. cbn [src_index lin drop] in *. rewrite !drop_0.
  f_equal. rewrite <- (wrap64_exact (b + 0 * c + s0 * lin shape_p (src_index blc inc pos))) by lia.
  f_equal. lia.
Qed.

(** *** Getting a slice *)

Section Get.

Context {T : Type}.

Lemma ios_get_spec (arr : list T) (start leng : Z) (value : list T) (valp : Z) :
  0 <= start -> 0 <= leng -> start + leng <= Z.of_nat (length arr) ->
  0 <= valp -> valp + leng <= Z.of_nat (length value) ->
  exists value',
    ios_get arr start leng value valp = Ok value'
    /\ length value' = length value
    /\ forall j : nat,
         value' !! j
         = if decide (valp <= Z.of_nat j < valp + leng)
           then arr !! Z.to_nat (start + (Z.of_nat j - valp))
           else value !! j.
Proof.
  intros Hs Hl Hfit Hv Hvfit. unfold ios_get.
  destruct (decide _) as [_|]; [|lia]. eexists. split; [reflexivity|]. split.
  - rewrite !length_app, !length_take, !length_drop. lia.
  - intros j. destruct (decide (valp <= Z.of_nat j < valp + leng)) as [Hin|Hout].
    + rewrite lookup_app_r by (rewrite length_take; lia).
      rewrite length_take. rewrite lookup_app_l by (rewrite length_take, length_drop; lia).
      rewrite lookup_take_lt by lia. rewrite lookup_drop. f_equal. lia.
    + destruct (decide (Z.of_nat j < valp)).
      * rewrite lookup_app_l by (rewrite length_take; lia).
        by rewrite lookup_take_lt by lia.
      * rewrite lookup_app_r by (rewrite length_take; lia).
        rewrite lookup_app_r by (rewrite !length_take, length_drop; lia).
        rewrite !length_take, length_drop, lookup_drop. f_equal. lia.
Qed.

(** A vector is read element by element with the step [inc]. *)
Lemma getVec_loop_spec (arr : list T) (inc : Z) :
  Z.of_nat (length arr) < 2^64 ->
  forall (n : nat) (start valp : Z) (value : list T),
    (forall k : nat, (k < n)%nat ->
       0 <= start + Z.of_nat k * inc < Z.of_nat (length arr)) ->
    0 <= valp -> valp + Z.of_nat n <= Z.of_nat (length value) ->
    exists value',
      getVec_loop n arr start inc valp value = Ok value'
      /\ length value' = length value
      /\ forall j : nat,
           value' !! j
           = if decide (valp <= Z.of_nat j < valp + Z.of_nat n)
             then arr !! Z.to_nat (start + (Z.of_nat j - valp) * inc)
             else value !! j.
Proof.
  intros Harr. induction n as [|n IH]; intros start valp value Hin Hv Hfit.
  - exists value. split; [done|]. split; [done|]. intros j.
    destruct (decide _); [lia|done].
  - cbn [getVec_loop]. pose proof (Hin 0%nat ltac:(lia)) as H0.
    destruct (ios_get_spec arr start 1 value valp) as (v1 & -> & Hl1 & Hv1); try lia.
    cbn [mbind outcome_bind].
    assert (Hnext : exists value',
              getVec_loop n arr (wrap64 (start + inc)) inc (valp + 1) v1 = Ok value'
              /\ length value' = length v1
              /\ forall j : nat,
                   value' !! j
                   = if decide (valp + 1 <= Z.of_nat j < valp + 1 + Z.of_nat n)
                     then arr !! Z.to_nat (start + inc + (Z.of_nat j - (valp + 1)) * inc)
                     else v1 !! j).
    { destruct n as [|n].
      - exists v1. split; [done|]. split; [done|]. intros j.
        destruct (decide _); [lia|done].
      - pose proof (Hin 1%nat ltac:(lia)) as H1.
        rewrite wrap64_exact by lia. apply IH; [|lia|lia].
        intros k Hk. pose proof (Hin (S k) ltac:(lia)). lia. }
    destruct Hnext as (value' & -> & Hl' & Hv'). exists value'.
    split; [done|]. split; [lia|]. intros j. rewrite Hv', Hv1.
    destruct (decide (valp + 1 <= Z.of_nat j < valp + 1 + Z.of_nat n)).
    + destruct (decide (valp <= Z.of_nat j < valp + Z.of_nat (S n))); [|lia].
      do 2 f_equal. ring.
    + destruct (decide (valp <= Z.of_nat j < valp + 1)).
      * destruct (decide (valp <= Z.of_nat j < valp + Z.of_nat (S n))); [|lia].
        do 2 f_equal. replace (Z.of_nat j - valp) with 0 by lia. ring.
      * destruct (decide (valp <= Z.of_nat j < valp + Z.of_nat (S n))); [lia|done].
Qed.

Lemma getVec_spec (arr : list T) (start leng inc valInx : Z) (value : list T) :
  Z.of_nat (length arr) < 2^64 -> 1 <= leng ->
  (forall k : nat, Z.of_nat k < leng ->
     0 <= start + Z.of_nat k * inc < Z.of_nat (length arr)) ->
  0 <= valInx -> valInx + leng <= Z.of_nat (length value) ->
  exists value',
    getVec arr start leng inc valInx value = Ok value'
    /\ length value' = length value
    /\ forall j : nat,
         value' !! j
         = if decide (valInx <= Z.of_nat j < valInx + leng)
           then arr !! Z.to_nat (start + (Z.of_nat j - valInx) * inc)
           else value !! j.
Proof.
  intros Harr Hl Hin Hv Hfit. unfold getVec. destruct (decide (inc = 1)) as [->|Hne].
  - pose proof (Hin 0%nat ltac:(lia)). pose proof (Hin (Z.to_nat (leng - 1)) ltac:(lia)).
    destruct (ios_get_spec arr start leng value valInx) as (v & -> & Hlv & Hvl); try lia.
    exists v. split; [done|]. split; [done|]. intros j. rewrite Hvl.
    destruct (decide _); [|done]. do 2 f_equal. ring.
  - destruct (getVec_loop_spec arr inc Harr (Z.to_nat leng) start valInx value)
      as (v & -> & Hlv & Hvl); try lia.
    { intros k Hk. apply Hin. lia. }
    exists v. split; [done|]. split; [done|]. intros j. rewrite Hvl.
    rewrite Z2Nat.id by lia. done.
Qed.

(** The place in the table array of element [k] of the vector at position
    [0 :: pos] of the slice. *)
Lemma lin_vector blc inc shape shape_p c0 pos (k : Z) :
  slice_ok blc inc shape shape_p -> inc !! 0%nat = Some c0 ->
  lin shape_p (src_index blc inc (0 :: pos)) + k * c0
  = lin shape_p (src_index blc inc (k :: pos)).
Proof.
  intros Hok Hc. destruct Hok; [done|]. cbn in Hc. simplify_eq. cbn [src_index lin]. ring.
Qed.

Lemma in_shape_vector shape pos (k : Z) s0 :
  shape !! 0%nat = Some s0 -> in_shape shape (0 :: pos) -> 0 <= k < s0 ->
  in_shape shape (k :: pos).
Proof.
  intros Hs H Hk. inversion H; subst. cbn in Hs. simplify_eq. by constructor.
Qed.

(** The loop over the vectors: vector [m] of the iterator is put at place
    [count + m * leng] of the user array. *)
Lemma get_vectors_spec (arr : list T) blc inc shape shape_p c0 leng :
  slice_ok blc inc shape shape_p -> product shape_p < 2^63 ->
  Z.of_nat (length arr) = product shape_p ->
  inc !! 0%nat = Some c0 -> shape !! 0%nat = Some leng ->
  forall (iter : list (list Z)) (count : Z) (value : list T),
    Forall (fun pos => exists ptl, pos = 0 :: ptl /\ in_shape shape pos) iter ->
    0 <= count -> count + Z.of_nat (length iter) * leng <= Z.of_nat (length value) ->
    Z.of_nat (length value) < 2^64 ->
    exists value',
      get_vectors iter arr blc inc shape_p leng count value = Ok value'
      /\ length value' = length value
      /\ (forall (m : nat) ptl (k : nat), iter !! m = Some (0 :: ptl) ->
            Z.of_nat k < leng ->
            value' !! Z.to_nat (count + Z.of_nat m * leng + Z.of_nat k)
            = arr !! Z.to_nat (lin shape_p (src_index blc inc (Z.of_nat k :: ptl))))
      /\ forall j : nat, Z.of_nat j < count -> value' !! j = value !! j.
Proof.
  intros Hok Hprod Harr Hc0 Hleng.
  assert (Hc : 1 <= c0 < 2^63).
  { destruct Hok; [done|]. cbn in Hc0. by simplify_eq. }
  assert (Hl1 : 1 <= leng).
  { destruct Hok; [done|]. cbn in Hleng. by simplify_eq. }
  induction iter as [|pos iter IH]; intros count value Hiter Hcount Hfit Hval.
  - exists value. split; [done|]. split; [done|]. split; [|done]. intros m ptl k Hm. done.
  - apply Forall_cons in Hiter as [(ptl & -> & Hpos) Hiter]. cbn [length] in Hfit.
    cbn [get_vectors]. rewrite (vector_offset_spec _ _ _ _ _ Hok Hpos Hprod).
    cbn [mbind outcome_bind]. unfold ipos. rewrite Hc0. cbn [mbind outcome_bind].
    rewrite (wrap64_exact c0) by lia.
    assert (Hin : forall k : nat, Z.of_nat k < leng ->
              0 <= lin shape_p (src_index blc inc (0 :: ptl)) + Z.of_nat k * c0
              < Z.of_nat (length arr)).
    { intros k Hk. rewrite (lin_vector _ _ _ _ _ _ _ Hok Hc0), Harr.
      apply lin_bound. apply (src_index_in_shape _ _ _ _ _ Hok).
      apply (in_shape_vector _ _ _ _ Hleng Hpos). lia. }
    destruct (getVec_spec arr (lin shape_p (src_index blc inc (0 :: ptl))) leng c0 count value)
      as (v1 & -> & Hl1' & Hv1); try done; try lia; try nia.
    cbn [mbind outcome_bind]. rewrite wrap64_exact by nia.
    destruct (IH (count + leng) v1 Hiter) as (value' & -> & Hl' & Hread & Hkeep);
      try lia; try nia.
    exists value'. split; [done|]. split; [lia|]. split.
    + intros m ptl' k Hm Hk. destruct m as [|m]; cbn in Hm.
      * simplify_eq. rewrite <- (lin_vector _ _ _ _ _ ptl' (Z.of_nat k) Hok Hc0).
        rewrite Hkeep by lia. rewrite Hv1.
        destruct (decide _); [|lia].
        replace (Z.of_nat (Z.to_nat (count + Z.of_nat 0 * leng + Z.of_nat k)) - count)
          with (Z.of_nat k) by lia.
        done.
      * rewrite <- (Hread m ptl' k Hm Hk). do 2 f_equal.
        rewrite Nat2Z.inj_succ. ring.
    + intros j Hj. rewrite Hkeep by lia. rewrite Hv1. destruct (decide _); [lia|done].
Qed.

End Get.

Lemma iter_positions_spec s0 shape :
  1 <= s0 -> Forall (fun s => 1 <= s) shape ->
  Forall (fun pos => exists ptl, pos = 0 :: ptl /\ in_shape (s0 :: shape) pos)
         (iter_positions (s0 :: shape))
  /\ Z.of_nat (length (iter_positions (s0 :: shape))) = product shape
  /\ forall ptl, in_shape shape ptl ->
       iter_positions (s0 :: shape) !! Z.to_nat (lin shape ptl) = Some (0 :: ptl).
Proof.
  intros Hs0 Hshape. unfold iter_positions. cbn [tail].
  assert (H0 : Forall (fun s => 0 <= s) shape).
  { eapply Forall_impl; [exact Hshape|]. intros s Hs. cbn beta in *. lia. }
  split; [|split].
  - apply Forall_fmap, Forall_forall. intros ptl Hptl. cbn.
    apply list_elem_of_lookup in Hptl as [q Hq].
    destruct (positions_in_shape _ H0 _ _ Hq) as [Hin _].
    exists ptl. split; [done|]. constructor; [lia|done].
  - rewrite length_fmap. by apply positions_length.
  - intros ptl Hptl. rewrite list_lookup_fmap, (positions_lookup _ H0 _ Hptl). done.
Qed.

(** The user array after [getSliceData] with a user array of the shape of
    the slice. *)
Lemma getSliceData_spec {T : Type} (this : StIndArray) (arr value : list T)
    (blc inc shape : list Z) :
  slice_ok blc inc shape (shape_p this) -> blc <> [] ->
  product (shape_p this) < 2^63 ->
  Z.of_nat (length arr) = product (shape_p this) ->
  Z.of_nat (length value) = product shape ->
  exists value',
    getSliceData this arr blc inc shape value shape = Ok value'
    /\ length value' = length value
    /\ forall pos, in_shape shape pos ->
         value' !! Z.to_nat (lin shape pos)
         = arr !! Z.to_nat (lin (shape_p this) (src_index blc inc pos)).
Proof.
  intros Hok Hne Hprod Harr Hval. unfold getSliceData, checkShape.
  destruct (decide (shape = shape)) as [_|]; [|done]. cbn [mbind outcome_bind].
  pose proof (slice_ok_product _ _ _ _ Hok) as Hple.
  destruct (slice_ok_shape _ _ _ _ Hok) as [Hs1 Hsp1].
  pose proof Hok as Hok'.
  destruct Hok' as [|b c s sp blc inc shape shape_p' Hb Hc Hs Hsp Hrest]; [done|].
  pose proof (product_lookup_le (sp :: shape_p') 0 sp Hsp1 eq_refl) as Hsple.
  unfold ipos. cbn [lookup list_lookup mbind outcome_bind length].
  assert (Hsle : s <= sp) by nia.
  rewrite (wrap64_exact s) by lia.
  destruct (decide (S (length blc) = 1%nat)) as [Hone|Hmore].
  + destruct blc; [|done]. inversion Hrest; subst.
    rewrite (wrap64_exact b), (wrap64_exact c) by lia.
    cbn [product foldr] in Harr, Hval.
    destruct (getVec_spec arr b s c 0 value) as (value' & -> & Hl & Hv); try lia.
    { intros k Hk. nia. }
    exists value'. split; [done|]. split; [done|]. intros pos Hpos.
    inversion Hpos as [|s' k shape' ptl Hk Hptl]; subst. inversion Hptl; subst.
    cbn [lin src_index]. rewrite Hv. destruct (decide _); [|lia].
    do 2 f_equal. rewrite Z2Nat.id by lia. ring.
  + inversion Hs1 as [|s' shape' _ Hs1']; subst.
    destruct (iter_positions_spec s shape Hs Hs1') as (Hiter & Hlen & Hlook).
    change (product (s :: shape)) with (s * product shape) in Hval, Hple.
    destruct (get_vectors_spec arr (b :: blc) (c :: inc) (s :: shape) _
                c s Hok Hprod Harr eq_refl eq_refl (iter_positions (s :: shape)) 0 value
                Hiter)
      as (value' & Hget & Hl & Hread & _); try lia; try nia.
    exists value'. split; [exact Hget|]. split; [done|]. intros pos Hpos.
    inversion Hpos as [|s' k shape' ptl Hk Hptl]; subst.
    pose proof (lin_bound _ _ Hptl) as Hb'.
    rewrite <- (Z2Nat.id k) by lia.
    rewrite <- (Hread (Z.to_nat (lin shape ptl)) ptl (Z.to_nat k) (Hlook ptl Hptl))
      by lia.
    f_equal. cbn [lin]. rewrite !Z2Nat.id by lia. f_equal. ring.
Qed.

(** X14: [StIndArray::getSliceData] gets a slice of the array in the file
    into the user array. For a slice within the table array (first
    position [blc], step [inc] and number of elements [shape] on every
    axis) the element at every position of the user array is the element
    of the table array at position [blc + pos * inc]: the offset computed
    for each vector, the step along the first axis and the running count
    in the user array address the right elements, for one axis and for
    more. A user array of another shape than the slice is refused with a
    [DataManInternalError]. *)
Theorem getSliceData_reads {T : Type} (this : StIndArray) (arr value : list T)
    (blc inc shape userShape : list Z) :
  slice_ok blc inc shape (shape_p this) -> blc <> [] ->
  product (shape_p this) < 2^63 ->
  Z.of_nat (length arr) = product (shape_p this) ->
  Z.of_nat (length value) = product shape ->
  (userShape <> shape ->
   getSliceData this arr blc inc shape value userShape
   = Throw (DataManInternalError "StManIndArray::get/put shapes not conforming"))
  /\ (userShape = shape ->
      exists value',
        getSliceData this arr blc inc shape value userShape = Ok value'
        /\ length value' = length value
        /\ forall pos, in_shape shape pos ->
             value' !! Z.to_nat (lin shape pos)
             = arr !! Z.to_nat (lin (shape_p this) (src_index blc inc pos))).
Proof.
  intros Hok Hne Hprod Harr Hval. split.
  - intros Hshape. unfold getSliceData, checkShape.
    destruct (decide (userShape = shape)); [contradiction|done].
  - intros ->. by apply getSliceData_spec.
Qed.

(** The elements in rows 1 and 3 of an array of 4 by 3 numbers. *)
Lemma getSliceData_reads_witness :
  slice_ok [1; 0] [2; 1] [2; 3] [4; 3]
  /\ getSliceData (mkStIndArray 0 8 [4; 3]) (seqZ 0 12) [1; 0] [2; 1] [2; 3]
       (replicate 6 0) [2; 3]
     = Ok [1; 3; 5; 7; 9; 11]
  /\ exists value',
       getSliceData (mkStIndArray 0 8 [4; 3]) (seqZ 0 12) [1; 0] [2; 1] [2; 3]
         (replicate 6 0) [2; 3] = Ok value'
       /\ value' !! 3%nat = Some 7.
Proof.
  assert (Hok : slice_ok [1; 0] [2; 1] [2; 3] [4; 3]).
  { repeat constructor; lia. }
  split; [exact Hok|]. split; [reflexivity|].
  destruct (getSliceData_reads (mkStIndArray 0 8 [4; 3]) (seqZ 0 12) (replicate 6 0)
              [1; 0] [2; 1] [2; 3] [2; 3] Hok) as [_ Hget].
  - done.
  - simpl. lia.
  - reflexivity.
  - reflexivity.
  - destruct (Hget eq_refl) as (value' & Hv & _ & Hpos). exists value'.
    split; [exact Hv|]. apply (Hpos [1; 1]). repeat constructor; lia.
Defined.

(** *** Putting a slice *)

Section Put.

Context {T : Type}.

Lemma ios_put_spec (arr : list T) (start leng : Z) (value : list T) (valp : Z) :
  0 <= start -> 0 <= leng -> start + leng <= Z.of_nat (length arr) ->
  0 <= valp -> valp + leng <= Z.of_nat (length value) ->
  exists arr',
    ios_put arr start leng value valp = Ok arr'
    /\ length arr' = length arr
    /\ forall j : nat,
         arr' !! j
         = if decide (start <= Z.of_nat j < start + leng)
           then value !! Z.to_nat (valp + (Z.of_nat j - start))
           else arr !! j.
Proof.
  intros Hs Hl Hfit Hv Hvfit. unfold ios_put.
  destruct (decide _) as [_|]; [|lia]. eexists. split; [reflexivity|]. split.
  - rewrite !length_app, !length_take, !length_drop. lia.
  - intros j. destruct (decide (start <= Z.of_nat j < start + leng)) as [Hin|Hout].
    + rewrite lookup_app_r by (rewrite length_take; lia).
      rewrite length_take. rewrite lookup_app_l by (rewrite length_take, length_drop; lia).
      rewrite lookup_take_lt by lia. rewrite lookup_drop. f_equal. lia.
    + destruct (decide (Z.of_nat j < start)).
      * rewrite lookup_app_l by (rewrite length_take; lia).
        by rewrite lookup_take_lt by lia.
      * rewrite lookup_app_r by (rewrite length_take; lia).
        rewrite lookup_app_r by (rewrite !length_take, length_drop; lia).
        rewrite !length_take, length_drop, lookup_drop. f_equal. lia.
Qed.

(** A vector is written element by element with the step [inc]. *)
Lemma putVec_loop_spec (value : list T) (inc : Z) : 1 <= inc ->
  forall (n : nat) (arr : list T) (start valp : Z),
    Z.of_nat (length arr) < 2^64 ->
    (forall k : nat, (k < n)%nat ->
       0 <= start + Z.of_nat k * inc < Z.of_nat (length arr)) ->
    0 <= valp -> valp + Z.of_nat n <= Z.of_nat (length value) ->
    exists arr',
      putVec_loop n arr start inc valp value = Ok arr'
      /\ length arr' = length arr
      /\ (forall k : nat, (k < n)%nat ->
            arr' !! Z.to_nat (start + Z.of_nat k * inc)
            = value !! Z.to_nat (valp + Z.of_nat k))
      /\ forall j : nat,
           (forall k : nat, (k < n)%nat -> Z.of_nat j <> start + Z.of_nat k * inc) ->
           arr' !! j = arr !! j.
Proof.
  intros Hinc. induction n as [|n IH]; intros arr start valp Harr Hin Hv Hfit.
  - exists arr. split; [done|]. split; [done|]. split; [|done]. intros k Hk. lia.
  - cbn [putVec_loop]. pose proof (Hin 0%nat ltac:(lia)) as H0.
    destruct (ios_put_spec arr start 1 value valp) as (a1 & -> & Hl1 & Ha1); try lia.
    cbn [mbind outcome_bind].
    assert (Hnext : exists arr',
              putVec_loop n a1 (wrap64 (start + inc)) inc (valp + 1) value = Ok arr'
              /\ length arr' = length a1
              /\ (forall k : nat, (k < n)%nat ->
                    arr' !! Z.to_nat (start + inc + Z.of_nat k * inc)
                    = value !! Z.to_nat (valp + 1 + Z.of_nat k))
              /\ forall j : nat,
                   (forall k : nat, (k < n)%nat ->
                      Z.of_nat j <> start + inc + Z.of_nat k * inc) ->
                   arr' !! j = a1 !! j).
    { destruct n as [|n].
      - exists a1. split; [done|]. split; [done|]. split; [|done]. intros k Hk. lia.
      - pose proof (Hin 1%nat ltac:(lia)) as H1.
        rewrite wrap64_exact by lia. apply IH; [lia| |lia|lia].
        intros k Hk. pose proof (Hin (S k) ltac:(lia)). lia. }
    destruct Hnext as (arr' & -> & Hl' & Hw & Hkeep). exists arr'.
    split; [done|]. split; [lia|]. split.
    + intros k Hk. destruct k as [|k].
      * rewrite Hkeep by (intros k Hk'; nia). rewrite Ha1.
        destruct (decide _); [|lia]. f_equal. lia.
      * replace (start + Z.of_nat (S k) * inc) with (start + inc + Z.of_nat k * inc)
          by (rewrite Nat2Z.inj_succ; ring).
        replace (valp + Z.of_nat (S k)) with (valp + 1 + Z.of_nat k) by lia.
        apply Hw. lia.
    + intros j Hj. rewrite Hkeep.
      * rewrite Ha1. destruct (decide _) as [Hd|]; [|done].
        pose proof (Hj 0%nat ltac:(lia)). lia.
      * intros k Hk. pose proof (Hj (S k) ltac:(lia)). lia.
Qed.

Lemma putVec_spec (arr : list T) (start leng inc valInx : Z) (value : list T) :
  Z.of_nat (length arr) < 2^64 -> 1 <= leng -> 1 <= inc ->
  (forall k : nat, Z.of_nat k < leng ->
     0 <= start + Z.of_nat k * inc < Z.of_nat (length arr)) ->
  0 <= valInx -> valInx + leng <= Z.of_nat (length value) ->
  exists arr',
    putVec arr start leng inc valInx value = Ok arr'
    /\ length arr' = length arr
    /\ (forall k : nat, Z.of_nat k < leng ->
          arr' !! Z.to_nat (start + Z.of_nat k * inc)
          = value !! Z.to_nat (valInx + Z.of_nat k))
    /\ forall j : nat,
         (forall k : nat, Z.of_nat k < leng -> Z.of_nat j <> start + Z.of_nat k * inc) ->
         arr' !! j = arr !! j.
Proof.
  intros Harr Hl Hinc Hin Hv Hfit. unfold putVec. destruct (decide (inc = 1)) as [->|Hne].
  - pose proof (Hin 0%nat ltac:(lia)). pose proof (Hin (Z.to_nat (leng - 1)) ltac:(lia)).
    destruct (ios_put_spec arr start leng value valInx) as (a & -> & Hla & Hal); try lia.
    exists a. split; [done|]. split; [done|]. split.
    + intros k Hk. rewrite Hal. destruct (decide _); [|lia]. f_equal. lia.
    + intros j Hj. rewrite Hal. destruct (decide _) as [Hd|]; [|done].
      pose proof (Hj (Z.to_nat (Z.of_nat j - start)) ltac:(lia)). lia.
  - destruct (putVec_loop_spec value inc Hinc (Z.to_nat leng) arr start valInx Harr)
      as (a & -> & Hla & Hw & Hkeep); try lia.
    { intros k Hk. apply Hin. lia. }
    exists a. split; [done|]. split; [done|]. split.
    + intros k Hk. apply Hw. lia.
    + intros j Hj. apply Hkeep. intros k Hk. apply Hj. lia.
Qed.

(** The loop over the vectors: vector [m] of the iterator is taken from
    place [count + m * leng] of the user array. *)
Lemma put_vectors_spec (value : list T) blc inc shape shape_p c0 leng :
  slice_ok blc inc shape shape_p -> product shape_p < 2^63 ->
  inc !! 0%nat = Some c0 -> shape !! 0%nat = Some leng ->
  Z.of_nat (length value) < 2^64 ->
  forall (iter : list (list Z)) (count : Z) (arr : list T),
    Forall (fun pos => exists ptl, pos = 0 :: ptl /\ in_shape shape pos) iter ->
    NoDup iter ->
    Z.of_nat (length arr) = product shape_p ->
    0 <= count -> count + Z.of_nat (length iter) * leng <= Z.of_nat (length value) ->
    exists arr',
      put_vectors iter arr blc inc shape_p leng count value = Ok arr'
      /\ length arr' = length arr
      /\ (forall (m : nat) ptl (k : nat), iter !! m = Some (0 :: ptl) ->
            Z.of_nat k < leng ->
            arr' !! Z.to_nat (lin shape_p (src_index blc inc (Z.of_nat k :: ptl)))
            = value !! Z.to_nat (count + Z.of_nat m * leng + Z.of_nat k))
      /\ forall j : nat,
           (forall ptl (k : nat), 0 :: ptl ∈ iter -> Z.of_nat k < leng ->
              Z.of_nat j <> lin shape_p (src_index blc inc (Z.of_nat k :: ptl))) ->
           arr' !! j = arr !! j.
Proof.
  intros Hok Hprod Hc0 Hleng Hval.
  assert (Hc : 1 <= c0 < 2^63).
  { destruct Hok; [done|]. cbn in Hc0. by simplify_eq. }
  assert (Hl1 : 1 <= leng).
  { destruct Hok; [done|]. cbn in Hleng. by simplify_eq. }
  induction iter as [|pos iter IH]; intros count arr Hiter Hnd Harr Hcount Hfit.
  - exists arr. split; [done|]. split; [done|]. split; [|done]. intros m ptl k Hm. done.
  - apply Forall_cons in Hiter as [(ptl & -> & Hpos) Hiter]. cbn [length] in Hfit.
    apply NoDup_cons in Hnd as [Hnotin Hnd].
    cbn [put_vectors]. rewrite (vector_offset_spec _ _ _ _ _ Hok Hpos Hprod).
    cbn [mbind outcome_bind]. unfold ipos. rewrite Hc0. cbn [mbind outcome_bind].
    rewrite (wrap64_exact c0) by lia.
    assert (Hin : forall k : nat, Z.of_nat k < leng ->
              0 <= lin shape_p (src_index blc inc (0 :: ptl)) + Z.of_nat k * c0
              < Z.of_nat (length arr)).
    { intros k Hk. rewrite (lin_vector _ _ _ _ _ _ _ Hok Hc0), Harr.
      apply lin_bound. apply (src_index_in_shape _ _ _ _ _ Hok).
      apply (in_shape_vector _ _ _ _ Hleng Hpos). lia. }
    destruct (putVec_spec arr (lin shape_p (src_index blc inc (0 :: ptl))) leng c0 count value)
      as (a1 & -> & Hl1' & Hw1 & Hk1); try done; try lia; try nia.
    cbn [mbind outcome_bind]. rewrite wrap64_exact by nia.
    destruct (IH (count + leng) a1 Hiter Hnd) as (arr' & -> & Hl' & Hwrite & Hkeep);
      try lia; try nia.
    exists arr'. split; [done|]. split; [lia|]. split.
    + intros m ptl' k Hm Hk. destruct m as [|m]; cbn in Hm.
      * simplify_eq. rewrite Hkeep.
        -- rewrite <- (lin_vector _ _ _ _ _ ptl' (Z.of_nat k) Hok Hc0).
           rewrite Hw1 by done. f_equal. lia.
        -- intros ptl k' Hptl Hk' E.
           pose proof (lin_bound _ _ (src_index_in_shape _ _ _ _ _ Hok
                         (in_shape_vector _ _ (Z.of_nat k) _ Hleng Hpos ltac:(lia)))) as Hb.
           rewrite Z2Nat.id in E by lia.
           assert (Hpos' : in_shape shape (0 :: ptl)).
           { rewrite Forall_forall in Hiter. destruct (Hiter _ Hptl) as (? & ? & ?).
             by simplify_eq. }
           apply lin_inj in E;
             [|apply (src_index_in_shape _ _ _ _ _ Hok);
               apply (in_shape_vector _ _ _ _ Hleng Hpos); lia
              |apply (src_index_in_shape _ _ _ _ _ Hok);
               apply (in_shape_vector _ _ _ _ Hleng Hpos'); lia].
           apply (src_index_inj _ _ _ _ _ _ Hok) in E;
             [|apply (in_shape_vector _ _ _ _ Hleng Hpos); lia
              |apply (in_shape_vector _ _ _ _ Hleng Hpos'); lia].
           simplify_eq. done.
      * rewrite (Hwrite m ptl' k Hm Hk). do 2 f_equal.
        rewrite Nat2Z.inj_succ. ring.
    + intros j Hj. rewrite Hkeep.
      * apply Hk1. intros k Hk. rewrite (lin_vector _ _ _ _ _ _ _ Hok Hc0).
        apply Hj; [left|done].
      * intros ptl' k Hptl Hk. apply Hj; [by right|done].
Qed.

End Put.

Lemma iter_positions_NoDup s0 shape :
  Forall (fun s => 1 <= s) shape -> NoDup (iter_positions (s0 :: shape)).
Proof.
  intros Hshape. unfold iter_positions. cbn [tail].
  assert (H0 : Forall (fun s => 0 <= s) shape).
  { eapply Forall_impl; [exact Hshape|]. intros s Hs. cbn beta in *. lia. }
  apply NoDup_fmap_2; [intros p q E; by simplify_eq|].
  apply NoDup_alt. intros i j p Hi Hj.
  destruct (positions_in_shape _ H0 _ _ Hi) as [_ Ei].
  destruct (positions_in_shape _ H0 _ _ Hj) as [_ Ej]. lia.
Qed.

(** The array in the file after [putSliceData] with a user array of the
    shape of the slice. *)
Lemma putSliceData_spec {T : Type} (this : StIndArray) (arr value : list T)
    (blc inc shape : list Z) :
  slice_ok blc inc shape (shape_p this) -> blc <> [] ->
  product (shape_p this) < 2^63 ->
  Z.of_nat (length arr) = product (shape_p this) ->
  Z.of_nat (length value) = product shape ->
  exists arr',
    putSliceData this arr blc inc shape value shape = Ok arr'
    /\ length arr' = length arr
    /\ (forall pos, in_shape shape pos ->
          arr' !! Z.to_nat (lin (shape_p this) (src_index blc inc pos))
          = value !! Z.to_nat (lin shape pos))
    /\ forall j : nat,
         (forall pos, in_shape shape pos ->
            Z.of_nat j <> lin (shape_p this) (src_index blc inc pos)) ->
         arr' !! j = arr !! j.
Proof.
  intros Hok Hne Hprod Harr Hval. unfold putSliceData, checkShape.
  destruct (decide (shape = shape)) as [_|]; [|done]. cbn [mbind outcome_bind].
  pose proof (slice_ok_product _ _ _ _ Hok) as Hple.
  destruct (slice_ok_shape _ _ _ _ Hok) as [Hs1 Hsp1].
  pose proof Hok as Hok'.
  destruct Hok' as [|b c s sp blc inc shape shape_p' Hb Hc Hs Hsp Hrest]; [done|].
  pose proof (product_lookup_le (sp :: shape_p') 0 sp Hsp1 eq_refl) as Hsple.
  unfold ipos. cbn [lookup list_lookup mbind outcome_bind length].
  assert (Hsle : s <= sp) by nia.
  rewrite (wrap64_exact s) by lia.
  destruct (decide (S (length blc) = 1%nat)) as [Hone|Hmore].
  - destruct blc; [|done]. inversion Hrest; subst.
    rewrite (wrap64_exact b), (wrap64_exact c) by lia.
    cbn [product foldr] in Harr, Hval.
    destruct (putVec_spec arr b s c 0 value) as (arr' & -> & Hl & Hw & Hkeep); try lia.
    { intros k Hk. nia. }
    exists arr'. split; [done|]. split; [done|]. split.
    + intros pos Hpos.
      inversion Hpos as [|s' k shape' ptl Hk Hptl]; subst. inversion Hptl; subst.
      cbn [lin src_index].
      etrans; [|etrans; [apply (Hw (Z.to_nat k)); lia|]];
        do 2 f_equal; rewrite Z2Nat.id by lia; ring.
    + intros j Hj. apply Hkeep. intros k Hk E.
      apply (Hj [Z.of_nat k]); [repeat constructor; lia|].
      cbn [lin src_index]. rewrite E. ring.
  - inversion Hs1 as [|s' shape' _ Hs1']; subst.
    destruct (iter_positions_spec s shape Hs Hs1') as (Hiter & Hlen & Hlook).
    change (product (s :: shape)) with (s * product shape) in Hval, Hple.
    destruct (put_vectors_spec value (b :: blc) (c :: inc) (s :: shape) _
                c s Hok Hprod eq_refl eq_refl ltac:(lia) (iter_positions (s :: shape)) 0 arr
                Hiter (iter_positions_NoDup s shape Hs1') Harr)
      as (arr' & Hput & Hl & Hwrite & Hkeep); try lia; try nia.
    exists arr'. split; [exact Hput|]. split; [done|]. split.
    + intros pos Hpos.
      inversion Hpos as [|s' k shape' ptl Hk Hptl]; subst.
      pose proof (lin_bound _ _ Hptl) as Hb'.
      etrans; [|etrans; [apply (Hwrite (Z.to_nat (lin shape ptl)) ptl (Z.to_nat k)
                                  (Hlook ptl Hptl)); lia|]].
      * by rewrite Z2Nat.id by lia.
      * f_equal. cbn [lin]. rewrite !Z2Nat.id by lia. f_equal. ring.
    + intros j Hj. apply Hkeep. intros ptl k Hptl Hk.
      rewrite Forall_forall in Hiter. destruct (Hiter _ Hptl) as (ptl' & E & Hin).
      simplify_eq. apply Hj. apply (in_shape_vector (s :: shape) _ _ s eq_refl Hin). lia.
Qed.

(** Every place of an array is the place of a position. *)
Lemma lin_position shape (j : nat) :
  Forall (fun s => 1 <= s) shape -> Z.of_nat j < product shape ->
  exists pos, in_shape shape pos /\ lin shape pos = Z.of_nat j.
Proof.
  intros Hshape Hj.
  assert (H0 : Forall (fun s => 0 <= s) shape).
  { eapply Forall_impl; [exact Hshape|]. intros s Hs. cbn beta in *. lia. }
  destruct (lookup_lt_is_Some_2 (positions shape) j) as [pos Hpos].
  { pose proof (positions_length _ H0). lia. }
  exists pos. by apply (positions_in_shape _ H0).
Qed.

(** X15: [StIndArray::putSliceData] puts the user array into a slice of
    the array in the file. For a slice within the table array the element
    at every position of the user array becomes the element of the table
    array at position [blc + pos * inc], all other elements of the table
    array stay as they are, and getting the same slice afterwards with
    [getSliceData] gives the user array that was put. A user array of
    another shape than the slice is refused with a
    [DataManInternalError]. *)
Theorem putSliceData_writes {T : Type} (this : StIndArray) (arr value : list T)
    (blc inc shape userShape : list Z) :
  slice_ok blc inc shape (shape_p this) -> blc <> [] ->
  product (shape_p this) < 2^63 ->
  Z.of_nat (length arr) = product (shape_p this) ->
  Z.of_nat (length value) = product shape ->
  (userShape <> shape ->
   putSliceData this arr blc inc shape value userShape
   = Throw (DataManInternalError "StManIndArray::get/put shapes not conforming"))
  /\ (userShape = shape ->
      exists arr',
        putSliceData this arr blc inc shape value userShape = Ok arr'
        /\ length arr' = length arr
        /\ (forall pos, in_shape shape pos ->
              arr' !! Z.to_nat (lin (shape_p this) (src_index blc inc pos))
              = value !! Z.to_nat (lin shape pos))
        /\ (forall j : nat,
              (forall pos, in_shape shape pos ->
                 Z.of_nat j <> lin (shape_p this) (src_index blc inc pos)) ->
              arr' !! j = arr !! j)
        /\ forall value0 : list T, length value0 = length value ->
             getSliceData this arr' blc inc shape value0 userShape = Ok value).
Proof.
  intros Hok Hne Hprod Harr Hval. split.
  - intros Hshape. unfold putSliceData, checkShape.
    destruct (decide (userShape = shape)); [contradiction|done].
  - intros ->.
    destruct (putSliceData_spec this arr value blc inc shape Hok Hne Hprod Harr Hval)
      as (arr' & Hput & Hl & Hwrite & Hkeep).
    exists arr'. split; [done|]. split; [done|]. split; [done|]. split; [done|].
    intros value0 Hl0.
    destruct (getSliceData_spec this arr' value0 blc inc shape Hok Hne Hprod)
      as (value' & -> & Hl' & Hread); [lia|lia|].
    f_equal. apply list_eq. intros j.
    destruct (decide (Z.of_nat j < product shape)) as [Hj|Hj].
    + destruct (slice_ok_shape _ _ _ _ Hok) as [Hs1 _].
      destruct (lin_position shape j Hs1 Hj) as (pos & Hpos & E).
      rewrite <- (Nat2Z.id j), <- E. rewrite (Hread pos Hpos). by apply Hwrite.
    + rewrite !lookup_ge_None_2 by lia. done.
Qed.

(** Two rows of three numbers are put into rows 1 and 3 of an array of 4
    by 3 numbers. *)
Lemma putSliceData_writes_witness :
  slice_ok [1; 0] [2; 1] [2; 3] [4; 3]
  /\ putSliceData (mkStIndArray 0 8 [4; 3]) (replicate 12 0) [1; 0] [2; 1] [2; 3]
       [1; 2; 3; 4; 5; 6] [2; 3]
     = Ok [0; 1; 0; 2; 0; 3; 0; 4; 0; 5; 0; 6]
  /\ exists arr',
       putSliceData (mkStIndArray 0 8 [4; 3]) (replicate 12 0) [1; 0] [2; 1] [2; 3]
         [1; 2; 3; 4; 5; 6] [2; 3] = Ok arr'
       /\ getSliceData (mkStIndArray 0 8 [4; 3]) arr' [1; 0] [2; 1] [2; 3]
            (replicate 6 0) [2; 3] = Ok [1; 2; 3; 4; 5; 6].
Proof.
  assert (Hok : slice_ok [1; 0] [2; 1] [2; 3] [4; 3]).
  { repeat constructor; lia. }
  split; [exact Hok|]. split; [reflexivity|].
  destruct (putSliceData_writes (mkStIndArray 0 8 [4; 3]) (replicate 12 0)
              [1; 2; 3; 4; 5; 6] [1; 0] [2; 1] [2; 3] [2; 3] Hok) as [_ Hput].
  - done.
  - simpl. lia.
  - reflexivity.
  - reflexivity.
  - destruct (Hput eq_refl) as (arr' & Hp & _ & _ & _ & Hget). exists arr'.
    split; [exact Hp|]. apply Hget. reflexivity.
Defined.

(** *** The data types of a cell *)

(** The values of [DataType] that the switch statements name; [TpOther]
    stands for every other value ([TpChar], [TpTable], [TpRecord], ...). *)
Inductive DataType : Type :=
| TpBool | TpUChar | TpShort | TpUShort | TpInt | TpUInt | TpInt64
| TpFloat | TpDouble | TpComplex | TpDComplex | TpString
| TpOther.

Section Shape.

(** Modelled from the spec: [StManArrayFile] is not part of the sources at
    hand. "records the new shape, writes a shape descriptor to the file":
    [ios.putShape (shape, fileOffset, (T* )0)] stores the shape and
    reserves the array in the file; it sets [fileOffset] to the place of
    the shape and returns the offset of the array from there. The file
    and what [putShape] gives are left open. *)
Variable file : Type.
Variable putShape : file -> list Z -> Z -> DataType -> file * Z * Z.

(** [StIndArray::setShape]: the file, the object and the result. *)
Definition setShape (this : StIndArray) (ios : file) (dataType : DataType)
    (shape : list Z) : file * StIndArray * bool :=
  if decide (arrOffset_p this <> 0 /\ shape_p this = shape) then (ios, this, false)
  else
    let put := fun d =>
      let '(ios, fileOffset, arrOffset) := putShape ios shape (fileOffset_p this) d in
      (ios, mkStIndArray fileOffset arrOffset shape, true) in
    match dataType with
    | TpBool => put TpBool
    | TpUChar => put TpUChar
    | TpShort => put TpShort
    | TpUShort => put TpUShort
    | TpInt => put TpInt
    | TpUInt => put TpUInt
    | TpInt64 => put TpInt64
    | TpFloat => put TpFloat
    | TpDouble => put TpDouble
    | TpComplex => put TpComplex
    | TpDComplex => put TpDComplex
    | TpString => put TpString
    | TpOther => (ios, mkStIndArray (fileOffset_p this) (arrOffset_p this) shape, true)
    end.

End Shape.

Section Whole.

Context {T : Type}.

(** Modelled from the spec: [IPosition] (casa/Arrays) is not part of the
    sources at hand. [shape_p.product()] is the number of elements of an
    array of that shape, computed in [ssize_t]. *)
Fixpoint nelements_loop (shape : list Z) (total : Z) : outcome Z :=
  match shape with
  | [] => Ok total
  | s :: shape => total ← ssize (total * s); nelements_loop shape total
  end.

Definition nelements (shape : list Z) : outcome Z := nelements_loop shape 1.

(** [StIndArray::getArrayV]: the user array has the shape [userShape] and
    the elements [value]; the result are its new elements. *)
Definition getArrayV (this : StIndArray) (arr : list T) (userShape : list Z)
    (value : list T) (dtype : DataType) : outcome (list T) :=
  _ ← checkShape userShape (shape_p this);
  match dtype with
  | TpBool | TpUChar | TpShort | TpUShort | TpInt | TpUInt | TpInt64
  | TpFloat | TpDouble | TpComplex | TpDComplex | TpString =>
      n ← nelements (shape_p this);
      ios_get arr 0 (wrap64 n) value 0
  | TpOther =>
      Throw (DataManInternalError "Unhandled data type in StIndArray::getArrayV")
  end.

(** [StIndArray::putArrayV]: the result is the array in the file. *)
Definition putArrayV (this : StIndArray) (arr : list T) (userShape : list Z)
    (value : list T) (dtype : DataType) : outcome (list T) :=
  _ ← checkShape userShape (shape_p this);
  match dtype with
  | TpBool | TpUChar | TpShort | TpUShort | TpInt | TpUInt | TpInt64
  | TpFloat | TpDouble | TpComplex | TpDComplex | TpString =>
      n ← nelements (shape_p this);
      ios_put arr 0 (wrap64 n) value 0
  | TpOther =>
      Throw (DataManInternalError "Unhandled data type in StIndArray::putArrayV")
  end.

(** [StIndArray::getSliceV] *)
Definition getSliceV (this : StIndArray) (arr : list T) (blc inc shape : list Z)
    (userShape : list Z) (value : list T) (dtype : DataType) : outcome (list T) :=
  match dtype with
  | TpBool | TpUChar | TpShort | TpUShort | TpInt | TpUInt | TpInt64
  | TpFloat | TpDouble | TpComplex | TpDComplex | TpString =>
      getSliceData this arr blc inc shape value userShape
  | TpOther =>
      Throw (DataManInternalError "Unhandled data type in StIndArray::getSliceV")
  end.

(** [StIndArray::putSliceV] *)
Definition putSliceV (this : StIndArray) (arr : list T) (blc inc shape : list Z)
    (userShape : list Z) (value : list T) (dtype : DataType) : outcome (list T) :=
  match dtype with
  | TpBool | TpUChar | TpShort | TpUShort | TpInt | TpUInt | TpInt64
  | TpFloat | TpDouble | TpComplex | TpDComplex | TpString =>
      putSliceData this arr blc inc shape value userShape
  | TpOther =>
      Throw (DataManInternalError "Unhandled data type in StIndArray::putSliceV")
  end.

(** [StIndArray::copyData]: [arr] is the array of this object in the file
    and [other_arr] that of the other object; [ios.copyArrayBool (to,
    from, nr)] and the like, which are not part of the sources at hand
    either, copy [nr] elements. The result is the array of this object. *)
Definition copyData (this other : StIndArray) (arr other_arr : list T)
    (dataType : DataType) : outcome (list T) :=
  if decide (shape_p this = shape_p other) then
    match dataType with
    | TpBool | TpUChar | TpShort | TpUShort | TpInt | TpUInt | TpInt64
    | TpFloat | TpDouble | TpComplex | TpDComplex | TpString =>
        n ← nelements (shape_p this);
        ios_put arr 0 (wrap64 n) other_arr 0
    | TpOther =>
        Throw (DataManInternalError "Unhandled data type in StIndArray::copyData")
    end
  else Throw (DataManInternalError "StManIndArray::copyData shapes not conforming").

End Whole.

Lemma nelements_loop_product (shape : list Z) :
  Forall (fun s => 1 <= s) shape ->
  forall total, 1 <= total -> total * product shape < 2^63 ->
    nelements_loop shape total = Ok (total * product shape).
Proof.
  induction 1 as [|s shape Hs Hshape IH]; intros total Ht Hprod.
  - cbn [nelements_loop product foldr]. f_equal. lia.
  - cbn [nelements_loop product foldr] in *. fold (product shape) in *.
    pose proof (product_pos _ Hshape). unfold ssize.
    destruct (decide _); [|nia]. cbn [mbind outcome_bind].
    rewrite IH by nia. f_equal. ring.
Qed.

Lemma nelements_product (shape : list Z) :
  Forall (fun s => 1 <= s) shape -> product shape < 2^63 ->
  nelements shape = Ok (product shape).
Proof.
  intros Hshape Hprod. unfold nelements.
  rewrite (nelements_loop_product _ Hshape) by lia. f_equal. lia.
Qed.

(** X16: [StIndArray::setShape] has no case for a data type outside the
    twelve it names. With a shape that is new for the cell it then still
    returns [True] and keeps the new shape, but nothing is put in the file
    and the array offset does not change: a cell without an array in the
    file stays without one, and the same call again returns [True] again.
    For the data types named, a first call puts the shape in the file once
    and a second call with the same shape returns [False] and changes
    neither the file nor the object, provided the offset of the array is
    not 0. *)
Theorem setShape_twice (file : Type) (putShape : file -> list Z -> Z -> DataType -> file * Z * Z)
    (this : StIndArray) (ios : file) (dataType : DataType) (shape : list Z) :
  ~ (arrOffset_p this <> 0 /\ shape_p this = shape) ->
  (dataType = TpOther ->
   setShape file putShape this ios dataType shape
   = (ios, mkStIndArray (fileOffset_p this) (arrOffset_p this) shape, true)
   /\ (arrOffset_p this = 0 ->
       setShape file putShape
         (mkStIndArray (fileOffset_p this) (arrOffset_p this) shape) ios dataType shape
       = (ios, mkStIndArray (fileOffset_p this) (arrOffset_p this) shape, true)))
  /\ (dataType <> TpOther ->
      exists ios' fileOffset arrOffset,
        putShape ios shape (fileOffset_p this) dataType = (ios', fileOffset, arrOffset)
        /\ setShape file putShape this ios dataType shape
           = (ios', mkStIndArray fileOffset arrOffset shape, true)
        /\ (arrOffset <> 0 ->
            setShape file putShape (mkStIndArray fileOffset arrOffset shape) ios'
              dataType shape
            = (ios', mkStIndArray fileOffset arrOffset shape, false))).
Proof.
  intros Hnew. split.
  - intros ->. unfold setShape. destruct (decide _) as [|_]; [contradiction|].
    split; [done|]. intros H0. cbn [arrOffset_p shape_p fileOffset_p].
    destruct (decide _) as [[Hn _]|_]; [contradiction|done].
  - intros Hd. destruct (putShape ios shape (fileOffset_p this) dataType)
      as [[ios' fileOffset] arrOffset] eqn:E.
    exists ios', fileOffset, arrOffset. split; [done|]. split.
    + unfold setShape. destruct (decide _) as [|_]; [contradiction|].
      destruct dataType; try done; by rewrite E.
    + intros Hn. unfold setShape. cbn [arrOffset_p shape_p fileOffset_p].
      destruct (decide _) as [_|Hc]; [done|]. destruct Hc. done.
Qed.

(** A cell without a shape gets the shape [2; 3]: as [TpInt], with a file
    that counts the shapes put into it, and as another type. *)
Lemma setShape_twice_witness :
  setShape nat (fun n _ _ _ => (S n, 16, 24)) (mkStIndArray 0 0 []) 0%nat TpInt [2; 3]
  = (1%nat, mkStIndArray 16 24 [2; 3], true)
  /\ setShape nat (fun n _ _ _ => (S n, 16, 24)) (mkStIndArray 16 24 [2; 3]) 1%nat TpInt
       [2; 3]
     = (1%nat, mkStIndArray 16 24 [2; 3], false)
  /\ setShape nat (fun n _ _ _ => (S n, 16, 24)) (mkStIndArray 0 0 []) 0%nat TpOther
       [2; 3]
     = (0%nat, mkStIndArray 0 0 [2; 3], true).
Proof.
  destruct (setShape_twice nat (fun n _ _ _ => (S n, 16, 24)) (mkStIndArray 0 0 []) 0%nat
              TpInt [2; 3]) as [_ Hint].
  { simpl. intros [H _]. by apply H. }
  destruct (setShape_twice nat (fun n _ _ _ => (S n, 16, 24)) (mkStIndArray 0 0 []) 0%nat
              TpOther [2; 3]) as [[Hother _] _]; [|reflexivity|].
  { simpl. intros [H _]. by apply H. }
  destruct (Hint ltac:(discriminate)) as (ios' & fo & ao & E & H1 & H2).
  cbn in E. inversion E; subst. split; [exact H1|]. split; [|exact Hother].
  apply H2. discriminate.
Defined.

(** X17: a data type outside the twelve named in the switch statements is
    refused by [getArrayV], [putArrayV], [getSliceV], [putSliceV] and
    [copyData] with a [DataManInternalError] that names the function (by
    [getArrayV], [putArrayV] and [copyData] after the shapes have been
    compared); for a named data type and an array of the shape of the
    cell, [putArrayV] followed by [getArrayV] gives back the user array,
    whatever the named type. [setShape] is the only function with a
    switch on the data type that does not refuse the other types (X16). *)
Theorem unhandled_data_type {T : Type} (this other : StIndArray)
    (arr value value0 : list T) (dtype : DataType) :
  shape_p other = shape_p this ->
  Forall (fun s => 1 <= s) (shape_p this) -> product (shape_p this) < 2^63 ->
  Z.of_nat (length arr) = product (shape_p this) ->
  Z.of_nat (length value) = product (shape_p this) ->
  length value0 = length value ->
  (dtype = TpOther ->
   getArrayV this arr (shape_p this) value dtype
   = Throw (DataManInternalError "Unhandled data type in StIndArray::getArrayV")
   /\ putArrayV this arr (shape_p this) value dtype
      = Throw (DataManInternalError "Unhandled data type in StIndArray::putArrayV")
   /\ copyData this other arr value dtype
      = Throw (DataManInternalError "Unhandled data type in StIndArray::copyData")
   /\ (forall blc inc shape userShape,
         getSliceV this arr blc inc shape userShape value dtype
         = Throw (DataManInternalError "Unhandled data type in StIndArray::getSliceV")
         /\ putSliceV this arr blc inc shape userShape value dtype
            = Throw (DataManInternalError "Unhandled data type in StIndArray::putSliceV")))
  /\ (dtype <> TpOther ->
      putArrayV this arr (shape_p this) value dtype = Ok value
      /\ getArrayV this value (shape_p this) value0 dtype = Ok value
      /\ copyData this other arr value dtype = Ok value).
Proof.
  intros Hother Hshape Hprod Harr Hval Hl0. pose proof (product_pos _ Hshape) as Hpos.
  split.
  - intros ->. unfold getArrayV, putArrayV, copyData, checkShape. rewrite Hother.
    destruct (decide (shape_p this = shape_p this)); [|done]. done.
  - intros Hd. unfold getArrayV, putArrayV, copyData, checkShape. rewrite Hother.
    destruct (decide (shape_p this = shape_p this)) as [_|]; [|done].
    cbn [mbind outcome_bind].
    assert (Hput : ios_put arr 0 (product (shape_p this)) value 0 = Ok value).
    { unfold ios_put. destruct (decide _) as [_|]; [|lia]. f_equal.
      change (Z.to_nat 0) with 0%nat. cbn [take app]. rewrite drop_0, Z.add_0_l.
      rewrite (take_ge value) by lia. rewrite (drop_ge arr) by lia. apply app_nil_r. }
    assert (Hget : ios_get value 0 (product (shape_p this)) value0 0 = Ok value).
    { unfold ios_get. destruct (decide _) as [_|]; [|lia]. f_equal.
      change (Z.to_nat 0) with 0%nat. cbn [take app]. rewrite drop_0, Z.add_0_l.
      rewrite (take_ge value) by lia. rewrite (drop_ge value0) by lia. apply app_nil_r. }
    destruct dtype; try done;
      rewrite (nelements_product _ Hshape Hprod); cbn [mbind outcome_bind];
      rewrite wrap64_exact by lia; done.
Qed.

Lemma unhandled_data_type_witness :
  putArrayV (mkStIndArray 0 8 [2; 2]) [0; 0; 0; 0] [2; 2] [5; 6; 7; 8] TpDouble
  = Ok [5; 6; 7; 8]
  /\ getArrayV (mkStIndArray 0 8 [2; 2]) [5; 6; 7; 8] [2; 2] [0; 0; 0; 0] TpOther
     = Throw (DataManInternalError "Unhandled data type in StIndArray::getArrayV").
Proof.
  destruct (unhandled_data_type (mkStIndArray 0 8 [2; 2]) (mkStIndArray 40 8 [2; 2])
              [0; 0; 0; 0] [5; 6; 7; 8] [0; 0; 0; 0] TpDouble) as [_ Hput].
  { reflexivity. }
  { repeat constructor; lia. }
  { simpl. lia. }
  { reflexivity. }
  { reflexivity. }
  { reflexivity. }
  destruct (unhandled_data_type (mkStIndArray 0 8 [2; 2]) (mkStIndArray 40 8 [2; 2])
              [5; 6; 7; 8] [0; 0; 0; 0] [0; 0; 0; 0] TpOther) as [Hget _].
  { reflexivity. }
  { repeat constructor; lia. }
  { simpl. lia. }
  { reflexivity. }
  { reflexivity. }
  { reflexivity. }
  destruct (Hput ltac:(discriminate)) as (H1 & _).
  destruct (Hget eq_refl) as (H2 & _).
  split; [exact H1|exact H2].
Defined.

End StIndArray.

Module TaQLNodeDer.

(** ** TaQLNodeDer.cc: the nodes of a TaQL parse tree *)

Import Stdlib.Strings.Ascii.

(** The exceptions thrown; [Undefined] stands for a run that reads outside
    a string, overflows an [Int] or does not end. *)
Inductive exn : Type :=
| AipsError
| out_of_range
| Undefined.

Inductive outcome (A : Type) : Type :=
| Ok (a : A)
| Throw (e : exn).

Arguments Ok {A} a.
Arguments Throw {A} e.

#[global] Instance outcome_ret : MRet outcome := fun A a => Ok a.
#[global] Instance outcome_bind : MBind outcome :=
  fun A B f m => match m with Ok a => f a | Throw e => Throw e end.

(** [AlwaysAssert (cond, AipsError)] *)
Definition AlwaysAssert (cond : bool) : outcome unit :=
  if cond then Ok () else Throw AipsError.

(** *** Strings and numbers *)

(** A [String] is the list of its characters. [regex[i]]: the character
    at [i]; at the end of the string it is the null character. *)
Definition char_at (s : list ascii) (i : Z) : outcome ascii :=
  if decide (i = Z.of_nat (length s)) then Ok "000"%char
  else match (if decide (0 <= i) then s !! Z.to_nat i else None) with
       | Some c => Ok c
       | None => Throw Undefined
       end.

(** A value of type [Int]; an overflow is undefined. *)
Definition Int_ (z : Z) : outcome Z :=
  if decide (- 2^31 <= z < 2^31) then Ok z else Throw Undefined.

(** The conversion of a size to [Int] and of an [Int] to a size. *)
Definition to_Int (z : Z) : Z := (z + 2^31) mod 2^32 - 2^31.
Definition to_size (z : Z) : Z := z mod 2^64.

Definition INT_MAX : Z := 2^31 - 1.

(** [isdigit (c)], the characters taken as unsigned *)
Definition isdigit (c : ascii) : bool :=
  bool_decide (48 <= Z.of_nat (nat_of_ascii c) <= 57).

(** [regex.substr (pos, n)] *)
Definition substr (s : list ascii) (pos n : Z) : outcome (list ascii) :=
  if decide (pos <= Z.of_nat (length s)) then Ok (take (Z.to_nat n) (drop (Z.to_nat pos) s))
  else Throw out_of_range.

(** Modelled from the spec: the streams of the C++ library are not part of
    the sources at hand. [istr >> itsMaxDistance] on a string that starts
    with a digit reads the digits at its start as a decimal number; a
    number above the greatest [Int] gives the greatest [Int]. *)
Fixpoint read_digits (s : list ascii) (acc : Z) : Z :=
  match s with
  | c :: s' =>
      if isdigit c then read_digits s' (acc * 10 + (Z.of_nat (nat_of_ascii c) - 48))
      else acc
  | [] => acc
  end.

Definition istr_Int (s : list ascii) : Z := Z.min (read_digits s 0) INT_MAX.

(** Modelled from the spec: [os << itsMaxDistance] writes an [Int] as a
    decimal number, with a minus sign when it is negative. [digits_of]
    gives the digits of a number that has at most [n] of them. *)
Fixpoint digits_of (n : nat) (z : Z) : list ascii :=
  match n with
  | O => []
  | S n =>
      (if decide (z < 10) then [] else digits_of n (z / 10))
      ++ [ascii_of_nat (Z.to_nat (48 + z mod 10))]
  end.

Definition show_Int (z : Z) : list ascii :=
  if decide (0 <= z) then digits_of 10 z else "-"%char :: digits_of 10 (- z).

(** [String::downcase] *)
Definition tolower (c : ascii) : ascii :=
  if bool_decide (65 <= Z.of_nat (nat_of_ascii c) <= 90)
  then ascii_of_nat (nat_of_ascii c + 32) else c.

Definition downcase (s : list ascii) : list ascii := tolower <$> s.

(** *** TaQLRegexNodeRep *)

Record TaQLRegexNodeRep : Type := mkRegex {
  itsValue : list ascii;
  itsCaseInsensitive : bool;
  itsNegate : bool;
  itsIgnoreBlanks : bool;
  itsMaxDistance : Z
}.

(** [while (regex[++inx] == ' ') {}] *)
Fixpoint skip_blanks (fuel : nat) (regex : list ascii) (inx : Z) : outcome Z :=
  match fuel with
  | O => Throw Undefined
  | S fuel =>
      inx ← Int_ (inx + 1);
      c ← char_at regex inx;
      if decide (c = " "%char) then skip_blanks fuel regex inx else Ok inx
  end.

(** [while (isdigit(regex[--sz])) {}] *)
Fixpoint scan_digits (fuel : nat) (regex : list ascii) (sz : Z) : outcome Z :=
  match fuel with
  | O => Throw Undefined
  | S fuel =>
      sz ← Int_ (sz - 1);
      c ← char_at regex sz;
      if isdigit c then scan_digits fuel regex sz else Ok sz
  end.

(** The variables of the loop that finds the qualifiers. *)
Record quals : Type := mkQuals {
  q_sz : Z;
  q_caseInsensitive : bool;
  q_ignoreBlanks : bool;
  q_maxDistance : Z
}.

(** [while (--sz > inx) { ... }] *)
Fixpoint find_qualifiers (fuel : nat) (regex : list ascii) (inx : Z) (q : quals)
    : outcome quals :=
  match fuel with
  | O => Throw Undefined
  | S fuel =>
      sz ← Int_ (q_sz q - 1);
      if decide (sz > inx) then
        c ← char_at regex sz;
        if decide (c = "i"%char) then
          find_qualifiers fuel regex inx
            (mkQuals sz true (q_ignoreBlanks q) (q_maxDistance q))
        else if decide (c = "b"%char) then
          find_qualifiers fuel regex inx
            (mkQuals sz (q_caseInsensitive q) true (q_maxDistance q))
        else if isdigit c then
          let numend := sz in
          sz ← scan_digits (length regex) regex sz;
          sz ← Int_ (sz + 1);
          str ← substr regex (to_size sz) (to_size numend);
          find_qualifiers fuel regex inx
            (mkQuals sz (q_caseInsensitive q) (q_ignoreBlanks q) (istr_Int str))
        else Ok (mkQuals sz (q_caseInsensitive q) (q_ignoreBlanks q) (q_maxDistance q))
      else Ok (mkQuals sz (q_caseInsensitive q) (q_ignoreBlanks q) (q_maxDistance q))
  end.

(** [TaQLRegexNodeRep::TaQLRegexNodeRep (const String& regex)] *)
Definition TaQLRegexNodeRep_of (regex : list ascii) : outcome TaQLRegexNodeRep :=
  let sz := to_Int (Z.of_nat (length regex)) in
  last ← (if decide (sz >= 4) then char_at regex (sz - 1) else Ok " "%char);
  _ ← AlwaysAssert (bool_decide (sz >= 4 /\ last <> " "%char));
  c ← char_at regex 0;
  let negate := bool_decide (c = "!"%char) in
  let inx := if negate then 1 else 0 in
  c ← char_at regex inx;
  _ ← AlwaysAssert (bool_decide (c = "~"%char));
  inx ← skip_blanks (length regex) regex inx;
  q ← find_qualifiers (length regex) regex inx (mkQuals sz false false (-1));
  sz ← Int_ (q_sz q + 1);
  _ ← AlwaysAssert (bool_decide (sz - inx >= 3));
  value ← substr regex (to_size inx) (to_size (sz - inx));
  Ok (mkRegex (if q_caseInsensitive q then downcase value else value)
              (q_caseInsensitive q) negate (q_ignoreBlanks q) (q_maxDistance q)).

(** [TaQLRegexNodeRep::show]: what is written to the stream. *)
Definition Regex_show (n : TaQLRegexNodeRep) : list ascii :=
  (if itsNegate n then ["!"%char] else [])
  ++ ["~"%char] ++ itsValue n
  ++ (if itsCaseInsensitive n then ["i"%char] else [])
  ++ (if itsIgnoreBlanks n then ["b"%char] else [])
  ++ (if decide (itsMaxDistance n >= 0) then show_Int (itsMaxDistance n) else []).

Definition chars (s : string) : list ascii := String.list_ascii_of_string s.

Example regex_example_1 :
  TaQLRegexNodeRep_of (chars "!~ m/Ab c/ib12")
  = Ok (mkRegex (chars "m/ab c/") true true true 12).
Proof. reflexivity. Qed.

Example regex_example_2 :
  Regex_show (mkRegex (chars "m/ab c/") true true true 12) = chars "!~m/ab c/ib12".
Proof. reflexivity. Qed.

Example regex_example_3 : TaQLRegexNodeRep_of (chars "~12") = Throw AipsError.
Proof. reflexivity. Qed.

Example regex_example_4 : TaQLRegexNodeRep_of (chars "!~12") = Throw AipsError.
Proof. reflexivity. Qed.

(** *** Numbers as digits *)

Lemma nat_of_digit (d : Z) : 0 <= d < 10 ->
  Z.of_nat (nat_of_ascii (ascii_of_nat (Z.to_nat (48 + d)))) = 48 + d.
Proof.
  intros Hd. rewrite nat_ascii_embedding; [lia|].
  assert (Z.to_nat (48 + d) < 256)%nat; [|done]. lia.
Qed.

Lemma isdigit_digit (d : Z) : 0 <= d < 10 ->
  isdigit (ascii_of_nat (Z.to_nat (48 + d))) = true.
Proof.
  intros Hd. unfold isdigit. rewrite nat_of_digit by done.
  apply bool_decide_eq_true. lia.
Qed.

(** The digits written for a number are read back as that number. *)
Lemma digits_of_S (n : nat) (z : Z) :
  digits_of (S n) z
  = (if decide (z < 10) then [] else digits_of n (z / 10))
    ++ [ascii_of_nat (Z.to_nat (48 + z mod 10))].
Proof. reflexivity. Qed.

Lemma digits_of_small (n : nat) (z : Z) : 0 <= z < 10 ->
  Forall (fun c => isdigit c = true) (digits_of (S n) z)
  /\ (1 <= length (digits_of (S n) z) <= S n)%nat
  /\ forall rest acc,
       read_digits (digits_of (S n) z ++ rest) acc
       = read_digits rest (acc * 10 ^ Z.of_nat (length (digits_of (S n) z)) + z).
Proof.
  intros Hz. rewrite digits_of_S. destruct (decide (z < 10)); [|lia].
  cbn [app length]. rewrite Z.mod_small by lia. split; [|split; [lia|]].
  - constructor; [|done]. by apply isdigit_digit.
  - intros rest acc. cbn [read_digits app].
    rewrite isdigit_digit, nat_of_digit by lia.
    f_equal. change (10 ^ Z.of_nat 1) with 10. lia.
Qed.

Lemma digits_of_spec : forall (n : nat) (z : Z), 0 <= z < 10 ^ Z.of_nat (S n) ->
  Forall (fun c => isdigit c = true) (digits_of (S n) z)
  /\ (1 <= length (digits_of (S n) z) <= S n)%nat
  /\ forall rest acc,
       read_digits (digits_of (S n) z ++ rest) acc
       = read_digits rest (acc * 10 ^ Z.of_nat (length (digits_of (S n) z)) + z).
Proof.
  induction n as [|n IH]; intros z Hz.
  - apply digits_of_small. change (10 ^ Z.of_nat 1) with 10 in Hz. lia.
  - destruct (decide (z < 10)) as [Hlt|Hge]; [apply digits_of_small; lia|].
    pose proof (Z.mod_pos_bound z 10 ltac:(lia)) as Hm.
    assert (Hdiv : 0 <= z / 10 < 10 ^ Z.of_nat (S n)).
    { rewrite (Nat2Z.inj_succ (S n)), Z.pow_succ_r in Hz by lia.
      split; [apply Z.div_pos; lia|]. apply Z.div_lt_upper_bound; lia. }
    destruct (IH _ Hdiv) as (Hall & Hlen & Hread).
    rewrite (digits_of_S (S n)). destruct (decide (z < 10)); [lia|].
    split; [|split].
    + apply Forall_app. split; [done|]. constructor; [|done]. by apply isdigit_digit.
    + rewrite length_app. cbn [length]. lia.
    + intros rest acc. rewrite <- app_assoc, Hread. cbn [read_digits app].
      rewrite isdigit_digit, nat_of_digit by lia. f_equal.
      rewrite length_app. cbn [length].
      replace (Z.of_nat (length (digits_of (S n) (z / 10)) + 1))
        with (Z.succ (Z.of_nat (length (digits_of (S n) (z / 10))))) by lia.
      rewrite Z.pow_succ_r by lia.
      pose proof (Z.div_mod z 10 ltac:(lia)). lia.
Qed.

Lemma show_Int_spec (z : Z) : 0 <= z <= INT_MAX ->
  Forall (fun c => isdigit c = true) (show_Int z)
  /\ (1 <= length (show_Int z) <= 10)%nat
  /\ istr_Int (show_Int z) = z.
Proof.
  intros Hz. unfold show_Int, INT_MAX in *. destruct (decide (0 <= z)); [|lia].
  destruct (digits_of_spec 9 z) as (Hall & Hlen & Hread).
  { change (10 ^ Z.of_nat 10) with 10000000000. lia. }
  split; [done|]. split; [done|]. unfold istr_Int, INT_MAX.
  rewrite <- (app_nil_r (digits_of 10 z)), Hread. cbn [read_digits]. lia.
Qed.

(** *** The steps of the constructor *)

Lemma char_at_middle (X Y : list ascii) (c : ascii) :
  char_at (X ++ c :: Y) (Z.of_nat (length X)) = Ok c.
Proof.
  unfold char_at. rewrite length_app. cbn [length].
  destruct (decide _) as [|_]; [lia|]. destruct (decide _) as [_|]; [|lia].
  rewrite Nat2Z.id. rewrite lookup_app_r by lia. by rewrite Nat.sub_diag.
Qed.

Lemma Int_ok (z : Z) : - 2^31 <= z < 2^31 -> Int_ z = Ok z.
Proof. intros H. unfold Int_. by destruct (decide _). Qed.

(** The inner loop runs to the left over the digits. *)
Lemma scan_digits_spec (X D Y : list ascii) (x : ascii) :
  isdigit x = false -> Forall (fun c => isdigit c = true) D ->
  Z.of_nat (length (X ++ x :: D ++ Y)) < 2^31 ->
  forall (k fuel : nat), (k <= length D)%nat -> (k < fuel)%nat ->
    scan_digits fuel (X ++ x :: D ++ Y) (Z.of_nat (length X) + 1 + Z.of_nat k)
    = Ok (Z.of_nat (length X)).
Proof.
  intros Hx HD Hlen. pose proof Hlen as Hlen'.
  rewrite length_app in Hlen'. cbn [length] in Hlen'. rewrite length_app in Hlen'.
  induction k as [|k IH]; intros fuel Hk Hfuel.
  - destruct fuel as [|fuel]; [lia|]. cbn [scan_digits].
    rewrite Int_ok by lia. cbn [mbind outcome_bind].
    replace (Z.of_nat (length X) + 1 + Z.of_nat 0 - 1) with (Z.of_nat (length X)) by lia.
    rewrite char_at_middle. cbn [mbind outcome_bind]. by rewrite Hx.
  - destruct fuel as [|fuel]; [lia|]. cbn [scan_digits].
    rewrite Int_ok by lia. cbn [mbind outcome_bind].
    destruct (lookup_lt_is_Some_2 D k) as [d Hd]; [lia|].
    assert (Hsplit : X ++ x :: D ++ Y = (X ++ x :: take k D) ++ d :: (drop (S k) D ++ Y)).
    { rewrite <- app_assoc. cbn [app]. do 2 f_equal.
      rewrite <- (take_drop_middle D k d Hd) at 1. by rewrite <- app_assoc. }
    assert (Hpos : Z.of_nat (length X) + 1 + Z.of_nat (S k) - 1
                   = Z.of_nat (length (X ++ x :: take k D))).
    { rewrite length_app. cbn [length]. rewrite length_take. lia. }
    rewrite Hpos. rewrite Hsplit at 1. rewrite char_at_middle. cbn [mbind outcome_bind].
    rewrite Forall_forall in HD. rewrite (HD d) by (by eapply list_elem_of_lookup_2).
    rewrite <- Hpos.
    replace (Z.of_nat (length X) + 1 + Z.of_nat (S k) - 1)
      with (Z.of_nat (length X) + 1 + Z.of_nat k) by lia.
    apply IH; lia.
Qed.

(** A qualifier [i] or [b] at the right of the part that has been looked
    at, and the end of the qualifiers. *)
Lemma find_qualifiers_i (X Y : list ascii) (fuel : nat) inx ci ib md :
  Z.of_nat (length (X ++ "i"%char :: Y)) < 2^31 -> inx < Z.of_nat (length X) ->
  find_qualifiers (S fuel) (X ++ "i"%char :: Y) inx
    (mkQuals (Z.of_nat (length X) + 1) ci ib md)
  = find_qualifiers fuel (X ++ "i"%char :: Y) inx
      (mkQuals (Z.of_nat (length X)) true ib md).
Proof.
  intros Hlen Hinx. cbn [find_qualifiers q_sz]. rewrite length_app in Hlen.
  rewrite Int_ok by lia. cbn [mbind outcome_bind].
  replace (Z.of_nat (length X) + 1 - 1) with (Z.of_nat (length X)) by lia.
  destruct (decide _); [|lia]. rewrite char_at_middle. cbn [mbind outcome_bind].
  by destruct (decide _).
Qed.

Lemma find_qualifiers_b (X Y : list ascii) (fuel : nat) inx ci ib md :
  Z.of_nat (length (X ++ "b"%char :: Y)) < 2^31 -> inx < Z.of_nat (length X) ->
  find_qualifiers (S fuel) (X ++ "b"%char :: Y) inx
    (mkQuals (Z.of_nat (length X) + 1) ci ib md)
  = find_qualifiers fuel (X ++ "b"%char :: Y) inx
      (mkQuals (Z.of_nat (length X)) ci true md).
Proof.
  intros Hlen Hinx. cbn [find_qualifiers q_sz]. rewrite length_app in Hlen.
  rewrite Int_ok by lia. cbn [mbind outcome_bind].
  replace (Z.of_nat (length X) + 1 - 1) with (Z.of_nat (length X)) by lia.
  destruct (decide _); [|lia]. rewrite char_at_middle. cbn [mbind outcome_bind].
  destruct (decide _); [done|]. by destruct (decide _).
Qed.

Lemma find_qualifiers_end (X Y : list ascii) (c : ascii) (fuel : nat) inx ci ib md :
  Z.of_nat (length (X ++ c :: Y)) < 2^31 ->
  c <> "i"%char -> c <> "b"%char -> isdigit c = false ->
  find_qualifiers (S fuel) (X ++ c :: Y) inx (mkQuals (Z.of_nat (length X) + 1) ci ib md)
  = Ok (mkQuals (Z.of_nat (length X)) ci ib md).
Proof.
  intros Hlen Hi Hb Hd. cbn [find_qualifiers q_sz]. rewrite length_app in Hlen.
  rewrite Int_ok by lia. cbn [mbind outcome_bind q_caseInsensitive q_ignoreBlanks
                              q_maxDistance].
  replace (Z.of_nat (length X) + 1 - 1) with (Z.of_nat (length X)) by lia.
  destruct (decide _); [|done]. rewrite char_at_middle. cbn [mbind outcome_bind].
  destruct (decide _); [done|]. destruct (decide _); [done|]. by rewrite Hd.
Qed.

(** The digits at the end of the string give the greatest distance. *)
Lemma find_qualifiers_digits (X : list ascii) (x : ascii) (z : Z) (fuel : nat) inx ci ib md :
  0 <= z <= INT_MAX -> isdigit x = false ->
  Z.of_nat (length (X ++ x :: show_Int z)) < 2^31 -> inx < Z.of_nat (length X) ->
  find_qualifiers (S fuel) (X ++ x :: show_Int z) inx
    (mkQuals (Z.of_nat (length (X ++ x :: show_Int z))) ci ib md)
  = find_qualifiers fuel (X ++ x :: show_Int z) inx
      (mkQuals (Z.of_nat (length X) + 1) ci ib z).
Proof.
  intros Hz Hx Hlen Hinx. destruct (show_Int_spec z Hz) as (Hall & Hl & Hread).
  set (D := show_Int z) in *. cbn [find_qualifiers q_sz].
  rewrite Int_ok by lia. cbn [mbind outcome_bind q_caseInsensitive q_ignoreBlanks].
  pose proof Hlen as Hlen'. rewrite length_app in Hlen'. cbn [length] in Hlen'.
  destruct (decide _) as [_|Hn].
  2:{ rewrite length_app in Hn. cbn [length] in Hn. lia. }
  destruct (lookup_lt_is_Some_2 D (length D - 1)) as [d Hd]; [lia|].
  assert (Hlast : D = take (length D - 1) D ++ [d]).
  { rewrite <- (take_drop_middle D (length D - 1) d Hd) at 1. f_equal.
    rewrite drop_ge by lia. done. }
  assert (Hdd : isdigit d = true).
  { rewrite Forall_forall in Hall. apply Hall. by eapply list_elem_of_lookup_2. }
  assert (Hsplit : X ++ x :: D = (X ++ x :: take (length D - 1) D) ++ d :: []).
  { rewrite <- app_assoc. cbn [app]. do 2 f_equal. done. }
  assert (Hpos : Z.of_nat (length (X ++ x :: D)) - 1
                 = Z.of_nat (length (X ++ x :: take (length D - 1) D))).
  { rewrite !length_app. cbn [length]. rewrite length_take. lia. }
  rewrite Hpos. rewrite Hsplit at 1. rewrite char_at_middle. cbn [mbind outcome_bind].
  destruct (decide (d = "i"%char)) as [->|_]; [done|].
  destruct (decide (d = "b"%char)) as [->|_]; [done|]. rewrite Hdd.
  rewrite <- Hpos.
  pose proof (scan_digits_spec X D [] x Hx Hall) as Hscan. rewrite app_nil_r in Hscan.
  replace (Z.of_nat (length (X ++ x :: D)) - 1)
    with (Z.of_nat (length X) + 1 + Z.of_nat (length D - 1)).
  2:{ rewrite length_app. cbn [length]. lia. }
  rewrite (Hscan Hlen (length D - 1)%nat) by (rewrite ?length_app; cbn [length]; lia).
  cbn [mbind outcome_bind]. rewrite Int_ok by lia. cbn [mbind outcome_bind].
  unfold substr, to_size. rewrite !Z.mod_small by lia.
  destruct (decide _) as [_|Hn]; [|rewrite length_app in Hn; cbn [length] in Hn; lia].
  cbn [mbind outcome_bind]. do 2 f_equal.
  replace (Z.to_nat (Z.of_nat (length X) + 1)) with (length (X ++ [x])).
  2:{ rewrite length_app. cbn [length]. lia. }
  replace (X ++ x :: D) with ((X ++ [x]) ++ D) by (by rewrite <- app_assoc).
  rewrite drop_app_length. rewrite take_ge by lia. done.
Qed.

(** The qualifiers [i] and [b] as [show] writes them. *)
Definition flag_chars (ci ib : bool) : list ascii :=
  (if ci then ["i"%char] else []) ++ (if ib then ["b"%char] else []).

(** The loop over the flags [i] and [b] that are left of the part [Y] of
    the string that has been looked at. *)
Lemma find_qualifiers_flags (X Y : list ascii) (vl : ascii) (ci ib : bool) (fuel : nat)
    inx md :
  vl <> "i"%char -> vl <> "b"%char -> isdigit vl = false ->
  Z.of_nat (length ((X ++ vl :: flag_chars ci ib) ++ Y)) < 2^31 ->
  inx < Z.of_nat (length X) -> (3 <= fuel)%nat ->
  find_qualifiers fuel ((X ++ vl :: flag_chars ci ib) ++ Y) inx
    (mkQuals (Z.of_nat (length (X ++ vl :: flag_chars ci ib))) false false md)
  = Ok (mkQuals (Z.of_nat (length X)) ci ib md).
Proof.
  intros Hi Hb Hd Hlen Hinx Hfuel.
  destruct fuel as [|[|[|fuel]]]; try lia.
  assert (Hend : forall f ci' ib' Z', 
            Z.of_nat (length (X ++ vl :: Z')) < 2^31 ->
            find_qualifiers (S f) (X ++ vl :: Z') inx
              (mkQuals (Z.of_nat (length X) + 1) ci' ib' md)
            = Ok (mkQuals (Z.of_nat (length X)) ci' ib' md)).
  { intros f ci' ib' Z' HZ. by apply find_qualifiers_end. }
  destruct ci, ib; unfold flag_chars in *; cbn [app] in *.
  - replace ((X ++ [vl; "i"%char; "b"%char]) ++ Y)
      with ((X ++ [vl; "i"%char]) ++ "b"%char :: Y) in *
      by (by rewrite <- !app_assoc).
    replace (Z.of_nat (length (X ++ [vl; "i"%char; "b"%char])))
      with (Z.of_nat (length (X ++ [vl; "i"%char])) + 1)
      by (rewrite !length_app; cbn [length]; lia).
    rewrite find_qualifiers_b; [|done|rewrite length_app; lia].
    replace ((X ++ [vl; "i"%char]) ++ "b"%char :: Y)
      with ((X ++ [vl]) ++ "i"%char :: "b"%char :: Y) in *
      by (by rewrite <- !app_assoc).
    replace (Z.of_nat (length (X ++ [vl; "i"%char])))
      with (Z.of_nat (length (X ++ [vl])) + 1)
      by (rewrite !length_app; cbn [length]; lia).
    rewrite find_qualifiers_i; [|done|rewrite length_app; lia].
    replace ((X ++ [vl]) ++ "i"%char :: "b"%char :: Y)
      with (X ++ vl :: "i"%char :: "b"%char :: Y) in *
      by (by rewrite <- !app_assoc).
    replace (Z.of_nat (length (X ++ [vl]))) with (Z.of_nat (length X) + 1)
      by (rewrite !length_app; cbn [length]; lia).
    by apply Hend.
  - replace ((X ++ [vl; "i"%char]) ++ Y)
      with ((X ++ [vl]) ++ "i"%char :: Y) in *
      by (by rewrite <- !app_assoc).
    replace (Z.of_nat (length (X ++ [vl; "i"%char])))
      with (Z.of_nat (length (X ++ [vl])) + 1)
      by (rewrite !length_app; cbn [length]; lia).
    rewrite find_qualifiers_i; [|done|rewrite length_app; lia].
    replace ((X ++ [vl]) ++ "i"%char :: Y) with (X ++ vl :: "i"%char :: Y) in *
      by (by rewrite <- !app_assoc).
    replace (Z.of_nat (length (X ++ [vl]))) with (Z.of_nat (length X) + 1)
      by (rewrite !length_app; cbn [length]; lia).
    by apply Hend.
  - replace ((X ++ [vl; "b"%char]) ++ Y)
      with ((X ++ [vl]) ++ "b"%char :: Y) in *
      by (by rewrite <- !app_assoc).
    replace (Z.of_nat (length (X ++ [vl; "b"%char])))
      with (Z.of_nat (length (X ++ [vl])) + 1)
      by (rewrite !length_app; cbn [length]; lia).
    rewrite find_qualifiers_b; [|done|rewrite length_app; lia].
    replace ((X ++ [vl]) ++ "b"%char :: Y) with (X ++ vl :: "b"%char :: Y) in *
      by (by rewrite <- !app_assoc).
    replace (Z.of_nat (length (X ++ [vl]))) with (Z.of_nat (length X) + 1)
      by (rewrite !length_app; cbn [length]; lia).
    by apply Hend.
  - replace ((X ++ [vl]) ++ Y) with (X ++ vl :: Y) in * by (by rewrite <- !app_assoc).
    replace (Z.of_nat (length (X ++ [vl]))) with (Z.of_nat (length X) + 1)
      by (rewrite !length_app; cbn [length]; lia).
    by apply Hend.
Qed.

(** The last character before the digits is not a digit. *)
Lemma flags_last (X : list ascii) (vl : ascii) (ci ib : bool) :
  isdigit vl = false ->
  exists X2 x, X ++ vl :: flag_chars ci ib = X2 ++ [x] /\ isdigit x = false.
Proof.
  intros Hd. destruct ci, ib; unfold flag_chars; cbn [app].
  - exists (X ++ [vl; "i"%char]), "b"%char. by rewrite <- app_assoc.
  - exists (X ++ [vl]), "i"%char. by rewrite <- app_assoc.
  - exists (X ++ [vl]), "b"%char. by rewrite <- app_assoc.
  - exists X, vl. done.
Qed.

(** The digits that [show] writes for the greatest distance. *)
Definition distance_chars (md : Z) : list ascii :=
  if decide (md >= 0) then show_Int md else [].

(** The whole loop on the qualifiers that [show] writes. *)
Lemma find_qualifiers_show (X : list ascii) (vl : ascii) (ci ib : bool) (md : Z) inx :
  vl <> "i"%char -> vl <> "b"%char -> isdigit vl = false ->
  md = -1 \/ 0 <= md <= INT_MAX ->
  Z.of_nat (length ((X ++ vl :: flag_chars ci ib) ++ distance_chars md)) < 2^31 ->
  inx < Z.of_nat (length X) -> (3 <= length X)%nat ->
  find_qualifiers (length ((X ++ vl :: flag_chars ci ib) ++ distance_chars md))
    ((X ++ vl :: flag_chars ci ib) ++ distance_chars md) inx
    (mkQuals (Z.of_nat (length ((X ++ vl :: flag_chars ci ib) ++ distance_chars md)))
       false false (-1))
  = Ok (mkQuals (Z.of_nat (length X)) ci ib md).
Proof.
  intros Hi Hb Hd Hmd Hlen Hinx HX. unfold distance_chars in *.
  destruct (decide (md >= 0)) as [Hge|Hlt].
  - destruct Hmd as [->|Hmd]; [lia|].
    destruct (flags_last X vl ci ib Hd) as (X2 & x & E & Hx).
    assert (HX2 : (length X <= length X2)%nat).
    { apply (f_equal length) in E. rewrite !length_app in E. cbn [length] in E. lia. }
    set (s := (X ++ vl :: flag_chars ci ib) ++ show_Int md) in *.
    assert (Es : s = X2 ++ x :: show_Int md).
    { subst s. rewrite E. by rewrite <- app_assoc. }
    rewrite Es in *. clear Es s.
    assert (Hfuel : exists f, length (X2 ++ x :: show_Int md) = S f /\ (3 <= f)%nat).
    { exists (length (X2 ++ x :: show_Int md) - 1)%nat.
      rewrite !length_app. cbn [length]. lia. }
    destruct Hfuel as (f & Hfu & Hf). rewrite Hfu at 1.
    rewrite find_qualifiers_digits; try done; [|lia].
    replace (Z.of_nat (length X2) + 1)
      with (Z.of_nat (length (X ++ vl :: flag_chars ci ib)))
      by (rewrite E, length_app; cbn [length]; lia).
    replace (X2 ++ x :: show_Int md)
      with ((X ++ vl :: flag_chars ci ib) ++ show_Int md) in *
      by (by rewrite E, <- app_assoc).
    by apply find_qualifiers_flags.
  - destruct Hmd as [->|Hmd]; [|lia].
    replace (Z.of_nat (length ((X ++ vl :: flag_chars ci ib) ++ [])))
      with (Z.of_nat (length (X ++ vl :: flag_chars ci ib))) in *
      by (by rewrite app_nil_r).
    apply find_qualifiers_flags; try done.
    + by rewrite app_nil_r.
    + rewrite !length_app. cbn [length]. lia.
Qed.

(** What [show] writes before the value. *)
Definition prefix_chars (negate : bool) : list ascii :=
  (if negate then ["!"%char] else []) ++ ["~"%char].

Lemma Regex_show_split (Vl : list ascii) (vl : ascii) ci neg ib md :
  Regex_show (mkRegex (Vl ++ [vl]) ci neg ib md)
  = ((prefix_chars neg ++ Vl) ++ vl :: flag_chars ci ib) ++ distance_chars md.
Proof.
  unfold Regex_show, prefix_chars, flag_chars, distance_chars.
  cbn [itsValue itsCaseInsensitive itsNegate itsIgnoreBlanks itsMaxDistance].
  repeat (rewrite <- ?app_assoc; cbn [app]). done.
Qed.

Lemma to_Int_small (z : Z) : 0 <= z < 2^31 -> to_Int z = z.
Proof. intros H. unfold to_Int. rewrite Z.mod_small by lia. lia. Qed.

Lemma char_at_lookup (s : list ascii) (i : nat) (c : ascii) :
  s !! i = Some c -> char_at s (Z.of_nat i) = Ok c.
Proof.
  intros H. pose proof (lookup_lt_Some _ _ _ H). unfold char_at.
  destruct (decide _) as [|_]; [lia|]. destruct (decide _) as [_|]; [|lia].
  by rewrite Nat2Z.id, H.
Qed.

Lemma isdigit_blank (c : ascii) : isdigit c = true -> c <> " "%char.
Proof. intros H ->. done. Qed.

(** The last character that [show] writes is not a blank. *)
Lemma show_last (X : list ascii) (vl : ascii) (ci ib : bool) (md : Z) :
  vl <> " "%char -> md = -1 \/ 0 <= md <= INT_MAX ->
  exists S' l,
    (X ++ vl :: flag_chars ci ib) ++ distance_chars md = S' ++ [l] /\ l <> " "%char.
Proof.
  intros Hvl Hmd. unfold distance_chars. destruct (decide (md >= 0)) as [Hge|Hlt].
  - destruct Hmd as [->|Hmd]; [lia|].
    destruct (show_Int_spec md Hmd) as (Hall & Hlen & _).
    destruct (lookup_lt_is_Some_2 (show_Int md) (length (show_Int md) - 1)) as [d Hd];
      [lia|].
    exists ((X ++ vl :: flag_chars ci ib) ++ take (length (show_Int md) - 1) (show_Int md)), d.
    split.
    + rewrite <- (take_drop_middle (show_Int md) _ d Hd) at 1.
      rewrite drop_ge by lia. by rewrite app_assoc.
    + apply isdigit_blank. rewrite Forall_forall in Hall. apply Hall.
      by eapply list_elem_of_lookup_2.
  - rewrite app_nil_r. destruct ci, ib; unfold flag_chars; cbn [app].
    + exists (X ++ [vl; "i"%char]), "b"%char. by rewrite <- app_assoc.
    + exists (X ++ [vl]), "i"%char. by rewrite <- app_assoc.
    + exists (X ++ [vl]), "b"%char. by rewrite <- app_assoc.
    + exists X, vl. done.
Qed.

(** X18: the condition string of a regex node that [TaQLRegexNodeRep::show]
    writes is read back by the constructor from a string as the same
    node: the same value, flags and greatest distance. This holds for a
    value of at least 3 characters that does not start with a blank and
    does not end in a blank, an [i], a [b] or a digit (such an end would
    be taken for a qualifier), that is in lower case when the node is
    case-insensitive, and for a greatest distance that is -1 (nothing is
    written) or not negative. *)
Theorem Regex_show_parse (n : TaQLRegexNodeRep) :
  (3 <= length (itsValue n))%nat ->
  Z.of_nat (length (itsValue n)) + 16 < 2^31 ->
  (forall c, head (itsValue n) = Some c -> c <> " "%char) ->
  (forall c, last (itsValue n) = Some c ->
     c <> " "%char /\ c <> "i"%char /\ c <> "b"%char /\ isdigit c = false) ->
  (itsCaseInsensitive n = true -> downcase (itsValue n) = itsValue n) ->
  itsMaxDistance n = -1 \/ 0 <= itsMaxDistance n <= INT_MAX ->
  TaQLRegexNodeRep_of (Regex_show n) = Ok n.
Proof.
  destruct n as [V ci neg ib md].
  cbn [itsValue itsCaseInsensitive itsNegate itsIgnoreBlanks itsMaxDistance].
  intros HV Hlen Hhead Hlast Hcase Hmd.
  destruct V as [|v0 V0]; [cbn [length] in HV; lia|].
  pose proof (Hhead v0 eq_refl) as Hv0. clear Hhead.
  assert (HVl : exists Vl vl, v0 :: V0 = Vl ++ [vl]).
  { destruct (lookup_lt_is_Some_2 (v0 :: V0) (length (v0 :: V0) - 1)) as [vl Hvl];
      [cbn [length]; lia|].
    exists (take (length (v0 :: V0) - 1) (v0 :: V0)), vl.
    rewrite <- (take_drop_middle (v0 :: V0) _ vl Hvl) at 1. f_equal.
    rewrite drop_ge by (cbn [length]; lia). done. }
  destruct HVl as (Vl & vl & EV).
  destruct (Hlast vl) as (Hvl1 & Hvl2 & Hvl3 & Hvl4).
  { rewrite EV. apply last_snoc. }
  clear Hlast. rewrite EV in *. rewrite length_app in HV, Hlen. cbn [length] in HV, Hlen.
  assert (Hdl : (length (distance_chars md) <= 10)%nat).
  { unfold distance_chars. destruct (decide _); [|cbn [length]; lia].
    destruct Hmd as [->|Hmd]; [lia|].
    destruct (show_Int_spec md Hmd) as (_ & Hl' & _). lia. }
  assert (Hfl : (length (flag_chars ci ib) <= 2)%nat).
  { destruct ci, ib; cbn; lia. }
  assert (Hpl : (1 <= length (prefix_chars neg) <= 2)%nat).
  { destruct neg; cbn; lia. }
  rewrite Regex_show_split.
  set (P := prefix_chars neg) in *.
  set (s := ((P ++ Vl) ++ vl :: flag_chars ci ib) ++ distance_chars md).
  assert (Hs : Z.of_nat (length s)
               = Z.of_nat (length P) + Z.of_nat (length Vl) + 1
                 + Z.of_nat (length (flag_chars ci ib))
                 + Z.of_nat (length (distance_chars md))).
  { subst s. rewrite !length_app. cbn [length]. lia. }
  assert (Hinx : s !! length P = Some (default vl (head Vl))).
  { subst s. rewrite <- !app_assoc. rewrite lookup_app_r by lia. rewrite Nat.sub_diag.
    destruct Vl; done. }
  assert (Hfirst : default vl (head Vl) = v0).
  { destruct Vl; cbn in *; by simplify_eq. }
  rewrite Hfirst in Hinx.
  unfold TaQLRegexNodeRep_of. fold s. rewrite to_Int_small by lia.
  destruct (decide (Z.of_nat (length s) >= 4)) as [_|]; [|lia].
  destruct (show_last (P ++ Vl) vl ci ib md Hvl1 Hmd) as (S' & l & El & Hl).
  fold s in El.
  assert (Hlastc : char_at s (Z.of_nat (length s) - 1) = Ok l).
  { rewrite El. rewrite length_app. cbn [length].
    replace (Z.of_nat (length S' + 1) - 1) with (Z.of_nat (length S')) by lia.
    apply char_at_middle. }
  rewrite Hlastc. cbn [mbind outcome_bind]. unfold AlwaysAssert at 1.
  rewrite bool_decide_eq_true_2 by (split; [lia|done]). cbn [mbind outcome_bind].
  assert (H0 : char_at s 0 = Ok (if neg then "!"%char else "~"%char)).
  { apply (char_at_lookup s 0). subst s P. unfold prefix_chars.
    rewrite <- !app_assoc. by destruct neg. }
  rewrite H0. cbn [mbind outcome_bind].
  assert (Hneg : bool_decide ((if neg then "!"%char else "~"%char) = "!"%char) = neg).
  { by destruct neg. }
  rewrite Hneg.
  assert (Htilde : char_at s (if neg then 1 else 0) = Ok "~"%char).
  { subst s P. unfold prefix_chars. rewrite <- !app_assoc.
    destruct neg; [apply (char_at_lookup _ 1)|apply (char_at_lookup _ 0)]; done. }
  rewrite Htilde. cbn [mbind outcome_bind]. unfold AlwaysAssert at 1.
  rewrite bool_decide_eq_true_2 by done. cbn [mbind outcome_bind].
  assert (Hp : (if neg then 1 else 0) = Z.of_nat (length P) - 1).
  { subst P. by destruct neg. }
  rewrite Hp.
  assert (Hskip : skip_blanks (length s) s (Z.of_nat (length P) - 1)
                  = Ok (Z.of_nat (length P))).
  { destruct (length s) as [|f] eqn:Ef; [lia|]. cbn [skip_blanks].
    rewrite Int_ok by lia. cbn [mbind outcome_bind].
    replace (Z.of_nat (length P) - 1 + 1) with (Z.of_nat (length P)) by lia.
    rewrite (char_at_lookup _ _ _ Hinx). cbn [mbind outcome_bind].
    by destruct (decide (v0 = " "%char)). }
  rewrite Hskip. cbn [mbind outcome_bind].
  subst s. rewrite find_qualifiers_show; try done;
    [|lia|rewrite length_app; lia|rewrite length_app; lia].
  cbn [mbind outcome_bind q_sz q_caseInsensitive q_ignoreBlanks q_maxDistance].
  rewrite Int_ok by (rewrite length_app; lia). cbn [mbind outcome_bind].
  unfold AlwaysAssert. rewrite bool_decide_eq_true_2 by (rewrite length_app; lia).
  cbn [mbind outcome_bind]. unfold substr, to_size.
  rewrite !Z.mod_small by (rewrite ?length_app; lia).
  destruct (decide _) as [_|Hn]; [|rewrite !length_app in Hn; lia].
  cbn [mbind outcome_bind]. f_equal.
  assert (Eval : take (Z.to_nat (Z.of_nat (length (P ++ Vl)) + 1 - Z.of_nat (length P)))
                   (drop (Z.to_nat (Z.of_nat (length P)))
                      (((P ++ Vl) ++ vl :: flag_chars ci ib) ++ distance_chars md))
                 = Vl ++ [vl]).
  { rewrite Nat2Z.id. rewrite <- !app_assoc. rewrite drop_app_length. cbn [app].
    replace (Vl ++ vl :: flag_chars ci ib ++ distance_chars md)
      with ((Vl ++ [vl]) ++ flag_chars ci ib ++ distance_chars md)
      by (by rewrite <- app_assoc).
    rewrite take_app_length'; [done|]. rewrite !length_app. cbn [length]. lia. }
  rewrite Eval. destruct ci; [|done]. by rewrite (Hcase eq_refl).
Qed.

(** The condition [~m/ab c/] with the qualifiers [i] and [b] and the
    greatest distance 12, negated. *)
Lemma Regex_show_parse_witness :
  Regex_show (mkRegex (chars "m/ab c/") true true true 12) = chars "!~m/ab c/ib12"
  /\ TaQLRegexNodeRep_of (Regex_show (mkRegex (chars "m/ab c/") true true true 12))
     = Ok (mkRegex (chars "m/ab c/") true true true 12).
Proof.
  split; [reflexivity|].
  apply (Regex_show_parse (mkRegex (chars "m/ab c/") true true true 12)).
  - simpl. lia.
  - simpl. lia.
  - simpl. intros c E. by simplify_eq.
  - simpl. intros c E. by simplify_eq.
  - reflexivity.
  - right. unfold INT_MAX. simpl. lia.
Defined.

(** *** The constructor stays within the string *)

Lemma char_at_inside (s : list ascii) (i : Z) :
  0 <= i <= Z.of_nat (length s) -> exists c, char_at s i = Ok c.
Proof.
  intros Hi. unfold char_at. destruct (decide _); [eauto|].
  destruct (decide _); [|lia].
  destruct (lookup_lt_is_Some_2 s (Z.to_nat i)) as [c ->]; [lia|]. eauto.
Qed.

(** The blanks are skipped up to a character that is not a blank. *)
Lemma skip_blanks_safe (s : list ascii) (e : Z) :
  Z.of_nat (length s) < 2^31 -> 0 <= e <= Z.of_nat (length s) ->
  (forall c, char_at s e = Ok c -> c <> " "%char) ->
  forall (fuel : nat) (inx : Z), 0 <= inx < e -> e - inx <= Z.of_nat fuel ->
    exists inx',
      skip_blanks fuel s inx = Ok inx' /\ inx < inx' <= e
      /\ forall c, char_at s inx' = Ok c -> c <> " "%char.
Proof.
  intros Hlen He Hlast. induction fuel as [|fuel IH]; intros inx Hinx Hfuel; [lia|].
  cbn [skip_blanks]. rewrite Int_ok by lia. cbn [mbind outcome_bind].
  destruct (char_at_inside s (inx + 1)) as [c Hc]; [lia|]. rewrite Hc.
  cbn [mbind outcome_bind]. destruct (decide (c = " "%char)) as [->|Hne].
  - destruct (decide (inx + 1 = e)) as [E|E].
    + rewrite E in Hc. by destruct (Hlast _ Hc).
    + destruct (IH (inx + 1)) as (inx' & -> & Hr & Hc'); [lia|lia|].
      exists inx'. split; [done|]. split; [lia|done].
  - exists (inx + 1). split; [done|]. split; [lia|]. intros c' Hc'.
    rewrite Hc in Hc'. by simplify_eq.
Qed.

(** The scan over the digits stops at the latest at a character that is
    not a digit. *)
Lemma scan_digits_safe (s : list ascii) (j0 : Z) :
  Z.of_nat (length s) < 2^31 -> 0 <= j0 ->
  (forall c, char_at s j0 = Ok c -> isdigit c = false) ->
  forall (fuel : nat) (sz : Z), j0 < sz <= Z.of_nat (length s) ->
    sz - j0 <= Z.of_nat fuel ->
    exists sz', scan_digits fuel s sz = Ok sz' /\ j0 <= sz' < sz.
Proof.
  intros Hlen Hj0 Hstop. induction fuel as [|fuel IH]; intros sz Hsz Hfuel; [lia|].
  cbn [scan_digits]. rewrite Int_ok by lia. cbn [mbind outcome_bind].
  destruct (char_at_inside s (sz - 1)) as [c Hc]; [lia|]. rewrite Hc.
  cbn [mbind outcome_bind]. destruct (isdigit c) eqn:Ed.
  - destruct (decide (sz - 1 = j0)) as [E|E].
    + rewrite E in Hc. rewrite (Hstop _ Hc) in Ed. done.
    + destruct (IH (sz - 1)) as (sz' & -> & Hr); [lia|lia|].
      exists sz'. split; [done|lia].
  - exists (sz - 1). split; [done|lia].
Qed.

(** The loop on the qualifiers ends within the string. *)
Lemma find_qualifiers_safe (s : list ascii) (j0 inx : Z) :
  Z.of_nat (length s) < 2^31 -> 0 <= j0 < inx ->
  (forall c, char_at s j0 = Ok c -> isdigit c = false) ->
  forall (fuel : nat) (q : quals), j0 < q_sz q <= Z.of_nat (length s) ->
    Z.max 0 (q_sz q - inx) < Z.of_nat fuel ->
    exists q', find_qualifiers fuel s inx q = Ok q'
               /\ j0 <= q_sz q' < Z.of_nat (length s).
Proof.
  intros Hlen Hj0 Hstop. induction fuel as [|fuel IH]; intros q Hq Hfuel; [lia|].
  cbn [find_qualifiers]. rewrite Int_ok by lia. cbn [mbind outcome_bind].
  destruct (decide (q_sz q - 1 > inx)) as [Hgt|Hle].
  - destruct (char_at_inside s (q_sz q - 1)) as [c Hc]; [lia|]. rewrite Hc.
    cbn [mbind outcome_bind].
    destruct (decide (c = "i"%char)); [apply IH; cbn [q_sz]; lia|].
    destruct (decide (c = "b"%char)); [apply IH; cbn [q_sz]; lia|].
    destruct (isdigit c).
    + destruct (scan_digits_safe s j0 Hlen ltac:(lia) Hstop (length s) (q_sz q - 1))
        as (sz' & -> & Hsz'); [lia|lia|].
      cbn [mbind outcome_bind]. rewrite Int_ok by lia. cbn [mbind outcome_bind].
      unfold substr, to_size. rewrite (Z.mod_small (sz' + 1)) by lia.
      destruct (decide _); [|lia]. cbn [mbind outcome_bind].
      apply IH; cbn [q_sz]; lia.
    + eexists. split; [reflexivity|]. cbn [q_sz]. lia.
  - eexists. split; [reflexivity|]. cbn [q_sz]. lia.
Qed.

(** X19: the constructor of a regex node from a string never reads
    outside the string, whatever the string is (of a length that an [Int]
    holds): it makes a node or it fails on one of its assertions with an
    [AipsError]. The value of a node that is made has at least 3
    characters, is a part of the string (in lower case when the node is
    case-insensitive) and does not start with a blank. *)
Theorem Regex_of_safe (regex : list ascii) :
  Z.of_nat (length regex) < 2^31 ->
  TaQLRegexNodeRep_of regex = Throw AipsError
  \/ exists n (inx : nat) (sub : list ascii),
       TaQLRegexNodeRep_of regex = Ok n
       /\ sub = take (length sub) (drop inx regex)
       /\ (3 <= length sub)%nat
       /\ (forall c, head sub = Some c -> c <> " "%char)
       /\ itsValue n = (if itsCaseInsensitive n then downcase sub else sub).
Proof.
  intros Hlen. unfold TaQLRegexNodeRep_of. rewrite to_Int_small by lia.
  destruct (decide (Z.of_nat (length regex) >= 4)) as [H4|H4].
  2:{ left. cbn [mbind outcome_bind]. unfold AlwaysAssert.
      rewrite bool_decide_eq_false_2 by tauto. done. }
  destruct (char_at_inside regex (Z.of_nat (length regex) - 1)) as [l Hl]; [lia|].
  rewrite Hl. cbn [mbind outcome_bind].
  destruct (decide (l = " "%char)) as [->|Hlast].
  { left. unfold AlwaysAssert. rewrite bool_decide_eq_false_2 by tauto. done. }
  unfold AlwaysAssert at 1. rewrite bool_decide_eq_true_2 by done.
  cbn [mbind outcome_bind].
  destruct (char_at_inside regex 0) as [c0 Hc0]; [lia|]. rewrite Hc0.
  cbn [mbind outcome_bind].
  set (negate := bool_decide (c0 = "!"%char)).
  set (inx0 := if negate then 1 else 0).
  assert (Hinx0 : 0 <= inx0 <= 1) by (subst inx0; destruct negate; lia).
  destruct (char_at_inside regex inx0) as [c1 Hc1]; [lia|]. rewrite Hc1.
  cbn [mbind outcome_bind].
  destruct (decide (c1 = "~"%char)) as [->|Htilde].
  2:{ left. unfold AlwaysAssert. rewrite bool_decide_eq_false_2 by done. done. }
  unfold AlwaysAssert at 1. rewrite bool_decide_eq_true_2 by done.
  cbn [mbind outcome_bind].
  destruct (skip_blanks_safe regex (Z.of_nat (length regex) - 1) Hlen ltac:(lia))
    with (fuel := length regex) (inx := inx0) as (inx & -> & Hinx & Hnb); [|lia|lia|].
  { intros c Hc. rewrite Hl in Hc. by simplify_eq. }
  cbn [mbind outcome_bind].
  destruct (find_qualifiers_safe regex inx0 inx Hlen ltac:(lia))
    with (fuel := length regex) (q := mkQuals (Z.of_nat (length regex)) false false (-1))
    as (q & -> & Hq); [|cbn [q_sz]; lia|cbn [q_sz]; lia|].
  { intros c Hc. rewrite Hc1 in Hc. by simplify_eq. }
  cbn [mbind outcome_bind]. rewrite Int_ok by lia. cbn [mbind outcome_bind].
  destruct (decide (q_sz q + 1 - inx >= 3)) as [H3|H3].
  2:{ left. unfold AlwaysAssert. rewrite bool_decide_eq_false_2 by done. done. }
  unfold AlwaysAssert. rewrite bool_decide_eq_true_2 by done. cbn [mbind outcome_bind].
  unfold substr, to_size. rewrite !Z.mod_small by lia.
  destruct (decide _); [|lia]. cbn [mbind outcome_bind]. right.
  set (sub := take (Z.to_nat (q_sz q + 1 - inx)) (drop (Z.to_nat inx) regex)).
  assert (Hsub : length sub = Z.to_nat (q_sz q + 1 - inx)).
  { subst sub. rewrite length_take, length_drop. lia. }
  eexists _, (Z.to_nat inx), sub. split; [reflexivity|].
  cbn [itsValue itsCaseInsensitive]. split; [by rewrite Hsub|]. split; [lia|].
  split; [|done]. intros c Hc. apply Hnb.
  assert (Hlook : regex !! Z.to_nat inx = Some c).
  { subst sub. destruct (drop (Z.to_nat inx) regex) as [|d ds] eqn:Ed.
    - rewrite take_nil in Hc. done.
    - assert (E : drop (Z.to_nat inx) regex !! 0%nat = Some d) by (by rewrite Ed).
      rewrite lookup_drop, Nat.add_0_r in E.
      destruct (Z.to_nat (q_sz q + 1 - inx)) as [|k] eqn:Ek; [lia|].
      cbn in Hc. by simplify_eq. }
  rewrite <- (Z2Nat.id inx) by lia. by apply char_at_lookup.
Qed.

(** The string [!~ m/Ab c/ib12] is such a string. *)
Lemma Regex_of_safe_witness :
  Z.of_nat (length (chars "!~ m/Ab c/ib12")) < 2^31
  /\ (TaQLRegexNodeRep_of (chars "!~ m/Ab c/ib12") = Throw AipsError
      \/ exists n (inx : nat) (sub : list ascii),
           TaQLRegexNodeRep_of (chars "!~ m/Ab c/ib12") = Ok n
           /\ sub = take (length sub) (drop inx (chars "!~ m/Ab c/ib12"))
           /\ (3 <= length sub)%nat
           /\ (forall c, head sub = Some c -> c <> " "%char)
           /\ itsValue n = (if itsCaseInsensitive n then downcase sub else sub)).
Proof.
  assert (H : Z.of_nat (length (chars "!~ m/Ab c/ib12")) < 2^31) by (vm_compute; reflexivity).
  split; [exact H|]. exact (Regex_of_safe _ H).
Defined.

(** *** TaQLConstNodeRep *)

(** [TaQLConstNodeRep::Type] *)
Inductive ConstType : Type :=
| CTBool
| CTInt
| CTReal
| CTComplex
| CTString
| CTTime.

#[global] Instance ConstType_eq_dec : EqDecision ConstType.
Proof. solve_decision. Defined.

(** Modelled from the spec: the header that declares the type is not part
    of the sources at hand. "literals (bool/int/float-with-unit/complex/
    string/date/time)": the values of the enumeration, in this order. *)
Definition Type_code (t : ConstType) : Z :=
  match t with
  | CTBool => 0
  | CTInt => 1
  | CTReal => 2
  | CTComplex => 3
  | CTString => 4
  | CTTime => 5
  end.

(** A member without an initializer in a constructor holds no value; a
    run that reads it is undefined. *)
Definition initialised {A : Type} (m : option A) : outcome A :=
  match m with Some a => Ok a | None => Throw Undefined end.

Section Const.

(** The type [Double] with the conversion from [Int64] and its zero, and
    the class [MVTime] with its conversions from and to [Double] and the
    value its default constructor gives. *)
Variable Double : Type.
Variable Int64_Double : Z -> Double.
Variable Double_zero : Double.
Variable MVTime : Type.
Variable MVTime_of : Double -> MVTime.
Variable MVTime_Double : MVTime -> Double.
Variable MVTime_default : MVTime.

(** A [DComplex] is its real and its imaginary part. *)
Definition DComplex : Type := Double * Double.

(** Modelled from the spec: [AipsIO] is not part of the sources at hand.
    "serializable to a portable binary form for caching compiled
    queries": a stream is the sequence of the typed values put in it.
    Getting a value of another type than the next one in the stream is
    undefined, getting from a stream at its end raises an [AipsError]. *)
Inductive token : Type :=
| Vchar (c : Z)
| VBool (b : bool)
| VString (s : list ascii)
| VInt64 (v : Z)
| VDouble (d : Double)
| VDComplex (c : DComplex).

Definition get_char (aio : list token) : outcome (Z * list token) :=
  match aio with
  | Vchar c :: aio' => Ok (c, aio')
  | [] => Throw AipsError
  | _ => Throw Undefined
  end.

Definition get_Bool (aio : list token) : outcome (bool * list token) :=
  match aio with
  | VBool b :: aio' => Ok (b, aio')
  | [] => Throw AipsError
  | _ => Throw Undefined
  end.

Definition get_String (aio : list token) : outcome (list ascii * list token) :=
  match aio with
  | VString s :: aio' => Ok (s, aio')
  | [] => Throw AipsError
  | _ => Throw Undefined
  end.

Definition get_Int64 (aio : list token) : outcome (Z * list token) :=
  match aio with
  | VInt64 v :: aio' => Ok (v, aio')
  | [] => Throw AipsError
  | _ => Throw Undefined
  end.

Definition get_Double (aio : list token) : outcome (Double * list token) :=
  match aio with
  | VDouble d :: aio' => Ok (d, aio')
  | [] => Throw AipsError
  | _ => Throw Undefined
  end.

Definition get_DComplex (aio : list token) : outcome (DComplex * list token) :=
  match aio with
  | VDComplex c :: aio' => Ok (c, aio')
  | [] => Throw AipsError
  | _ => Throw Undefined
  end.

(** The members of a constant node. [itsBValue], [itsIValue] and
    [itsRValue] are of a built-in type: they hold a value only when a
    constructor gives them one. *)
Record TaQLConstNodeRep : Type := mkConst {
  itsType : ConstType;
  itsIsTableName : bool;
  itsBValue : option bool;
  itsIValue : option Z;
  itsRValue : option Double;
  itsCValue : DComplex;
  itsSValue : list ascii;
  itsTValue : MVTime;
  itsUnit : list ascii
}.

(** The eight constructors, in the order of the source. *)
Definition Const_Bool (value : bool) : TaQLConstNodeRep :=
  mkConst CTBool false (Some value) None None (Double_zero, Double_zero) []
          MVTime_default [].

Definition Const_Int64 (value : Z) : TaQLConstNodeRep :=
  mkConst CTInt false None (Some value) (Some (Int64_Double value))
          (Int64_Double value, Double_zero) [] MVTime_default [].

Definition Const_Double (value : Double) : TaQLConstNodeRep :=
  mkConst CTReal false None None (Some value) (value, Double_zero) []
          MVTime_default [].

Definition Const_Double_unit (value : Double) (unit : list ascii) : TaQLConstNodeRep :=
  mkConst CTReal false None None (Some value) (value, Double_zero) []
          MVTime_default unit.

Definition Const_DComplex (value : DComplex) : TaQLConstNodeRep :=
  mkConst CTComplex false None None None value [] MVTime_default [].

Definition Const_String (value : list ascii) (isTableName : bool) : TaQLConstNodeRep :=
  mkConst CTString isTableName None None None (Double_zero, Double_zero) value
          MVTime_default [].

Definition Const_MVTime (value : MVTime) : TaQLConstNodeRep :=
  mkConst CTTime false None None (Some (MVTime_Double value))
          (MVTime_Double value, Double_zero) [] value [].

Definition Const_subTable (value : Z) (subTableName : list ascii) : TaQLConstNodeRep :=
  mkConst CTInt true None (Some value) (Some (Int64_Double value))
          (Int64_Double value, Double_zero) subTableName MVTime_default [].

(** [TaQLConstNodeRep::getString] *)
Definition getString (n : TaQLConstNodeRep) : outcome (list ascii) :=
  _ ← AlwaysAssert (bool_decide (itsType n = CTString));
  Ok (itsSValue n).

(** [TaQLConstNodeRep::save] *)
Definition Const_save (n : TaQLConstNodeRep) (aio : list token) : outcome (list token) :=
  let aio := aio ++ [Vchar (Type_code (itsType n)); VBool (itsIsTableName n);
                     VString (itsUnit n)] in
  match itsType n with
  | CTBool =>
      v ← initialised (itsBValue n);
      Ok (aio ++ [VBool v])
  | CTInt =>
      v ← initialised (itsIValue n);
      let aio := aio ++ [VInt64 v] in
      if itsIsTableName n then Ok (aio ++ [VString (itsSValue n)]) else Ok aio
  | CTReal =>
      v ← initialised (itsRValue n);
      Ok (aio ++ [VDouble v])
  | CTComplex => Ok (aio ++ [VDComplex (itsCValue n)])
  | CTString => Ok (aio ++ [VString (itsSValue n)])
  | CTTime => Ok (aio ++ [VDouble (MVTime_Double (itsTValue n))])
  end.

(** [TaQLConstNodeRep::restore]; the result [None] is the null node that
    is returned for a type that is none of the six. *)
Definition Const_restore (aio : list token)
    : outcome (option TaQLConstNodeRep * list token) :=
  '(type, aio) ← get_char aio;
  '(isTableName, aio) ← get_Bool aio;
  '(unit, aio) ← get_String aio;
  if decide (type = Type_code CTBool) then
    '(value, aio) ← get_Bool aio;
    Ok (Some (Const_Bool value), aio)
  else if decide (type = Type_code CTInt) then
    '(value, aio) ← get_Int64 aio;
    if (isTableName : bool) then
      '(name, aio) ← get_String aio;
      Ok (Some (Const_subTable value name), aio)
    else Ok (Some (Const_Int64 value), aio)
  else if decide (type = Type_code CTReal) then
    '(value, aio) ← get_Double aio;
    Ok (Some (Const_Double_unit value unit), aio)
  else if decide (type = Type_code CTComplex) then
    '(value, aio) ← get_DComplex aio;
    Ok (Some (Const_DComplex value), aio)
  else if decide (type = Type_code CTString) then
    '(value, aio) ← get_String aio;
    Ok (Some (Const_String value isTableName), aio)
  else if decide (type = Type_code CTTime) then
    '(v, aio) ← get_Double aio;
    Ok (Some (Const_MVTime (MVTime_of v)), aio)
  else Ok (None, aio).

(** The nodes that the constructors make. *)
Inductive constructed : TaQLConstNodeRep -> Prop :=
| made_Bool value : constructed (Const_Bool value)
| made_Int64 value : constructed (Const_Int64 value)
| made_Double value : constructed (Const_Double value)
| made_Double_unit value unit : constructed (Const_Double_unit value unit)
| made_DComplex value : constructed (Const_DComplex value)
| made_String value isTableName : constructed (Const_String value isTableName)
| made_MVTime value : constructed (Const_MVTime value)
| made_subTable value name : constructed (Const_subTable value name).

(** The member that holds the value of a node of its type has a value. *)
Definition value_set (n : TaQLConstNodeRep) : Prop :=
  match itsType n with
  | CTBool => is_Some (itsBValue n)
  | CTInt => is_Some (itsIValue n)
  | CTReal => is_Some (itsRValue n)
  | _ => True
  end.

(** What [save] puts in the stream is put behind what the stream holds. *)
Lemma Const_save_app (n : TaQLConstNodeRep) (aio out : list token) :
  Const_save n [] = Ok out -> Const_save n aio = Ok (aio ++ out).
Proof.
  unfold Const_save. destruct (itsType n); cbn [app].
  - destruct (itsBValue n); cbn; [|done]. intros [= <-]. by rewrite <- app_assoc.
  - destruct (itsIValue n); cbn; [|done]. destruct (itsIsTableName n);
      intros [= <-]; by rewrite <- !app_assoc.
  - destruct (itsRValue n); cbn; [|done]. intros [= <-]. by rewrite <- app_assoc.
  - intros [= <-]. by rewrite <- app_assoc.
  - intros [= <-]. by rewrite <- app_assoc.
  - intros [= <-]. by rewrite <- app_assoc.
Qed.

(** X20: a constant node made by one of the eight constructors of
    [TaQLConstNodeRep] is saved without error, behind what the stream
    holds, and [restore] on what was saved, whatever follows it in the
    stream, gives the same node, all members alike, and leaves what
    follows. For a node of a time this needs that the time is got back
    from the [Double] it is saved as. *)
Theorem Const_save_restore (n : TaQLConstNodeRep) (aio rest : list token) :
  constructed n ->
  (itsType n = CTTime -> MVTime_of (MVTime_Double (itsTValue n)) = itsTValue n) ->
  exists out,
    Const_save n aio = Ok (aio ++ out)
    /\ Const_restore (out ++ rest) = Ok (Some n, rest).
Proof.
  intros Hn Htime. destruct Hn.
  - eexists. split; [apply Const_save_app; reflexivity|]. done.
  - eexists. split; [apply Const_save_app; reflexivity|]. done.
  - eexists. split; [apply Const_save_app; reflexivity|]. done.
  - eexists. split; [apply Const_save_app; reflexivity|]. done.
  - eexists. split; [apply Const_save_app; reflexivity|]. done.
  - eexists. split; [apply Const_save_app; reflexivity|]. done.
  - eexists. split; [apply Const_save_app; reflexivity|].
    cbn. cbn in Htime. by rewrite (Htime eq_refl).
  - eexists. split; [apply Const_save_app; reflexivity|]. done.
Qed.

(** X21: what [restore] gets back of a constant node, for every state of
    its members in which the value of its type is set: [save] succeeds
    and [restore] gives a node of the same type with the same value, as
    one of the constructors makes it. [save] puts the unit and the table
    name flag of a node of every type in the stream (and [show] writes
    the unit of a node of every type), but [restore] gives the unit only
    to a node of type [CTReal] and the flag only to the types [CTInt] and
    [CTString]; the string is got back only for [CTString] and for a
    [CTInt] with the flag. Otherwise the restored node has no unit, no
    flag and an empty string. *)
Theorem Const_restore_keeps (n : TaQLConstNodeRep) (rest : list token) :
  value_set n ->
  exists out n',
    Const_save n [] = Ok out
    /\ Const_restore (out ++ rest) = Ok (Some n', rest)
    /\ constructed n'
    /\ itsType n' = itsType n
    /\ match itsType n with
       | CTBool => itsBValue n' = itsBValue n
       | CTInt => itsIValue n' = itsIValue n
       | CTReal => itsRValue n' = itsRValue n
       | CTComplex => itsCValue n' = itsCValue n
       | CTString => itsSValue n' = itsSValue n
       | CTTime => itsTValue n' = MVTime_of (MVTime_Double (itsTValue n))
       end
    /\ itsUnit n' = (if decide (itsType n = CTReal) then itsUnit n else [])
    /\ itsIsTableName n'
       = (if decide (itsType n = CTInt \/ itsType n = CTString)
          then itsIsTableName n else false)
    /\ itsSValue n'
       = (if decide (itsType n = CTString
                     \/ itsType n = CTInt /\ itsIsTableName n = true)
          then itsSValue n else []).
Proof.
  destruct n as [ty tn bv iv rv cv sv tv un]. unfold value_set, Const_save.
  cbn [itsType itsIsTableName itsBValue itsIValue itsRValue itsCValue itsSValue
       itsTValue itsUnit].
  intros Hv. destruct ty.
  - destruct Hv as [v ->]. eexists _, _. split; [reflexivity|].
    split; [reflexivity|]. split; [constructor|]. done.
  - destruct Hv as [v ->]. destruct tn.
    + eexists _, _. split; [reflexivity|]. split; [reflexivity|].
      split; [constructor|]. done.
    + eexists _, _. split; [reflexivity|]. split; [reflexivity|].
      split; [constructor|]. done.
  - destruct Hv as [v ->]. eexists _, _. split; [reflexivity|].
    split; [reflexivity|]. split; [constructor|]. done.
  - eexists _, _. split; [reflexivity|]. split; [reflexivity|].
    split; [constructor|]. done.
  - eexists _, _. split; [reflexivity|]. split; [reflexivity|].
    split; [constructor|]. done.
  - eexists _, _. split; [reflexivity|]. split; [reflexivity|].
    split; [constructor|]. done.
Qed.

End Const.


Arguments mkConst {Double MVTime}.
Arguments itsType {Double MVTime}.
Arguments itsIsTableName {Double MVTime}.
Arguments itsIValue {Double MVTime}.
Arguments itsSValue {Double MVTime}.
Arguments itsTValue {Double MVTime}.
Arguments itsUnit {Double MVTime}.
Arguments value_set {Double MVTime}.
Arguments Vchar {Double}.
Arguments VBool {Double}.

(** A time, with whole numbers in the place of [Double] and of [MVTime],
    and an integer with a unit. *)
Definition example_time : TaQLConstNodeRep Z Z :=
  Const_MVTime Z 0 Z id 59000.

Definition example_int_unit : TaQLConstNodeRep Z Z :=
  mkConst CTInt false None (Some 5) None (0, 0) [] 0 (chars "km").

Lemma Const_save_restore_witness :
  constructed Z id 0 Z id 0 example_time
  /\ (itsType example_time = CTTime ->
      id (id (itsTValue example_time)) = itsTValue example_time)
  /\ exists out,
       Const_save Z Z id example_time [Vchar 7] = Ok ([Vchar 7] ++ out)
       /\ Const_restore Z id 0 Z id id 0 (out ++ [VBool true])
          = Ok (Some example_time, [VBool true]).
Proof.
  assert (H1 : constructed Z id 0 Z id 0 example_time) by constructor.
  assert (H2 : itsType example_time = CTTime ->
               id (id (itsTValue example_time)) = itsTValue example_time)
    by reflexivity.
  split; [exact H1|]. split; [exact H2|].
  exact (Const_save_restore Z id 0 Z id id 0 example_time [Vchar 7] [VBool true] H1 H2).
Defined.

Lemma Const_restore_keeps_witness :
  value_set example_int_unit
  /\ exists out n',
       Const_save Z Z id example_int_unit [] = Ok out
       /\ Const_restore Z id 0 Z id id 0 (out ++ []) = Ok (Some n', [])
       /\ constructed Z id 0 Z id 0 n'
       /\ itsType n' = CTInt
       /\ itsIValue n' = Some 5
       /\ itsUnit n' = []
       /\ itsIsTableName n' = false
       /\ itsSValue n' = [].
Proof.
  assert (H : value_set example_int_unit) by (by exists 5).
  split; [exact H|].
  exact (Const_restore_keeps Z id 0 Z id id 0 example_int_unit [] H).
Defined.

End TaQLNodeDer.
